(** * gojade: the scanner, the parse nodes and their HTML rendering

    A shallow embedding of [jade/lex.go] and [jade/node.go], and of the
    debug output of [testjade.go].  Go strings
    and byte slices are Rocq strings (sequences of 8-bit characters),
    indices are natural numbers with Go's bounds checks written out,
    runes are integers, the scanner's item channel is a queue of
    capacity two, and every way in which a Go call can fail to return
    (a run-time panic, a send on a full channel, a loop that is cut off
    by the fuel of the model) is a constructor of [result]. *)

From Stdlib Require Import String Ascii List ZArith Lia Bool.
From stdpp Require Import base option list gmap strings pretty.

Open Scope Z_scope.
Open Scope nat_scope.

(** ** Results of Go calls *)

Inductive panic : Type :=
  | IndexOutOfRange (i len : nat)      (* s[i] with len <= i *)
  | SliceOutOfRange (lo hi len : nat)  (* s[lo:hi] without lo <= hi <= len *)
  | NilFuncCall                        (* call of a nil func value *)
  | NilDereference.                    (* invalid memory address *)

Inductive result (A : Type) : Type :=
  | Ret (a : A)
  | Panic (p : panic)
  | Blocked      (* send on a full channel; the one goroutine sleeps for ever *)
  | OutOfFuel.   (* the model's fuel ran out inside a Go loop *)

Arguments Ret {A} a.
Arguments Panic {A} p.
Arguments Blocked {A}.
Arguments OutOfFuel {A}.

#[global] Instance result_ret : MRet result := fun A a => Ret a.
#[global] Instance result_bind : MBind result := fun A B f m =>
  match m with
  | Ret a => f a
  | Panic p => Panic p
  | Blocked => Blocked
  | OutOfFuel => OutOfFuel
  end.

Definition returns {A : Type} (m : result A) : bool :=
  match m with Ret _ => true | _ => false end.

(** ** Strings as Go has them *)

Module Strings.

Definition len (s : string) : nat := String.length s.

Fixpoint drop (n : nat) (s : string) : string :=
  match n, s with
  | 0, _ => s
  | S n', String _ s' => drop n' s'
  | S _, EmptyString => EmptyString
  end.

Fixpoint take (n : nat) (s : string) : string :=
  match n, s with
  | S n', String c s' => String c (take n' s')
  | _, _ => EmptyString
  end.

(** [s[i]] *)
Definition at_ (s : string) (i : nat) : result ascii :=
  match String.get i s with
  | Some c => Ret c
  | None => Panic (IndexOutOfRange i (len s))
  end.

(** [s[lo:hi]] *)
Definition slice (s : string) (lo hi : nat) : result string :=
  if (lo <=? hi) && (hi <=? len s)
  then Ret (take (hi - lo) (drop lo s))
  else Panic (SliceOutOfRange lo hi (len s)).

(** [s[lo:]] *)
Definition from (s : string) (lo : nat) : result string := slice s lo (len s).

(** [strings.HasPrefix(s, prefix)] *)
Definition HasPrefix (s prefix : string) : bool := String.prefix prefix s.

(** [strings.Index(s, substr)]: [None] stands for -1. *)
Definition Index (s substr : string) : option nat := String.index 0 substr s.

End Strings.

(** ** unicode/utf8 *)

Module utf8.

Definition RuneError : Z := 0xFFFD.

Definition byte (c : ascii) : Z := Z.of_N (N_of_ascii c).

(* first is information about the first byte in a UTF-8 sequence. *)
Definition xx : Z := 0xF1.
Definition as_ : Z := 0xF0.
Definition s1 : Z := 0x02.
Definition s2 : Z := 0x13.
Definition s3 : Z := 0x03.
Definition s4 : Z := 0x23.
Definition s5 : Z := 0x34.
Definition s6 : Z := 0x04.
Definition s7 : Z := 0x44.

Definition first (b : Z) : Z :=
  if (b <? 0x80)%Z then as_
  else if (b <? 0xC2)%Z then xx
  else if (b <? 0xE0)%Z then s1
  else if (b =? 0xE0)%Z then s2
  else if (b <? 0xED)%Z then s3
  else if (b =? 0xED)%Z then s4
  else if (b <? 0xF0)%Z then s3
  else if (b =? 0xF0)%Z then s5
  else if (b <? 0xF4)%Z then s6
  else if (b =? 0xF4)%Z then s7
  else xx.

Definition locb : Z := 0x80.
Definition hicb : Z := 0xBF.

(* acceptRanges: the lowest and highest value of the second byte. *)
Definition acceptRanges (i : Z) : Z * Z :=
  if (i =? 0)%Z then (locb, hicb)
  else if (i =? 1)%Z then (0xA0, hicb)%Z
  else if (i =? 2)%Z then (locb, 0x9F)%Z
  else if (i =? 3)%Z then (0x90, hicb)%Z
  else if (i =? 4)%Z then (locb, 0x8F)%Z
  else (0, 0)%Z.

Definition mask2 : Z := 0x1F.
Definition mask3 : Z := 0x0F.
Definition mask4 : Z := 0x07.
Definition maskx : Z := 0x3F.

Definition outside (b lo hi : Z) : bool := (b <? lo)%Z || (hi <? b)%Z.

(** [utf8.DecodeRuneInString]: the rune at the head of [s] and its
    width in bytes; [(RuneError, 0)] on the empty string and
    [(RuneError, 1)] on an invalid encoding. *)
Definition DecodeRuneInString (s : string) : Z * nat :=
  match s with
  | EmptyString => (RuneError, 0)
  | String c0 t0 =>
    let b0 := byte c0 in
    let x := first b0 in
    if (as_ <=? x)%Z then
      (if (x =? as_)%Z then b0 else RuneError, 1)
    else
      let sz := Z.to_nat (Z.land x 7) in
      let '(lo, hi) := acceptRanges (Z.shiftr x 4) in
      if Strings.len s <? sz then (RuneError, 1) else
      match t0 with
      | EmptyString => (RuneError, 1)
      | String c1 t1 =>
        let b1 := byte c1 in
        if outside b1 lo hi then (RuneError, 1) else
        if sz <=? 2 then
          (Z.lor (Z.shiftl (Z.land b0 mask2) 6) (Z.land b1 maskx), 2)
        else
        match t1 with
        | EmptyString => (RuneError, 1)
        | String c2 t2 =>
          let b2 := byte c2 in
          if outside b2 locb hicb then (RuneError, 1) else
          if sz <=? 3 then
            (Z.lor (Z.lor (Z.shiftl (Z.land b0 mask3) 12)
                          (Z.shiftl (Z.land b1 maskx) 6))
                   (Z.land b2 maskx), 3)
          else
          match t2 with
          | EmptyString => (RuneError, 1)
          | String c3 _ =>
            let b3 := byte c3 in
            if outside b3 locb hicb then (RuneError, 1) else
            (Z.lor (Z.lor (Z.lor (Z.shiftl (Z.land b0 mask4) 18)
                                 (Z.shiftl (Z.land b1 maskx) 12))
                          (Z.shiftl (Z.land b2 maskx) 6))
                   (Z.land b3 maskx), 4)
          end
        end
      end
  end.

End utf8.

(** ** The scanner (lex.go) *)

(** itemType identifies the type of lex items. *)
Inductive itemType : Type :=
  | itemError | itemText | itemEndl | itemTag | itemAttr | itemIdentSpace
  | itemIdentTab | itemDoctype | itemComment | itemBlank | itemId
  | itemClass | itemEOF.

#[global] Instance itemType_eq_dec : EqDecision itemType.
Proof. solve_decision. Defined.

(** item represents a token or text string returned from the scanner. *)
Record item : Type := Item { typ : itemType; val : string }.

#[global] Instance item_eq_dec : EqDecision item.
Proof. solve_decision. Defined.

Definition eof : Z := (-1)%Z.

(** stateFn: the state functions of the scanner, by name.  The nil
    state is [None] in the [state] field of [lexer]. *)
Inductive stateFn : Type :=
  | lexTag | lexEOF | lexDocType | lexId | lexClass | lexText
  | lexComment | lexAttr | lexIndent | lexNewLine.

(** lexer holds the state of the scanner.  [items] is the channel of
    scanned items, oldest first; its capacity is [chanCap]. *)
Record lexer : Type := Lexer {
  name : string;
  input : string;
  leftDelim : string;
  rightDelim : string;
  state : option stateFn;
  pos : nat;
  start : nat;
  width : nat;
  items : list item
}.

Definition chanCap : nat := 2.

Definition set_state (l : lexer) (s : option stateFn) : lexer :=
  Lexer (name l) (input l) (leftDelim l) (rightDelim l) s
        (pos l) (start l) (width l) (items l).
Definition set_pos (l : lexer) (p : nat) : lexer :=
  Lexer (name l) (input l) (leftDelim l) (rightDelim l) (state l)
        p (start l) (width l) (items l).
Definition set_start (l : lexer) (s : nat) : lexer :=
  Lexer (name l) (input l) (leftDelim l) (rightDelim l) (state l)
        (pos l) s (width l) (items l).
Definition set_width (l : lexer) (w : nat) : lexer :=
  Lexer (name l) (input l) (leftDelim l) (rightDelim l) (state l)
        (pos l) (start l) w (items l).
Definition set_items (l : lexer) (q : list item) : lexer :=
  Lexer (name l) (input l) (leftDelim l) (rightDelim l) (state l)
        (pos l) (start l) (width l) q.

(** [l.items <- it] *)
Definition send (it : item) (l : lexer) : result lexer :=
  if length (items l) <? chanCap
  then Ret (set_items l (items l ++ [it]))
  else Blocked.

(** next returns the next rune in the input. *)
Definition next (l : lexer) : Z * lexer :=
  if Strings.len (input l) <=? pos l then (eof, set_width l 0)
  else
    let '(r, w) := utf8.DecodeRuneInString (Strings.drop (pos l) (input l)) in
    (r, set_pos (set_width l w) (pos l + w)).

(** backup steps back one rune. *)
Definition backup (l : lexer) : lexer := set_pos l (pos l - width l).

(** peek returns but does not consume the next rune in the input. *)
Definition peek (l : lexer) : Z * lexer :=
  let '(r, l1) := next l in (r, backup l1).

(** emit passes an item back to the client. *)
Definition emit (t : itemType) (l : lexer) : result lexer :=
  v ← Strings.slice (input l) (start l) (pos l);
  l1 ← send (Item t v) l;
  mret (set_start l1 (pos l1)).

(** ignore skips over the pending input before this point. *)
Definition ignore (l : lexer) : lexer := set_start l (pos l).

(** errorf returns an error token and terminates the scan by passing
    back a nil pointer that will be the next state. *)
Definition errorf (msg : string) (l : lexer) : result (lexer * option stateFn) :=
  l1 ← send (Item itemError msg) l;
  mret (l1, None).

Definition leftDelimDefault : string := "{{".
Definition rightDelimDefault : string := "}}".
Definition Comment : string := "//".
Definition docTypeShort : string := "!!!".
Definition docTypeLong : string := "doctype".

Definition chr (c : ascii) : Z := utf8.byte c.

Definition nl : ascii := "010"%char.
Definition cr : ascii := "013"%char.
Definition tab : ascii := "009"%char.
Definition sp : ascii := " "%char.

Definition isr (r : Z) (c : ascii) : bool := (r =? chr c)%Z.
Definition same (a b : ascii) : bool := Ascii.eqb a b.

(** lex creates a new scanner for the input string. *)
Definition lex (name input left right : string) : lexer :=
  let left := if String.eqb left "" then leftDelimDefault else left in
  let right := if String.eqb right "" then rightDelimDefault else right in
  Lexer name input left right (Some lexTag) 0 0 0 [].

Definition go (l : lexer) (s : stateFn) : result (lexer * option stateFn) :=
  Ret (l, Some s).

(** unexpected *)
Definition unexpected (r : ascii) (l : lexer) : result bool :=
  c ← Strings.at_ (input l) (start l);
  mret (same c r).

(** lexTag scans html tag name. *)
Definition lexTag_fn (l : lexer) : result (lexer * option stateFn) :=
  c ← Strings.at_ (input l) (start l);
  if same c "." then
    l1 ← emit itemTag l; go (snd (next l1)) lexClass
  else if same c "#" then
    l1 ← emit itemTag l; go (snd (next l1)) lexId
  else if same c sp || same c tab then go l lexIndent
  else if same c "|" then go (ignore l) lexText
  else if same c cr || same c nl then go l lexNewLine
  else
  rest ← Strings.from (input l) (start l);
  if Strings.HasPrefix rest Comment then go l lexComment
  else if Strings.HasPrefix rest docTypeShort || Strings.HasPrefix rest docTypeLong
  then go l lexDocType
  else
  let '(r, l0) := peek l in
  if (r =? eof)%Z then
    l1 ← (if start l0 <? pos l0 then emit itemTag l0 else mret l0);
    go l1 lexEOF
  else if isr r sp then
    l1 ← emit itemTag l0; go (ignore (snd (next l1))) lexText
  else if isr r "(" then
    l1 ← emit itemTag l0; go (ignore (snd (next l1))) lexAttr
  else if isr r "." then
    l1 ← emit itemTag l0; go (ignore (snd (next l1))) lexClass
  else if isr r "#" then
    l1 ← emit itemTag l0; go (ignore (snd (next l1))) lexId
  else if isr r nl || isr r cr then
    l1 ← emit itemTag l0; go (snd (next l1)) lexNewLine
  else go (snd (next l0)) lexTag.

Definition lexEOF_fn (l : lexer) : result (lexer * option stateFn) :=
  l1 ← (if start l <? pos l then emit itemText l else mret l);
  l2 ← emit itemEOF l1;
  mret (l2, None).

Definition lexDocType_fn (l : lexer) : result (lexer * option stateFn) :=
  rest ← Strings.from (input l) (pos l);
  let pre := if Strings.HasPrefix rest "!!!"
             then Strings.len "!!! " else Strings.len "doctype " in
  match Strings.Index rest (String nl EmptyString) with
  | None => errorf "unclosed doctype" l
  | Some i =>
    let l1 := set_start l (start l + pre) in
    let l2 := set_pos l1 (pos l1 + i) in
    l3 ← emit itemDoctype l2;
    go (snd (next l3)) lexNewLine
  end.

Definition lexId_fn (l : lexer) : result (lexer * option stateFn) :=
  let '(r, l0) := peek l in
  if isr r cr || isr r nl then
    l1 ← emit itemId l0; go (snd (next l1)) lexNewLine
  else if isr r "(" then
    l1 ← emit itemId l0; go (snd (next l1)) lexAttr
  else if isr r sp then
    l1 ← emit itemId l0; go (snd (next l1)) lexText
  else if isr r "." then
    l1 ← emit itemId l0; go (snd (next l1)) lexClass
  else if (r =? eof)%Z then
    l1 ← emit itemId l0; go l1 lexEOF
  else go (snd (next l0)) lexId.

Definition lexClass_fn (l : lexer) : result (lexer * option stateFn) :=
  let '(r, l0) := peek l in
  if isr r cr || isr r nl then
    l1 ← emit itemClass l0; go (snd (next l1)) lexNewLine
  else if isr r "(" then
    l1 ← emit itemClass l0; go (snd (next l1)) lexAttr
  else if isr r sp then
    l1 ← emit itemClass l0; go (snd (next l1)) lexText
  else if (r =? eof)%Z then
    l1 ← emit itemClass l0; go l1 lexEOF
  else go (snd (next l0)) lexClass.

Definition lexText_fn (l : lexer) : result (lexer * option stateFn) :=
  u1 ← unexpected nl l;
  u2 ← (if u1 : bool then mret true else unexpected cr l);
  if u2 : bool then go l lexNewLine else
  let '(r, l0) := peek l in
  if isr r cr || isr r nl then
    l1 ← emit itemText l0; go (snd (next l1)) lexNewLine
  else if (r =? eof)%Z then
    l1 ← emit itemText l0; go l1 lexEOF
  else go (snd (next l0)) lexText.

Definition lexComment_fn (l : lexer) : result (lexer * option stateFn) :=
  let '(r, l0) := peek l in
  if isr r cr || isr r nl then
    l1 ← emit itemComment l0; go (snd (next l1)) lexNewLine
  else if (r =? eof)%Z then
    l1 ← emit itemComment l0; go l1 lexEOF
  else go (snd (next l0)) lexComment.

(** One iteration of the loop of lexAttr: [inl l'] continues the
    loop, [inr l'] is [break Loop]. *)
Definition lexAttr_body (l : lexer) : result (lexer + lexer) :=
  let '(r, l0) := peek l in
  if isr r ")" then mret (inr l0)
  else if isr r "," then
    l1 ← emit itemAttr l0; mret (inl (ignore (snd (next l1))))
  else mret (inl (snd (next l0))).

Fixpoint lexAttr_loop (fuel : nat) (l : lexer) : result lexer :=
  match fuel with
  | 0 => OutOfFuel
  | S n =>
    b ← lexAttr_body l;
    match b with
    | inl l1 => lexAttr_loop n l1
    | inr l1 => mret l1
    end
  end.

Definition lexAttr_fn (fuel : nat) (l : lexer) : result (lexer * option stateFn) :=
  l0 ← lexAttr_loop fuel l;
  l1 ← emit itemAttr l0;
  go (snd (next (ignore (snd (next l1))))) lexText.

Definition lexIndent_fn (l : lexer) : result (lexer * option stateFn) :=
  c ← Strings.at_ (input l) (start l);
  if same c tab then
    l1 ← emit itemIdentTab l; go (snd (next l1)) lexIndent
  else
  c' ← Strings.at_ (input l) (start l);
  if same c' sp then
    l1 ← emit itemIdentSpace l; go (snd (next l1)) lexIndent
  else go l lexTag.

Definition lexNewLine_fn (l : lexer) : result (lexer * option stateFn) :=
  c ← Strings.at_ (input l) (start l);
  c' ← Strings.at_ (input l) (start l);
  if same c cr || same c' nl then
    l1 ← emit itemEndl l; go (snd (next l1)) lexNewLine
  else go l lexIndent.

(** The call [f(l)] of a state function. *)
Definition call (fuel : nat) (f : stateFn) (l : lexer)
  : result (lexer * option stateFn) :=
  match f with
  | lexTag => lexTag_fn l
  | lexEOF => lexEOF_fn l
  | lexDocType => lexDocType_fn l
  | lexId => lexId_fn l
  | lexClass => lexClass_fn l
  | lexText => lexText_fn l
  | lexComment => lexComment_fn l
  | lexAttr => lexAttr_fn fuel l
  | lexIndent => lexIndent_fn l
  | lexNewLine => lexNewLine_fn l
  end.

(** nextItem returns the next item from the input: an item waiting
    in the channel is received, otherwise the current state function
    is run and its result stored in [l.state]. *)
Fixpoint nextItem (fuel : nat) (l : lexer) : result (item * lexer) :=
  match items l with
  | it :: q => Ret (it, set_items l q)
  | [] =>
    match fuel with
    | 0 => OutOfFuel
    | S n =>
      match state l with
      | None => Panic NilFuncCall
      | Some f =>
        '(l1, s) ← call n f l;
        nextItem n (set_state l1 s)
      end
    end
  end.

(** How a scan ended. *)
Inductive ending : Type :=
  | Finished                 (* an itemEOF or itemError was received *)
  | Panicked (p : panic)
  | Deadlocked
  | Unfinished.              (* the fuel of the model ran out *)

Definition terminal (it : item) : bool :=
  match typ it with itemEOF | itemError => true | _ => false end.

(** The client loop of the test (TestJade): receive items until an
    itemEOF or an itemError arrives. *)
Fixpoint scan (fuel : nat) (l : lexer) : list item * ending :=
  match fuel with
  | 0 => ([], Unfinished)
  | S n =>
    match nextItem n l with
    | Ret (it, l1) =>
      if terminal it then ([it], Finished)
      else let '(its, e) := scan n l1 in (it :: its, e)
    | Panic p => ([], Panicked p)
    | Blocked => ([], Deadlocked)
    | OutOfFuel => ([], Unfinished)
    end
  end.

Definition tokens (fuel : nat) (text : string) : list item * ending :=
  scan fuel (lex "name" text "" "").

(** ** Parse nodes (node.go) *)

(** The double quote, for the strings that hold one. *)
Definition dq : string := String "034"%char EmptyString.

(** NodeType identifies the type of a parse tree node. *)
Definition NodeType : Type := Z.

Definition NodeText : NodeType := 0%Z.
Definition NodeTag : NodeType := 1%Z.
Definition NodeAttr : NodeType := 2%Z.
Definition NodeDoctype : NodeType := 3%Z.
Definition NodeId : NodeType := 4%Z.
Definition NodeClass : NodeType := 5%Z.
Definition NodeList : NodeType := 6%Z.

(** The canonical doctype strings. *)
Definition doctypes : gmap string string :=
  list_to_map [
    ("5", "<!DOCTYPE html>");
    ("default", "<!DOCTYPE html>");
    ("xml", "<?xml version=" +:+ dq +:+ "1.0" +:+ dq +:+ " encoding="
            +:+ dq +:+ "utf-8" +:+ dq +:+ " ?>");
    ("transitional",
     "<!DOCTYPE html PUBLIC " +:+ dq +:+ "-//W3C//DTD XHTML 1.0 Transitional//EN"
       +:+ dq +:+ " " +:+ dq
       +:+ "http://www.w3.org/TR/xhtml1/DTD/xhtml1-transitional.dtd"
       +:+ dq +:+ ">");
    ("strict",
     "<!DOCTYPE html PUBLIC " +:+ dq +:+ "-//W3C//DTD XHTML 1.0 Strict//EN"
       +:+ dq +:+ " " +:+ dq
       +:+ "http://www.w3.org/TR/xhtml1/DTD/xhtml1-strict.dtd"
       +:+ dq +:+ ">");
    ("frameset",
     "<!DOCTYPE html PUBLIC " +:+ dq +:+ "-//W3C//DTD XHTML 1.0 Frameset//EN"
       +:+ dq +:+ " " +:+ dq
       +:+ "http://www.w3.org/TR/xhtml1/DTD/xhtml1-frameset.dtd"
       +:+ dq +:+ ">");
    ("1.1",
     "<!DOCTYPE html PUBLIC " +:+ dq +:+ "-//W3C//DTD XHTML 1.1//EN"
       +:+ dq +:+ " " +:+ dq
       +:+ "http://www.w3.org/TR/xhtml11/DTD/xhtml11.dtd"
       +:+ dq +:+ ">");
    ("basic",
     "<!DOCTYPE html PUBLIC " +:+ dq +:+ "-//W3C//DTD XHTML Basic 1.1//EN"
       +:+ dq +:+ " " +:+ dq
       +:+ "http://www.w3.org/TR/xhtml-basic/xhtml-basic11.dtd"
       +:+ dq +:+ ">");
    ("mobile",
     "<!DOCTYPE html PUBLIC " +:+ dq +:+ "-//WAPFORUM//DTD XHTML Mobile 1.2//EN"
       +:+ dq +:+ " " +:+ dq
       +:+ "http://www.openmobilealliance.org/tech/DTD/xhtml-mobile12.dtd"
       +:+ dq +:+ ">")
  ].

(** A node is an element in the parse tree: one constructor for each
    struct that implements the interface.  The first field is the
    embedded NodeType, which [Type] returns. *)
#[warnings="-register-all"]
Inductive Node : Type :=
  | ListNode (t : NodeType) (Nodes : list Node)
  | TagNode (t : NodeType) (Tag : string) (Nodes : list Node)
  | TextNode (t : NodeType) (Text : string)
  | DoctypeNode (t : NodeType) (Doctype : string)
  | AttrNode (t : NodeType) (Attr : string)
  | IdNode (t : NodeType) (Id : string)
  | ClassNode (t : NodeType) (Class : string).

Definition newList : Node := ListNode NodeList [].
Definition newTag (tag : string) : Node := TagNode NodeTag tag [].
Definition newText (text : string) : Node := TextNode NodeText text.
Definition newDoctype (doctype : string) : Node := DoctypeNode NodeDoctype doctype.
Definition newAttr (attr : string) : Node := AttrNode NodeAttr attr.
Definition newId (id : string) : Node := IdNode NodeId id.
Definition newClass (class : string) : Node := ClassNode NodeClass class.

(** Type returns itself and provides an easy default implementation
    for embedding in a Node. *)
Definition Type_ (n : Node) : NodeType :=
  match n with
  | ListNode t _ | TagNode t _ _ | TextNode t _ | DoctypeNode t _
  | AttrNode t _ | IdNode t _ | ClassNode t _ => t
  end.

(** append, for the two nodes that hold a sequence of nodes. *)
Definition append (l n : Node) : Node :=
  match l with
  | ListNode t ns => ListNode t (ns ++ [n])
  | TagNode t tag ns => TagNode t tag (ns ++ [n])
  | _ => l
  end.

(** String *)
Fixpoint String_ (n : Node) : string :=
  match n with
  | ListNode _ ns => fold_left (fun b k => b +:+ String_ k) ns EmptyString
  | TagNode _ tag _ => tag
  | TextNode _ s | DoctypeNode _ s | AttrNode _ s | IdNode _ s
  | ClassNode _ s => s
  end.

(** The buffers and the counter of TagNode.HTMLString. *)
Record tagBuf : Type := TagBuf { b : string; n_classes : nat; classes : string }.

Definition isType (n : Node) (t : NodeType) : bool := (Type_ n =? t)%Z.

(** The body of the first loop of TagNode.HTMLString, for the child
    [n] whose HTMLString is [html]. *)
Definition tagAttrs (html : Node -> string) (s : tagBuf) (n : Node) : tagBuf :=
  let s1 :=
    if isType n NodeClass then
      let c1 := if 0 <? n_classes s then classes s +:+ " " else classes s in
      TagBuf (b s) (n_classes s + 1) (c1 +:+ html n)
    else s in
  let s2 :=
    if isType n NodeAttr
    then TagBuf (b s1 +:+ " " +:+ html n) (n_classes s1) (classes s1)
    else s1 in
  if isType n NodeId
  then TagBuf (b s2 +:+ " id=" +:+ dq +:+ html n +:+ dq) (n_classes s2) (classes s2)
  else s2.

(** The body of the second loop. *)
Definition tagBody (html : Node -> string) (b : string) (n : Node) : string :=
  if isType n NodeText || isType n NodeTag then b +:+ html n else b.

Definition DoctypeHTML (doctype : string) : string :=
  let defined := default EmptyString (doctypes !! doctype) in
  if negb (Strings.len defined =? 0) then defined
  else "<!DOCTYPE " +:+ doctype +:+ " >".

(** HTMLString *)
Fixpoint HTMLString (n : Node) : string :=
  match n with
  | ListNode _ ns => fold_left (fun b k => b +:+ HTMLString k) ns EmptyString
  | TagNode _ tag ns =>
    let s0 := TagBuf ("<" +:+ tag) 0 EmptyString in
    let s1 := fold_left (tagAttrs HTMLString) ns s0 in
    let b1 :=
      if 0 <? Strings.len (classes s1)
      then b s1 +:+ " class=" +:+ dq +:+ classes s1 +:+ dq
      else b s1 in
    let b2 := b1 +:+ ">" in
    let b3 := fold_left (tagBody HTMLString) ns b2 in
    b3 +:+ "</" +:+ tag +:+ ">"
  | TextNode _ s | AttrNode _ s | IdNode _ s | ClassNode _ s => s
  | DoctypeNode _ d => DoctypeHTML d
  end.

(** The value that Copy gives to the copy of a node whose value is [n]:
    newList, newTag and the struct literals of the Copy methods set the
    NodeType anew, the payloads and the children are copied in order. *)
Fixpoint clone (n : Node) : Node :=
  match n with
  | ListNode _ ns =>
    fold_left (fun l k => append l (clone k)) ns newList
  | TagNode _ tag ns =>
    fold_left (fun l k => append l (clone k)) ns (newTag tag)
  | TextNode _ s => TextNode NodeText s
  | DoctypeNode _ s => DoctypeNode NodeDoctype s
  | AttrNode _ s => AttrNode NodeAttr s
  | IdNode _ s => IdNode NodeId s
  | ClassNode _ s => ClassNode NodeClass s
  end.

(** ** The store of the nodes

    Copy is about storage: the nodes are structs behind pointers, their
    payloads are byte slices and their children slices of interface
    values, each slice with a backing array.  The store is a list of
    cells, a pointer is an index into it, and an allocation adds a cell
    at the end.  A slice is the pointer to its backing array ([None] is
    the nil slice); the element of a []Node is the pointer to the struct
    of the child (a nil element, on which Copy panics, is never appended
    by append). *)

Definition loc : Type := nat.

Inductive leafKind : Type := KText | KDoctype | KAttr | KId | KClass.

Inductive cell : Type :=
  | Bytes (s : string)                  (* backing array of a []byte *)
  | Elems (ps : list loc)               (* backing array of a []Node *)
  | ListStruct (t : NodeType) (nodes : option loc)
  | TagStruct (t : NodeType) (tag : option loc) (nodes : option loc)
  | LeafStruct (k : leafKind) (t : NodeType) (payload : option loc).

Abbreviation heap := (list cell).

Definition alloc (c : cell) (h : heap) : heap * loc := (h ++ [c], length h).

(** The NodeType that the struct literal of each Copy method writes. *)
Definition leafType (k : leafKind) : NodeType :=
  match k with
  | KText => NodeText
  | KDoctype => NodeDoctype
  | KAttr => NodeAttr
  | KId => NodeId
  | KClass => NodeClass
  end.

Definition leafNode (k : leafKind) (t : NodeType) (s : string) : Node :=
  match k with
  | KText => TextNode t s
  | KDoctype => DoctypeNode t s
  | KAttr => AttrNode t s
  | KId => IdNode t s
  | KClass => ClassNode t s
  end.

(** The bytes of a slice, as [string(b)] and [b...] read them.  A pointer
    that does not lead to a cell of the right kind does not exist in Go;
    the model answers it with a panic. *)
Definition bytesOf (h : heap) (sl : option loc) : result string :=
  match sl with
  | None => Ret EmptyString
  | Some a =>
    match h !! a with
    | Some (Bytes s) => Ret s
    | _ => Panic NilDereference
    end
  end.

Definition elemsOf (h : heap) (sl : option loc) : result (list loc) :=
  match sl with
  | None => Ret []
  | Some a =>
    match h !! a with
    | Some (Elems ps) => Ret ps
    | _ => Panic NilDereference
    end
  end.

(** [[]byte(s)] and [append([]byte{}, b...)]: a new backing array. *)
Definition newBytes (s : string) (h : heap) : heap * option loc :=
  let '(h1, a) := alloc (Bytes s) h in (h1, Some a).

(** [n.append(c)] for the struct at [q]: [n.Nodes = append(n.Nodes, c)].
    The array of the result is a new one that holds the old elements and
    [c]; spare capacity, which would let append write into the array it
    allocated the time before, is not modelled. *)
Definition appendAt (h : heap) (q c : loc) : result heap :=
  match h !! q with
  | Some (ListStruct t sl) =>
    ps ← elemsOf h sl;
    let '(h1, a) := alloc (Elems (ps ++ [c])) h in
    Ret (<[q := ListStruct t (Some a)]> h1)
  | Some (TagStruct t tag sl) =>
    ps ← elemsOf h sl;
    let '(h1, a) := alloc (Elems (ps ++ [c])) h in
    Ret (<[q := TagStruct t tag (Some a)]> h1)
  | _ => Panic NilDereference
  end.

(** The loop of CopyList and CopyTag: [n.append(elem.Copy())] for each
    element. *)
Fixpoint copyElems (copy : heap -> loc -> result (heap * loc))
    (q : loc) (ps : list loc) (h : heap) : result heap :=
  match ps with
  | [] => Ret h
  | e :: ps' =>
    '(h1, c) ← copy h e;
    h2 ← appendAt h1 q c;
    copyElems copy q ps' h2
  end.

(** CopyList, for a receiver that is not nil. *)
Definition CopyList (copy : heap -> loc -> result (heap * loc))
    (h : heap) (sl : option loc) : result (heap * loc) :=
  let '(h1, q) := alloc (ListStruct NodeList None) h in
  ps ← elemsOf h1 sl;
  h2 ← copyElems copy q ps h1;
  Ret (h2, q).

(** CopyTag, for a receiver that is not nil. *)
Definition CopyTag (copy : heap -> loc -> result (heap * loc))
    (h : heap) (tag sl : option loc) : result (heap * loc) :=
  s ← bytesOf h tag;
  let '(h0, tg) := newBytes s h in
  let '(h1, q) := alloc (TagStruct NodeTag tg None) h0 in
  ps ← elemsOf h1 sl;
  h2 ← copyElems copy q ps h1;
  Ret (h2, q).

(** Copy of TextNode, DoctypeNode, AttrNode, IdNode and ClassNode. *)
Definition CopyLeaf (k : leafKind) (h : heap) (sl : option loc)
  : result (heap * loc) :=
  s ← bytesOf h sl;
  let '(h0, b) := newBytes s h in
  Ret (alloc (LeafStruct k (leafType k) b) h0).

(** Copy, through the interface: the method of the struct at [p].  The
    fuel bounds the depth of the calls. *)
Fixpoint Copy (fuel : nat) (h : heap) (p : loc) : result (heap * loc) :=
  match fuel with
  | 0 => OutOfFuel
  | S n =>
    match h !! p with
    | Some (ListStruct _ sl) => CopyList (Copy n) h sl
    | Some (TagStruct _ tag sl) => CopyTag (Copy n) h tag sl
    | Some (LeafStruct k _ sl) => CopyLeaf k h sl
    | _ => Panic NilDereference
    end
  end.

(** The node that the store holds at a pointer, with the cells that make
    it up: its struct, the backing arrays of its slices and the cells of
    its children. *)
Inductive bytesAt (h : heap) : option loc -> string -> list loc -> Prop :=
  | bytesAt_nil : bytesAt h None EmptyString []
  | bytesAt_arr (a : loc) (s : string) :
      h !! a = Some (Bytes s) -> bytesAt h (Some a) s [a].

Inductive elemsAt (h : heap) : option loc -> list loc -> list loc -> Prop :=
  | elemsAt_nil : elemsAt h None [] []
  | elemsAt_arr (a : loc) (ps : list loc) :
      h !! a = Some (Elems ps) -> elemsAt h (Some a) ps [a].

Inductive repr (h : heap) : loc -> Node -> list loc -> Prop :=
  | repr_leaf p k t sl s fb :
      h !! p = Some (LeafStruct k t sl) ->
      bytesAt h sl s fb ->
      repr h p (leafNode k t s) (p :: fb)
  | repr_list p t sl ps ns fa fs :
      h !! p = Some (ListStruct t sl) ->
      elemsAt h sl ps fa ->
      reprs h ps ns fs ->
      repr h p (ListNode t ns) (p :: fa ++ fs)
  | repr_tag p t tg tag fb sl ps ns fa fs :
      h !! p = Some (TagStruct t tg sl) ->
      bytesAt h tg tag fb ->
      elemsAt h sl ps fa ->
      reprs h ps ns fs ->
      repr h p (TagNode t tag ns) (p :: fb ++ fa ++ fs)
with reprs (h : heap) : list loc -> list Node -> list loc -> Prop :=
  | reprs_nil : reprs h [] [] []
  | reprs_cons p ps n ns f fs :
      repr h p n f ->
      reprs h ps ns fs ->
      reprs h (p :: ps) (n :: ns) (f ++ fs).

Scheme repr_mut := Minimality for repr Sort Prop
  with reprs_mut := Minimality for reprs Sort Prop.

(** The depth of the calls of Copy on a node. *)
Fixpoint depth (n : Node) : nat :=
  match n with
  | ListNode _ ns | TagNode _ _ ns =>
    S (fold_right (fun k d => Nat.max (depth k) d) 0 ns)
  | _ => 0
  end.

(** The nodes as newList, newTag, newText, ... make them: the NodeType
    of each struct is the one of its kind. *)
Fixpoint wellTagged (n : Node) : bool :=
  match n with
  | ListNode t ns => (t =? NodeList)%Z && forallb wellTagged ns
  | TagNode t _ ns => (t =? NodeTag)%Z && forallb wellTagged ns
  | TextNode t _ => (t =? NodeText)%Z
  | DoctypeNode t _ => (t =? NodeDoctype)%Z
  | AttrNode t _ => (t =? NodeAttr)%Z
  | IdNode t _ => (t =? NodeId)%Z
  | ClassNode t _ => (t =? NodeClass)%Z
  end.

(** The scanner gets from [l] to [l'] by handing out the items [its],
    none of which ends the scan. *)
Inductive reaches : lexer -> list item -> lexer -> Prop :=
  | reaches_here l : reaches l [] l
  | reaches_next l n it l1 its l2 :
      nextItem n l = Ret (it, l1) ->
      terminal it = false ->
      reaches l1 its l2 ->
      reaches l (it :: its) l2.

(** The states in which the scanner looks at the first character of a
    line: lexNewLine after the newline, lexIndent after the indentation,
    lexTag at the start of the input and after both. *)
Definition atLineStart (s : option stateFn) : Prop :=
  s = Some lexNewLine \/ s = Some lexIndent \/ s = Some lexTag.

(** The scanner is at the start of a line that opens with a doctype
    marker and has no newline before the end of the input. *)
Definition unclosedDoctypeLine (l : lexer) : Prop :=
  atLineStart (state l) /\
  items l = [] /\
  pos l <= Strings.len (input l) /\
  (Strings.HasPrefix (Strings.drop (start l) (input l)) docTypeShort = true \/
   Strings.HasPrefix (Strings.drop (start l) (input l)) docTypeLong = true) /\
  Strings.Index (Strings.drop (pos l) (input l)) (String nl EmptyString) = None.

(** ** Vocabulary of the statements *)

(** *** The opening tag and the body of a tag, as the spec words them

    What the spec calls the payload of a child is its HTMLString; the
    kind of a child is its Type. *)

(** What an Attr or an Id child adds to the opening tag. *)
Definition decoration (k : Node) : string :=
  if isType k NodeAttr then " " +:+ HTMLString k
  else if isType k NodeId then " id=" +:+ dq +:+ HTMLString k +:+ dq
  else EmptyString.

Definition decorations (ks : list Node) : string :=
  fold_right (fun k s => decoration k +:+ s) EmptyString ks.

(** The payloads of the Class children, in the order of the children. *)
Definition classList (ks : list Node) : list string :=
  map HTMLString (filter (fun k => isType k NodeClass = true) ks).

(** The class attribute: the payloads joined by single spaces, if the
    join is not empty. *)
Definition classAttr (ks : list Node) : string :=
  let joined := String.concat " " (classList ks) in
  if 0 <? String.length joined
  then " class=" +:+ dq +:+ joined +:+ dq
  else EmptyString.

(** What a Text or a Tag child adds to the body. *)
Definition bodyPart (k : Node) : string :=
  if isType k NodeText || isType k NodeTag then HTMLString k else EmptyString.

Definition body (ks : list Node) : string :=
  fold_right (fun k s => bodyPart k +:+ s) EmptyString ks.

(** The keys of the doctype table, as the spec lists them. *)
Definition doctypeKeys : list string :=
  ["5"; "default"; "xml"; "transitional"; "strict"; "frameset"; "1.1";
   "basic"; "mobile"].

(** The rendering that places every attribute payload before the id
    attribute, whatever the order of the children: the reading of C5. *)
Definition attrPart (k : Node) : string :=
  if isType k NodeAttr then " " +:+ HTMLString k else EmptyString.

Definition idPart (k : Node) : string :=
  if isType k NodeId then " id=" +:+ dq +:+ HTMLString k +:+ dq else EmptyString.

Definition HTMLString_attrsFirst (tag : string) (ks : list Node) : string :=
  "<" +:+ tag
      +:+ fold_right (fun k s => attrPart k +:+ s) EmptyString ks
      +:+ fold_right (fun k s => idPart k +:+ s) EmptyString ks
      +:+ classAttr ks +:+ ">" +:+ body ks +:+ "</" +:+ tag +:+ ">".

(** A tag built by hand: a div whose children are, in this order, the Id
    main and the Attrs data-x=1 and data-y=2. *)
Definition divMain : Node :=
  TagNode NodeTag "div" [newId "main"; newAttr "data-x=1"; newAttr "data-y=2"].

(** A child that is neither an Attr nor an Id. *)
Definition plain (k : Node) : bool :=
  negb (isType k NodeAttr) && negb (isType k NodeId).

(** The kinds of child that TagNode.HTMLString looks for. *)
Definition renderedKinds : list NodeType :=
  [NodeAttr; NodeId; NodeClass; NodeText; NodeTag].

(** *** Copy on the store *)

(** The Nodes field of a struct that has one. *)
Definition nodesOf (c : cell) : option (option loc) :=
  match c with
  | ListStruct _ sl | TagStruct _ _ sl => Some sl
  | _ => None
  end.

Definition setNodes (c : cell) (sl : option loc) : cell :=
  match c with
  | ListStruct t _ => ListStruct t sl
  | TagStruct t tg _ => TagStruct t tg sl
  | _ => c
  end.

(** Fuel [n] is enough for Copy on each of the nodes [ns]. *)
Definition depthsBelow (n : nat) (ns : list Node) : Prop :=
  Forall (fun k => depth k < n) ns.

(** What Copy does in a store [hx] that holds, as [h] does, the node
    [n] at [p]: it returns, leaves the cells of [hx] as they are, and
    adds the cells of a node whose value is [clone n]. *)
Definition copies (h : heap) (p : loc) (n : Node) (fp : list loc) : Prop :=
  forall (hx : heap) (fuel : nat),
    (forall a, a ∈ fp -> hx !! a = h !! a) ->
    depth n < fuel ->
    exists (hx' : heap) (q : loc) (fq : list loc),
      Copy fuel hx p = Ret (hx', q) /\
      (forall a, a < length hx -> hx' !! a = hx !! a) /\
      length hx <= length hx' /\
      repr hx' q (clone n) fq /\
      (forall a, a ∈ fq -> length hx <= a).

(** The same for the loop over the elements [ps], which appends the
    copies to the struct at [q]: [qs] are the elements that it holds
    already, [L] is the length of the store when Copy was called. *)
Definition copiesAll (h : heap) (ps : list loc) (ns : list Node) (fs : list loc) : Prop :=
  forall (hx : heap) (n : nat) (q : loc) (cq : cell) (slq : option loc)
         (qs fa : list loc) (L : nat),
    (forall a, a ∈ fs -> hx !! a = h !! a) ->
    q ∉ fs ->
    depthsBelow n ns ->
    hx !! q = Some cq -> nodesOf cq = Some slq -> elemsAt hx slq qs fa ->
    L <= length hx -> (forall a, a ∈ fa -> L <= a) ->
    exists (hx' : heap) (slq' : option loc) (cs fa' fcs : list loc),
      copyElems (Copy n) q ps hx = Ret hx' /\
      (forall a, a < length hx -> a <> q -> hx' !! a = hx !! a) /\
      length hx <= length hx' /\
      hx' !! q = Some (setNodes cq slq') /\
      elemsAt hx' slq' (qs ++ cs) fa' /\
      (forall a, a ∈ fa' -> L <= a) /\
      reprs hx' cs (map clone ns) fcs /\
      (forall a, a ∈ fcs -> length hx <= a).

(** A store that holds the tag div with the id main and a text, and
    the node that it holds at 6. *)
Definition divStore : heap :=
  [Bytes "div"; Bytes "main"; LeafStruct KId NodeId (Some 1); Bytes "hello";
   LeafStruct KText NodeText (Some 3); Elems [2; 4];
   TagStruct NodeTag (Some 0) (Some 5)].

Definition divNode : Node :=
  TagNode NodeTag "div" [newId "main"; newText "hello"].

(** A store that holds the tag div with one child, a TextNode whose
    NodeType field was set to NodeClass, and the node that it holds
    at 4; and the value of its copy. *)
Definition retaggedStore : heap :=
  [Bytes "div"; Bytes "x"; LeafStruct KText NodeClass (Some 1); Elems [2];
   TagStruct NodeTag (Some 0) (Some 3)].

Definition retaggedDiv : Node := TagNode NodeTag "div" [TextNode NodeClass "x"].

Definition retaggedCopy : Node := TagNode NodeTag "div" [TextNode NodeText "x"].

(** *** Scans *)

(** The newline, as a string. *)
Definition lf : string := String nl EmptyString.

(** The item of the one error of the scanner. *)
Definition unclosedDoctype : item := Item itemError "unclosed doctype".

(** The scanner after the error: the state is nil, the channel empty. *)
Definition halted (l : lexer) : lexer :=
  Lexer (name l) (input l) (leftDelim l) (rightDelim l) None
        (pos l) (start l) (width l) [].

(** The lines a and doctype 5, the second without a newline at its
    end, and the scanner at the start of the second. *)
Definition unclosedText : string := "a" +:+ String nl "doctype 5".

Definition unclosedLexer : lexer :=
  Lexer "name" unclosedText "{{" "}}" (Some lexNewLine) 3 2 1 [].

(** The scanner of a(b once the tag is handed out: in lexAttr, behind
    the parenthesis. *)
Definition unclosedAttr : lexer :=
  Lexer "name" "a(b" "{{" "}}" (Some lexAttr) 2 2 1 [].

(** The character [c] occurs in [s]. *)
Fixpoint has (c : ascii) (s : string) : bool :=
  match s with
  | EmptyString => false
  | String d t => same d c || has c t
  end.

(** The scanner is in lexAttr, nothing waits in the channel, and no
    closing parenthesis is left in the input. *)
Definition unclosedAttrList (l : lexer) : Prop :=
  state l = Some lexAttr /\
  items l = [] /\
  has ")" (Strings.drop (pos l) (input l)) = false.

(** A rune with a bit set from bit 7 up: no ASCII character. *)
Definition high (r : Z) : Prop := exists k : Z, (7 <= k)%Z /\ Z.testbit r k = true.

(** *** Lines behind the first line *)

(** One of the characters that the scanner turns into an item of its
    own at the start of a line: blank, tab, newline, carriage return. *)
Definition isLineChar (c : ascii) : bool :=
  same c sp || same c tab || same c nl || same c cr.

Definition isBlank (c : ascii) : bool := same c sp || same c tab.

(** The item of such a character, with the character as its lexeme. *)
Definition lineItem (c : ascii) : item :=
  Item (if same c tab then itemIdentTab
        else if same c sp then itemIdentSpace
        else itemEndl)
       (String c EmptyString).

Fixpoint lineItems (ws : string) : list item :=
  match ws with
  | EmptyString => []
  | String c ws' => lineItem c :: lineItems ws'
  end.

Fixpoint lineChars (ws : string) : bool :=
  match ws with
  | EmptyString => true
  | String c ws' => isLineChar c && lineChars ws'
  end.

(** The state in which the scanner is after the item of the character. *)
Definition stateAfter (c : ascii) : stateFn :=
  if isBlank c then lexIndent else lexNewLine.

(** The scanner after the item of the character at start. *)
Definition afterChar (l : lexer) (s : stateFn) : lexer :=
  set_items
    (set_state (snd (next (set_start l (pos l)))) (Some s)) [].

(** The scanner of a / blank tab b behind the tag of the first line. *)
Definition indentedText : string :=
  "a" +:+ String nl (String sp (String tab "b")).

Definition indentedLexer : lexer :=
  Lexer "name" indentedText "{{" "}}" (Some lexNewLine) 2 1 1 [].

Definition isNewline (c : ascii) : bool := same c nl || same c cr.

(** The line that the scanner has begun at start goes on to [e]: there
    is no newline before [e], and at [e] there is one, or the input
    ends. *)
Definition lineUpTo (l : lexer) (e : nat) : Prop :=
  start l < e /\ pos l <= e /\ e <= Strings.len (input l) /\
  (forall i c, start l <= i < e -> String.get i (input l) = Some c ->
               isNewline c = false) /\
  (e = Strings.len (input l) \/
   exists c, String.get e (input l) = Some c /\ isNewline c = true).

(** The text of the line: the input from start to [e]. *)
Definition lineText (l : lexer) (e : nat) : string :=
  Strings.take (e - start l) (Strings.drop (start l) (input l)).

(** No character of the string is a newline or a carriage return. *)
Fixpoint textLine (s : string) : bool :=
  match s with
  | EmptyString => true
  | String c t => negb (isNewline c) && textLine t
  end.

(** The rest of the input behind a line: nothing, or a newline first. *)
Definition endsLine (rest : string) : Prop :=
  rest = EmptyString \/ exists c t, rest = String c t /\ isNewline c = true.

(** The scanner of a / | x y behind the tag of the first line. *)
Definition markerText : string := "a" +:+ String nl "| x y".

Definition markerLexer : lexer :=
  Lexer "name" markerText "{{" "}}" (Some lexNewLine) 3 2 1 [].

(** *** The items of a scan as pieces of the input *)

Definition isError (it : item) : bool :=
  match typ it with itemError => true | _ => false end.

(** The lexemes of [its] are pieces of [text] that lie between the
    offsets [a] and [e] in the order of the list, one behind the other:
    each is the text from some offset [lo] to some offset [hi], and the
    next one begins at [hi] or later.  The item of an error holds a
    message and no piece of the text. *)
Fixpoint pieces (text : string) (a : nat) (its : list item) (e : nat) : Prop :=
  match its with
  | [] => a <= e
  | it :: its' =>
    if isError it then pieces text a its' e
    else exists lo hi,
      a <= lo /\ Strings.slice text lo hi = Ret (val it) /\ pieces text hi its' e
  end.

(** The scanner at work on [text], the items [out] handed out: the items
    handed out and those in the channel are pieces of the text before
    start, and none of them ends the scan. *)
Definition running (text : string) (out : list item) (l : lexer) : Prop :=
  input l = text /\
  start l <= pos l /\ pos l <= Strings.len text /\
  pieces text 0 (out ++ items l) (start l) /\
  Forall (fun it => terminal it = false) (out ++ items l).

(** The scanner after the state function that returned nil: the last
    item sent is the one that ends the scan. *)
Definition finished (text : string) (out : list item) (l : lexer) : Prop :=
  input l = text /\
  start l <= pos l /\ pos l <= Strings.len text /\
  pieces text 0 (out ++ items l) (start l) /\
  exists q it,
    out ++ items l = q ++ [it] /\
    Forall (fun it => terminal it = false) q /\
    terminal it = true /\
    (typ it = itemEOF -> val it = EmptyString /\ start l = Strings.len text) /\
    (typ it = itemError -> val it = "unclosed doctype"%string).

(** What a state function leaves behind, [s] being the state it
    returns. *)
Definition left_by (text : string) (out : list item) (l : lexer)
    (s : option stateFn) : Prop :=
  match s with
  | Some f => running text out l /\ (f = lexEOF -> pos l = Strings.len text)
  | None => finished text out l
  end.

Definition scanner_inv (text : string) (out : list item) (l : lexer) : Prop :=
  left_by text out l (state l).

(** *** The end of a call of nextItem *)

(** Every opening parenthesis of the string has a closing one behind
    it. *)
Fixpoint parensClosed (s : string) : bool :=
  match s with
  | EmptyString => true
  | String c t => (negb (same c "(") || has ")" t) && parensClosed t
  end.

(** The number of calls that a state function can at most do in a row
    on the same spot without an item: from lexNewLine through lexIndent
    and lexTag to lexText and back to lexNewLine, as the character at
    start lets it. *)
Definition rank (f : stateFn) (l : lexer) : nat :=
  match String.get (start l) (input l) with
  | Some c =>
    match f with
    | lexNewLine => if isNewline c then 0 else 5
    | lexIndent => if isBlank c then 0 else 4
    | lexTag => if isBlank c || isNewline c then 1 else 3
    | lexText => if isNewline c then 1 else 0
    | _ => 0
    end
  | None => 0
  end.

(** What is left to do before the next item: the input behind pos
    counts eight for each byte. *)
Definition measure (f : stateFn) (l : lexer) : nat :=
  8 * (Strings.len (input l) - pos l) + rank f l.

(** A call of a state function gets on: it sends an item, or it leaves
    less to do; and it goes to lexAttr only where a closing parenthesis
    is ahead. *)
Definition progress (f : stateFn) (l l1 : lexer) (s : option stateFn) : Prop :=
  (s = Some lexAttr -> has ")" (Strings.drop (pos l1) (input l1)) = true) /\
  (items l1 <> [] \/ exists g, s = Some g /\ measure g l1 < measure f l).

(** The scanner goes into lexAttr only where a closing parenthesis is
    ahead. *)
Definition attrReady (l : lexer) : Prop :=
  state l = Some lexAttr -> has ")" (Strings.drop (pos l) (input l)) = true.

(** The scanner of a(b) c once the tag is handed out. *)
Definition closedAttrText : string := "a(b) c".

Definition closedAttr : lexer :=
  Lexer "name" closedAttrText "{{" "}}" (Some lexAttr) 2 2 1 [].

(** *** The end of a scan *)

(** What a scan has left to do, in items: four for each byte of the
    input behind start, one if pos is not yet ahead of start, two for
    each item in the channel and two for a state function that is not
    the last one. *)
Definition weight (s : option stateFn) : nat :=
  match s with
  | Some lexEOF | None => 0
  | Some _ => 2
  end.

Definition slack (l : lexer) : nat :=
  4 * (Strings.len (input l) - start l)
  + (if start l <? pos l then 0 else 1)
  + 2 * length (items l).

Definition potential (l : lexer) : nat := slack l + weight (state l).

(** A call of the state function [f] on [l], which gives [l1] and the
    state [s], leaves no more to do than there was, but for the one item
    that nextItem hands out next. *)
Definition settles (f : stateFn) (l l1 : lexer) (s : option stateFn) : Prop :=
  match items l1 with
  | [] => slack l1 + weight s <= slack l + weight (Some f)
  | it :: _ =>
    terminal it = false -> slack l1 + weight s <= slack l + weight (Some f) + 1
  end.

(** *** Runs up to a delimiter *)

(** From pos to [e] no character of the input is one of [stop], and at
    [e] there is one of them, or the input ends. *)
Definition runUpTo (stop : ascii -> bool) (l : lexer) (e : nat) : Prop :=
  pos l <= e /\ e <= Strings.len (input l) /\
  (forall i c, pos l <= i < e -> String.get i (input l) = Some c ->
               stop c = false) /\
  (e = Strings.len (input l) \/
   exists c, String.get e (input l) = Some c /\ stop c = true).

(** No character of the string is one of [stop]. *)
Fixpoint noneOf (stop : ascii -> bool) (s : string) : bool :=
  match s with
  | EmptyString => true
  | String c t => negb (stop c) && noneOf stop t
  end.

(** The characters that end an attribute: the closing parenthesis and
    the comma. *)
Definition attrStop (c : ascii) : bool := same c ")" || same c ",".

(** The piece of the input from start to [e]. *)
Definition lexeme (l : lexer) (e : nat) : string :=
  Strings.take (e - start l) (Strings.drop (start l) (input l)).

(** The scanner [l] moved on to [p], the last rune [w] wide. *)
Definition movedTo (l : lexer) (p w : nat) : lexer := set_pos (set_width l w) p.

(** The scanner in the loop of lexAttr behind the comma at [e]: the
    attribute before the comma is sent, start and pos are behind the
    comma. *)
Definition afterComma (l : lexer) (e : nat) : lexer :=
  Lexer (name l) (input l) (leftDelim l) (rightDelim l) (state l)
        (S e) (S e) 1 (items l ++ [Item itemAttr (lexeme l e)]).

(** The attributes of a list as they stand between the parentheses,
    with a comma between two of them. *)
Fixpoint attrList (attrs : list string) : string :=
  match attrs with
  | [] => EmptyString
  | a :: attrs' =>
    match attrs' with
    | [] => a
    | _ :: _ => a +:+ String "," (attrList attrs')
    end
  end.

(** The items of the attributes of a list: the first lexeme begins at
    start, which is pos behind a tag and one byte before pos, at the
    parenthesis, behind an id or a class. *)
Definition attrItems (l : lexer) (attrs : list string) : list item :=
  match attrs with
  | [] => []
  | a :: attrs' =>
    Item itemAttr (lexeme l (pos l) +:+ a) :: map (Item itemAttr) attrs'
  end.

(** The scanner of a / p(a,b,c) behind the tag of the second line, and
    the one of a / p(a,b) c. *)
Definition threeAttrsText : string := "a" +:+ String nl "p(a,b,c)".

Definition threeAttrs : lexer :=
  Lexer "name" threeAttrsText "{{" "}}" (Some lexAttr) 4 4 1 [].

Definition twoAttrsText : string := "a" +:+ String nl "p(a,b) c".

Definition twoAttrs : lexer :=
  Lexer "name" twoAttrsText "{{" "}}" (Some lexAttr) 4 4 1 [].

(** *** The states that scan up to a delimiter *)

(** lexTag, lexId, lexClass, lexText and lexComment read on until peek
    shows one of their delimiters or the end of the input. *)
Definition scanning (f : stateFn) : bool :=
  match f with
  | lexTag | lexId | lexClass | lexText | lexComment => true
  | _ => false
  end.

(** The delimiters of each of them: the cases of its switch on the rune
    that peek returns. *)
Definition stops (f : stateFn) (c : ascii) : bool :=
  match f with
  | lexTag => same c sp || same c "(" || same c "." || same c "#" || isNewline c
  | lexId => isNewline c || same c "(" || same c sp || same c "."
  | lexClass => isNewline c || same c "(" || same c sp
  | lexText | lexComment => isNewline c
  | _ => false
  end.

(** The type of the item that each of them emits. *)
Definition kind (f : stateFn) : itemType :=
  match f with
  | lexTag => itemTag
  | lexId => itemId
  | lexClass => itemClass
  | lexComment => itemComment
  | _ => itemText
  end.

(** The state behind the delimiter. *)
Definition goesTo (c : ascii) : stateFn :=
  if isNewline c then lexNewLine
  else if same c "(" then lexAttr
  else if same c sp then lexText
  else if same c "." then lexClass
  else lexId.

(** What lexTag and lexText ask of the input at start before they look
    at the rune at pos: lexTag goes on to peek if the character at start
    is none of those of its first switch and the input at start opens
    neither a comment nor a doctype, lexText if the character at start
    is no newline.  [s] is the input from start on. *)
Definition head (f : stateFn) (s : string) : bool :=
  match s with
  | EmptyString =>
    match f with lexTag | lexText => false | _ => true end
  | String c _ =>
    match f with
    | lexTag =>
      negb (same c "." || same c "#" || same c sp || same c tab || same c "|"
            || same c cr || same c nl)
      && negb (Strings.HasPrefix s Comment)
      && negb (Strings.HasPrefix s docTypeShort || Strings.HasPrefix s docTypeLong)
    | lexText => negb (same c nl || same c cr)
    | _ => true
    end
  end.

(** The rest of the input behind a run: nothing, or a delimiter
    first. *)
Definition endsRun (stop : ascii -> bool) (rest : string) : Prop :=
  match rest with
  | EmptyString => True
  | String c _ => stop c = true
  end.

Definition isTag (f : stateFn) : bool :=
  match f with lexTag => true | _ => false end.

(** Where the scanner is behind the item of a run that ended at [e]
    before [rest]: in lexEOF at the end of the input; else behind the
    delimiter, in the state that the delimiter asks for, with start at
    the delimiter, or behind it where lexTag calls ignore. *)
Definition behindRun (f : stateFn) (e : nat) (rest : string) (l' : lexer) : Prop :=
  match rest with
  | EmptyString => state l' = Some lexEOF /\ start l' = e /\ pos l' = e
  | String c _ =>
    state l' = Some (goesTo c) /\ pos l' = S e /\
    start l' = (if isTag f && negb (isNewline c) then S e else e)
  end.

(** The scanner of a.b.c d behind the tag: in lexClass behind the
    first point. *)
Definition classText : string := "a.b.c d".

Definition classLexer : lexer :=
  Lexer "name" classText "{{" "}}" (Some lexClass) 2 2 1 [].

(** A letter of two bytes (e with an acute accent, 0xC3 0xA9), and the
    scanner of a / [eacute]t#x at the start of the second line: pos is
    one rune, two bytes, ahead of start. *)
Definition eacute : string := String "195" (String "169" EmptyString).

Definition tagLineText : string := "a" +:+ String nl (eacute +:+ "t#x").

Definition tagLineLexer : lexer :=
  Lexer "name" tagLineText "{{" "}}" (Some lexNewLine) 4 2 2 [].

(** *** Doctype lines *)

(** The number of bytes that lexDocType skips at the start of the line:
    those of the short marker and its blank if the input at pos (not at
    start) opens with the short marker, those of the long marker and
    its blank otherwise. *)
Definition docTypePre (l : lexer) : nat :=
  if Strings.HasPrefix (Strings.drop (pos l) (input l)) "!!!"
  then Strings.len "!!! " else Strings.len "doctype ".

(** The scanner of a / !!! transitional / at the start of the second
    line. *)
Definition shortDoctypeText : string :=
  "a" +:+ String nl ("!!! transitional" +:+ String nl EmptyString).

Definition shortDoctypeLexer : lexer :=
  Lexer "name" shortDoctypeText "{{" "}}" (Some lexNewLine) 3 2 1 [].

(** *** Line starts where pos is not ahead of start *)

(** The scanner of p, a blank and a newline behind the tag: lexTag has
    called ignore behind the blank, start and pos are at the newline.
    And the input of one line and a newline. *)
Definition blankLineText : string := "p " +:+ String nl "q".

Definition blankLineLexer : lexer :=
  Lexer "name" blankLineText "{{" "}}" (Some lexText) 2 2 1 [].

Definition oneLineText : string := "a" +:+ String nl EmptyString.

Definition oneLineLexer : lexer :=
  Lexer "name" oneLineText "{{" "}}" (Some lexNewLine) 2 1 1 [].

(** *** The state lexEOF *)

(** Nothing is pending when the scanner is in lexEOF: pos is at start,
    and at most one item waits in the channel. *)
Definition nothingPending (l : lexer) : Prop :=
  state l = Some lexEOF -> pos l = start l /\ length (items l) <= 1.

(** The scanner of a#b behind the id, and the items before it. *)
Definition idText : string := "a#b".

Definition idItems : list item := [Item itemTag "a"; Item itemId "b"].

Definition idLexer : lexer :=
  Lexer "name" idText "{{" "}}" (Some lexEOF) 3 3 0 [].

(** *** Line numbers *)

(** The number of bytes of [s] that are [c]. *)
Fixpoint countByte (c : ascii) (s : string) : nat :=
  match s with
  | EmptyString => 0
  | String d t => if same d c then S (countByte c t) else countByte c t
  end.

(** [utf8.RuneCountInString(s)]; the length of [s] is fuel enough. *)
Fixpoint RuneCountInString (fuel : nat) (s : string) : nat :=
  match fuel, s with
  | S k, String _ _ =>
    let '(_, w) := utf8.DecodeRuneInString s in
    S (RuneCountInString k (Strings.drop w s))
  | _, _ => 0
  end.

(** The loop of strings.Count for a substr of two bytes or more. *)
Fixpoint countFrom (fuel : nat) (s substr : string) : nat :=
  match fuel with
  | 0 => 0
  | S k =>
    match Strings.Index s substr with
    | None => 0
    | Some i => S (countFrom k (Strings.drop (i + Strings.len substr) s) substr)
    end
  end.

(** [strings.Count(s, substr)]: the number of non-overlapping instances
    of substr in s. *)
Definition Count (s substr : string) : nat :=
  match substr with
  | EmptyString => RuneCountInString (Strings.len s) s + 1
  | String c EmptyString => countByte c s
  | _ => countFrom (Strings.len s) s substr
  end.

(** lineNumber reports which line we're on. *)
Definition lineNumber (l : lexer) : result nat :=
  s ← Strings.slice (input l) 0 (pos l);
  mret (1 + Count s lf).

(** The scanner of two lines, at the newline between them. *)
Definition twoLines : lexer :=
  Lexer "name" ("a" +:+ String nl "b") "{{" "}}" (Some lexTag) 1 0 1 [].

(** *** The names of the node types *)

Definition nodeName : gmap NodeType string :=
  list_to_map [
    (NodeText, "text"); (NodeTag, "tag"); (NodeAttr, "attr");
    (NodeDoctype, "doctype"); (NodeId, "id"); (NodeClass, "class");
    (NodeList, "List")
  ].

(** NodeType.String: the name of the table, and node with the number
    in decimal behind it for a type that has none. *)
Definition NodeType_String (i : NodeType) : string :=
  let s := default EmptyString (nodeName !! i) in
  if String.eqb s "" then "node" +:+ pretty i else s.

(** *** The debug output of the test program (testjade.go) *)

(** The two streams of the process: fmt.Printf writes to the standard
    output, the builtin print to the standard error. *)
Inductive stream : Type := Stdout | Stderr.

#[global] Instance stream_eq_dec : EqDecision stream.
Proof. solve_decision. Defined.

(** An int of 64 bits. *)
Definition int64 (z : Z) : Z := ((z + 2 ^ 63) mod 2 ^ 64 - 2 ^ 63)%Z.

(** indent: one blank for each round of the loop. *)
Definition indent (n : Z) : list (stream * string) :=
  repeat (Stderr, " "%string) (Z.to_nat n).

(** The line that displayNode prints for a node. *)
Definition nodeLine (n : Node) : string :=
  NodeType_String (Type_ n) +:+ ":" +:+ String_ n +:+ lf.

(** displayNode: the writes of the call, in order. *)
Fixpoint displayNode (n : Node) (ind : Z) : list (stream * string) :=
  indent ind ++ (Stdout, nodeLine n) ::
  match n with
  | TagNode _ _ ns | ListNode _ ns =>
    flat_map (fun node => displayNode node (int64 (ind + 2))) ns
  | _ => []
  end.

(** What the writes [out] put on the stream [s]. *)
Definition written (s : stream) (out : list (stream * string)) : string :=
  String.concat "" (map snd (filter (fun w => bool_decide (fst w = s)) out)).

(** The nodes of a tree, each before its children, the children in
    their order. *)
Fixpoint preorder (n : Node) : list Node :=
  n ::
  match n with
  | TagNode _ _ ns | ListNode _ ns => flat_map preorder ns
  | _ => []
  end.

(** A document: a doctype and the tag html with a head and a body. *)
Definition pageNode : Node :=
  ListNode NodeList
    [newDoctype "5";
     TagNode NodeTag "html"
       [newAttr "lang=en";
        TagNode NodeTag "head" [];
        TagNode NodeTag "body" [newClass "main"; newText "hello"]]].

(** *** Copy shares nothing *)

(** What Copy does, as in [copies], and no cell of the copy is counted
    twice. *)
Definition copiesApart (h : heap) (p : loc) (n : Node) (fp : list loc) : Prop :=
  forall (hx : heap) (fuel : nat),
    (forall a, a ∈ fp -> hx !! a = h !! a) ->
    depth n < fuel ->
    exists (hx' : heap) (q : loc) (fq : list loc),
      Copy fuel hx p = Ret (hx', q) /\
      (forall a, a < length hx -> hx' !! a = hx !! a) /\
      length hx <= length hx' /\
      repr hx' q (clone n) fq /\
      (forall a, a ∈ fq -> length hx <= a) /\
      NoDup fq.

(** The same for the loop over the elements, as in [copiesAll]: the
    array of the struct is the one it had or a new one, and neither it
    nor a cell of the copies is counted twice. *)
Definition copiesAllApart (h : heap) (ps : list loc) (ns : list Node)
    (fs : list loc) : Prop :=
  forall (hx : heap) (n : nat) (q : loc) (cq : cell) (slq : option loc)
         (qs fa : list loc) (L : nat),
    (forall a, a ∈ fs -> hx !! a = h !! a) ->
    q ∉ fs ->
    depthsBelow n ns ->
    hx !! q = Some cq -> nodesOf cq = Some slq -> elemsAt hx slq qs fa ->
    L <= length hx -> (forall a, a ∈ fa -> L <= a) ->
    exists (hx' : heap) (slq' : option loc) (cs fa' fcs : list loc),
      copyElems (Copy n) q ps hx = Ret hx' /\
      (forall a, a < length hx -> a <> q -> hx' !! a = hx !! a) /\
      length hx <= length hx' /\
      hx' !! q = Some (setNodes cq slq') /\
      elemsAt hx' slq' (qs ++ cs) fa' /\
      (forall a, a ∈ fa' -> L <= a) /\
      reprs hx' cs (map clone ns) fcs /\
      (forall a, a ∈ fcs -> length hx <= a) /\
      NoDup (fa' ++ fcs) /\
      (forall a, a ∈ fa' -> a ∈ fa \/ length hx <= a).

(** A store in which a list holds the same text node twice, and the
    node that it holds at 3. *)
Definition sharedStore : heap :=
  [Bytes "x"; LeafStruct KText NodeText (Some 0); Elems [1; 1];
   ListStruct NodeList (Some 2)].

Definition sharedNode : Node := ListNode NodeList [newText "x"; newText "x"].

(** *** The capacity of the channel *)

(** The scanner at the end of the input a, with a lexeme pending: the
    one place where a state function sends two items. *)
Definition pendingLexer : lexer :=
  Lexer "name" "a" "{{" "}}" (Some lexEOF) 1 0 1 [].

(** * Facts *)

(** ** Strings *)

Lemma str_app_nil_l (s : string) : EmptyString +:+ s = s.
Proof. reflexivity. Qed.

Lemma str_app_cons (c : ascii) (s1 s2 : string) :
  String c s1 +:+ s2 = String c (s1 +:+ s2).
Proof. reflexivity. Qed.

Lemma str_app_nil_r (s : string) : s +:+ EmptyString = s.
Proof. induction s as [|c s IH]; [reflexivity|]. rewrite str_app_cons, IH. reflexivity. Qed.

Lemma str_app_assoc (s1 s2 s3 : string) : (s1 +:+ s2) +:+ s3 = s1 +:+ s2 +:+ s3.
Proof.
  induction s1 as [|c s1 IH]; [reflexivity|].
  rewrite !str_app_cons, IH. reflexivity.
Qed.

Lemma str_length_app (s1 s2 : string) :
  String.length (s1 +:+ s2) = String.length s1 + String.length s2.
Proof.
  induction s1 as [|c s1 IH]; [reflexivity|].
  rewrite str_app_cons. cbn. rewrite IH. reflexivity.
Qed.

(** ** Rendering of a tag, loop by loop *)

Lemma concat_snoc (sep : string) (l : list string) (x : string) :
  String.concat sep (l ++ [x]) =
  match l with
  | [] => x
  | _ => String.concat sep l +:+ sep +:+ x
  end.
Proof.
  induction l as [|y l IH]; [reflexivity|].
  destruct l as [|z l].
  - reflexivity.
  - change (String.concat sep ((y :: z :: l) ++ [x]))
      with (y +:+ sep +:+ String.concat sep ((z :: l) ++ [x])).
    rewrite IH.
    change (String.concat sep (y :: z :: l))
      with (y +:+ sep +:+ String.concat sep (z :: l)).
    rewrite !str_app_assoc. reflexivity.
Qed.

Lemma types_differ :
  NodeClass <> NodeAttr /\ NodeClass <> NodeId /\ NodeAttr <> NodeId.
Proof. repeat split; discriminate. Qed.

Lemma isType_true (k : Node) (t : NodeType) : isType k t = true <-> Type_ k = t.
Proof. unfold isType. apply Z.eqb_eq. Qed.

Lemma isType_excl (k : Node) (t u : NodeType) :
  t <> u -> isType k t = true -> isType k u = false.
Proof.
  unfold isType. intros Hne Ht. apply Z.eqb_eq in Ht. apply Z.eqb_neq. congruence.
Qed.

(** The first loop: the buffer grows by the decorations in the order of
    the children, the class buffer is the join of the class payloads. *)
Lemma tagAttrs_fold (ks : list Node) : forall (buf : string) (seen : list string),
  fold_left (tagAttrs HTMLString) ks
    (TagBuf buf (length seen) (String.concat " " seen)) =
  TagBuf (buf +:+ decorations ks)
         (length (seen ++ classList ks))
         (String.concat " " (seen ++ classList ks)).
Proof.
  induction ks as [|k ks IH]; intros buf seen.
  - cbn. unfold classList; cbn. rewrite str_app_nil_r, List.app_nil_r. reflexivity.
  - cbn [fold_left].
    destruct (isType k NodeClass) eqn:Hc.
    + assert (Ha : isType k NodeAttr = false)
        by (eapply isType_excl; [|exact Hc]; discriminate).
      assert (Hi : isType k NodeId = false)
        by (eapply isType_excl; [|exact Hc]; discriminate).
      unfold tagAttrs at 2. rewrite Hc, Ha, Hi. cbn [b n_classes classes].
      replace (length seen + 1) with (length (seen ++ [HTMLString k]))
        by (rewrite length_app; reflexivity).
      replace ((if 0 <? length seen
                then String.concat " " seen +:+ " "
                else String.concat " " seen) +:+ HTMLString k)
        with (String.concat " " (seen ++ [HTMLString k])).
      2:{ rewrite concat_snoc. destruct seen; [reflexivity|].
          cbn [length Nat.ltb Nat.leb]. rewrite str_app_assoc. reflexivity. }
      rewrite IH.
      assert (Hd : decorations (k :: ks) = decorations ks).
      { unfold decorations; cbn [fold_right]. unfold decoration.
        rewrite Ha, Hi. reflexivity. }
      assert (Hl : classList (k :: ks) = HTMLString k :: classList ks).
      { unfold classList. rewrite filter_cons_True by exact Hc. reflexivity. }
      rewrite Hd, Hl, <- List.app_assoc. reflexivity.
    + assert (Hl : classList (k :: ks) = classList ks).
      { unfold classList. rewrite filter_cons_False; [reflexivity|].
        rewrite Hc. discriminate. }
      rewrite Hl.
      assert (Hs : tagAttrs HTMLString
                     (TagBuf buf (length seen) (String.concat " " seen)) k =
                   TagBuf (buf +:+ decoration k) (length seen)
                          (String.concat " " seen)).
      { unfold tagAttrs, decoration. rewrite Hc.
        destruct (isType k NodeAttr) eqn:Ha.
        - assert (Hi : isType k NodeId = false)
            by (eapply isType_excl; [|exact Ha]; discriminate).
          rewrite Hi. reflexivity.
        - destruct (isType k NodeId); cbn [b n_classes classes];
            [reflexivity | rewrite str_app_nil_r; reflexivity]. }
      rewrite Hs, IH.
      unfold decorations at 2; cbn [fold_right]. fold (decorations ks).
      rewrite str_app_assoc. reflexivity.
Qed.

(** The second loop. *)
Lemma tagBody_fold (ks : list Node) : forall buf : string,
  fold_left (tagBody HTMLString) ks buf = buf +:+ body ks.
Proof.
  induction ks as [|k ks IH]; intros buf.
  - cbn. rewrite str_app_nil_r. reflexivity.
  - cbn [fold_left]. rewrite IH.
    unfold body at 2; cbn [fold_right]. fold (body ks).
    unfold tagBody, bodyPart.
    destruct (isType k NodeText || isType k NodeTag).
    + rewrite str_app_assoc. reflexivity.
    + reflexivity.
Qed.

(** TagNode.HTMLString, in closed form. *)
Lemma HTMLString_tag (t : NodeType) (tag : string) (ks : list Node) :
  HTMLString (TagNode t tag ks) =
  "<" +:+ tag +:+ decorations ks +:+ classAttr ks +:+ ">" +:+ body ks
      +:+ "</" +:+ tag +:+ ">".
Proof.
  cbn [HTMLString].
  pose proof (tagAttrs_fold ks ("<" +:+ tag) []) as H.
  cbn [length app String.concat] in H. rewrite H. cbn [b classes].
  rewrite tagBody_fold.
  unfold classAttr, Strings.len. cbv zeta.
  destruct (0 <? String.length (String.concat " " (classList ks)));
    rewrite !str_app_assoc; reflexivity.
Qed.

Lemma decorations_app (ks1 ks2 : list Node) :
  decorations (ks1 ++ ks2) = decorations ks1 +:+ decorations ks2.
Proof.
  induction ks1 as [|k ks1 IH]; [reflexivity|].
  cbn [app]. unfold decorations in *; cbn [fold_right].
  rewrite IH, str_app_assoc. reflexivity.
Qed.

Lemma body_app (ks1 ks2 : list Node) : body (ks1 ++ ks2) = body ks1 +:+ body ks2.
Proof.
  induction ks1 as [|k ks1 IH]; [reflexivity|].
  cbn [app]. unfold body in *; cbn [fold_right].
  rewrite IH, str_app_assoc. reflexivity.
Qed.

Lemma classList_app (ks1 ks2 : list Node) :
  classList (ks1 ++ ks2) = classList ks1 ++ classList ks2.
Proof. unfold classList. rewrite filter_app, map_app. reflexivity. Qed.

Lemma decorations_cons (k : Node) (ks : list Node) :
  decorations (k :: ks) = decoration k +:+ decorations ks.
Proof. reflexivity. Qed.

Lemma body_cons (k : Node) (ks : list Node) :
  body (k :: ks) = bodyPart k +:+ body ks.
Proof. reflexivity. Qed.

Lemma classList_cons_other (k : Node) (ks : list Node) :
  isType k NodeClass = false -> classList (k :: ks) = classList ks.
Proof.
  intros H. unfold classList. rewrite filter_cons_False; [reflexivity|].
  rewrite H. discriminate.
Qed.

Lemma classAttr_ext (ks1 ks2 : list Node) :
  classList ks1 = classList ks2 -> classAttr ks1 = classAttr ks2.
Proof. unfold classAttr. intros ->. reflexivity. Qed.

(** ** The doctype table *)

Lemma doctypes_keys (k : string) : is_Some (doctypes !! k) <-> k ∈ doctypeKeys.
Proof.
  rewrite <- elem_of_dom. unfold doctypes. rewrite dom_list_to_map_L.
  rewrite elem_of_list_to_set. reflexivity.
Qed.

Lemma doctypes_nonempty (k d : string) :
  doctypes !! k = Some d -> (Strings.len d =? 0) = false.
Proof.
  intros H. unfold doctypes in H. apply elem_of_list_to_map_2 in H.
  repeat (apply elem_of_cons in H as [H|H]; [injection H as -> ->; reflexivity|]).
  apply elem_of_nil in H. destruct H.
Qed.

(** C4: DoctypeNode.HTMLString looks the payload up in the table whose
    keys are exactly 5, default, xml, transitional, strict, frameset,
    1.1, basic and mobile; a payload in the table renders as its entry,
    the payload 5 as the HTML5 doctype, and a payload that is not in the
    table as the synthesized <!DOCTYPE payload >. *)
Theorem doctype_render :
  (forall k : string, is_Some (doctypes !! k) <-> k ∈ doctypeKeys) /\
  (forall (t : NodeType) (p d : string),
      doctypes !! p = Some d -> HTMLString (DoctypeNode t p) = d) /\
  HTMLString (newDoctype "5") = "<!DOCTYPE html>" /\
  (forall (t : NodeType) (p : string),
      doctypes !! p = None ->
      HTMLString (DoctypeNode t p) = "<!DOCTYPE " +:+ p +:+ " >") /\
  HTMLString (newDoctype "unknown") = "<!DOCTYPE unknown >".
Proof.
  split; [exact doctypes_keys|].
  split.
  { intros t p d H. cbn [HTMLString]. unfold DoctypeHTML. rewrite H.
    change (default EmptyString (Some d)) with d. cbv zeta.
    rewrite (doctypes_nonempty p d H). reflexivity. }
  split; [vm_compute; reflexivity|].
  split.
  { intros t p H. cbn [HTMLString]. unfold DoctypeHTML. rewrite H. reflexivity. }
  vm_compute; reflexivity.
Qed.

Lemma doctype_render_witness :
  doctypes !! "unknown" = None /\
  HTMLString (DoctypeNode NodeDoctype "unknown") =
    "<!DOCTYPE " +:+ "unknown" +:+ " >" /\
  doctypes !! "5" = Some "<!DOCTYPE html>" /\
  HTMLString (DoctypeNode NodeDoctype "5") = "<!DOCTYPE html>".
Proof.
  assert (Hn : doctypes !! "unknown" = None) by (vm_compute; reflexivity).
  assert (Hs : doctypes !! "5" = Some "<!DOCTYPE html>") by (vm_compute; reflexivity).
  split; [exact Hn|].
  split; [exact (proj1 (proj2 (proj2 (proj2 doctype_render))) NodeDoctype "unknown" Hn)|].
  split; [exact Hs|].
  exact (proj1 (proj2 doctype_render) NodeDoctype "5" "<!DOCTYPE html>" Hs).
Defined.

(** ** Attributes, id and classes of a tag *)

(** C5, as stated, fails: a div whose children are an Id and, behind
    it, two Attrs has the id rendered before the attributes, not after
    them. *)
Lemma id_after_attrs_counterexample :
  HTMLString divMain =
    "<div id=" +:+ dq +:+ "main" +:+ dq +:+ " data-x=1 data-y=2></div>" /\
  HTMLString_attrsFirst "div"
    [newId "main"; newAttr "data-x=1"; newAttr "data-y=2"] =
    "<div data-x=1 data-y=2 id=" +:+ dq +:+ "main" +:+ dq +:+ "></div>" /\
  HTMLString divMain <>
    HTMLString_attrsFirst "div"
      [newId "main"; newAttr "data-x=1"; newAttr "data-y=2"].
Proof.
  split; [vm_compute; reflexivity|].
  split; [vm_compute; reflexivity|].
  vm_compute. discriminate.
Qed.

Lemma decorations_plain (ks : list Node) :
  forallb plain ks = true -> decorations ks = EmptyString.
Proof.
  induction ks as [|k ks IH]; [reflexivity|].
  cbn [forallb]. intros [Hk Hks]%andb_true_iff.
  rewrite decorations_cons, IH by exact Hks.
  unfold plain in Hk. apply andb_true_iff in Hk as [Ha Hi].
  unfold decoration.
  destruct (isType k NodeAttr); [discriminate|].
  destruct (isType k NodeId); [discriminate|]. reflexivity.
Qed.

(** C5, amended: attributes and id are rendered in the order of the
    children.  The id attribute of an Id child comes after the fragments
    of the children before it and before the fragments of the children
    after it; it comes after all attribute payloads when no Attr (or Id)
    child follows it. *)
Theorem id_in_child_order (t : NodeType) (tag : string) (pre post : list Node) (k : Node) :
  isType k NodeId = true ->
  HTMLString (TagNode t tag (pre ++ k :: post)) =
    "<" +:+ tag +:+ decorations pre
        +:+ " id=" +:+ dq +:+ HTMLString k +:+ dq
        +:+ decorations post
        +:+ classAttr (pre ++ post) +:+ ">" +:+ body (pre ++ k :: post)
        +:+ "</" +:+ tag +:+ ">" /\
  (forallb plain post = true ->
   HTMLString (TagNode t tag (pre ++ k :: post)) =
     "<" +:+ tag +:+ decorations pre
         +:+ " id=" +:+ dq +:+ HTMLString k +:+ dq
         +:+ classAttr (pre ++ post) +:+ ">" +:+ body (pre ++ k :: post)
         +:+ "</" +:+ tag +:+ ">").
Proof.
  intros Hk.
  assert (Ha : isType k NodeAttr = false)
    by (eapply isType_excl; [|exact Hk]; discriminate).
  assert (Hc : isType k NodeClass = false)
    by (eapply isType_excl; [|exact Hk]; discriminate).
  assert (Hd : decoration k = " id=" +:+ dq +:+ HTMLString k +:+ dq).
  { unfold decoration. rewrite Ha, Hk. reflexivity. }
  assert (Hcl : classAttr (pre ++ k :: post) = classAttr (pre ++ post)).
  { apply classAttr_ext. rewrite !classList_app, classList_cons_other by exact Hc.
    reflexivity. }
  assert (H1 : HTMLString (TagNode t tag (pre ++ k :: post)) =
    "<" +:+ tag +:+ decorations pre
        +:+ " id=" +:+ dq +:+ HTMLString k +:+ dq
        +:+ decorations post
        +:+ classAttr (pre ++ post) +:+ ">" +:+ body (pre ++ k :: post)
        +:+ "</" +:+ tag +:+ ">").
  { rewrite HTMLString_tag, decorations_app, decorations_cons, Hd, Hcl.
    rewrite !str_app_assoc. reflexivity. }
  split; [exact H1|].
  intros Hp. rewrite H1, (decorations_plain post Hp). reflexivity.
Qed.

Lemma id_in_child_order_witness :
  isType (newId "main") NodeId = true /\
  HTMLString divMain =
    "<" +:+ "div" +:+ decorations []
        +:+ " id=" +:+ dq +:+ HTMLString (newId "main") +:+ dq
        +:+ decorations [newAttr "data-x=1"; newAttr "data-y=2"]
        +:+ classAttr ([] ++ [newAttr "data-x=1"; newAttr "data-y=2"])
        +:+ ">" +:+ body ([] ++ newId "main" :: [newAttr "data-x=1"; newAttr "data-y=2"])
        +:+ "</" +:+ "div" +:+ ">".
Proof.
  split; [reflexivity|].
  exact (proj1 (id_in_child_order NodeTag "div" []
                  [newAttr "data-x=1"; newAttr "data-y=2"] (newId "main")
                  eq_refl)).
Defined.

Lemma decorations_no_class (ks : list Node) :
  decorations ks =
  decorations (filter (fun k => isType k NodeClass = false) ks).
Proof.
  induction ks as [|k ks IH]; [reflexivity|].
  destruct (isType k NodeClass) eqn:Hc.
  - rewrite filter_cons_False by (rewrite Hc; discriminate).
    rewrite decorations_cons, <- IH. unfold decoration.
    rewrite (isType_excl k NodeClass NodeAttr), (isType_excl k NodeClass NodeId)
      by (discriminate || exact Hc).
    reflexivity.
  - rewrite filter_cons_True by exact Hc.
    rewrite !decorations_cons, <- IH. reflexivity.
Qed.

(** C6: the payloads of the Class children of a tag are joined by
    single spaces in the order of the children, duplicates kept; the
    class attribute comes after everything the other children add to the
    opening tag, to which the Class children add nothing, and it is there
    only when the joined list is not empty.  Class children a, b, a
    render class="a b a". *)
Theorem class_aggregation (t : NodeType) (tag : string) (ks : list Node) :
  HTMLString (TagNode t tag ks) =
    "<" +:+ tag
        +:+ decorations (filter (fun k => isType k NodeClass = false) ks)
        +:+ (if 0 <? String.length
                       (String.concat " "
                          (map HTMLString
                               (filter (fun k => isType k NodeClass = true) ks)))
             then " class=" +:+ dq
                    +:+ String.concat " "
                          (map HTMLString
                               (filter (fun k => isType k NodeClass = true) ks))
                    +:+ dq
             else EmptyString)
        +:+ ">" +:+ body ks +:+ "</" +:+ tag +:+ ">" /\
  (filter (fun k => isType k NodeClass = true) ks = [] ->
   HTMLString (TagNode t tag ks) =
     "<" +:+ tag +:+ decorations ks +:+ ">" +:+ body ks +:+ "</" +:+ tag +:+ ">") /\
  HTMLString (TagNode NodeTag "p" [newClass "a"; newClass "b"; newClass "a"]) =
    "<p class=" +:+ dq +:+ "a b a" +:+ dq +:+ "></p>".
Proof.
  split; [|split].
  - rewrite HTMLString_tag, <- decorations_no_class. reflexivity.
  - intros H. rewrite HTMLString_tag. unfold classAttr, classList. rewrite H.
    reflexivity.
  - vm_compute. reflexivity.
Qed.

Lemma class_aggregation_witness :
  filter (fun k => isType k NodeClass = true) [newId "x"; newText "t"] = [] /\
  HTMLString (TagNode NodeTag "p" [newId "x"; newText "t"]) =
    "<" +:+ "p" +:+ decorations [newId "x"; newText "t"] +:+ ">"
        +:+ body [newId "x"; newText "t"] +:+ "</" +:+ "p" +:+ ">".
Proof.
  split; [reflexivity|].
  exact (proj1 (proj2 (class_aggregation NodeTag "p" [newId "x"; newText "t"]))
           eq_refl).
Defined.

Lemma not_rendered (c : Node) :
  ~ In (Type_ c) renderedKinds ->
  isType c NodeAttr = false /\ isType c NodeId = false /\
  isType c NodeClass = false /\ isType c NodeText = false /\
  isType c NodeTag = false.
Proof.
  intros H. unfold isType.
  repeat split; apply Z.eqb_neq; intros E; apply H; rewrite E;
    unfold renderedKinds; cbn; tauto.
Qed.

(** C10: a child of a tag whose kind is none of Attr, Id, Class, Text
    and Tag leaves both loops of TagNode.HTMLString as it found them, and
    the tag renders as if the child were not there. *)
Theorem other_kinds_skipped (t : NodeType) (tag : string) (pre post : list Node) (c : Node) :
  ~ In (Type_ c) renderedKinds ->
  (forall s : tagBuf, tagAttrs HTMLString s c = s) /\
  (forall buf : string, tagBody HTMLString buf c = buf) /\
  HTMLString (TagNode t tag (pre ++ c :: post)) =
  HTMLString (TagNode t tag (pre ++ post)).
Proof.
  intros H. apply not_rendered in H as (Ha & Hi & Hc & Hx & Hg).
  split; [|split].
  - intros s. unfold tagAttrs. rewrite Hc, Ha, Hi. reflexivity.
  - intros buf. unfold tagBody. rewrite Hx, Hg. reflexivity.
  - rewrite !HTMLString_tag, !decorations_app, !body_app.
    rewrite decorations_cons, body_cons.
    rewrite (classAttr_ext (pre ++ c :: post) (pre ++ post))
      by (rewrite !classList_app, classList_cons_other by exact Hc; reflexivity).
    unfold decoration, bodyPart. rewrite Ha, Hi, Hx, Hg. reflexivity.
Qed.

Lemma other_kinds_skipped_witness :
  ~ In (Type_ (newDoctype "5")) renderedKinds /\
  HTMLString (TagNode NodeTag "div" ([newText "a"] ++ newDoctype "5" :: [newList])) =
  HTMLString (TagNode NodeTag "div" ([newText "a"] ++ [newList])).
Proof.
  assert (H : ~ In (Type_ (newDoctype "5")) renderedKinds).
  { cbn. intros [E|[E|[E|[E|[E|[]]]]]]; discriminate E. }
  split; [exact H|].
  exact (proj2 (proj2 (other_kinds_skipped NodeTag "div" [newText "a"] [newList]
                         (newDoctype "5") H))).
Defined.

(** ** Copy *)

Combined Scheme repr_reprs_ind from repr_mut, reprs_mut.

Lemma lookup_alloc_old (h : heap) (c : cell) (a : loc) :
  a < length h -> (h ++ [c]) !! a = h !! a.
Proof. intros H. apply lookup_app_l. exact H. Qed.

Lemma lookup_alloc_new (h : heap) (c : cell) : (h ++ [c]) !! length h = Some c.
Proof. apply list_lookup_middle. reflexivity. Qed.

Lemma lookup_is_Some_lt (h : heap) (a : loc) (c : cell) :
  h !! a = Some c -> a < length h.
Proof. intros H. eapply lookup_lt_Some. exact H. Qed.

(** A node depends only on the cells of its footprint. *)
Lemma bytesAt_frame (h h' : heap) sl s fb :
  bytesAt h sl s fb -> (forall a, a ∈ fb -> h' !! a = h !! a) ->
  bytesAt h' sl s fb.
Proof.
  intros [|a s' H] Hf; constructor.
  rewrite Hf by set_solver. exact H.
Qed.

Lemma elemsAt_frame (h h' : heap) sl ps fa :
  elemsAt h sl ps fa -> (forall a, a ∈ fa -> h' !! a = h !! a) ->
  elemsAt h' sl ps fa.
Proof.
  intros [|a ps' H] Hf; constructor.
  rewrite Hf by set_solver. exact H.
Qed.

Lemma repr_reprs_frame (h : heap) :
  (forall p n fp, repr h p n fp ->
     forall h', (forall a, a ∈ fp -> h' !! a = h !! a) -> repr h' p n fp) /\
  (forall ps ns fs, reprs h ps ns fs ->
     forall h', (forall a, a ∈ fs -> h' !! a = h !! a) -> reprs h' ps ns fs).
Proof.
  apply repr_reprs_ind.
  - intros p k t sl s fb Hp Hb h' Hf.
    apply repr_leaf with sl.
    + rewrite Hf by set_solver. exact Hp.
    + eapply bytesAt_frame; [exact Hb|]. intros a Ha. apply Hf. set_solver.
  - intros p t sl ps ns fa fs Hp Ha _ IH h' Hf.
    apply repr_list with sl ps.
    + rewrite Hf by set_solver. exact Hp.
    + eapply elemsAt_frame; [exact Ha|]. intros a Hin. apply Hf. set_solver.
    + apply IH. intros a Hin. apply Hf. set_solver.
  - intros p t tg tag fb sl ps ns fa fs Hp Hb Ha _ IH h' Hf.
    apply repr_tag with tg sl ps.
    + rewrite Hf by set_solver. exact Hp.
    + eapply bytesAt_frame; [exact Hb|]. intros a Hin. apply Hf. set_solver.
    + eapply elemsAt_frame; [exact Ha|]. intros a Hin. apply Hf. set_solver.
    + apply IH. intros a Hin. apply Hf. set_solver.
  - intros h' _. constructor.
  - intros p ps n ns f fs _ IH1 _ IH2 h' Hf. constructor.
    + apply IH1. intros a Hin. apply Hf. set_solver.
    + apply IH2. intros a Hin. apply Hf. set_solver.
Qed.

Lemma repr_frame (h h' : heap) p n fp :
  repr h p n fp -> (forall a, a ∈ fp -> h' !! a = h !! a) -> repr h' p n fp.
Proof. intros H Hf. exact (proj1 (repr_reprs_frame h) p n fp H h' Hf). Qed.

Lemma reprs_frame (h h' : heap) ps ns fs :
  reprs h ps ns fs -> (forall a, a ∈ fs -> h' !! a = h !! a) -> reprs h' ps ns fs.
Proof. intros H Hf. exact (proj2 (repr_reprs_frame h) ps ns fs H h' Hf). Qed.

(** The footprint of a node lies in the store. *)
Lemma bytesAt_bound (h : heap) sl s fb :
  bytesAt h sl s fb -> forall a, a ∈ fb -> a < length h.
Proof.
  intros [|a s' H] x Hx; [set_solver|].
  apply list_elem_of_singleton in Hx as ->. eapply lookup_is_Some_lt, H.
Qed.

Lemma elemsAt_bound (h : heap) sl ps fa :
  elemsAt h sl ps fa -> forall a, a ∈ fa -> a < length h.
Proof.
  intros [|a ps' H] x Hx; [set_solver|].
  apply list_elem_of_singleton in Hx as ->. eapply lookup_is_Some_lt, H.
Qed.

Lemma repr_reprs_bound (h : heap) :
  (forall p n fp, repr h p n fp -> forall a, a ∈ fp -> a < length h) /\
  (forall ps ns fs, reprs h ps ns fs -> forall a, a ∈ fs -> a < length h).
Proof.
  apply repr_reprs_ind.
  - intros p k t sl s fb Hp Hb a Ha.
    apply elem_of_cons in Ha as [->|Ha]; [eapply lookup_is_Some_lt, Hp|].
    eapply bytesAt_bound; eauto.
  - intros p t sl ps ns fa fs Hp Ha _ IH a Hin.
    apply elem_of_cons in Hin as [->|Hin]; [eapply lookup_is_Some_lt, Hp|].
    apply elem_of_app in Hin as [Hin|Hin]; [eapply elemsAt_bound; eauto|].
    apply IH, Hin.
  - intros p t tg tag fb sl ps ns fa fs Hp Hb Ha _ IH a Hin.
    apply elem_of_cons in Hin as [->|Hin]; [eapply lookup_is_Some_lt, Hp|].
    apply elem_of_app in Hin as [Hin|Hin]; [eapply bytesAt_bound; eauto|].
    apply elem_of_app in Hin as [Hin|Hin]; [eapply elemsAt_bound; eauto|].
    apply IH, Hin.
  - intros a Ha. set_solver.
  - intros p ps n ns f fs _ IH1 _ IH2 a Hin.
    apply elem_of_app in Hin as [Hin|Hin]; [apply IH1|apply IH2]; exact Hin.
Qed.

Lemma repr_bound (h : heap) p n fp a :
  repr h p n fp -> a ∈ fp -> a < length h.
Proof. intros H Ha. exact (proj1 (repr_reprs_bound h) p n fp H a Ha). Qed.

Lemma reprs_bound (h : heap) ps ns fs a :
  reprs h ps ns fs -> a ∈ fs -> a < length h.
Proof. intros H Ha. exact (proj2 (repr_reprs_bound h) ps ns fs H a Ha). Qed.

(** The value of a copy. *)
Lemma clone_children (ns : list Node) : forall t acc,
  fold_left (fun l k => append l (clone k)) ns (ListNode t acc) =
  ListNode t (acc ++ map clone ns).
Proof.
  induction ns as [|k ns IH]; intros t acc; cbn [fold_left map].
  - rewrite List.app_nil_r. reflexivity.
  - cbn [append]. rewrite IH, <- List.app_assoc. reflexivity.
Qed.

Lemma clone_tag_children (ns : list Node) : forall t tag acc,
  fold_left (fun l k => append l (clone k)) ns (TagNode t tag acc) =
  TagNode t tag (acc ++ map clone ns).
Proof.
  induction ns as [|k ns IH]; intros t tag acc; cbn [fold_left map].
  - rewrite List.app_nil_r. reflexivity.
  - cbn [append]. rewrite IH, <- List.app_assoc. reflexivity.
Qed.

Lemma clone_list (t : NodeType) (ns : list Node) :
  clone (ListNode t ns) = ListNode NodeList (map clone ns).
Proof. cbn [clone]. unfold newList. rewrite clone_children. reflexivity. Qed.

Lemma clone_tag (t : NodeType) (tag : string) (ns : list Node) :
  clone (TagNode t tag ns) = TagNode NodeTag tag (map clone ns).
Proof. cbn [clone]. unfold newTag. rewrite clone_tag_children. reflexivity. Qed.

Lemma clone_leaf (k : leafKind) (t : NodeType) (s : string) :
  clone (leafNode k t s) = leafNode k (leafType k) s.
Proof. destruct k; reflexivity. Qed.

Lemma depth_leaf (k : leafKind) (t : NodeType) (s : string) :
  depth (leafNode k t s) = 0.
Proof. destruct k; reflexivity. Qed.

Lemma setNodes_same (c : cell) (sl : option loc) :
  nodesOf c = Some sl -> setNodes c sl = c.
Proof. destruct c; cbn; congruence. Qed.

Lemma setNodes_twice (c : cell) (sl sl' : option loc) :
  setNodes (setNodes c sl) sl' = setNodes c sl'.
Proof. destruct c; reflexivity. Qed.

Lemma nodesOf_setNodes (c : cell) (sl sl' : option loc) :
  nodesOf c = Some sl -> nodesOf (setNodes c sl') = Some sl'.
Proof. destruct c; cbn; congruence. Qed.

Lemma elemsOf_elemsAt (h : heap) sl ps fa :
  elemsAt h sl ps fa -> elemsOf h sl = Ret ps.
Proof. intros [|a ps' H]; cbn; [reflexivity|]. rewrite H. reflexivity. Qed.

Lemma bytesOf_bytesAt (h : heap) sl s fb :
  bytesAt h sl s fb -> bytesOf h sl = Ret s.
Proof. intros [|a s' H]; cbn; [reflexivity|]. rewrite H. reflexivity. Qed.

Lemma appendAt_spec (h : heap) (q c : loc) cq slq qs fa :
  h !! q = Some cq -> nodesOf cq = Some slq -> elemsAt h slq qs fa ->
  appendAt h q c =
  Ret (<[q := setNodes cq (Some (length h))]> (h ++ [Elems (qs ++ [c])])).
Proof.
  intros Hq Hn He. unfold appendAt. rewrite Hq.
  destruct cq; cbn in Hn; try discriminate; injection Hn as ->;
    rewrite (elemsOf_elemsAt _ _ _ _ He); reflexivity.
Qed.

(** The store after [n.append(c)]. *)
Section Appended.
Variables (h : heap) (q : loc) (cq e : cell).
Hypothesis Hq : q < length h.

Let h2 : heap := <[q := cq]> (h ++ [e]).

Lemma appended_length : length h2 = S (length h).
Proof. unfold h2. rewrite length_insert, length_app. cbn. lia. Qed.

Lemma appended_struct : h2 !! q = Some cq.
Proof.
  unfold h2. apply list_lookup_insert_eq. rewrite length_app. cbn. lia.
Qed.

Lemma appended_other (a : loc) : a <> q -> a < length h -> h2 !! a = h !! a.
Proof.
  intros Hne Ha. unfold h2.
  rewrite list_lookup_insert_ne by congruence.
  apply lookup_alloc_old, Ha.
Qed.

Lemma appended_array : h2 !! length h = Some e.
Proof.
  unfold h2. rewrite list_lookup_insert_ne by lia. apply lookup_alloc_new.
Qed.
End Appended.

Lemma depthsBelow_children (n : nat) (ns : list Node) :
  fold_right (fun k d => Nat.max (depth k) d) 0 ns < n -> depthsBelow n ns.
Proof.
  induction ns as [|k ns IH]; intros H; constructor; cbn [fold_right] in H.
  - lia.
  - apply IH. lia.
Qed.

Lemma Copy_copies (h : heap) :
  (forall p n fp, repr h p n fp -> copies h p n fp) /\
  (forall ps ns fs, reprs h ps ns fs -> copiesAll h ps ns fs).
Proof.
  apply repr_reprs_ind.
  - (* a leaf *)
    intros p k t sl s fb Hp Hb hx fuel Hagree Hfuel.
    destruct fuel as [|n]; [lia|].
    assert (Hp' : hx !! p = Some (LeafStruct k t sl))
      by (rewrite Hagree by set_solver; exact Hp).
    assert (Hb' : bytesAt hx sl s fb).
    { eapply bytesAt_frame; [exact Hb|]. intros a Ha. apply Hagree. set_solver. }
    exists ((hx ++ [Bytes s]) ++ [LeafStruct k (leafType k) (Some (length hx))]),
           (length (hx ++ [Bytes s])), [S (length hx); length hx].
    split.
    { cbn [Copy]. rewrite Hp'. unfold CopyLeaf.
      rewrite (bytesOf_bytesAt _ _ _ _ Hb'). reflexivity. }
    split.
    { intros a Ha. rewrite !lookup_app_l; [reflexivity | exact Ha |].
      rewrite length_app. cbn. lia. }
    split; [rewrite !length_app; cbn; lia|].
    split.
    { rewrite clone_leaf.
      replace (length (hx ++ [Bytes s])) with (S (length hx))
        by (rewrite length_app; cbn; lia).
      apply repr_leaf with (Some (length hx)).
      - replace (S (length hx)) with (length (hx ++ [Bytes s]))
          by (rewrite length_app; cbn; lia).
        apply lookup_alloc_new.
      - constructor. rewrite lookup_alloc_old by (rewrite length_app; cbn; lia).
        apply lookup_alloc_new. }
    intros a Ha.
    repeat (apply elem_of_cons in Ha as [->|Ha]; [lia|]).
    apply elem_of_nil in Ha. destruct Ha.
  - (* a list *)
    intros p t sl ps ns fa fs Hp Ha Hrs IH hx fuel Hagree Hfuel.
    destruct fuel as [|n]; [lia|].
    cbn [depth] in Hfuel.
    assert (Hp' : hx !! p = Some (ListStruct t sl))
      by (rewrite Hagree by set_solver; exact Hp).
    assert (Ha' : elemsAt hx sl ps fa).
    { eapply elemsAt_frame; [exact Ha|]. intros a Hin. apply Hagree. set_solver. }
    assert (Hlt : forall a, a ∈ fs -> a < length hx).
    { intros a Hin. pose proof (reprs_bound _ _ _ _ a Hrs Hin) as Hb.
      apply lookup_lt_is_Some. rewrite Hagree by set_solver.
      apply lookup_lt_is_Some. exact Hb. }
    set (h1 := hx ++ [ListStruct NodeList None]).
    destruct (IH h1 n (length hx) (ListStruct NodeList None) None [] [] (length hx))
      as (hx' & slq' & cs & fa' & fcs & Hrun & Hkeep & Hlen & Hq & Hel & Hfa & Hcs & Hfcs).
    { intros a Hin. unfold h1. rewrite lookup_alloc_old by (apply Hlt, Hin).
      apply Hagree. set_solver. }
    { intros Hin. apply Hlt in Hin. lia. }
    { apply depthsBelow_children. lia. }
    { apply lookup_alloc_new. }
    { reflexivity. }
    { constructor. }
    { unfold h1. rewrite length_app. cbn. lia. }
    { intros a Hin. set_solver. }
    assert (Hl1 : length h1 = S (length hx))
      by (unfold h1; rewrite length_app; cbn; lia).
    exists hx', (length hx), (length hx :: fa' ++ fcs).
    split.
    { cbn [Copy]. rewrite Hp'. unfold CopyList, alloc. fold h1.
      assert (He : elemsOf h1 sl = Ret ps).
      { apply elemsOf_elemsAt with fa. eapply elemsAt_frame; [exact Ha'|].
        intros a Hin. unfold h1. apply lookup_alloc_old.
        eapply elemsAt_bound; eauto. }
      rewrite He. cbn [mbind result_bind]. rewrite Hrun. reflexivity. }
    split.
    { intros a Hlta. rewrite Hkeep by lia. apply lookup_alloc_old, Hlta. }
    split; [lia|].
    split.
    { rewrite clone_list. apply repr_list with slq' cs; assumption. }
    intros a Hin. apply elem_of_cons in Hin as [->|Hin]; [lia|].
    apply elem_of_app in Hin as [Hin|Hin]; [apply Hfa, Hin|].
    apply Hfcs in Hin. lia.
  - (* a tag *)
    intros p t tg tag fb sl ps ns fa fs Hp Hb Ha Hrs IH hx fuel Hagree Hfuel.
    destruct fuel as [|n]; [lia|].
    cbn [depth] in Hfuel.
    assert (Hp' : hx !! p = Some (TagStruct t tg sl))
      by (rewrite Hagree by set_solver; exact Hp).
    assert (Hb' : bytesAt hx tg tag fb).
    { eapply bytesAt_frame; [exact Hb|]. intros a Hin. apply Hagree. set_solver. }
    assert (Ha' : elemsAt hx sl ps fa).
    { eapply elemsAt_frame; [exact Ha|]. intros a Hin. apply Hagree. set_solver. }
    assert (Hlt : forall a, a ∈ fs -> a < length hx).
    { intros a Hin. pose proof (reprs_bound _ _ _ _ a Hrs Hin) as Hbd.
      apply lookup_lt_is_Some. rewrite Hagree by set_solver.
      apply lookup_lt_is_Some. exact Hbd. }
    set (h0 := hx ++ [Bytes tag]).
    set (h1 := h0 ++ [TagStruct NodeTag (Some (length hx)) None]).
    assert (Hl0 : length h0 = S (length hx))
      by (unfold h0; rewrite length_app; cbn; lia).
    assert (Hl1 : length h1 = S (S (length hx)))
      by (unfold h1; rewrite length_app, Hl0; cbn; lia).
    assert (Hold : forall a, a < length hx -> h1 !! a = hx !! a).
    { intros a Hlta. unfold h1, h0. rewrite !lookup_app_l; [reflexivity|lia|].
      rewrite length_app. lia. }
    destruct (IH h1 n (length h0) (TagStruct NodeTag (Some (length hx)) None)
                 None [] [] (length hx))
      as (hx' & slq' & cs & fa' & fcs & Hrun & Hkeep & Hlen & Hq & Hel & Hfa & Hcs & Hfcs).
    { intros a Hin. rewrite Hold by (apply Hlt, Hin). apply Hagree. set_solver. }
    { intros Hin. apply Hlt in Hin. lia. }
    { apply depthsBelow_children. lia. }
    { apply lookup_alloc_new. }
    { reflexivity. }
    { constructor. }
    { lia. }
    { intros a Hin. set_solver. }
    exists hx', (length h0), (length h0 :: [length hx] ++ fa' ++ fcs).
    split.
    { cbn [Copy]. rewrite Hp'. unfold CopyTag.
      rewrite (bytesOf_bytesAt _ _ _ _ Hb'). cbn [mbind result_bind].
      unfold newBytes, alloc. cbv beta iota zeta. fold h0.
      change (h0 ++ [TagStruct NodeTag (Some (length hx)) None]) with h1.
      assert (He : elemsOf h1 sl = Ret ps).
      { apply elemsOf_elemsAt with fa. eapply elemsAt_frame; [exact Ha'|].
        intros a Hin. apply Hold. eapply elemsAt_bound; eauto. }
      rewrite He. cbn [mbind result_bind]. rewrite Hrun. reflexivity. }
    split.
    { intros a Hlta. rewrite Hkeep by lia. apply Hold, Hlta. }
    split; [lia|].
    split.
    { rewrite clone_tag. apply repr_tag with (Some (length hx)) slq' cs; try assumption.
      constructor. rewrite Hkeep by lia.
      unfold h1. rewrite lookup_alloc_old by lia. apply lookup_alloc_new. }
    intros a Hin. apply elem_of_cons in Hin as [->|Hin]; [lia|].
    apply elem_of_app in Hin as [Hin|Hin].
    { apply list_elem_of_singleton in Hin as ->. lia. }
    apply elem_of_app in Hin as [Hin|Hin]; [apply Hfa, Hin|].
    apply Hfcs in Hin. lia.
  - (* no element *)
    intros hx n q cq slq qs fa L _ _ _ Hq Hn He HL Hfa.
    exists hx, slq, [], fa, [].
    split; [reflexivity|].
    split; [reflexivity|].
    split; [lia|].
    split; [rewrite setNodes_same by exact Hn; exact Hq|].
    split; [rewrite List.app_nil_r; exact He|].
    split; [exact Hfa|].
    split; [constructor|].
    intros a Hin. set_solver.
  - (* one more element *)
    intros p ps k ns f fs Hr IHk Hrs IHs hx n q cq slq qs fa L
           Hagree Hnq Hdepth Hq Hn He HL Hfa.
    apply Forall_cons in Hdepth as [Hdk Hdepth].
    assert (Hqlt : q < length hx) by (eapply lookup_is_Some_lt, Hq).
    assert (Hlt : forall a, a ∈ f ++ fs -> a < length hx).
    { intros a Hin. apply lookup_lt_is_Some. rewrite Hagree by exact Hin.
      apply lookup_lt_is_Some. apply elem_of_app in Hin as [Hin|Hin].
      - eapply repr_bound; eauto.
      - eapply reprs_bound; eauto. }
    destruct (IHk hx n) as (h1 & c & fc & Hrun1 & Hkeep1 & Hlen1 & Hc & Hfc);
      [intros a Hin; apply Hagree; set_solver | exact Hdk |].
    assert (Hq1 : h1 !! q = Some cq) by (rewrite Hkeep1 by exact Hqlt; exact Hq).
    assert (He1 : elemsAt h1 slq qs fa).
    { eapply elemsAt_frame; [exact He|]. intros a Hin. apply Hkeep1.
      eapply elemsAt_bound; eauto. }
    set (h2 := <[q := setNodes cq (Some (length h1))]> (h1 ++ [Elems (qs ++ [c])])).
    assert (Hqlt1 : q < length h1) by lia.
    assert (Hl2 : length h2 = S (length h1)) by (apply appended_length; exact Hqlt1).
    destruct (IHs h2 n q (setNodes cq (Some (length h1))) (Some (length h1))
                  (qs ++ [c]) [length h1] L)
      as (hx' & slq' & cs & fa' & fcs & Hrun & Hkeep & Hlen & Hq' & Hel & Hfa' & Hcs & Hfcs).
    { intros a Hin.
      assert (Hlta : a < length hx) by (apply Hlt; set_solver).
      assert (Hne : a <> q) by (intros ->; set_solver).
      unfold h2. rewrite appended_other by (assumption || lia).
      rewrite Hkeep1 by exact Hlta. apply Hagree. set_solver. }
    { set_solver. }
    { exact Hdepth. }
    { apply appended_struct. exact Hqlt1. }
    { eapply nodesOf_setNodes. exact Hn. }
    { constructor. apply appended_array. exact Hqlt1. }
    { lia. }
    { intros a Hin. apply list_elem_of_singleton in Hin as ->. lia. }
    exists hx', slq', (c :: cs), fa', (fc ++ fcs).
    split.
    { cbn [copyElems]. rewrite Hrun1. cbn [mbind result_bind].
      rewrite (appendAt_spec h1 q c cq slq qs fa Hq1 Hn He1).
      cbn [mbind result_bind]. exact Hrun. }
    split.
    { intros a Hlta Hne. rewrite Hkeep by lia.
      unfold h2. rewrite appended_other by (congruence || lia).
      apply Hkeep1, Hlta. }
    split; [lia|].
    split; [rewrite setNodes_twice in Hq'; exact Hq'|].
    split; [rewrite <- List.app_assoc in Hel; exact Hel|].
    split; [exact Hfa'|].
    split.
    { cbn [map]. constructor; [|exact Hcs].
      eapply repr_frame; [exact Hc|]. intros a Hin.
      pose proof (Hfc a Hin) as Hge.
      pose proof (repr_bound _ _ _ _ a Hc Hin) as Hlt1.
      rewrite Hkeep by lia. unfold h2. apply appended_other; lia. }
    intros a Hin. apply elem_of_app in Hin as [Hin|Hin].
    + apply Hfc, Hin.
    + apply Hfcs in Hin. lia.
Qed.

(** Induction on a node and, with it, on its children. *)
Section NodeInduction.
Variable P : Node -> Prop.
Hypothesis Hlist : forall t ns, Forall P ns -> P (ListNode t ns).
Hypothesis Htag : forall t tag ns, Forall P ns -> P (TagNode t tag ns).
Hypothesis Htext : forall t s, P (TextNode t s).
Hypothesis Hdoctype : forall t s, P (DoctypeNode t s).
Hypothesis Hattr : forall t s, P (AttrNode t s).
Hypothesis Hid : forall t s, P (IdNode t s).
Hypothesis Hclass : forall t s, P (ClassNode t s).

Fixpoint Node_children_ind (n : Node) : P n :=
  let all :=
    fix all (ns : list Node) : Forall P ns :=
      match ns with
      | [] => List.Forall_nil P
      | k :: ns' => @List.Forall_cons Node P k ns' (Node_children_ind k) (all ns')
      end in
  match n with
  | ListNode t ns => Hlist t ns (all ns)
  | TagNode t tag ns => Htag t tag ns (all ns)
  | TextNode t s => Htext t s
  | DoctypeNode t s => Hdoctype t s
  | AttrNode t s => Hattr t s
  | IdNode t s => Hid t s
  | ClassNode t s => Hclass t s
  end.
End NodeInduction.

Lemma clone_all_wellTagged (ns : list Node) :
  Forall (fun k => wellTagged k = true -> clone k = k) ns ->
  forallb wellTagged ns = true -> map clone ns = ns.
Proof.
  induction 1 as [|k ns Hk _ IH]; [reflexivity|].
  cbn [forallb map]. intros [H1 H2]%andb_true_iff.
  rewrite Hk, IH by assumption. reflexivity.
Qed.

(** On the nodes that the constructors make, Copy gives the value of
    the node itself. *)
Lemma clone_wellTagged (n : Node) : wellTagged n = true -> clone n = n.
Proof.
  induction n as [t ns IH|t tag ns IH|t s|t s|t s|t s|t s] using Node_children_ind;
    cbn [wellTagged]; intros H.
  - apply andb_true_iff in H as [Ht Hns]. apply Z.eqb_eq in Ht as ->.
    rewrite clone_list, clone_all_wellTagged by assumption. reflexivity.
  - apply andb_true_iff in H as [Ht Hns]. apply Z.eqb_eq in Ht as ->.
    rewrite clone_tag, clone_all_wellTagged by assumption. reflexivity.
  - apply Z.eqb_eq in H as ->. reflexivity.
  - apply Z.eqb_eq in H as ->. reflexivity.
  - apply Z.eqb_eq in H as ->. reflexivity.
  - apply Z.eqb_eq in H as ->. reflexivity.
  - apply Z.eqb_eq in H as ->. reflexivity.
Qed.

(** Whatever the NodeType fields hold, the text of the copy is the text
    of the node. *)
Lemma String_clone (n : Node) : String_ (clone n) = String_ n.
Proof.
  induction n as [t ns IH|t tag ns IH|t s|t s|t s|t s|t s] using Node_children_ind;
    try reflexivity.
  - rewrite clone_list. cbn [String_].
    generalize EmptyString. induction IH as [|k ns Hk _ IHns]; intros acc.
    + reflexivity.
    + cbn [map fold_left]. rewrite Hk. apply IHns.
  - rewrite clone_tag. reflexivity.
Qed.

(** C9, as stated, fails: Copy sets the NodeType of every struct it
    makes to the constant of its kind, whatever the original holds.  The
    copy of a div whose child is a TextNode with the NodeType NodeClass
    has a child with the NodeType NodeText: the original renders the
    child as the class of the div, the copy renders it as its text. *)
Lemma Copy_retags_counterexample :
  repr retaggedStore 4 retaggedDiv (4 :: [0] ++ [3] ++ ([2; 1] ++ [])) /\
  (exists (h' : heap) (q : loc) (fq : list loc),
     Copy (S (depth retaggedDiv)) retaggedStore 4 = Ret (h', q) /\
     repr h' q retaggedCopy fq) /\
  HTMLString retaggedDiv = "<div class=" +:+ dq +:+ "x" +:+ dq +:+ "></div>" /\
  HTMLString retaggedCopy = "<div>x</div>" /\
  HTMLString retaggedCopy <> HTMLString retaggedDiv /\
  map Type_ [TextNode NodeClass "x"] <> map Type_ [TextNode NodeText "x"].
Proof.
  assert (Hr : repr retaggedStore 4 retaggedDiv (4 :: [0] ++ [3] ++ ([2; 1] ++ []))).
  { apply repr_tag with (Some 0) (Some 3) [2].
    - reflexivity.
    - constructor. reflexivity.
    - constructor. reflexivity.
    - constructor; [|constructor].
      apply (repr_leaf retaggedStore 2 KText NodeClass (Some 1) "x" [1]);
        [reflexivity | constructor; reflexivity]. }
  split; [exact Hr|]. split.
  - destruct (proj1 (Copy_copies retaggedStore) 4 retaggedDiv _ Hr retaggedStore
                (S (depth retaggedDiv)))
      as (h' & q & fq & Hrun & _ & _ & Hq & _); [reflexivity | lia |].
    exists h', q, fq. split; [exact Hrun | exact Hq].
  - split; [vm_compute; reflexivity|].
    split; [vm_compute; reflexivity|].
    split; vm_compute; discriminate.
Qed.

(** C9, amended: Copy, called on a node of the store whose NodeType
    fields hold the constants of their kinds (as newList, newTag,
    newText and the other constructors, and Copy itself, set them),
    returns; the store then holds at the pointer it returns a node of
    the same value (the same kind, payload and children, copied in
    order), so that the copy has the Type, the String and the HTMLString
    of the original; the cells of the original are as they were; and no
    cell of the copy (its struct, the backing arrays of its slices, the
    cells of its children) is a cell of the original. *)
Theorem Copy_deep (h : heap) (p : loc) (n : Node) (fp : list loc) :
  repr h p n fp ->
  wellTagged n = true ->
  exists (h' : heap) (q : loc) (fq : list loc),
    Copy (S (depth n)) h p = Ret (h', q) /\
    repr h' q (clone n) fq /\
    clone n = n /\
    Type_ (clone n) = Type_ n /\
    String_ (clone n) = String_ n /\
    HTMLString (clone n) = HTMLString n /\
    repr h' p n fp /\
    (forall a, a < length h -> h' !! a = h !! a) /\
    (forall a, a ∈ fq -> a ∉ fp).
Proof.
  intros Hr Hw.
  destruct (proj1 (Copy_copies h) p n fp Hr h (S (depth n)))
    as (h' & q & fq & Hrun & Hkeep & Hlen & Hq & Hfq); [reflexivity | lia |].
  pose proof (clone_wellTagged n Hw) as Hc.
  exists h', q, fq.
  split; [exact Hrun|].
  split; [exact Hq|].
  split; [exact Hc|].
  rewrite Hc.
  repeat (split; [reflexivity|]).
  split.
  { eapply repr_frame; [exact Hr|]. intros a Ha. apply Hkeep.
    eapply repr_bound; eauto. }
  split; [exact Hkeep|].
  intros a Ha Hin. apply Hfq in Ha.
  pose proof (repr_bound _ _ _ _ a Hr Hin). lia.
Qed.

Lemma divStore_repr :
  repr divStore 6 divNode (6 :: [0] ++ [5] ++ ([2; 1] ++ [4; 3] ++ [])).
Proof.
  apply repr_tag with (Some 0) (Some 5) [2; 4].
  - reflexivity.
  - constructor. reflexivity.
  - constructor. reflexivity.
  - constructor.
    + apply (repr_leaf divStore 2 KId NodeId (Some 1) "main" [1]);
        [reflexivity | constructor; reflexivity].
    + constructor; [|constructor].
      apply (repr_leaf divStore 4 KText NodeText (Some 3) "hello" [3]);
        [reflexivity | constructor; reflexivity].
Defined.

Lemma Copy_deep_witness :
  exists (h' : heap) (q : loc) (fq : list loc),
    Copy (S (depth divNode)) divStore 6 = Ret (h', q) /\
    repr h' q (clone divNode) fq /\
    clone divNode = divNode /\
    Type_ (clone divNode) = Type_ divNode /\
    String_ (clone divNode) = String_ divNode /\
    HTMLString (clone divNode) = HTMLString divNode /\
    repr h' 6 divNode (6 :: [0] ++ [5] ++ ([2; 1] ++ [4; 3] ++ [])) /\
    (forall a, a < length divStore -> h' !! a = divStore !! a) /\
    (forall a, a ∈ fq -> a ∉ 6 :: [0] ++ [5] ++ ([2; 1] ++ [4; 3] ++ [])).
Proof.
  exact (Copy_deep divStore 6 divNode _ divStore_repr eq_refl).
Defined.

(** *** Nodes with any NodeType *)

Lemma wellTagged_clone (n : Node) : wellTagged (clone n) = true.
Proof.
  induction n as [t ns IH|t tag ns IH|t s|t s|t s|t s|t s] using Node_children_ind;
    try reflexivity.
  - rewrite clone_list. cbn [wellTagged]. rewrite Z.eqb_refl. cbn [andb].
    induction IH as [|k ns Hk _ IHns]; [reflexivity|].
    cbn [map forallb]. rewrite Hk, IHns. reflexivity.
  - rewrite clone_tag. cbn [wellTagged]. rewrite Z.eqb_refl. cbn [andb].
    induction IH as [|k ns Hk _ IHns]; [reflexivity|].
    cbn [map forallb]. rewrite Hk, IHns. reflexivity.
Qed.

(** Copy on a node whose NodeType fields hold anything: it returns a
    node with the payloads and the children of the original, and with
    the NodeType of each struct set to the one of its kind; its String
    is the String of the original; the original is as it was; and every
    cell of the copy is a new one, allocated behind the cells that the
    store had before the call, so that none is a cell of the
    original. *)
Theorem Copy_any_tags (h : heap) (p : loc) (n : Node) (fp : list loc) :
  repr h p n fp ->
  exists (h' : heap) (q : loc) (fq : list loc),
    Copy (S (depth n)) h p = Ret (h', q) /\
    repr h' q (clone n) fq /\
    wellTagged (clone n) = true /\
    String_ (clone n) = String_ n /\
    repr h' p n fp /\
    (forall a, a ∈ fq -> length h <= a) /\
    (forall a, a ∈ fq -> a ∉ fp).
Proof.
  intros Hr.
  destruct (proj1 (Copy_copies h) p n fp Hr h (S (depth n)))
    as (h' & q & fq & Hrun & Hkeep & Hlen & Hq & Hfq); [reflexivity | lia |].
  exists h', q, fq.
  split; [exact Hrun|].
  split; [exact Hq|].
  split; [apply wellTagged_clone|].
  split; [apply String_clone|].
  split.
  { eapply repr_frame; [exact Hr|]. intros a Ha. apply Hkeep.
    eapply repr_bound; eauto. }
  split; [exact Hfq|].
  intros a Ha Hin. apply Hfq in Ha.
  pose proof (repr_bound _ _ _ _ a Hr Hin). lia.
Qed.

Lemma mistagged_repr :
  repr [Bytes "x"; LeafStruct KText NodeClass (Some 0)] 1
       (TextNode NodeClass "x") [1; 0].
Proof.
  apply (repr_leaf _ 1 KText NodeClass (Some 0) "x" [0]);
    [reflexivity | constructor; reflexivity].
Defined.

Lemma Copy_any_tags_witness :
  exists (h' : heap) (q : loc) (fq : list loc),
    Copy (S (depth (TextNode NodeClass "x")))
         [Bytes "x"; LeafStruct KText NodeClass (Some 0)] 1 = Ret (h', q) /\
    repr h' q (clone (TextNode NodeClass "x")) fq /\
    wellTagged (clone (TextNode NodeClass "x")) = true /\
    String_ (clone (TextNode NodeClass "x")) = String_ (TextNode NodeClass "x") /\
    repr h' 1 (TextNode NodeClass "x") [1; 0] /\
    (forall a, a ∈ fq ->
       length [Bytes "x"; LeafStruct KText NodeClass (Some 0)] <= a) /\
    (forall a, a ∈ fq -> a ∉ [1; 0]).
Proof.
  exact (Copy_any_tags _ 1 (TextNode NodeClass "x") [1; 0] mistagged_repr).
Defined.

(** ** The scanner *)

Lemma nextItem_step n l f :
  items l = [] -> state l = Some f ->
  nextItem (S n) l = '(l1, s) ← call n f l; nextItem n (set_state l1 s).
Proof. intros Hq Hs. cbn [nextItem]. rewrite Hq, Hs. reflexivity. Qed.

Lemma nextItem_recv n l it q :
  items l = it :: q -> nextItem n l = Ret (it, set_items l q).
Proof. intros Hq. destruct n; cbn [nextItem]; rewrite Hq; reflexivity. Qed.

Lemma nextItem_nil n l :
  items l = [] -> state l = None -> nextItem (S n) l = Panic NilFuncCall.
Proof. intros Hq Hs. cbn [nextItem]. rewrite Hq, Hs. reflexivity. Qed.

(** *** More fuel changes no result *)

Lemma lexAttr_loop_mono n : forall m l r,
  lexAttr_loop n l = Ret r -> n <= m -> lexAttr_loop m l = Ret r.
Proof.
  induction n as [|n IH]; intros m l r H Hle; [discriminate|].
  destruct m as [|m]; [lia|].
  cbn [lexAttr_loop] in *.
  destruct (lexAttr_body l) as [[l1|l1]| | |]; cbn [mbind result_bind] in *;
    try discriminate.
  - apply IH; [exact H | lia].
  - exact H.
Qed.

Lemma call_mono n m f l r :
  call n f l = Ret r -> n <= m -> call m f l = Ret r.
Proof.
  destruct f; cbn [call]; try (intros H _; exact H).
  unfold lexAttr_fn. intros H Hle.
  destruct (lexAttr_loop n l) as [l0| | |] eqn:E; cbn [mbind result_bind] in H;
    try discriminate.
  rewrite (lexAttr_loop_mono n m l l0 E Hle). exact H.
Qed.

Lemma nextItem_mono n : forall m l r,
  nextItem n l = Ret r -> n <= m -> nextItem m l = Ret r.
Proof.
  induction n as [|n IH]; intros m l r H Hle.
  - cbn [nextItem] in H. destruct (items l) as [|it q] eqn:Hq; [discriminate|].
    rewrite (nextItem_recv m l it q Hq). exact H.
  - destruct m as [|m]; [lia|].
    cbn [nextItem] in *. destruct (items l) as [|it q]; [|exact H].
    destruct (state l) as [f|]; [|discriminate].
    destruct (call n f l) as [[l1 s]| | |] eqn:E; cbn [mbind result_bind] in H;
      try discriminate.
    rewrite (call_mono n m f l (l1, s) E) by lia. cbn [mbind result_bind].
    apply IH; [exact H | lia].
Qed.

(** *** Strings *)

Lemma str_drop_nil n : Strings.drop n EmptyString = EmptyString.
Proof. destruct n; reflexivity. Qed.

Lemma str_get_drop (s : string) : forall i,
  String.get i s =
  match Strings.drop i s with String c _ => Some c | EmptyString => None end.
Proof.
  induction s as [|c s IH]; intros [|i]; cbn; try reflexivity. apply IH.
Qed.

Lemma str_take_all (s : string) : Strings.take (String.length s) s = s.
Proof. induction s as [|c s IH]; cbn; [reflexivity|]. rewrite IH. reflexivity. Qed.

Lemma str_length_drop (s : string) : forall n,
  String.length (Strings.drop n s) = String.length s - n.
Proof.
  induction s as [|c s IH]; intros [|n]; cbn; try reflexivity. apply IH.
Qed.

Lemma from_drop (s : string) (lo : nat) :
  lo <= Strings.len s -> Strings.from s lo = Ret (Strings.drop lo s).
Proof.
  intros H. unfold Strings.from, Strings.slice, Strings.len in *.
  destruct (Nat.leb_spec lo (String.length s)); [|lia].
  rewrite Nat.leb_refl. cbn [andb].
  rewrite <- str_length_drop, str_take_all. reflexivity.
Qed.

Lemma prefix_cons (c : ascii) (p s : string) :
  String.prefix (String c p) s = true ->
  exists s', s = String c s' /\ String.prefix p s' = true.
Proof.
  destruct s as [|c' s']; cbn; [discriminate|].
  destruct (ascii_dec c c') as [->|]; [|discriminate].
  intros H. exists s'. split; [reflexivity | exact H].
Qed.

(** *** The doctype line without a newline *)

Lemma doctype_line_head (l : lexer) :
  Strings.HasPrefix (Strings.drop (start l) (input l)) docTypeShort = true \/
  Strings.HasPrefix (Strings.drop (start l) (input l)) docTypeLong = true ->
  exists c rest,
    Strings.drop (start l) (input l) = String c rest /\
    (c = "!"%char \/ c = "d"%char) /\ start l < Strings.len (input l).
Proof.
  intros H.
  assert (Hd : exists c rest, Strings.drop (start l) (input l) = String c rest /\
                              (c = "!"%char \/ c = "d"%char)).
  { destruct H as [H|H]; apply prefix_cons in H as (rest & -> & _); eauto. }
  destruct Hd as (c & rest & Hd & Hc). exists c, rest.
  split; [exact Hd|]. split; [exact Hc|].
  pose proof (str_length_drop (input l) (start l)) as Hl. rewrite Hd in Hl.
  unfold Strings.len. cbn in Hl. lia.
Qed.

Lemma lexTag_doctype (l : lexer) :
  Strings.HasPrefix (Strings.drop (start l) (input l)) docTypeShort = true \/
  Strings.HasPrefix (Strings.drop (start l) (input l)) docTypeLong = true ->
  lexTag_fn l = Ret (l, Some lexDocType).
Proof.
  intros H. destruct (doctype_line_head l H) as (c & rest & Hd & Hc & Hlt).
  unfold lexTag_fn, Strings.at_. rewrite str_get_drop, Hd. cbn [mbind result_bind].
  rewrite from_drop by lia. cbn [mbind result_bind]. rewrite Hd in *.
  destruct Hc as [-> | ->].
  - change (same "!" ".") with false. change (same "!" "#") with false.
    change (same "!" sp || same "!" tab) with false.
    change (same "!" "|") with false.
    change (same "!" cr || same "!" nl) with false. cbv iota.
    change (Strings.HasPrefix (String "!" rest) Comment) with false. cbv iota.
    destruct H as [-> | ->]; [reflexivity|].
    rewrite orb_true_r. reflexivity.
  - change (same "d" ".") with false. change (same "d" "#") with false.
    change (same "d" sp || same "d" tab) with false.
    change (same "d" "|") with false.
    change (same "d" cr || same "d" nl) with false. cbv iota.
    change (Strings.HasPrefix (String "d" rest) Comment) with false. cbv iota.
    destruct H as [-> | ->]; [reflexivity|].
    rewrite orb_true_r. reflexivity.
Qed.

Lemma lexDocType_unclosed (l : lexer) :
  items l = [] ->
  pos l <= Strings.len (input l) ->
  Strings.Index (Strings.drop (pos l) (input l)) (String nl EmptyString) = None ->
  lexDocType_fn l = Ret (set_items l [unclosedDoctype], None).
Proof.
  intros Hq Hp Hi. unfold lexDocType_fn.
  rewrite from_drop by exact Hp. cbn [mbind result_bind]. rewrite Hi.
  unfold errorf, send. rewrite Hq. reflexivity.
Qed.

Lemma lexNewLine_doctype (l : lexer) :
  Strings.HasPrefix (Strings.drop (start l) (input l)) docTypeShort = true \/
  Strings.HasPrefix (Strings.drop (start l) (input l)) docTypeLong = true ->
  lexNewLine_fn l = Ret (l, Some lexIndent).
Proof.
  intros H. destruct (doctype_line_head l H) as (c & rest & Hd & Hc & Hlt).
  unfold lexNewLine_fn, Strings.at_. rewrite str_get_drop, Hd. cbn [mbind result_bind].
  destruct Hc as [-> | ->]; reflexivity.
Qed.

Lemma lexIndent_doctype (l : lexer) :
  Strings.HasPrefix (Strings.drop (start l) (input l)) docTypeShort = true \/
  Strings.HasPrefix (Strings.drop (start l) (input l)) docTypeLong = true ->
  lexIndent_fn l = Ret (l, Some lexTag).
Proof.
  intros H. destruct (doctype_line_head l H) as (c & rest & Hd & Hc & Hlt).
  unfold lexIndent_fn, Strings.at_. rewrite str_get_drop, Hd. cbn [mbind result_bind].
  destruct Hc as [-> | ->]; reflexivity.
Qed.

Lemma nextItem_unclosed_doctype_lexTag (l : lexer) :
  state l = Some lexTag ->
  items l = [] ->
  pos l <= Strings.len (input l) ->
  (Strings.HasPrefix (Strings.drop (start l) (input l)) docTypeShort = true \/
   Strings.HasPrefix (Strings.drop (start l) (input l)) docTypeLong = true) ->
  Strings.Index (Strings.drop (pos l) (input l)) (String nl EmptyString) = None ->
  nextItem 2 l = Ret (unclosedDoctype, halted l).
Proof.
  intros Hs Hq Hp Hpre Hi.
  rewrite (nextItem_step _ _ lexTag) by assumption.
  cbn [call]. rewrite lexTag_doctype by exact Hpre. cbn [mbind result_bind].
  rewrite (nextItem_step _ _ lexDocType) by (destruct l; cbn in *; congruence).
  cbn [call]. rewrite lexDocType_unclosed by (destruct l; cbn in *; assumption).
  cbn [mbind result_bind].
  erewrite nextItem_recv by (destruct l; reflexivity).
  destruct l; reflexivity.
Qed.

Lemma halted_set_state (l : lexer) (s : option stateFn) :
  halted (set_state l s) = halted l.
Proof. destruct l; reflexivity. Qed.

Lemma nextItem_unclosed_doctype (l : lexer) (n : nat) :
  unclosedDoctypeLine l -> 4 <= n ->
  nextItem n l = Ret (unclosedDoctype, halted l).
Proof.
  intros (Hs & Hq & Hp & Hpre & Hi) Hn.
  assert (Htag : forall l', l' = set_state l (Some lexTag) ->
                            nextItem 2 l' = Ret (unclosedDoctype, halted l)).
  { intros l' ->. rewrite <- (halted_set_state l (Some lexTag)).
    apply nextItem_unclosed_doctype_lexTag; destruct l; cbn in *; auto. }
  assert (Hind : forall l', l' = set_state l (Some lexIndent) ->
                            nextItem 3 l' = Ret (unclosedDoctype, halted l)).
  { intros l' ->.
    rewrite (nextItem_step _ _ lexIndent) by (destruct l; cbn in *; auto).
    cbn [call]. rewrite lexIndent_doctype by (destruct l; exact Hpre).
    cbn [mbind result_bind]. apply Htag. destruct l; reflexivity. }
  destruct Hs as [Hs|[Hs|Hs]].
  - apply (nextItem_mono 4); [|exact Hn].
    rewrite (nextItem_step _ _ lexNewLine) by assumption.
    cbn [call]. rewrite lexNewLine_doctype by exact Hpre.
    cbn [mbind result_bind]. apply Hind. reflexivity.
  - apply (nextItem_mono 3); [|lia]. apply Hind.
    destruct l; unfold set_state; cbn in *; subst; reflexivity.
  - apply (nextItem_mono 2); [|lia]. apply Htag.
    destruct l; unfold set_state; cbn in *; subst; reflexivity.
Qed.

Lemma scan_S (n : nat) (l : lexer) :
  scan (S n) l =
  match nextItem n l with
  | Ret (it, l1) =>
    if terminal it then ([it], Finished)
    else let '(its, e) := scan n l1 in (it :: its, e)
  | Panic p => ([], Panicked p)
  | Blocked => ([], Deadlocked)
  | OutOfFuel => ([], Unfinished)
  end.
Proof. reflexivity. Qed.

(** A scan that gets to [l2] goes on as the scan of [l2] does. *)
Lemma scan_reaches (l : lexer) (its : list item) (l2 : lexer) :
  reaches l its l2 ->
  forall (f2 : nat) (toks : list item) (e : ending),
    (forall fuel, f2 <= fuel -> scan fuel l2 = (toks, e)) ->
    exists f1, forall fuel, f1 <= fuel -> scan fuel l = (its ++ toks, e).
Proof.
  induction 1 as [l|l n it l1 its l2 Hn Ht _ IH]; intros f2 toks e H2.
  - exists f2. exact H2.
  - destruct (IH f2 toks e H2) as (f1 & H1).
    exists (S (Nat.max n f1)). intros fuel Hf.
    destruct fuel as [|fuel]; [lia|].
    rewrite scan_S, (nextItem_mono n fuel l (it, l1) Hn) by lia.
    rewrite Ht, H1 by lia. reflexivity.
Qed.

(** When a scan comes to the start of a line that opens with a
    doctype marker (doctype or !!!) and no newline follows before the
    end of the input, the scanner hands out one item more, the
    itemError with the text unclosed doctype, and its state is nil
    from then on; the scan of the whole input ends with that item. *)
Theorem unclosed_doctype (name text left right : string)
    (toks : list item) (l : lexer) :
  reaches (lex name text left right) toks l ->
  unclosedDoctypeLine l ->
  (forall n, 4 <= n ->
     nextItem n l = Ret (Item itemError "unclosed doctype", halted l)) /\
  state (halted l) = None /\
  (forall n, nextItem (S n) (halted l) = Panic NilFuncCall) /\
  exists f0, forall fuel, f0 <= fuel ->
    scan fuel (lex name text left right) =
      (toks ++ [Item itemError "unclosed doctype"], Finished).
Proof.
  intros Hr Hl.
  pose proof (fun n => nextItem_unclosed_doctype l n Hl) as Hnext.
  split; [exact Hnext|].
  split; [reflexivity|].
  split; [intros n; apply nextItem_nil; reflexivity|].
  apply (scan_reaches _ _ _ Hr 5 [unclosedDoctype] Finished).
  intros fuel Hf. destruct fuel as [|fuel]; [lia|].
  rewrite scan_S, Hnext by lia. reflexivity.
Qed.

Lemma unclosedLexer_reached :
  reaches (lex "name" unclosedText "" "")
          [Item itemTag "a"; Item itemEndl (String nl EmptyString)] unclosedLexer.
Proof.
  eapply (reaches_next _ 4); [vm_compute; reflexivity | reflexivity |].
  eapply (reaches_next _ 4); [vm_compute; reflexivity | reflexivity |].
  apply reaches_here.
Defined.

Lemma unclosedLexer_line : unclosedDoctypeLine unclosedLexer.
Proof.
  split; [left; reflexivity|].
  split; [reflexivity|].
  split; [vm_compute; lia|].
  split; [right; reflexivity | reflexivity].
Defined.

Lemma unclosed_doctype_witness :
  (forall n, 4 <= n ->
     nextItem n unclosedLexer =
       Ret (Item itemError "unclosed doctype", halted unclosedLexer)) /\
  state (halted unclosedLexer) = None /\
  (forall n, nextItem (S n) (halted unclosedLexer) = Panic NilFuncCall) /\
  exists f0, forall fuel, f0 <= fuel ->
    scan fuel (lex "name" unclosedText "" "") =
      ([Item itemTag "a"; Item itemEndl (String nl EmptyString)]
         ++ [Item itemError "unclosed doctype"], Finished).
Proof.
  exact (unclosed_doctype "name" unclosedText "" "" _ unclosedLexer
           unclosedLexer_reached unclosedLexer_line).
Defined.

(** C3 fails on the code: a scan does not always get to the line of
    the unclosed doctype.  Three attributes in the line before it fill
    the channel, and lexAttr sleeps on its third send; a doctype marker
    that its newline follows at once, in the line before, makes
    lexDocType slice out of range.  In both scans no itemError is
    handed out.  (Behind a line that the scanner gets through, the
    itemError comes.) *)
Theorem unclosed_doctype_unreached (fuel : nat) :
  tokens (40 + fuel) ("p(a,b,c)" +:+ lf +:+ "!!! 5") =
    ([Item itemTag "p"], Deadlocked) /\
  tokens (40 + fuel) ("doctype" +:+ lf +:+ "doctype 5") =
    ([], Panicked (SliceOutOfRange 8 7 17)) /\
  tokens (40 + fuel) ("a" +:+ lf +:+ "doctype 5") =
    ([Item itemTag "a"; Item itemEndl lf; Item itemError "unclosed doctype"],
     Finished).
Proof. repeat split; vm_compute; reflexivity. Qed.

(** *** The attribute list that is not closed *)

Lemma next_eof l :
  Strings.len (input l) <= pos l -> next l = (eof, set_width l 0).
Proof.
  intros H. unfold next.
  destruct (Nat.leb_spec (Strings.len (input l)) (pos l)); [reflexivity | lia].
Qed.

Lemma peek_eof l :
  Strings.len (input l) <= pos l -> peek l = (eof, set_width l 0).
Proof.
  intros H. unfold peek. rewrite next_eof by exact H.
  destruct l; unfold backup; cbn. rewrite Nat.sub_0_r. reflexivity.
Qed.

(** At the end of the input the loop of lexAttr goes round without a
    change: peek gives eof, which is neither the parenthesis nor the
    comma, and next does not move. *)
Lemma lexAttr_body_eof l :
  Strings.len (input l) <= pos l ->
  lexAttr_body l = Ret (inl (set_width l 0)).
Proof.
  intros H. unfold lexAttr_body. rewrite peek_eof by exact H.
  change (isr eof ")") with false. change (isr eof ",") with false.
  cbv iota. rewrite next_eof by (destruct l; exact H).
  destruct l; reflexivity.
Qed.

Lemma lexAttr_loop_eof fuel : forall l,
  Strings.len (input l) <= pos l -> lexAttr_loop fuel l = OutOfFuel.
Proof.
  induction fuel as [|n IH]; intros l Hl; [reflexivity|].
  cbn [lexAttr_loop]. rewrite lexAttr_body_eof by exact Hl.
  cbn [mbind result_bind]. apply IH. destruct l; exact Hl.
Qed.

Lemma unclosedAttr_spins fuel : nextItem fuel unclosedAttr = OutOfFuel.
Proof.
  destruct fuel as [|[|n]]; [reflexivity..|].
  rewrite (nextItem_step _ _ lexAttr) by reflexivity.
  unfold call, lexAttr_fn.
  change (lexAttr_loop (S n) unclosedAttr)
    with (b ← lexAttr_body unclosedAttr;
          match b with inl l1 => lexAttr_loop n l1 | inr l1 => mret l1 end).
  replace (lexAttr_body unclosedAttr)
    with (Ret (inl (Lexer "name" "a(b" "{{" "}}" (Some lexAttr) 3 2 1 []))
          : result (lexer + lexer))
    by (vm_compute; reflexivity).
  cbn [mbind result_bind].
  rewrite lexAttr_loop_eof by (cbn; lia). reflexivity.
Qed.

(** C1 fails on the code: on the input a(b, whose attribute list is not
    closed, the scan hands out the tag and then never ends, whatever the
    fuel: lexAttr loops at the end of the input.  (Where a scan does end,
    the state is nil, and to ask for one more item is to call nil: a
    panic, no item.) *)
Theorem unclosed_attr_never_ends (fuel : nat) :
  (tokens fuel "a(b" = ([], Unfinished) \/
   tokens fuel "a(b" = ([Item itemTag "a"], Unfinished)) /\
  nextItem fuel unclosedAttr = OutOfFuel /\
  tokens (20 + fuel) "a" = ([Item itemTag "a"; Item itemEOF ""], Finished).
Proof.
  split; [|split; [apply unclosedAttr_spins | vm_compute; reflexivity]].
  unfold tokens.
  destruct fuel as [|[|[|[|n]]]]; [first [left; reflexivity | right; reflexivity] ..|].
  right.
  rewrite scan_S, (nextItem_step _ _ lexTag) by reflexivity.
  replace (call (S (S n)) lexTag (lex "name" "a(b" "" ""))
    with (Ret (Lexer "name" "a(b" "{{" "}}" (Some lexTag) 1 0 1 [], Some lexTag))
    by (vm_compute; reflexivity).
  cbn [mbind result_bind].
  rewrite (nextItem_step _ _ lexTag) by reflexivity.
  match goal with |- context [call ?k lexTag ?l] =>
    replace (call k lexTag l)
      with (Ret (Lexer "name" "a(b" "{{" "}}" (Some lexTag) 2 2 1
                       [Item itemTag "a"], Some lexAttr))
      by (vm_compute; reflexivity) end.
  cbn [mbind result_bind].
  erewrite nextItem_recv by reflexivity.
  cbn [terminal typ].
  rewrite scan_S.
  change (set_items _ _) with unclosedAttr.
  rewrite unclosedAttr_spins. reflexivity.
Qed.

(** *** Reads out of bounds *)

(** C2 fails on the code: a run can end in a run-time panic instead.
    An input that ends with a newline makes lexNewLine index the input
    at its length; a blank as the whole input does the same to lexIndent;
    and a doctype marker that its newline follows at once makes
    lexDocType set start behind pos, so that emit slices out of range. *)
Theorem scan_panics (fuel : nat) :
  tokens (20 + fuel) ("a" +:+ lf) =
    ([Item itemTag "a"; Item itemEndl lf], Panicked (IndexOutOfRange 2 2)) /\
  tokens (20 + fuel) " " =
    ([Item itemIdentSpace ""; Item itemIdentSpace " "],
     Panicked (IndexOutOfRange 1 1)) /\
  tokens (20 + fuel) ("doctype" +:+ lf) = ([], Panicked (SliceOutOfRange 8 7 8)).
Proof. repeat split; vm_compute; reflexivity. Qed.

(** *** The first line *)

(** C7 fails on the code at the start of the input, where pos is not
    yet one rune ahead of start: one blank before a tag gives two
    indent items, the first with the empty lexeme, and one newline gives
    two itemEndl, the first with the empty lexeme. *)
Theorem first_line_indent (fuel : nat) :
  tokens (20 + fuel) " a" =
    ([Item itemIdentSpace ""; Item itemIdentSpace " "; Item itemTag "a";
      Item itemEOF ""], Finished) /\
  tokens (20 + fuel) (lf +:+ "a") =
    ([Item itemEndl ""; Item itemEndl lf; Item itemTag "a"; Item itemEOF ""],
     Finished) /\
  tokens (20 + fuel) ("a" +:+ lf +:+ " b") =
    ([Item itemTag "a"; Item itemEndl lf; Item itemIdentSpace " ";
      Item itemTag "b"; Item itemEOF ""], Finished).
Proof. repeat split; vm_compute; reflexivity. Qed.

(** C8 fails on the code at the start of the input: ignore drops
    nothing there, and the text item of the line | x holds the marker.
    On a later line the marker is dropped. *)
Theorem first_line_text_marker (fuel : nat) :
  tokens (20 + fuel) "| x" = ([Item itemText "| x"; Item itemEOF ""], Finished) /\
  tokens (20 + fuel) ("a" +:+ lf +:+ "| x") =
    ([Item itemTag "a"; Item itemEndl lf; Item itemText " x"; Item itemEOF ""],
     Finished).
Proof. repeat split; vm_compute; reflexivity. Qed.

(** ** Runes *)

Lemma high_ge (a : Z) : (128 <= a)%Z -> high a.
Proof.
  intros H. exists (Z.log2 a). split.
  - change 7%Z with (Z.log2 128). apply Z.log2_le_mono. exact H.
  - apply Z.bit_log2. lia.
Qed.

Lemma high_lor_l (a b : Z) : high a -> high (Z.lor a b).
Proof.
  intros (k & Hk & Hb). exists k. split; [exact Hk|].
  rewrite Z.lor_spec, Hb. reflexivity.
Qed.

Lemma high_lor_r (a b : Z) : high b -> high (Z.lor a b).
Proof.
  intros (k & Hk & Hb). exists k. split; [exact Hk|].
  rewrite Z.lor_spec, Hb. apply orb_true_r.
Qed.

Lemma high_not_low (r : Z) : high r -> (0 <= r < 128)%Z -> False.
Proof.
  intros (k & Hk & Hb) Hr.
  destruct (Z.eq_dec r 0%Z) as [->|Hne].
  - rewrite Z.bits_0 in Hb. discriminate.
  - rewrite Z.bits_above_log2 in Hb; [discriminate | lia |].
    assert (Z.log2 r < 7)%Z; [|lia].
    apply Z.log2_lt_pow2; [lia|]. change (2 ^ 7)%Z with 128%Z. lia.
Qed.

Lemma high_shiftl (x n m : Z) :
  (0 <= n)%Z -> (2 ^ n = m)%Z -> (128 <= x * m)%Z -> high (Z.shiftl x n).
Proof.
  intros Hn <- H. apply high_ge. rewrite Z.shiftl_mul_pow2 by exact Hn. exact H.
Qed.

Lemma land_low (b m n : Z) :
  (0 <= n)%Z -> m = Z.ones n -> Z.land b m = (b mod 2 ^ n)%Z.
Proof. intros Hn ->. apply Z.land_ones. exact Hn. Qed.

Lemma byte_range (c : ascii) : (0 <= utf8.byte c < 256)%Z.
Proof.
  unfold utf8.byte. pose proof (N_ascii_bounded c) as H. lia.
Qed.

Lemma byte_inj (c d : ascii) : utf8.byte c = utf8.byte d -> c = d.
Proof.
  unfold utf8.byte. intros H. apply N2Z.inj in H.
  rewrite <- (ascii_N_embedding c), <- (ascii_N_embedding d), H. reflexivity.
Qed.

(** DecodeRuneInString gives an ASCII rune only for an ASCII byte at
    the head of the string, and then with width one. *)
Lemma DecodeRuneInString_low (s : string) (r : Z) (w : nat) :
  utf8.DecodeRuneInString s = (r, w) ->
  (0 <= r < 128)%Z ->
  exists c t, s = String c t /\ r = utf8.byte c /\ w = 1.
Proof.
  intros H Hr.
  assert (Herr : utf8.RuneError = r -> False)
    by (unfold utf8.RuneError; lia).
  assert (Hhigh : forall x, x = r -> high x -> False)
    by (intros x -> Hx; exact (high_not_low r Hx Hr)).
  destruct s as [|c0 t0]; cbn [utf8.DecodeRuneInString] in H.
  { injection H as H _. destruct (Herr H). }
  pose proof (byte_range c0) as Hb0.
  set (b0 := utf8.byte c0) in *.
  destruct (utf8.as_ <=? utf8.first b0)%Z eqn:Has.
  { destruct (utf8.first b0 =? utf8.as_)%Z.
    - injection H as <- <-. exists c0, t0. auto.
    - injection H as H _. destruct (Herr H). }
  cbv zeta in H.
  assert (Hm2 : Z.land b0 utf8.mask2 = (b0 mod 2 ^ 5)%Z)
    by (apply land_low; [lia | reflexivity]).
  assert (Hm3 : Z.land b0 utf8.mask3 = (b0 mod 2 ^ 4)%Z)
    by (apply land_low; [lia | reflexivity]).
  assert (Hm4 : Z.land b0 utf8.mask4 = (b0 mod 2 ^ 3)%Z)
    by (apply land_low; [lia | reflexivity]).
  assert (Hmx : forall b, Z.land b utf8.maskx = (b mod 64)%Z)
    by (intros b; apply (land_low b utf8.maskx 6); [lia | reflexivity]).
  change (2 ^ 5)%Z with 32%Z in Hm2. change (2 ^ 4)%Z with 16%Z in Hm3.
  change (2 ^ 3)%Z with 8%Z in Hm4.
  revert H Has. unfold utf8.first.
  repeat match goal with
  | |- context [(b0 <? ?k)%Z] => destruct (Z.ltb_spec b0 k) as [?Hc|?Hc]
  | |- context [(b0 =? ?k)%Z] => destruct (Z.eqb_spec b0 k) as [?Hc|?Hc]
  end; try (intros _ Has; vm_compute in Has; discriminate Has);
  intros Hd _.
  all: vm_compute utf8.acceptRanges in Hd.
  all: match type of Hd with context [Z.to_nat ?z] =>
    let v := eval vm_compute in (Z.to_nat z) in change (Z.to_nat z) with v in Hd
  end.
  all: cbv iota beta in Hd; cbn [Nat.leb] in Hd.
  all: unfold utf8.outside, utf8.locb, utf8.hicb in Hd.
  all: repeat match type of Hd with
  | (utf8.RuneError, _) = _ => injection Hd as Hd _; destruct (Herr Hd)
  | (if (Strings.len ?s <? ?k) then _ else _) = _ =>
      destruct (Strings.len s <? k)
  | (if (?b <? ?lo)%Z || (?hi <? ?b)%Z then _ else _) = _ =>
      destruct (Z.ltb_spec b lo) as [?Hc|?Hc];
      destruct (Z.ltb_spec hi b) as [?Hc|?Hc]; cbn [orb] in Hd
  | match ?t with EmptyString => _ | String _ _ => _ end = _ =>
      destruct t as [|?c ?t]
  | (Z.lor _ _, _) = _ =>
      injection Hd as Hd _; exfalso; apply (Hhigh _ Hd);
      rewrite ?Hm2, ?Hm3, ?Hm4, ?Hmx;
      first
        [ apply high_lor_l, (high_shiftl _ 6 64); [lia | reflexivity | Z.div_mod_to_equations; lia]
        | apply high_lor_l, high_lor_l, (high_shiftl _ 12 4096);
            [lia | reflexivity | Z.div_mod_to_equations; lia]
        | apply high_lor_l, high_lor_r, (high_shiftl _ 6 64);
            [lia | reflexivity | Z.div_mod_to_equations; lia]
        | apply high_lor_l, high_lor_l, high_lor_l, (high_shiftl _ 18 262144);
            [lia | reflexivity | Z.div_mod_to_equations; lia]
        | apply high_lor_l, high_lor_l, high_lor_r, (high_shiftl _ 12 4096);
            [lia | reflexivity | Z.div_mod_to_equations; lia] ]
  end.
Qed.

(** *** Every attribute list that is not closed *)

Lemma str_drop_add (s : string) : forall n m,
  Strings.drop (n + m) s = Strings.drop m (Strings.drop n s).
Proof.
  induction s as [|c s IH]; intros [|n] m; cbn [Nat.add Strings.drop];
    try reflexivity.
  - rewrite str_drop_nil. reflexivity.
  - apply IH.
Qed.

Lemma has_drop (c : ascii) (s : string) : forall n,
  has c s = false -> has c (Strings.drop n s) = false.
Proof.
  induction s as [|d s IH]; intros [|n] H; cbn [Strings.drop]; try exact H.
  cbn [has] in H. apply orb_false_iff in H as [_ H]. apply IH, H.
Qed.

Lemma next_keeps (l : lexer) :
  input (snd (next l)) = input l /\ items (snd (next l)) = items l /\
  start (snd (next l)) = start l /\ state (snd (next l)) = state l /\
  exists d, pos (snd (next l)) = pos l + d.
Proof.
  unfold next. destruct (Strings.len (input l) <=? pos l).
  - destruct l; cbn. repeat split; try reflexivity. exists 0. lia.
  - destruct (utf8.DecodeRuneInString _) as [r w].
    destruct l; cbn. repeat split; try reflexivity. exists w. reflexivity.
Qed.

(** peek leaves all but the width as it was, and reads eof or the rune
    at pos. *)
Lemma peek_keeps (l : lexer) :
  exists w,
    snd (peek l) = set_width l w /\
    (fst (peek l) = eof \/
     exists w', utf8.DecodeRuneInString (Strings.drop (pos l) (input l))
                = (fst (peek l), w')).
Proof.
  unfold peek, next. destruct (Strings.len (input l) <=? pos l).
  - exists 0. split; [|left; reflexivity].
    destruct l; unfold backup; cbn. rewrite Nat.sub_0_r. reflexivity.
  - destruct (utf8.DecodeRuneInString _) as [r w] eqn:E.
    exists w. split; [|right; exists w; reflexivity].
    destruct l; unfold backup; cbn.
    replace (pos0 + w - w) with pos0 by lia. reflexivity.
Qed.

Lemma emit_keeps (t : itemType) (l l1 : lexer) :
  emit t l = Ret l1 -> input l1 = input l /\ pos l1 = pos l.
Proof.
  unfold emit, send.
  destruct (Strings.slice _ _ _) as [v| | |]; cbn [mbind result_bind];
    try discriminate.
  destruct (length (items l) <? chanCap); cbn [mbind result_bind mret result_ret];
    try discriminate.
  intros [= <-]. destruct l; split; reflexivity.
Qed.

Lemma peek_no_close (l : lexer) :
  has ")" (Strings.drop (pos l) (input l)) = false ->
  isr (fst (peek l)) ")" = false.
Proof.
  intros Hno. destruct (peek_keeps l) as (w & _ & [He | (w' & Hd)]).
  - rewrite He. reflexivity.
  - destruct (isr (fst (peek l)) ")") eqn:Hr; [|reflexivity].
    unfold isr in Hr. apply Z.eqb_eq in Hr. rewrite Hr in Hd.
    apply DecodeRuneInString_low in Hd as (c & t & Hs & Hc & _);
      [|vm_compute; split; congruence].
    apply byte_inj in Hc. subst c. rewrite Hs in Hno. discriminate Hno.
Qed.

(** One round of the loop of lexAttr with no parenthesis ahead: it does
    not leave the loop, and none is ahead afterwards. *)
Lemma lexAttr_body_unclosed (l : lexer) :
  has ")" (Strings.drop (pos l) (input l)) = false ->
  match lexAttr_body l with
  | Ret (inl l1) => has ")" (Strings.drop (pos l1) (input l1)) = false
  | Ret (inr _) => False
  | _ => True
  end.
Proof.
  intros Hno. unfold lexAttr_body.
  pose proof (peek_no_close l Hno) as Hp.
  destruct (peek_keeps l) as (w & Hl0 & _).
  destruct (peek l) as [r l0]. cbn [fst snd] in *. subst l0. rewrite Hp.
  assert (Hnext : forall l', input l' = input l -> pos l' = pos l ->
            has ")" (Strings.drop (pos (snd (next l'))) (input (snd (next l'))))
            = false).
  { intros l' Hi Hpos. destruct (next_keeps l') as (Hi' & _ & _ & _ & d & Hd).
    rewrite Hi', Hd, Hi, Hpos, str_drop_add. apply has_drop, Hno. }
  destruct (isr r ",").
  - destruct (emit itemAttr (set_width l w)) as [l1| | |] eqn:E;
      cbn [mbind result_bind mret result_ret]; try exact I.
    apply emit_keeps in E as [Hi Hpos].
    unfold ignore. destruct (next_keeps l1) as (Hi' & _ & _ & _ & d & Hd).
    cbn [input pos set_start]. rewrite Hi', Hd, Hi, Hpos.
    destruct l; cbn [input pos set_width]. cbn [input pos] in Hno.
    rewrite str_drop_add. apply has_drop, Hno.
  - cbn [mret result_ret]. apply Hnext; destruct l; reflexivity.
Qed.

Lemma lexAttr_loop_unclosed (fuel : nat) : forall l,
  has ")" (Strings.drop (pos l) (input l)) = false ->
  returns (lexAttr_loop fuel l) = false.
Proof.
  induction fuel as [|n IH]; intros l Hno; [reflexivity|].
  cbn [lexAttr_loop]. pose proof (lexAttr_body_unclosed l Hno) as Hb.
  destruct (lexAttr_body l) as [[l1|l1]| | |]; cbn [mbind result_bind];
    try reflexivity.
  - apply IH, Hb.
  - destruct Hb.
Qed.

Lemma nextItem_unclosedAttrList (l : lexer) (fuel : nat) :
  unclosedAttrList l -> returns (nextItem fuel l) = false.
Proof.
  intros (Hs & Hq & Hno). destruct fuel as [|n].
  - cbn [nextItem]. rewrite Hq. reflexivity.
  - rewrite (nextItem_step _ _ lexAttr) by assumption.
    cbn [call]. unfold lexAttr_fn.
    pose proof (lexAttr_loop_unclosed n l Hno) as Hl.
    destruct (lexAttr_loop n l); [discriminate Hl | reflexivity..].
Qed.

Lemma nextItem_det (n m : nat) (l : lexer) (r r' : item * lexer) :
  nextItem n l = Ret r -> nextItem m l = Ret r' -> r = r'.
Proof.
  intros H H'.
  apply (nextItem_mono n (Nat.max n m)) in H; [|lia].
  apply (nextItem_mono m (Nat.max n m)) in H'; [|lia].
  congruence.
Qed.

(** A scan that gets to a scanner from which nextItem never returns
    does not finish. *)
Lemma scan_stuck (l : lexer) (its : list item) (l2 : lexer) :
  reaches l its l2 ->
  (forall fuel, returns (nextItem fuel l2) = false) ->
  forall fuel, snd (scan fuel l) <> Finished.
Proof.
  induction 1 as [l|l n it l1 its l2 Hn Ht _ IH]; intros Hstuck fuel.
  - destruct fuel as [|fuel]; [discriminate|].
    rewrite scan_S. specialize (Hstuck fuel).
    destruct (nextItem fuel l); [discriminate Hstuck | discriminate..].
  - destruct fuel as [|fuel]; [discriminate|].
    rewrite scan_S.
    destruct (nextItem fuel l) as [[it' l1']| | |] eqn:E; try discriminate.
    pose proof (nextItem_det _ _ _ _ _ Hn E) as [= <- <-].
    rewrite Ht. specialize (IH Hstuck fuel).
    destruct (scan fuel l1) as [its' e]. exact IH.
Qed.

(** Whenever a scan comes into an attribute list that no parenthesis
    closes, nextItem does not return again and the scan never ends with
    an itemEOF or an itemError. *)
Theorem unclosed_attr_list (name text left right : string)
    (toks : list item) (l : lexer) :
  reaches (lex name text left right) toks l ->
  unclosedAttrList l ->
  forall fuel,
    returns (nextItem fuel l) = false /\
    snd (scan fuel (lex name text left right)) <> Finished.
Proof.
  intros Hr Hl fuel. split.
  - apply nextItem_unclosedAttrList, Hl.
  - eapply scan_stuck; [exact Hr|].
    intros k. apply nextItem_unclosedAttrList, Hl.
Qed.

Lemma unclosed_attr_list_witness :
  returns (nextItem 9 unclosedAttr) = false /\
  snd (scan 9 (lex "name" "a(b" "" "")) <> Finished.
Proof.
  refine (unclosed_attr_list "name" "a(b" "" "" [Item itemTag "a"] unclosedAttr
            _ _ 9).
  - eapply (reaches_next _ 3); [vm_compute; reflexivity | reflexivity |].
    apply reaches_here.
  - repeat split.
Defined.

(** *** Indentation and newlines after the first line *)

Lemma line_char_cases (c : ascii) :
  isLineChar c = true -> c = sp \/ c = tab \/ c = nl \/ c = cr.
Proof.
  unfold isLineChar, same. intros H.
  repeat (apply orb_true_iff in H as [H|H]);
    apply Ascii.eqb_eq in H; auto.
Qed.

Lemma at_drop (s : string) (i : nat) (c : ascii) (t : string) :
  Strings.drop i s = String c t -> Strings.at_ s i = Ret c.
Proof. intros H. unfold Strings.at_. rewrite str_get_drop, H. reflexivity. Qed.

Lemma str_drop_lt (s : string) (i : nat) (c : ascii) (t : string) :
  Strings.drop i s = String c t -> i < Strings.len s.
Proof.
  intros H. pose proof (str_length_drop s i) as Hl. rewrite H in Hl.
  unfold Strings.len. cbn in Hl. lia.
Qed.

Lemma str_drop_S (s : string) (i : nat) (c : ascii) (t : string) :
  Strings.drop i s = String c t -> Strings.drop (S i) s = t.
Proof.
  intros H. replace (S i) with (i + 1) by lia. rewrite str_drop_add, H. reflexivity.
Qed.

Lemma slice_one (s : string) (i : nat) (c : ascii) (t : string) :
  Strings.drop i s = String c t ->
  Strings.slice s i (S i) = Ret (String c EmptyString).
Proof.
  intros H. pose proof (str_drop_lt s i c t H) as Hlt. unfold Strings.slice.
  destruct (Nat.leb_spec i (S i)); [|lia].
  destruct (Nat.leb_spec (S i) (Strings.len s)); [|lia].
  cbn [andb]. replace (S i - i) with 1 by lia. rewrite H. reflexivity.
Qed.

Lemma DecodeRuneInString_ascii (c : ascii) (t : string) :
  (utf8.byte c < 128)%Z ->
  utf8.DecodeRuneInString (String c t) = (utf8.byte c, 1).
Proof.
  intros H. cbn [utf8.DecodeRuneInString]. unfold utf8.first.
  destruct (Z.ltb_spec (utf8.byte c) 128); [reflexivity | lia].
Qed.

(** emit with an empty channel and pos one behind start. *)
Lemma emit_one (k : itemType) (l : lexer) (c : ascii) (t : string) :
  items l = [] -> pos l = S (start l) ->
  Strings.drop (start l) (input l) = String c t ->
  emit k l = Ret (set_start (set_items l [Item k (String c EmptyString)]) (pos l)).
Proof.
  intros Hq Hp Hd. unfold emit, send. destruct l; cbn in *; subst.
  rewrite (slice_one _ _ _ _ Hd). reflexivity.
Qed.

Lemma afterChar_fields (l : lexer) (s : stateFn) :
  state (afterChar l s) = Some s /\
  items (afterChar l s) = [] /\
  input (afterChar l s) = input l /\
  start (afterChar l s) = pos l.
Proof.
  unfold afterChar.
  destruct (next_keeps (set_start l (pos l))) as (Hi & _ & Hs & _ & _).
  destruct l; cbn in *.
  destruct (snd (next _)); cbn in *. subst. repeat split.
Qed.

Lemma afterChar_pos (l : lexer) (s : stateFn) (c : ascii) (t : string) :
  Strings.drop (pos l) (input l) = String c t ->
  (utf8.byte c < 128)%Z ->
  pos (afterChar l s) = S (pos l).
Proof.
  intros Hd Hc. unfold afterChar, next.
  pose proof (str_drop_lt _ _ _ _ Hd) as Hlt.
  destruct l; cbn in *. unfold Strings.len in *.
  destruct (Nat.leb_spec (String.length input0) pos0); [lia|].
  rewrite Hd, DecodeRuneInString_ascii by exact Hc. cbn. lia.
Qed.

Lemma next_set_items (l : lexer) (q : list item) :
  snd (next (set_items l q)) = set_items (snd (next l)) q.
Proof.
  unfold next, Strings.len. destruct l; cbn.
  destruct (String.length input0 <=? pos0); [reflexivity|].
  destruct (utf8.DecodeRuneInString _); reflexivity.
Qed.

Lemma afterChar_set_state (l : lexer) (s : option stateFn) (s' : stateFn) :
  afterChar (set_state l s) s' = afterChar l s'.
Proof.
  unfold afterChar, next, Strings.len. destruct l; cbn.
  destruct (String.length input0 <=? pos0); [reflexivity|].
  destruct (utf8.DecodeRuneInString _); reflexivity.
Qed.

(** The state function that emits the item of the character. *)
Lemma emitting_call (n : nat) (l : lexer) (c : ascii) (t : string) :
  items l = [] -> pos l = S (start l) ->
  Strings.drop (start l) (input l) = String c t ->
  isLineChar c = true ->
  state l = Some (stateAfter c) ->
  nextItem (S n) l = Ret (lineItem c, afterChar l (stateAfter c)).
Proof.
  intros Hq Hp Hd Hc Hs.
  rewrite (nextItem_step _ _ (stateAfter c)) by assumption.
  assert (Hcall : call n (stateAfter c) l =
            Ret (snd (next (set_start (set_items l [lineItem c]) (pos l))),
                 Some (stateAfter c))).
  { pose proof (at_drop _ _ _ _ Hd) as Hat.
    pose proof (emit_one itemIdentSpace l c t Hq Hp Hd) as Hsp.
    pose proof (emit_one itemIdentTab l c t Hq Hp Hd) as Htab.
    pose proof (emit_one itemEndl l c t Hq Hp Hd) as Hnl.
    apply line_char_cases in Hc.
    destruct Hc as [-> | [-> | [-> | ->]]].
    - change (stateAfter sp) with lexIndent. cbn [call]. unfold lexIndent_fn.
      rewrite Hat. cbn [mbind result_bind].
      change (same sp tab) with false. cbv iota. cbn [mbind result_bind].
      change (same sp sp) with true. cbv iota. rewrite Hsp. reflexivity.
    - change (stateAfter tab) with lexIndent. cbn [call]. unfold lexIndent_fn.
      rewrite Hat. cbn [mbind result_bind].
      change (same tab tab) with true. cbv iota. rewrite Htab. reflexivity.
    - change (stateAfter nl) with lexNewLine. cbn [call]. unfold lexNewLine_fn.
      rewrite Hat. cbn [mbind result_bind].
      change (same nl cr || same nl nl) with true. cbv iota.
      rewrite Hnl. reflexivity.
    - change (stateAfter cr) with lexNewLine. cbn [call]. unfold lexNewLine_fn.
      rewrite Hat. cbn [mbind result_bind].
      change (same cr cr || same cr nl) with true. cbv iota.
      rewrite Hnl. reflexivity. }
  rewrite Hcall. cbn [mbind result_bind].
  replace (set_start (set_items l [lineItem c]) (pos l))
    with (set_items (set_start l (pos l)) [lineItem c])
    by (destruct l; reflexivity).
  rewrite next_set_items.
  erewrite nextItem_recv
    by (destruct (snd (next (set_start l (pos l)))); reflexivity).
  unfold afterChar. destruct (snd (next (set_start l (pos l)))); reflexivity.
Qed.

Lemma blank_cases (c : ascii) : isBlank c = true -> c = sp \/ c = tab.
Proof.
  unfold isBlank, same. intros [H|H]%orb_true_iff; apply Ascii.eqb_eq in H; auto.
Qed.

Lemma lexNewLine_blank (l : lexer) (c : ascii) (t : string) :
  Strings.drop (start l) (input l) = String c t -> isBlank c = true ->
  lexNewLine_fn l = Ret (l, Some lexIndent).
Proof.
  intros Hd Hc. unfold lexNewLine_fn. rewrite (at_drop _ _ _ _ Hd).
  destruct (blank_cases c Hc) as [-> | ->]; reflexivity.
Qed.

Lemma lexIndent_newline (l : lexer) (c : ascii) (t : string) :
  Strings.drop (start l) (input l) = String c t -> c = nl \/ c = cr ->
  lexIndent_fn l = Ret (l, Some lexTag).
Proof.
  intros Hd Hc. unfold lexIndent_fn. rewrite (at_drop _ _ _ _ Hd).
  destruct Hc as [-> | ->]; reflexivity.
Qed.

Lemma lexTag_blank (l : lexer) (c : ascii) (t : string) :
  Strings.drop (start l) (input l) = String c t -> isBlank c = true ->
  lexTag_fn l = Ret (l, Some lexIndent).
Proof.
  intros Hd Hc. unfold lexTag_fn. rewrite (at_drop _ _ _ _ Hd).
  destruct (blank_cases c Hc) as [-> | ->]; reflexivity.
Qed.

Lemma lexTag_newline (l : lexer) (c : ascii) (t : string) :
  Strings.drop (start l) (input l) = String c t -> c = nl \/ c = cr ->
  lexTag_fn l = Ret (l, Some lexNewLine).
Proof.
  intros Hd Hc. unfold lexTag_fn. rewrite (at_drop _ _ _ _ Hd).
  destruct Hc as [-> | ->]; reflexivity.
Qed.

Lemma set_state_same (l : lexer) (s : option stateFn) :
  state l = s -> set_state l s = l.
Proof. intros <-. destruct l; reflexivity. Qed.

(** From each state of a line start the scanner comes, without an item
    and without a move, to the state that emits the item of the
    character at start. *)
Lemma line_char_item (l : lexer) (c : ascii) (t : string) :
  atLineStart (state l) -> items l = [] -> pos l = S (start l) ->
  Strings.drop (start l) (input l) = String c t ->
  isLineChar c = true ->
  nextItem 3 l = Ret (lineItem c, afterChar l (stateAfter c)).
Proof.
  intros Hs Hq Hp Hd Hc.
  assert (Hemit : forall n, nextItem (S n) (set_state l (Some (stateAfter c))) =
                            Ret (lineItem c, afterChar l (stateAfter c))).
  { intros n.
    rewrite (emitting_call n _ c t);
      [apply f_equal, f_equal, afterChar_set_state | destruct l; assumption .. |
       destruct l; reflexivity]. }
  assert (Hd' : forall s, Strings.drop (start (set_state l s)) (input (set_state l s))
                          = String c t) by (intros s; destruct l; exact Hd).
  assert (Hq' : forall s, items (set_state l s) = []) by (intros s; destruct l; exact Hq).
  assert (Hst : forall s, state (set_state l s) = s) by (intros s; destruct l; reflexivity).
  assert (Hss : forall s s', set_state (set_state l s) s' = set_state l s')
    by (intros s s'; destruct l; reflexivity).
  assert (Hkind : (isBlank c = true /\ stateAfter c = lexIndent) \/
                  ((c = nl \/ c = cr) /\ stateAfter c = lexNewLine)).
  { destruct (line_char_cases c Hc) as [-> | [-> | [-> | ->]]];
      [left | left | right | right]; split; auto. }
  destruct Hs as [Hs|[Hs|Hs]];
    rewrite <- (set_state_same l _ Hs) at 1;
    destruct Hkind as [[Hb Ha] | [Hn Ha]].
  - (* lexNewLine, a blank *)
    apply (nextItem_mono 2); [|lia].
    rewrite (nextItem_step _ _ lexNewLine) by auto.
    cbn [call]. rewrite (lexNewLine_blank _ c t) by auto.
    cbn [mbind result_bind]. rewrite Hss, <- Ha. apply Hemit.
  - (* lexNewLine, a newline *)
    apply (nextItem_mono 1); [|lia]. rewrite <- Ha. apply Hemit.
  - (* lexIndent, a blank *)
    apply (nextItem_mono 1); [|lia]. rewrite <- Ha. apply Hemit.
  - (* lexIndent, a newline *)
    rewrite (nextItem_step _ _ lexIndent) by auto.
    cbn [call]. rewrite (lexIndent_newline _ c t) by auto.
    cbn [mbind result_bind]. rewrite Hss.
    rewrite (nextItem_step _ _ lexTag) by auto.
    cbn [call]. rewrite (lexTag_newline _ c t) by auto.
    cbn [mbind result_bind]. rewrite Hss, <- Ha. apply Hemit.
  - (* lexTag, a blank *)
    apply (nextItem_mono 2); [|lia].
    rewrite (nextItem_step _ _ lexTag) by auto.
    cbn [call]. rewrite (lexTag_blank _ c t) by auto.
    cbn [mbind result_bind]. rewrite Hss, <- Ha. apply Hemit.
  - (* lexTag, a newline *)
    apply (nextItem_mono 2); [|lia].
    rewrite (nextItem_step _ _ lexTag) by auto.
    cbn [call]. rewrite (lexTag_newline _ c t) by auto.
    cbn [mbind result_bind]. rewrite Hss, <- Ha. apply Hemit.
Qed.

Lemma line_char_ascii (c : ascii) : isLineChar c = true -> (utf8.byte c < 128)%Z.
Proof.
  intros H. destruct (line_char_cases c H) as [-> | [-> | [-> | ->]]];
    vm_compute; reflexivity.
Qed.

Lemma lineItem_not_terminal (c : ascii) : terminal (lineItem c) = false.
Proof.
  unfold terminal, lineItem. cbn [typ].
  destruct (same c tab); [reflexivity|]. destruct (same c sp); reflexivity.
Qed.

Lemma length_lineItems (ws : string) : length (lineItems ws) = String.length ws.
Proof. induction ws as [|c ws IH]; cbn; [reflexivity|]. rewrite IH. reflexivity. Qed.

Lemma line_run (ws : string) : forall (l : lexer) (rest : string),
  atLineStart (state l) ->
  items l = [] ->
  (ws <> EmptyString -> pos l = S (start l)) ->
  lineChars ws = true ->
  Strings.drop (start l) (input l) = ws +:+ rest ->
  exists l' : lexer,
    reaches l (lineItems ws) l' /\
    length (lineItems ws) = String.length ws /\
    atLineStart (state l') /\
    items l' = [] /\
    input l' = input l /\
    start l' = start l + String.length ws /\
    Strings.drop (start l') (input l') = rest.
Proof.
  induction ws as [|c ws IH]; intros l rest Hs Hq Hp Hws Hd.
  - exists l. split; [constructor|]. split; [reflexivity|].
    repeat (split; [assumption || reflexivity|]).
    split; [cbn; lia | exact Hd].
  - cbn [lineChars] in Hws. apply andb_true_iff in Hws as [Hc Hws].
    rewrite str_app_cons in Hd.
    specialize (Hp ltac:(discriminate)).
    pose proof (line_char_item l c (ws +:+ rest) Hs Hq Hp Hd Hc) as Hnext.
    destruct (afterChar_fields l (stateAfter c)) as (Hs1 & Hq1 & Hi1 & Hst1).
    set (l1 := afterChar l (stateAfter c)) in *.
    assert (Hd1 : Strings.drop (start l1) (input l1) = ws +:+ rest).
    { rewrite Hi1, Hst1, Hp. eapply str_drop_S, Hd. }
    destruct (IH l1 rest) as (l' & Hr & _ & Hs' & Hq' & Hi' & Hst' & Hd');
      try assumption.
    { rewrite Hs1. unfold stateAfter. destruct (isBlank c).
      - right; left; reflexivity.
      - left; reflexivity. }
    { intros Hne. destruct ws as [|c' ws']; [congruence|].
      cbn [lineChars] in Hws. apply andb_true_iff in Hws as [Hc' _].
      rewrite Hst1. unfold l1. eapply afterChar_pos.
      - rewrite Hp. eapply str_drop_S. rewrite Hd. rewrite str_app_cons. reflexivity.
      - apply line_char_ascii, Hc'. }
    exists l'. split.
    { cbn [lineItems]. eapply reaches_next;
        [exact Hnext | apply lineItem_not_terminal | exact Hr]. }
    split; [apply length_lineItems|].
    split; [exact Hs'|]. split; [exact Hq'|].
    split; [congruence|].
    split; [|exact Hd'].
    rewrite Hst', Hst1, Hp. cbn [String.length]. lia.
Qed.

(** After the first line, where pos is one rune ahead of start, the
    scanner turns a run of blanks, tabs, newlines and carriage returns
    at the start of a line into one item for each character, with the
    character as its lexeme: an IdentSpace, an IdentTab or an Endl. *)
Theorem line_start_run (ws : string) : forall (l : lexer) (rest : string),
  atLineStart (state l) ->
  items l = [] ->
  (ws <> EmptyString -> pos l = S (start l)) ->
  lineChars ws = true ->
  Strings.drop (start l) (input l) = ws +:+ rest ->
  exists l' : lexer,
    reaches l (lineItems ws) l' /\
    length (lineItems ws) = String.length ws /\
    atLineStart (state l') /\
    items l' = [] /\
    input l' = input l /\
    start l' = start l + String.length ws /\
    Strings.drop (start l') (input l') = rest.
Proof. exact (line_run ws). Qed.

Lemma line_start_run_witness :
  exists l' : lexer,
    reaches indentedLexer
      [Item itemEndl (String nl EmptyString);
       Item itemIdentSpace (String sp EmptyString);
       Item itemIdentTab (String tab EmptyString)] l' /\
    length (lineItems (String nl (String sp (String tab EmptyString)))) = 3 /\
    atLineStart (state l') /\
    items l' = [] /\
    input l' = indentedText /\
    start l' = 1 + 3 /\
    Strings.drop (start l') (input l') = "b".
Proof.
  refine (line_start_run (String nl (String sp (String tab EmptyString)))
            indentedLexer "b" _ _ _ _ _).
  - left. reflexivity.
  - reflexivity.
  - intros _. reflexivity.
  - reflexivity.
  - reflexivity.
Defined.

(** The width of a rune: at least one byte of a string that is not
    empty, no more bytes than there are, and behind the first byte only
    bytes from 0x80 up. *)
Lemma DecodeRuneInString_width (s : string) (r : Z) (w : nat) :
  utf8.DecodeRuneInString s = (r, w) ->
  s <> EmptyString ->
  1 <= w <= String.length s /\
  forall (i : nat) (c : ascii),
    1 <= i < w -> String.get i s = Some c -> (128 <= utf8.byte c)%Z.
Proof.
  intros H Hne.
  destruct s as [|c0 t0]; [congruence|]. clear Hne.
  cbn [utf8.DecodeRuneInString] in H.
  set (b0 := utf8.byte c0) in *.
  destruct (utf8.as_ <=? utf8.first b0)%Z eqn:Has.
  { injection H as _ <-. split; [cbn; lia | intros i c Hi; lia]. }
  cbv zeta in H.
  revert H Has. unfold utf8.first.
  repeat match goal with
  | |- context [(b0 <? ?k)%Z] => destruct (Z.ltb_spec b0 k) as [?Hc|?Hc]
  | |- context [(b0 =? ?k)%Z] => destruct (Z.eqb_spec b0 k) as [?Hc|?Hc]
  end; try (intros _ Has; vm_compute in Has; discriminate Has);
  intros Hd _.
  all: vm_compute utf8.acceptRanges in Hd.
  all: match type of Hd with context [Z.to_nat ?z] =>
    let v := eval vm_compute in (Z.to_nat z) in change (Z.to_nat z) with v in Hd
  end.
  all: cbv iota beta in Hd; cbn [Nat.leb] in Hd.
  all: unfold utf8.outside, utf8.locb, utf8.hicb in Hd.
  all: repeat match type of Hd with
  | (if (Strings.len ?s <? ?k) then _ else _) = _ =>
      destruct (Strings.len s <? k)
  | (if (?b <? ?lo)%Z || (?hi <? ?b)%Z then _ else _) = _ =>
      destruct (Z.ltb_spec b lo) as [?Hc|?Hc];
      destruct (Z.ltb_spec hi b) as [?Hc|?Hc]; cbn [orb] in Hd
  | match ?t with EmptyString => _ | String _ _ => _ end = _ =>
      destruct t as [|?c ?t]
  end.
  all: injection Hd as _ <-.
  all: split; [cbn [String.length]; lia|].
  all: intros i c' Hi Hg.
  all: destruct i as [|[|[|[|i]]]]; try lia.
  all: cbn [String.get] in Hg; injection Hg as <-; lia.
Qed.

(** A rune of DecodeRuneInString is not negative: it is never eof. *)
Lemma DecodeRuneInString_nonneg (s : string) (r : Z) (w : nat) :
  utf8.DecodeRuneInString s = (r, w) -> (0 <= r)%Z.
Proof.
  intros H.
  assert (Hl : forall a b, (0 <= a)%Z -> (0 <= b)%Z -> (0 <= Z.lor a b)%Z)
    by (intros a b Ha Hb; apply Z.lor_nonneg; split; assumption).
  assert (Hs : forall a n, (0 <= a)%Z -> (0 <= Z.shiftl a n)%Z)
    by (intros a n Ha; apply Z.shiftl_nonneg; exact Ha).
  assert (Hm : forall c m, (0 <= Z.land (utf8.byte c) m)%Z).
  { intros c m. apply Z.land_nonneg. left. apply byte_range. }
  destruct s as [|c0 t0]; cbn [utf8.DecodeRuneInString] in H.
  { injection H as <- _. vm_compute. discriminate. }
  destruct (utf8.as_ <=? utf8.first (utf8.byte c0))%Z.
  { destruct (utf8.first (utf8.byte c0) =? utf8.as_)%Z; injection H as <- _.
    - apply byte_range.
    - vm_compute. discriminate. }
  cbv zeta in H.
  destruct (utf8.acceptRanges _) as [lo hi].
  repeat match type of H with
  | (utf8.RuneError, _) = _ => injection H as <- _; vm_compute; discriminate
  | (if ?b then _ else _) = _ => destruct b
  | match ?t with EmptyString => _ | String _ _ => _ end = _ =>
      destruct t as [|?c ?t]
  | (Z.lor _ _, _) = _ => injection H as <- _; auto 10
  end.
Qed.

(** *** Text lines after the first line *)

Lemma str_get_lt (s : string) : forall i, i < String.length s -> exists c, String.get i s = Some c.
Proof.
  induction s as [|d s IH]; intros i Hi; cbn in Hi; [lia|].
  destruct i as [|i]; cbn; [eauto|]. apply IH. lia.
Qed.

Lemma str_get_drop_add (s : string) (n i : nat) :
  String.get i (Strings.drop n s) = String.get (n + i) s.
Proof.
  rewrite !str_get_drop, str_drop_add. reflexivity.
Qed.

Lemma newline_cases (c : ascii) : isNewline c = true -> c = nl \/ c = cr.
Proof.
  unfold isNewline, same. intros [H|H]%orb_true_iff; apply Ascii.eqb_eq in H; auto.
Qed.

Lemma isr_newline (r : Z) (c : ascii) :
  isr r cr || isr r nl = true -> r = utf8.byte c -> isNewline c = true.
Proof.
  intros H ->. unfold isr, chr in H. unfold isNewline, same.
  apply orb_true_iff in H as [H|H]; apply Z.eqb_eq, byte_inj in H; subst;
    reflexivity.
Qed.

Lemma peek_lt (l : lexer) :
  pos l < Strings.len (input l) ->
  exists w, peek l = (fst (utf8.DecodeRuneInString (Strings.drop (pos l) (input l))),
                      set_width l w) /\
            snd (utf8.DecodeRuneInString (Strings.drop (pos l) (input l))) = w.
Proof.
  intros H. unfold peek, next.
  destruct (Nat.leb_spec (Strings.len (input l)) (pos l)); [lia|].
  destruct (utf8.DecodeRuneInString _) as [r w]. exists w. split; [|reflexivity].
  cbn [fst]. f_equal. destruct l; unfold backup; cbn.
  replace (pos0 + w - w) with pos0 by lia. reflexivity.
Qed.

Lemma next_lt (l : lexer) (r : Z) (w : nat) :
  pos l < Strings.len (input l) ->
  utf8.DecodeRuneInString (Strings.drop (pos l) (input l)) = (r, w) ->
  snd (next l) = set_pos (set_width l w) (pos l + w).
Proof.
  intros H Hd. unfold next.
  destruct (Nat.leb_spec (Strings.len (input l)) (pos l)); [lia|].
  rewrite Hd. reflexivity.
Qed.

(** The rune at pos, before the end of the line: no newline, not eof,
    and not wider than what is left of the line. *)
Lemma rune_in_line (l : lexer) (e : nat) (r : Z) (w : nat) :
  lineUpTo l e -> start l <= pos l -> pos l < e ->
  utf8.DecodeRuneInString (Strings.drop (pos l) (input l)) = (r, w) ->
  isr r cr || isr r nl = false /\ (r =? eof)%Z = false /\
  1 <= w /\ pos l + w <= e.
Proof.
  intros (Hse & Hpe & Hel & Hline & Hend) Hsp Hlt Hd.
  assert (Hne : Strings.drop (pos l) (input l) <> EmptyString).
  { intros E. pose proof (str_length_drop (input l) (pos l)) as Hl.
    rewrite E in Hl. unfold Strings.len in *. cbn in Hl. lia. }
  destruct (DecodeRuneInString_width _ _ _ Hd Hne) as ((Hw1 & Hw2) & Hcont).
  rewrite str_length_drop in Hw2. unfold Strings.len in *.
  split; [|split; [|split; [exact Hw1|]]].
  - destruct (isr r cr || isr r nl) eqn:Hr; [|reflexivity]. exfalso.
    assert (Hlow : (0 <= r < 128)%Z).
    { unfold isr, chr in Hr.
      apply orb_true_iff in Hr as [Hr|Hr]; apply Z.eqb_eq in Hr; rewrite Hr;
        vm_compute; split; congruence. }
    destruct (DecodeRuneInString_low _ _ _ Hd Hlow) as (c & t & Hs & Hc & _).
    assert (Hg : String.get (pos l) (input l) = Some c)
      by (rewrite str_get_drop, Hs; reflexivity).
    pose proof (Hline (pos l) c ltac:(lia) Hg) as Hn.
    rewrite (isr_newline r c Hr Hc) in Hn. discriminate.
  - pose proof (DecodeRuneInString_nonneg _ _ _ Hd) as H0.
    apply Z.eqb_neq. unfold eof. lia.
  - destruct (Nat.le_gt_cases (pos l + w) e) as [Hle|Hgt]; [exact Hle|]. exfalso.
    destruct Hend as [He | (c & Hg & Hn)]; [lia|].
    assert (Hg' : String.get (e - pos l) (Strings.drop (pos l) (input l)) = Some c).
    { rewrite str_get_drop_add. replace (pos l + (e - pos l)) with e by lia. exact Hg. }
    pose proof (Hcont (e - pos l) c ltac:(lia) Hg') as Hhi.
    destruct (newline_cases c Hn) as [-> | ->]; vm_compute in Hhi; congruence.
Qed.

Lemma unexpected_in_line (l : lexer) (e : nat) :
  lineUpTo l e ->
  unexpected nl l = Ret false /\ unexpected cr l = Ret false.
Proof.
  intros (Hse & Hpe & Hel & Hline & Hend).
  destruct (str_get_lt (input l) (start l)) as (c & Hg);
    [unfold Strings.len in *; lia|].
  pose proof (Hline (start l) c ltac:(lia) Hg) as Hn.
  unfold isNewline in Hn. apply orb_false_iff in Hn as [Hn1 Hn2].
  unfold unexpected, Strings.at_. rewrite Hg. cbn [mbind result_bind].
  rewrite Hn1, Hn2. split; reflexivity.
Qed.

(** One call of lexText before the end of the line: the scanner moves
    on by one rune and stays in the line. *)
Lemma lexText_step (l : lexer) (e : nat) :
  lineUpTo l e -> start l <= pos l -> pos l < e ->
  exists l2,
    lexText_fn l = Ret (l2, Some lexText) /\
    input l2 = input l /\ start l2 = start l /\ items l2 = items l /\
    state l2 = state l /\
    pos l < pos l2 /\ pos l2 <= e.
Proof.
  intros Hline Hsp Hlt.
  destruct (unexpected_in_line l e Hline) as [Hu1 Hu2].
  assert (Hlen : pos l < Strings.len (input l))
    by (destruct Hline as (_ & _ & ? & _); lia).
  destruct (peek_lt l Hlen) as (w & Hpeek & Hw).
  destruct (utf8.DecodeRuneInString (Strings.drop (pos l) (input l)))
    as [r w'] eqn:Hd.
  cbn [fst snd] in *. subst w'.
  destruct (rune_in_line l e r w Hline Hsp Hlt Hd) as (Hr & Heof & Hw1 & Hwe).
  exists (set_pos (set_width l w) (pos l + w)).
  split.
  { unfold lexText_fn. rewrite Hu1. cbn [mbind result_bind].
    rewrite Hu2. cbn [mbind result_bind]. rewrite Hpeek, Hr, Heof.
    unfold go. f_equal. f_equal.
    rewrite (next_lt (set_width l w) r w) by (destruct l; assumption).
    destruct l; reflexivity. }
  destruct l; cbn in *. repeat split; try reflexivity; lia.
Qed.

Lemma emit_text (l : lexer) (e : nat) :
  items l = [] -> pos l = e -> start l <= e -> e <= Strings.len (input l) ->
  emit itemText l =
  Ret (set_start (set_items l [Item itemText (lineText l e)]) e).
Proof.
  intros Hq Hp Hs He. unfold emit, send, Strings.slice, lineText.
  unfold Strings.len in *. destruct l; cbn in *. rewrite Hp, Hq.
  destruct (Nat.leb_spec start0 e); [|lia].
  destruct (Nat.leb_spec e (String.length input0)); [|lia].
  reflexivity.
Qed.

(** The call of lexText at the end of the line. *)
Lemma lexText_end (l : lexer) (e : nat) :
  lineUpTo l e -> pos l = e -> items l = [] ->
  exists l3 s,
    lexText_fn l = Ret (l3, Some s) /\
    items l3 = [Item itemText (lineText l e)] /\
    input l3 = input l /\ start l3 = e /\
    ((e = Strings.len (input l) /\ s = lexEOF /\ pos l3 = e) \/
     (e < Strings.len (input l) /\ s = lexNewLine /\ pos l3 = S e)).
Proof.
  intros Hline Hp Hq.
  destruct (unexpected_in_line l e Hline) as [Hu1 Hu2].
  destruct Hline as (Hse & Hpe & Hel & Hall & Hend).
  unfold lexText_fn. rewrite Hu1. cbn [mbind result_bind].
  rewrite Hu2. cbn [mbind result_bind].
  destruct Hend as [He | (c & Hg & Hn)].
  - (* the end of the input *)
    rewrite peek_eof by lia.
    change (isr eof cr || isr eof nl) with false.
    change (eof =? eof)%Z with true. cbv iota.
    rewrite (emit_text (set_width l 0) e)
      by (destruct l; cbn in *; (assumption || lia)).
    cbn [mbind result_bind]. unfold go.
    eexists _, _. split; [reflexivity|].
    destruct l; cbn in *. repeat split. left; repeat split; assumption.
  - (* a newline *)
    assert (Hlen : pos l < Strings.len (input l)).
    { unfold Strings.len. destruct (Nat.lt_ge_cases (pos l) (String.length (input l)))
        as [H|H]; [exact H|].
      rewrite str_get_drop in Hg. pose proof (str_length_drop (input l) e) as Hl.
      destruct (Strings.drop e (input l)); [discriminate|]. cbn in Hl. lia. }
    assert (Hd : Strings.drop (pos l) (input l) =
                 String c (Strings.drop (S (pos l)) (input l))).
    { rewrite Hp. rewrite str_get_drop in Hg.
      destruct (Strings.drop e (input l)) as [|d t] eqn:E; [discriminate|].
      injection Hg as ->. rewrite (str_drop_S _ _ _ _ E). reflexivity. }
    assert (Hc : (utf8.byte c < 128)%Z)
      by (destruct (newline_cases c Hn) as [-> | ->]; vm_compute; reflexivity).
    destruct (peek_lt l Hlen) as (w & Hpeek & Hw).
    rewrite Hd, DecodeRuneInString_ascii in Hpeek, Hw by exact Hc.
    cbn [fst snd] in *. subst w. rewrite Hpeek.
    assert (Hr : isr (utf8.byte c) cr || isr (utf8.byte c) nl = true)
      by (destruct (newline_cases c Hn) as [-> | ->]; reflexivity).
    rewrite Hr.
    rewrite (emit_text (set_width l 1) e)
      by (destruct l; cbn in *; (assumption || lia)).
    cbn [mbind result_bind]. unfold go.
    eexists _, _. split; [reflexivity|].
    set (l1 := set_start _ e).
    assert (Hn1 : snd (next l1) = set_pos (set_width l1 1) (pos l1 + 1)).
    { apply (next_lt l1 (utf8.byte c) 1).
      - unfold l1. destruct l; cbn in *. exact Hlen.
      - unfold l1. destruct l; cbn in *. rewrite Hd.
        apply DecodeRuneInString_ascii, Hc. }
    rewrite Hn1. unfold l1. destruct l; cbn in *. subst.
    repeat split. right; repeat split; (assumption || lia).
Qed.

(** lexText scans to the end of the line and hands the line out as one
    text item. *)
Lemma text_scan (k : nat) : forall (l : lexer) (e : nat),
  state l = Some lexText -> items l = [] ->
  lineUpTo l e -> start l <= pos l -> e - pos l <= k ->
  exists l',
    nextItem (S (S k)) l = Ret (Item itemText (lineText l e), l') /\
    items l' = [] /\ input l' = input l /\ start l' = e /\
    ((e = Strings.len (input l) /\ state l' = Some lexEOF /\ pos l' = e) \/
     (e < Strings.len (input l) /\ state l' = Some lexNewLine /\ pos l' = S e)).
Proof.
  induction k as [|k IH]; intros l e Hs Hq Hline Hsp Hk.
  - assert (Hp : pos l = e) by (destruct Hline as (_ & ? & _); lia).
    destruct (lexText_end l e Hline Hp Hq) as (l3 & s & Hfn & Hq3 & Hi3 & Hs3 & Hcase).
    exists (set_items (set_state l3 (Some s)) []).
    split.
    { rewrite (nextItem_step _ _ lexText) by assumption.
      cbn [call]. rewrite Hfn. cbn [mbind result_bind].
      erewrite nextItem_recv by (destruct l3; cbn in *; exact Hq3). reflexivity. }
    destruct l3; cbn in *. repeat split; try assumption.
    destruct Hcase as [(? & -> & ?) | (? & -> & ?)]; [left | right]; auto.
  - destruct (Nat.eq_dec (pos l) e) as [Hp | Hne].
    + destruct (IH l e Hs Hq Hline Hsp ltac:(lia)) as (l' & Hn & Hrest).
      exists l'. split; [|exact Hrest].
      apply (nextItem_mono (S (S k))); [exact Hn | lia].
    + assert (Hlt : pos l < e) by (destruct Hline as (_ & ? & _); lia).
      destruct (lexText_step l e Hline Hsp Hlt)
        as (l2 & Hfn & Hi2 & Hs2 & Hq2 & Hst2 & Hp2 & Hp2e).
      assert (Hline2 : lineUpTo (set_state l2 (Some lexText)) e).
      { destruct Hline as (Hse & Hpe & Hel & Hall & Hend).
        destruct l2; cbn in *; subst. repeat split; assumption. }
      destruct (IH (set_state l2 (Some lexText)) e) as (l' & Hn & Hq' & Hi' & Hs' & Hc');
        try (destruct l2; cbn in *; subst; (assumption || reflexivity || lia)).
      exists l'. split.
      { rewrite (nextItem_step _ _ lexText) by assumption.
        cbn [call]. rewrite Hfn. cbn [mbind result_bind].
        replace (lineText l e) with (lineText (set_state l2 (Some lexText)) e)
          by (unfold lineText; destruct l2; cbn in *; subst; reflexivity).
        exact Hn. }
      replace (input (set_state l2 (Some lexText))) with (input l) in *
        by (destruct l2; cbn in *; congruence).
      repeat split; assumption.
Qed.

Lemma str_get_app_l (a b : string) : forall i,
  i < String.length a -> String.get i (a +:+ b) = String.get i a.
Proof.
  induction a as [|c a IH]; intros i Hi; cbn in Hi; [lia|].
  rewrite str_app_cons. destruct i as [|i]; cbn; [reflexivity|]. apply IH. lia.
Qed.

Lemma str_get_app_r (a b : string) :
  String.get (String.length a) (a +:+ b) = String.get 0 b.
Proof.
  induction a as [|c a IH]; [reflexivity|]. rewrite str_app_cons. cbn. exact IH.
Qed.

Lemma str_take_app (a b : string) : Strings.take (String.length a) (a +:+ b) = a.
Proof.
  induction a as [|c a IH]; cbn.
  - destruct b; reflexivity.
  - rewrite str_app_cons. cbn. rewrite IH. reflexivity.
Qed.

Lemma textLine_get (s : string) : forall i c,
  textLine s = true -> String.get i s = Some c -> isNewline c = false.
Proof.
  induction s as [|d s IH]; intros i c Ht Hg; [discriminate|].
  cbn [textLine] in Ht. apply andb_true_iff in Ht as [Hd Hs].
  destruct i as [|i]; cbn in Hg.
  - injection Hg as <-. apply negb_true_iff, Hd.
  - eapply IH; eauto.
Qed.

(** On a line behind the first line, where pos is one rune ahead of
    start, the scanner drops the marker of a text line and hands the
    rest of the line, if there is any, out as one text item. *)
Theorem text_marker_line (l : lexer) (body rest : string) :
  atLineStart (state l) ->
  items l = [] ->
  pos l = S (start l) ->
  Strings.drop (start l) (input l) = String "|" (body +:+ rest) ->
  body <> EmptyString ->
  textLine body = true ->
  endsLine rest ->
  exists l',
    (forall fuel, 5 + String.length body <= fuel ->
       nextItem fuel l = Ret (Item itemText body, l')) /\
    items l' = [] /\
    input l' = input l /\
    Strings.drop (start l') (input l') = rest /\
    ((rest = EmptyString /\ state l' = Some lexEOF) \/
     (rest <> EmptyString /\ state l' = Some lexNewLine /\ pos l' = S (start l'))).
Proof.
  intros Hs Hq Hp Hd Hne Hbody Hrest.
  set (s := start l) in *. set (e := S s + String.length body).
  assert (Hat : Strings.at_ (input l) (start l) = Ret "|"%char)
    by (eapply at_drop; exact Hd).
  assert (Hd1 : Strings.drop (S s) (input l) = body +:+ rest)
    by (eapply str_drop_S; exact Hd).
  assert (Hde : Strings.drop e (input l) = rest).
  { unfold e. rewrite str_drop_add, Hd1.
    clear. induction body as [|c b IH]; [reflexivity|].
    rewrite str_app_cons. cbn. exact IH. }
  assert (Hlen : Strings.len (input l) = e + String.length rest).
  { pose proof (str_length_drop (input l) (S s)) as Hl.
    rewrite Hd1, str_length_app in Hl.
    pose proof (str_drop_lt _ _ _ _ Hd) as Hlt. fold s in Hlt.
    unfold Strings.len in *. unfold e. lia. }
  assert (Hblen : 0 < String.length body)
    by (destruct body; [congruence | cbn; lia]).
  (* the scanner in lexText, behind the marker *)
  set (l1 := set_state (ignore l) (Some lexText)).
  assert (Hi1 : input l1 = input l) by (unfold l1; destruct l; reflexivity).
  assert (Hs1 : start l1 = S s) by (unfold l1, s; destruct l; exact Hp).
  assert (Hp1 : pos l1 = S s) by (unfold l1, s; destruct l; exact Hp).
  assert (Hline : lineUpTo l1 e).
  { unfold lineUpTo. rewrite Hi1, Hs1, Hp1.
    split; [unfold e; lia|]. split; [unfold e; lia|]. split; [lia|]. split.
    - intros i c [Hi1' Hi2] Hg.
      replace i with (S s + (i - S s)) in Hg by lia.
      rewrite <- str_get_drop_add, Hd1, str_get_app_l in Hg by (unfold e in Hi2; lia).
      eapply textLine_get; eauto.
    - destruct Hrest as [-> | (c & t & -> & Hc)].
      + left. cbn in Hlen. lia.
      + right. exists c. split; [|exact Hc].
        rewrite str_get_drop, Hde. reflexivity. }
  destruct (text_scan (String.length body) l1 e)
    as (l' & Hn & Hq' & Hi' & Hs' & Hcase).
  { unfold l1. destruct l; reflexivity. }
  { unfold l1. destruct l; exact Hq. }
  { exact Hline. }
  { rewrite Hs1, Hp1. lia. }
  { rewrite Hp1. unfold e. lia. }
  assert (Htext : lineText l1 e = body).
  { unfold lineText. rewrite Hi1, Hs1.
    replace (e - S s) with (String.length body) by (unfold e; lia).
    rewrite Hd1. apply str_take_app. }
  rewrite Htext in Hn.
  exists l'. split; [|split; [exact Hq'|split; [congruence|split]]].
  - (* the calls that lead to lexText hand nothing out *)
    assert (Hdisp : forall st, st = Some lexNewLine \/ st = Some lexIndent \/
                               st = Some lexTag ->
              nextItem (5 + String.length body) (set_state l st) =
              Ret (Item itemText body, l')).
    { assert (Hq0 : forall st, items (set_state l st) = [])
        by (intros st; destruct l; exact Hq).
      assert (Hst : forall st, state (set_state l st) = st)
        by (intros st; destruct l; reflexivity).
      assert (Hss : forall st st', set_state (set_state l st) st' = set_state l st')
        by (intros st st'; destruct l; reflexivity).
      assert (Hat' : forall st, Strings.at_ (input (set_state l st))
                                            (start (set_state l st)) = Ret "|"%char)
        by (intros st; destruct l; exact Hat).
      assert (Htag : forall n, 2 + String.length body <= n ->
                nextItem (S n) (set_state l (Some lexTag)) =
                Ret (Item itemText body, l')).
      { intros n Hn'. rewrite (nextItem_step _ _ lexTag) by auto.
        cbn [call]. unfold lexTag_fn. rewrite Hat'. cbn [mbind result_bind].
        change (same "|" ".") with false. change (same "|" "#") with false.
        change (same "|" sp || same "|" tab) with false.
        change (same "|" "|") with true. cbv iota.
        unfold go. cbn [mbind result_bind].
        replace (set_state (ignore (set_state l (Some lexTag))) (Some lexText))
          with l1 by (unfold l1; destruct l; reflexivity).
        apply (nextItem_mono (S (S (String.length body)))); [exact Hn | lia]. }
      assert (Hind : forall n, 3 + String.length body <= n ->
                nextItem (S n) (set_state l (Some lexIndent)) =
                Ret (Item itemText body, l')).
      { intros n Hn'. rewrite (nextItem_step _ _ lexIndent) by auto.
        cbn [call]. unfold lexIndent_fn. rewrite Hat'. cbn [mbind result_bind].
        change (same "|" tab) with false. change (same "|" sp) with false.
        cbv iota. unfold go. cbn [mbind result_bind]. rewrite Hss.
        destruct n as [|n]; [lia|]. apply Htag. lia. }
      intros st [-> | [-> | ->]]; cbn [Nat.add].
      - rewrite (nextItem_step _ _ lexNewLine) by auto.
        cbn [call]. unfold lexNewLine_fn. rewrite Hat'. cbn [mbind result_bind].
        change (same "|" cr || same "|" nl) with false. cbv iota.
        unfold go. cbn [mbind result_bind]. rewrite Hss. apply Hind. lia.
      - apply Hind. lia.
      - apply Htag. lia. }
    intros fuel Hfuel.
    apply (nextItem_mono (5 + String.length body)); [|exact Hfuel].
    rewrite <- (set_state_same l (state l) eq_refl) at 1. apply Hdisp.
    exact Hs.
  - rewrite Hs', Hi', Hi1. exact Hde.
  - rewrite Hi1 in Hcase.
    destruct Hcase as [(He & Hst & _) | (He & Hst & Hp')].
    + left. split; [|exact Hst].
      destruct rest; [reflexivity|]. cbn in Hlen. lia.
    + right. split; [|split; [exact Hst | congruence]].
      intros ->. cbn in Hlen. lia.
Qed.

Lemma text_marker_line_witness :
  exists l',
    (forall fuel, 5 + String.length " x y" <= fuel ->
       nextItem fuel markerLexer = Ret (Item itemText " x y", l')) /\
    items l' = [] /\
    input l' = markerText /\
    Strings.drop (start l') (input l') = EmptyString /\
    ((EmptyString = EmptyString /\ state l' = Some lexEOF) \/
     (EmptyString <> EmptyString /\ state l' = Some lexNewLine /\
      pos l' = S (start l'))).
Proof.
  refine (text_marker_line markerLexer " x y" EmptyString _ _ _ _ _ _ _).
  - left. reflexivity.
  - reflexivity.
  - reflexivity.
  - reflexivity.
  - discriminate.
  - reflexivity.
  - left. reflexivity.
Defined.


(** The two scanners of the examples are met in scans. *)
Lemma indentedLexer_reached :
  reaches (lex "name" indentedText "" "") [Item itemTag "a"] indentedLexer.
Proof.
  eapply (reaches_next _ 3); [vm_compute; reflexivity | reflexivity |].
  apply reaches_here.
Qed.

Lemma markerLexer_reached :
  reaches (lex "name" markerText "" "") [Item itemTag "a"; Item itemEndl lf]
          markerLexer.
Proof.
  eapply (reaches_next _ 3); [vm_compute; reflexivity | reflexivity |].
  eapply (reaches_next _ 3); [vm_compute; reflexivity | reflexivity |].
  apply reaches_here.
Qed.

Lemma pieces_bound text : forall its a e, pieces text a its e -> a <= e.
Proof.
  induction its as [|it its IH]; intros a e H; cbn in H; [exact H|].
  destruct (isError it); [apply IH, H|].
  destruct H as (lo & hi & Hlo & Hs & H). apply IH in H.
  unfold Strings.slice in Hs.
  destruct (Nat.leb_spec lo hi); [|discriminate]. lia.
Qed.

Lemma pieces_from text : forall its a a' e,
  pieces text a its e -> a' <= a -> pieces text a' its e.
Proof.
  induction its as [|it its IH]; intros a a' e H Ha; cbn in *; [lia|].
  destruct (isError it); [eapply IH; eauto|].
  destruct H as (lo & hi & Hlo & Hs & H). exists lo, hi. repeat split; auto. lia.
Qed.

Lemma pieces_to text : forall its a e e',
  pieces text a its e -> e <= e' -> pieces text a its e'.
Proof.
  induction its as [|it its IH]; intros a e e' H He; cbn in *; [lia|].
  destruct (isError it); [eapply IH; eauto|].
  destruct H as (lo & hi & Hlo & Hs & H). exists lo, hi. repeat split; eauto.
Qed.

Lemma pieces_snoc text (it : item) : forall its a m lo hi,
  pieces text a its m -> isError it = false -> m <= lo ->
  Strings.slice text lo hi = Ret (val it) ->
  pieces text a (its ++ [it]) hi.
Proof.
  induction its as [|i its IH]; intros a m lo hi H He Hm Hs; cbn in *.
  - rewrite He. exists lo, hi. repeat split; [lia | exact Hs | lia].
  - destruct (isError i); [eapply IH; eauto|].
    destruct H as (lo' & hi' & Hlo & Hs' & H). exists lo', hi'.
    repeat split; eauto.
Qed.

Lemma pieces_snoc_error text (it : item) : forall its a e,
  pieces text a its e -> isError it = true -> pieces text a (its ++ [it]) e.
Proof.
  induction its as [|i its IH]; intros a e H He; cbn in *.
  - rewrite He. exact H.
  - destruct (isError i); [eapply IH; eauto|].
    destruct H as (lo' & hi' & Hlo & Hs' & H). exists lo', hi'.
    repeat split; eauto.
Qed.

Lemma pieces_app_l text : forall xs ys a e,
  pieces text a (xs ++ ys) e -> pieces text a xs e.
Proof.
  induction xs as [|i xs IH]; intros ys a e H; cbn in *.
  - eapply pieces_bound, H.
  - destruct (isError i); [eapply IH; eauto|].
    destruct H as (lo' & hi' & Hlo & Hs' & H). exists lo', hi'.
    repeat split; eauto.
Qed.

Lemma slice_bounds (s : string) (lo hi : nat) (v : string) :
  Strings.slice s lo hi = Ret v -> lo <= hi /\ hi <= Strings.len s.
Proof.
  unfold Strings.slice.
  destruct (Nat.leb_spec lo hi); destruct (Nat.leb_spec hi (Strings.len s));
    cbn; intros Hs; try discriminate. lia.
Qed.

Lemma slice_empty (s : string) (i : nat) (v : string) :
  Strings.slice s i i = Ret v -> v = EmptyString.
Proof.
  unfold Strings.slice. destruct (_ && _); [|discriminate].
  rewrite Nat.sub_diag. intros [= <-]. destruct (Strings.drop i s); reflexivity.
Qed.

(** What emit does when it returns. *)
Lemma emit_ret (t : itemType) (l l1 : lexer) :
  emit t l = Ret l1 ->
  exists v,
    Strings.slice (input l) (start l) (pos l) = Ret v /\
    length (items l) < chanCap /\
    l1 = set_start (set_items l (items l ++ [Item t v])) (pos l).
Proof.
  unfold emit, send.
  destruct (Strings.slice _ _ _) as [v| | |]; cbn [mbind result_bind];
    try discriminate.
  destruct (Nat.ltb_spec (length (items l)) chanCap);
    cbn [mbind result_bind mret result_ret]; try discriminate.
  intros [= <-]. exists v. repeat split; auto.
Qed.

(** What next does: it moves on by the width of the rune at pos, which
    is nothing at the end of the input only. *)
Lemma next_spec (l : lexer) :
  exists w,
    snd (next l) = set_pos (set_width l w) (pos l + w) /\
    pos l + w <= Nat.max (pos l) (Strings.len (input l)) /\
    ((Strings.len (input l) <= pos l /\ w = 0 /\ fst (next l) = eof) \/
     (pos l < Strings.len (input l) /\ 1 <= w /\ fst (next l) <> eof /\
      utf8.DecodeRuneInString (Strings.drop (pos l) (input l)) = (fst (next l), w))).
Proof.
  unfold next. destruct (Nat.leb_spec (Strings.len (input l)) (pos l)) as [H|H].
  - exists 0. split; [|split; [lia | left; auto]].
    destruct l; cbn. rewrite Nat.add_0_r. reflexivity.
  - destruct (utf8.DecodeRuneInString _) as [r w] eqn:E. exists w. cbn [fst snd].
    assert (Hne : Strings.drop (pos l) (input l) <> EmptyString).
    { intros E'. pose proof (str_length_drop (input l) (pos l)) as Hl.
      rewrite E' in Hl. unfold Strings.len in *. cbn in Hl. lia. }
    destruct (DecodeRuneInString_width _ _ _ E Hne) as ((Hw1 & Hw2) & _).
    rewrite str_length_drop in Hw2. unfold Strings.len in *.
    pose proof (DecodeRuneInString_nonneg _ _ _ E) as H0.
    split; [reflexivity|]. split; [lia|]. right.
    repeat split; auto. unfold eof. lia.
Qed.

(** What peek does: all but the width stays, and the rune is eof at the
    end of the input only. *)
Lemma peek_spec (l : lexer) :
  exists w,
    snd (peek l) = set_width l w /\
    ((Strings.len (input l) <= pos l /\ fst (peek l) = eof) \/
     (pos l < Strings.len (input l) /\ fst (peek l) <> eof /\
      exists w', utf8.DecodeRuneInString (Strings.drop (pos l) (input l))
                 = (fst (peek l), w'))).
Proof.
  destruct (next_spec l) as (w & Hn & _ & Hc). exists w.
  unfold peek. destruct (next l) as [r l1]. cbn [fst snd] in *. subst l1.
  split.
  - destruct l as [nm inp ld rd st p s w0 q]; unfold backup; cbn.
    replace (p + w - w) with p by lia. reflexivity.
  - destruct Hc as [(H & _ & Hr) | (H & _ & Hr & Hd)]; [left | right]; eauto.
Qed.

Ltac branches H :=
  repeat match type of H with
  | (if ?c then _ else _) = Ret _ => destruct c eqn:?
  end.

Ltac bind_step H :=
  match type of H with
  | (mbind _ ?m) = Ret _ =>
    let E := fresh "E" in
    destruct m eqn:E; cbn [mbind result_bind] in H; [|discriminate H ..]
  end.

Section Invariant.

Variable text : string.
Variable out : list item.

Lemma running_width (l : lexer) (w : nat) :
  running text out l -> running text out (set_width l w).
Proof. destruct l; exact (fun H => H). Qed.

Lemma running_next (l : lexer) :
  running text out l -> running text out (snd (next l)).
Proof.
  intros (Hi & Hs & Hp & Hpc & Hall).
  destruct (next_spec l) as (w & -> & Hw & _).
  rewrite Hi in Hw. unfold running.
  destruct l as [nm inp ld rd st p s w0 q];
    cbn [input start pos items set_pos set_width] in *.
  repeat split; auto; lia.
Qed.

Lemma running_ignore (l : lexer) :
  running text out l -> running text out (ignore l).
Proof.
  intros (Hi & Hs & Hp & Hpc & Hall). unfold running.
  destruct l as [nm inp ld rd st p s w0 q]; cbn [input start pos items ignore set_start] in *.
  repeat split; auto.
  eapply pieces_to; eauto.
Qed.

(** emit of an item that does not end the scan; start need not be
    before pos when emit is called: emit returns only if it is. *)
Lemma running_emit (t : itemType) (l l1 : lexer) (a : nat) :
  input l = text ->
  pieces text 0 (out ++ items l) a -> a <= start l ->
  Forall (fun it => terminal it = false) (out ++ items l) ->
  t <> itemError -> t <> itemEOF ->
  emit t l = Ret l1 ->
  running text out l1 /\ pos l1 = pos l /\ start l1 = pos l /\
  exists v, items l1 = items l ++ [Item t v].
Proof.
  intros Hi Hpc Ha Hall Ht1 Ht2 He.
  apply emit_ret in He as (v & Hs & Hlen & ->).
  pose proof (slice_bounds _ _ _ _ Hs) as [Hb1 Hb2].
  split; [|destruct l; cbn; eauto].
  unfold running.
  destruct l as [nm inp ld rd st p s w0 q];
    cbn [input start pos items set_items set_start] in *.
  rewrite Hi in *.
  repeat split; auto.
  - rewrite app_assoc. eapply pieces_snoc; eauto.
    destruct t; try reflexivity; congruence.
  - rewrite app_assoc. apply Forall_app. split; [exact Hall|].
    constructor; [|constructor]. destruct t; try reflexivity; congruence.
Qed.

Lemma running_emit' (t : itemType) (l l1 : lexer) :
  running text out l ->
  t <> itemError -> t <> itemEOF ->
  emit t l = Ret l1 ->
  running text out l1 /\ pos l1 = pos l.
Proof.
  intros (Hi & Hs & Hp & Hpc & Hall) Ht1 Ht2 He.
  destruct (running_emit t l l1 (start l) Hi Hpc (le_n _) Hall Ht1 Ht2 He)
    as (H & H' & _). auto.
Qed.


Lemma peek_running (l : lexer) (r : Z) (l0 : lexer) :
  running text out l -> peek l = (r, l0) ->
  running text out l0 /\ pos l0 = pos l /\
  (r = eof -> pos l0 = Strings.len text).
Proof.
  intros Hrun Hpk. destruct (peek_spec l) as (w & Hl0 & Hc).
  rewrite Hpk in Hl0, Hc. cbn [fst snd] in *. subst l0.
  split; [apply running_width, Hrun|].
  destruct Hrun as (Hi & Hs & Hp & _). rewrite Hi in Hc.
  destruct l as [nm inp ld rd st p s w0 q]; cbn [pos set_width] in *.
  split; [reflexivity|]. intros ->.
  destruct Hc as [(H & _) | (_ & H & _)]; [lia | congruence].
Qed.

Ltac emit_step H :=
  match type of H with
  | (mbind _ (emit ?t ?l)) = Ret _ =>
    let E := fresh "E" in
    let l1 := fresh "l1" in
    destruct (emit t l) as [l1| | |] eqn:E;
    cbn [mbind result_bind] in H; [|discriminate H ..];
    apply running_emit' in E as [? ?]; [|assumption|discriminate|discriminate]
  end.

Ltac at_eof :=
  intros _;
  repeat match goal with
  | Hr : (_ =? eof)%Z = true |- _ => apply Z.eqb_eq in Hr
  | Hr : ?r = eof, He : ?r = eof -> _ |- _ => specialize (He Hr)
  end; congruence.

Ltac done_go H :=
  unfold go in H; injection H as <- <-; cbn [left_by];
  split; [repeat first [assumption | apply running_next | apply running_ignore]
         | first [discriminate | at_eof]].

Lemma lexId_inv (l l' : lexer) (s : option stateFn) :
  running text out l -> lexId_fn l = Ret (l', s) -> left_by text out l' s.
Proof.
  intros Hrun H. unfold lexId_fn in H.
  destruct (peek l) as [r l0] eqn:Hpk.
  destruct (peek_running l r l0 Hrun Hpk) as (Hrun0 & Hp0 & Heof).
  branches H; try emit_step H; done_go H.
Qed.

Lemma lexClass_inv (l l' : lexer) (s : option stateFn) :
  running text out l -> lexClass_fn l = Ret (l', s) -> left_by text out l' s.
Proof.
  intros Hrun H. unfold lexClass_fn in H.
  destruct (peek l) as [r l0] eqn:Hpk.
  destruct (peek_running l r l0 Hrun Hpk) as (Hrun0 & Hp0 & Heof).
  branches H; try emit_step H; done_go H.
Qed.

Lemma lexComment_inv (l l' : lexer) (s : option stateFn) :
  running text out l -> lexComment_fn l = Ret (l', s) -> left_by text out l' s.
Proof.
  intros Hrun H. unfold lexComment_fn in H.
  destruct (peek l) as [r l0] eqn:Hpk.
  destruct (peek_running l r l0 Hrun Hpk) as (Hrun0 & Hp0 & Heof).
  branches H; try emit_step H; done_go H.
Qed.

Lemma lexText_inv (l l' : lexer) (s : option stateFn) :
  running text out l -> lexText_fn l = Ret (l', s) -> left_by text out l' s.
Proof.
  intros Hrun H. unfold lexText_fn in H.
  bind_step H. bind_step H.
  destruct (peek l) as [r l0] eqn:Hpk.
  destruct (peek_running l r l0 Hrun Hpk) as (Hrun0 & Hp0 & Heof).
  branches H; try emit_step H; done_go H.
Qed.

Lemma lexIndent_inv (l l' : lexer) (s : option stateFn) :
  running text out l -> lexIndent_fn l = Ret (l', s) -> left_by text out l' s.
Proof.
  intros Hrun H. unfold lexIndent_fn in H.
  bind_step H. branches H; try emit_step H; done_go H.
Qed.

Lemma lexNewLine_inv (l l' : lexer) (s : option stateFn) :
  running text out l -> lexNewLine_fn l = Ret (l', s) -> left_by text out l' s.
Proof.
  intros Hrun H. unfold lexNewLine_fn in H.
  bind_step H. branches H; try emit_step H; done_go H.
Qed.

Lemma lexTag_inv (l l' : lexer) (s : option stateFn) :
  running text out l -> lexTag_fn l = Ret (l', s) -> left_by text out l' s.
Proof.
  intros Hrun H. unfold lexTag_fn in H.
  bind_step H. branches H; try emit_step H; try done_go H.
  bind_step H. branches H; try done_go H.
  destruct (peek l) as [r l0] eqn:Hpk.
  destruct (peek_running l r l0 Hrun Hpk) as (Hrun0 & Hp0 & Heof).
  branches H; try emit_step H; try done_go H.
  - match type of H with context [if ?c then _ else _] => destruct c end;
      [emit_step H | cbn [mbind result_bind mret result_ret] in H]; done_go H.
Qed.


Lemma lexAttr_body_inv (l : lexer) (b : lexer + lexer) :
  running text out l -> lexAttr_body l = Ret b ->
  running text out (match b with inl l1 | inr l1 => l1 end).
Proof.
  intros Hrun H. unfold lexAttr_body in H.
  destruct (peek l) as [r l0] eqn:Hpk.
  destruct (peek_running l r l0 Hrun Hpk) as (Hrun0 & Hp0 & Heof).
  branches H; try emit_step H; cbn [mret result_ret] in H; injection H as <-;
    repeat first [assumption | apply running_next | apply running_ignore].
Qed.

Lemma lexAttr_loop_inv (n : nat) : forall (l l' : lexer),
  running text out l -> lexAttr_loop n l = Ret l' -> running text out l'.
Proof.
  induction n as [|n IH]; intros l l' Hrun H; [discriminate|].
  cbn [lexAttr_loop] in H.
  destruct (lexAttr_body l) as [b| | |] eqn:E; cbn [mbind result_bind] in H;
    try discriminate.
  apply (lexAttr_body_inv l b Hrun) in E.
  destruct b as [l1|l1].
  - eapply IH; eauto.
  - injection H as <-. exact E.
Qed.

Lemma lexAttr_inv (n : nat) (l l' : lexer) (s : option stateFn) :
  running text out l -> lexAttr_fn n l = Ret (l', s) -> left_by text out l' s.
Proof.
  intros Hrun H. unfold lexAttr_fn in H.
  destruct (lexAttr_loop n l) as [l0| | |] eqn:E; cbn [mbind result_bind] in H;
    try discriminate.
  apply (lexAttr_loop_inv n l l0 Hrun) in E.
  emit_step H. done_go H.
Qed.

Lemma lexDocType_inv (l l' : lexer) (s : option stateFn) :
  running text out l -> lexDocType_fn l = Ret (l', s) -> left_by text out l' s.
Proof.
  intros Hrun H. unfold lexDocType_fn in H. bind_step H.
  destruct Hrun as (Hi & Hs & Hp & Hpc & Hall).
  destruct (Strings.Index _ _) as [i|].
  - match type of H with
    | (mbind _ (emit ?t ?l2)) = Ret _ =>
      destruct (emit t l2) as [l3| | |] eqn:E3;
        cbn [mbind result_bind] in H; try discriminate;
      apply (running_emit t l2 l3 (start l)) in E3 as (Hrun3 & _);
        try discriminate;
        try (destruct l as [nm inp ld rd st p s0 w0 q]; cbn in *; (assumption || lia))
    end.
    done_go H.
  - unfold errorf, send in H.
    destruct (length (items l) <? chanCap); cbn [mbind result_bind] in H;
      try discriminate.
    injection H as <- <-. cbn [left_by]. unfold finished.
    destruct l as [nm inp ld rd st p s0 w0 q];
      cbn [input start pos items set_items] in *.
    repeat (split; [assumption|]). split.
    + rewrite app_assoc. apply pieces_snoc_error; [assumption | reflexivity].
    + exists (out ++ q), (Item itemError "unclosed doctype").
      split; [apply app_assoc|]. split; [assumption|]. split; [reflexivity|].
      split; [discriminate | reflexivity].
Qed.

Lemma lexEOF_inv (l l' : lexer) (s : option stateFn) :
  running text out l -> pos l = Strings.len text ->
  lexEOF_fn l = Ret (l', s) -> left_by text out l' s.
Proof.
  intros Hrun Hend H. unfold lexEOF_fn in H.
  assert (H1 : exists l1, running text out l1 /\ pos l1 = pos l /\
                          start l1 = pos l /\
                          (mbind (fun l2 => mret (l2, None)) (emit itemEOF l1))
                          = Ret (l', s)).
  { destruct (Nat.ltb_spec (start l) (pos l)) as [Hlt|Hge].
    - destruct (emit itemText l) as [l1| | |] eqn:E; cbn [mbind result_bind] in H;
        try discriminate.
      destruct Hrun as (Hi & Hs & Hp & Hpc & Hall).
      apply (running_emit itemText l l1 (start l)) in E as (Hrun1 & Hp1 & Hs1 & _);
        try discriminate; try assumption; [|lia].
      exists l1. auto.
    - cbn [mbind result_bind mret result_ret] in H. exists l.
      destruct Hrun as (Hi & Hs & Hp & Hpc & Hall).
      repeat split; auto. lia. }
  clear H. destruct H1 as (l1 & Hrun1 & Hp1 & Hs1 & H).
  destruct (emit itemEOF l1) as [l2| | |] eqn:E; cbn [mbind result_bind] in H;
    try discriminate.
  injection H as <- <-.
  apply emit_ret in E as (v & Hv & _ & ->).
  rewrite Hs1, Hp1 in Hv. apply slice_empty in Hv. subst v.
  destruct Hrun1 as (Hi & Hs & Hp & Hpc & Hall).
  cbn [left_by]. unfold finished.
  destruct l1 as [nm inp ld rd st p s0 w0 q];
    cbn [input start pos items set_items set_start] in *.
  split; [assumption|]. split; [lia|]. split; [assumption|]. split.
  - rewrite app_assoc. eapply pieces_snoc; [exact Hpc | reflexivity | exact Hs |].
    cbn [val]. unfold Strings.slice.
    destruct (Nat.leb_spec p p); [|lia].
    destruct (Nat.leb_spec p (Strings.len text)); [|lia].
    cbn [andb]. rewrite Nat.sub_diag. destruct (Strings.drop p text); reflexivity.
  - exists (out ++ q), (Item itemEOF EmptyString).
    split; [apply app_assoc|]. split; [assumption|]. split; [reflexivity|].
    split; [|discriminate]. intros _. split; [reflexivity | congruence].
Qed.

Lemma left_by_set_state (l : lexer) (s s' : option stateFn) :
  left_by text out l s -> left_by text out (set_state l s') s.
Proof. destruct l; exact (fun H => H). Qed.

Lemma call_inv (n : nat) (f : stateFn) (l l' : lexer) (s : option stateFn) :
  scanner_inv text out l -> state l = Some f ->
  call n f l = Ret (l', s) -> scanner_inv text out (set_state l' s).
Proof.
  unfold scanner_inv. intros Hinv Hf H. rewrite Hf in Hinv.
  destruct Hinv as [Hrun Hend].
  replace (state (set_state l' s)) with s by (destruct l'; reflexivity).
  apply left_by_set_state.
  destruct f; cbn [call] in H;
    eauto using lexTag_inv, lexEOF_inv, lexDocType_inv, lexId_inv, lexClass_inv,
      lexText_inv, lexComment_inv, lexAttr_inv, lexIndent_inv, lexNewLine_inv.
Qed.


End Invariant.

Lemma scanner_inv_recv (text : string) (out : list item) (l : lexer)
    (it : item) (q : list item) :
  scanner_inv text out l -> items l = it :: q ->
  scanner_inv text (out ++ [it]) (set_items l q).
Proof.
  unfold scanner_inv, left_by, running, finished. intros H Hq.
  destruct l as [nm inp ld rd st p s0 w0 q0];
    cbn [input start pos items state set_items] in *. subst q0.
  rewrite <- !app_assoc. exact H.
Qed.

Lemma nextItem_inv (text : string) (n : nat) : forall (out : list item)
    (l l' : lexer) (it : item),
  scanner_inv text out l -> nextItem n l = Ret (it, l') ->
  scanner_inv text (out ++ [it]) l'.
Proof.
  induction n as [|n IH]; intros out l l' it Hinv H; cbn [nextItem] in H.
  - destruct (items l) as [|i q] eqn:Hq; [discriminate|].
    injection H as <- <-. apply scanner_inv_recv; assumption.
  - destruct (items l) as [|i q] eqn:Hq.
    + destruct (state l) as [f|] eqn:Hf; [|discriminate].
      destruct (call n f l) as [[l1 s]| | |] eqn:E; cbn [mbind result_bind] in H;
        try discriminate.
      eapply IH; [|exact H]. eapply call_inv; eauto.
    + injection H as <- <-. apply scanner_inv_recv; assumption.
Qed.

Lemma reaches_inv (text : string) (l : lexer) (toks : list item) (l' : lexer) :
  reaches l toks l' ->
  forall out, scanner_inv text out l -> scanner_inv text (out ++ toks) l'.
Proof.
  induction 1 as [l|l n it l1 its l2 Hn Ht _ IH]; intros out Hinv.
  - rewrite app_nil_r. exact Hinv.
  - replace (out ++ it :: its) with ((out ++ [it]) ++ its)
      by (rewrite <- app_assoc; reflexivity).
    apply IH. eapply nextItem_inv; eauto.
Qed.

Lemma lex_inv (name text left right : string) :
  scanner_inv text [] (lex name text left right).
Proof.
  unfold scanner_inv, lex. cbn [state left_by]. split; [|discriminate].
  unfold running. cbn. repeat split; auto; lia.
Qed.

Lemma scanner_inv_pieces (text : string) (out : list item) (l : lexer) :
  scanner_inv text out l ->
  input l = text /\ start l <= pos l /\ pos l <= Strings.len text /\
  pieces text 0 (out ++ items l) (start l).
Proof.
  unfold scanner_inv, left_by. destruct (state l).
  - intros [(? & ? & ? & ? & _) _]. auto.
  - intros (? & ? & ? & ? & _). auto.
Qed.

Lemma scan_pieces (text : string) (fuel : nat) : forall (out : list item) (l : lexer),
  scanner_inv text out l ->
  pieces text 0 (out ++ fst (scan fuel l)) (Strings.len text).
Proof.
  induction fuel as [|fuel IH]; intros out l Hinv.
  - cbn [scan fst]. rewrite app_nil_r.
    apply scanner_inv_pieces in Hinv as (_ & Hs & Hp & Hpc).
    apply pieces_app_l in Hpc. eapply pieces_to; [exact Hpc | lia].
  - rewrite scan_S.
    assert (Hout : pieces text 0 (out ++ []) (Strings.len text)).
    { rewrite app_nil_r.
      apply scanner_inv_pieces in Hinv as (_ & Hs & Hp & Hpc).
      apply pieces_app_l in Hpc. eapply pieces_to; [exact Hpc | lia]. }
    destruct (nextItem fuel l) as [[it l1]| | |] eqn:E; try exact Hout.
    pose proof (nextItem_inv text fuel out l l1 it Hinv E) as Hinv1.
    destruct (terminal it).
    + cbn [fst].
      apply scanner_inv_pieces in Hinv1 as (_ & Hs & Hp & Hpc).
      apply pieces_app_l in Hpc. eapply pieces_to; [exact Hpc | lia].
    + specialize (IH _ _ Hinv1). destruct (scan fuel l1) as [its e].
      cbn [fst] in *. rewrite <- app_assoc in IH. exact IH.
Qed.

(** Whatever the input and however far the scan gets, the lexemes of
    the items it hands out are pieces of the input, one behind the other
    in the order of the items: no lexeme holds a character that is not
    in the input at its place, none overlaps the one before it, and
    none goes back.  (The item of an error holds its message.) *)
Theorem lexemes_in_order (name text left right : string) (fuel : nat) :
  pieces text 0 (fst (scan fuel (lex name text left right))) (Strings.len text).
Proof. exact (scan_pieces text fuel [] _ (lex_inv name text left right)). Qed.

(** The item that ends a scan is the last one: when nextItem hands out
    an itemEOF or an itemError, the channel is empty and the state is
    nil, so that one more call of nextItem calls nil and panics.  The
    itemEOF has the empty lexeme and comes when start and pos are at the
    end of the input; the only itemError is the unclosed doctype. *)
Theorem terminal_item_last (name text left right : string)
    (toks : list item) (l l' : lexer) (n : nat) (it : item) :
  reaches (lex name text left right) toks l ->
  nextItem n l = Ret (it, l') ->
  terminal it = true ->
  state l' = None /\ items l' = [] /\
  (forall m, nextItem (S m) l' = Panic NilFuncCall) /\
  (typ it = itemEOF ->
     val it = EmptyString /\ start l' = Strings.len text /\ pos l' = Strings.len text) /\
  (typ it = itemError -> val it = "unclosed doctype"%string).
Proof.
  intros Hr Hn Ht.
  pose proof (reaches_inv text _ _ _ Hr [] (lex_inv name text left right)) as Hinv.
  pose proof (nextItem_inv text n _ _ _ _ Hinv Hn) as Hinv'.
  assert (Htoks : Forall (fun it => terminal it = false) toks).
  { clear -Hr. induction Hr; constructor; auto. }
  cbn [app] in Hinv'. unfold scanner_inv, left_by in Hinv'.
  destruct (state l') as [f|] eqn:Hs.
  - destruct Hinv' as [(_ & _ & _ & _ & Hall) _].
    apply Forall_app in Hall as [Hall _]. apply Forall_app in Hall as [_ Hall].
    inversion Hall; congruence.
  - destruct Hinv' as (Hi & Hsp & Hp & Hpc & q & t & Heq & Hq & Htt & Heof & Herr).
    assert (Hl : items l' = [] /\ t = it).
    { destruct (items l') as [|i its'] using rev_ind.
      - rewrite app_nil_r in Heq. apply app_inj_tail in Heq as [_ ->]. auto.
      - rewrite !app_assoc in Heq. apply app_inj_tail in Heq as [<- _].
        apply Forall_app in Hq as [Hq _]. apply Forall_app in Hq as [_ Hq].
        inversion Hq; congruence. }
    destruct Hl as [Hq' ->].
    split; [reflexivity|]. split; [exact Hq'|].
    split; [intros m; apply nextItem_nil; assumption|].
    split; [|exact Herr].
    intros He. destruct (Heof He) as [Hv Hst]. repeat split; auto. lia.
Qed.

Lemma terminal_item_last_witness :
  state (halted unclosedLexer) = None /\ items (halted unclosedLexer) = [] /\
  (forall m, nextItem (S m) (halted unclosedLexer) = Panic NilFuncCall) /\
  (typ unclosedDoctype = itemEOF ->
     val unclosedDoctype = EmptyString /\
     start (halted unclosedLexer) = Strings.len unclosedText /\
     pos (halted unclosedLexer) = Strings.len unclosedText) /\
  (typ unclosedDoctype = itemError ->
     val unclosedDoctype = "unclosed doctype"%string).
Proof.
  refine (terminal_item_last "name" unclosedText "" ""
            [Item itemTag "a"; Item itemEndl (String nl EmptyString)]
            unclosedLexer (halted unclosedLexer) 4 unclosedDoctype _ _ _).
  - exact unclosedLexer_reached.
  - reflexivity.
  - reflexivity.
Defined.

(** **** More fuel changes no result but the lack of fuel *)

Lemma lexAttr_loop_stable n : forall m l,
  lexAttr_loop n l <> OutOfFuel -> n <= m -> lexAttr_loop m l = lexAttr_loop n l.
Proof.
  induction n as [|n IH]; intros m l H Hle; [cbn in H; congruence|].
  destruct m as [|m]; [lia|].
  cbn [lexAttr_loop] in *.
  destruct (lexAttr_body l) as [[l1|l1]| | |]; cbn [mbind result_bind] in *;
    try reflexivity.
  apply IH; [exact H | lia].
Qed.

Lemma call_stable n m f l :
  call n f l <> OutOfFuel -> n <= m -> call m f l = call n f l.
Proof.
  destruct f; cbn [call]; try reflexivity.
  unfold lexAttr_fn. intros H Hle.
  rewrite (lexAttr_loop_stable n m l); [reflexivity | | exact Hle].
  intros E. rewrite E in H. apply H. reflexivity.
Qed.

Lemma nextItem_stable n : forall m l,
  nextItem n l <> OutOfFuel -> n <= m -> nextItem m l = nextItem n l.
Proof.
  induction n as [|n IH]; intros m l H Hle.
  - cbn [nextItem] in *. destruct (items l) as [|it q] eqn:Hq; [congruence|].
    apply nextItem_recv, Hq.
  - destruct m as [|m]; [lia|].
    cbn [nextItem] in *. destruct (items l) as [|it q]; [|reflexivity].
    destruct (state l) as [f|]; [|reflexivity].
    assert (Hc : call n f l <> OutOfFuel).
    { intros E. rewrite E in H. apply H. reflexivity. }
    rewrite (call_stable n m f l Hc) by lia.
    destruct (call n f l) as [[l1 s]| | |]; cbn [mbind result_bind] in *;
      try reflexivity.
    apply IH; [exact H | lia].
Qed.

(** **** Each call of a state function gets on *)

Lemma rank_le (f : stateFn) (l : lexer) : rank f l <= 5.
Proof.
  unfold rank. destruct (String.get _ _) as [c|]; [|lia].
  destruct f; try lia; repeat match goal with |- context [if ?b then _ else _] =>
    destruct b end; lia.
Qed.

Lemma items_next (l : lexer) : items (snd (next l)) = items l.
Proof. apply next_keeps. Qed.

Lemma input_next (l : lexer) : input (snd (next l)) = input l.
Proof. apply next_keeps. Qed.

Lemma start_next (l : lexer) : start (snd (next l)) = start l.
Proof. apply next_keeps. Qed.

Lemma emit_sent (t : itemType) (l l1 : lexer) :
  emit t l = Ret l1 ->
  items l1 <> [] /\ input l1 = input l /\ pos l1 = pos l.
Proof.
  intros H. apply emit_ret in H as (v & _ & _ & ->).
  destruct l as [nm inp ld rd st p s0 w0 q]; cbn. split; [|auto].
  destruct q; discriminate.
Qed.

Lemma parensClosed_drop (s : string) : forall n,
  parensClosed s = true -> parensClosed (Strings.drop n s) = true.
Proof.
  induction s as [|c s IH]; intros [|n] H; cbn [Strings.drop]; try exact H.
  cbn [parensClosed] in H. apply andb_true_iff in H as [_ H]. apply IH, H.
Qed.

(** The rune that peek reads is an ASCII character only if that is the
    byte at pos. *)
Lemma peek_ascii (l : lexer) (r : Z) (l0 : lexer) (c : ascii) :
  peek l = (r, l0) -> isr r c = true -> (utf8.byte c < 128)%Z ->
  exists t, Strings.drop (pos l) (input l) = String c t.
Proof.
  intros Hpk Hr Hc. unfold isr, chr in Hr. apply Z.eqb_eq in Hr.
  destruct (peek_spec l) as (w & _ & Hcase). rewrite Hpk in Hcase.
  cbn [fst] in Hcase.
  destruct Hcase as [(_ & He) | (_ & _ & w' & Hd)].
  - subst r. pose proof (byte_range c). unfold eof in He. lia.
  - apply DecodeRuneInString_low in Hd as (c' & t & Hs & Hc' & _).
    + exists t. rewrite Hs. f_equal. apply byte_inj. congruence.
    + pose proof (byte_range c). lia.
Qed.

Lemma next_ascii (l : lexer) (c : ascii) (t : string) :
  Strings.drop (pos l) (input l) = String c t -> (utf8.byte c < 128)%Z ->
  pos (snd (next l)) = S (pos l).
Proof.
  intros Hd Hc. pose proof (str_drop_lt _ _ _ _ Hd) as Hlt.
  rewrite (next_lt l (utf8.byte c) 1 Hlt).
  - destruct l as [nm inp ld rd st p s0 w0 q]; cbn. lia.
  - rewrite Hd. apply DecodeRuneInString_ascii, Hc.
Qed.

(** Behind an opening parenthesis that peek has read, a closing one is
    ahead. *)
Lemma paren_ahead (l l0 l1 : lexer) (r : Z) (t : itemType) :
  parensClosed (input l) = true ->
  peek l = (r, l0) -> isr r "(" = true -> emit t l0 = Ret l1 ->
  has ")" (Strings.drop (pos (snd (next l1))) (input (snd (next l1)))) = true.
Proof.
  intros Hpar Hpk Hr He.
  destruct (peek_ascii l r l0 "(" Hpk Hr ltac:(reflexivity)) as (rest & Hd).
  destruct (peek_spec l) as (w & Hl0 & _). rewrite Hpk in Hl0. cbn [snd] in Hl0.
  apply emit_sent in He as (_ & Hi & Hp).
  assert (Hi1 : input l1 = input l) by (rewrite Hi, Hl0; destruct l; reflexivity).
  assert (Hp1 : pos l1 = pos l) by (rewrite Hp, Hl0; destruct l; reflexivity).
  rewrite input_next, (next_ascii l1 "(" rest), Hi1, Hp1;
    [|rewrite Hi1, Hp1; exact Hd | reflexivity].
  apply (parensClosed_drop _ (pos l)) in Hpar. rewrite Hd in Hpar.
  cbn [parensClosed] in Hpar. apply andb_true_iff in Hpar as [Hpar _].
  rewrite (str_drop_S _ _ _ _ Hd). exact Hpar.
Qed.

(** The move of next behind a rune that peek has read. *)
Lemma advance (l l0 : lexer) (r : Z) :
  peek l = (r, l0) -> (r =? eof)%Z = false ->
  input (snd (next l0)) = input l /\ start (snd (next l0)) = start l /\
  pos l < Strings.len (input l) /\ pos l < pos (snd (next l0)).
Proof.
  intros Hpk Hr. apply Z.eqb_neq in Hr.
  destruct (peek_spec l) as (w & Hl0 & Hcase). rewrite Hpk in Hl0, Hcase.
  cbn [fst snd] in *.
  destruct Hcase as [(_ & He) | (Hlt & _ & _)]; [congruence|].
  assert (Hi0 : input l0 = input l) by (rewrite Hl0; destruct l; reflexivity).
  assert (Hp0 : pos l0 = pos l) by (rewrite Hl0; destruct l; reflexivity).
  assert (Hs0 : start l0 = start l) by (rewrite Hl0; destruct l; reflexivity).
  rewrite input_next, start_next. repeat split; auto.
  destruct (next_spec l0) as (w1 & Hn & _ & [(Hge & _) | (_ & Hw & _)]).
  - rewrite Hi0, Hp0 in Hge. lia.
  - rewrite Hn. destruct l0 as [nm inp ld rd st p s0 w0 q]; cbn in *. lia.
Qed.

Ltac sent :=
  left;
  repeat match goal with
  | |- context [items (ignore ?l)] => change (items (ignore l)) with (items l)
  | |- context [items (snd (next ?l))] => rewrite (items_next l)
  end; assumption.

Ltac emit_sent_step H :=
  match type of H with
  | (mbind _ (emit ?t ?l)) = Ret _ =>
    let E := fresh "E" in
    let l1 := fresh "l1" in
    destruct (emit t l) as [l1| | |] eqn:E;
    cbn [mbind result_bind] in H; [|discriminate H ..];
    pose proof (emit_sent _ _ _ E) as (? & ? & ?)
  end.

Ltac to_attr Hpar Hpk :=
  intros _;
  repeat match goal with
  | |- context [pos (ignore ?l)] => change (pos (ignore l)) with (pos l)
  | |- context [input (ignore ?l)] => change (input (ignore l)) with (input l)
  end;
  eapply paren_ahead; [exact Hpar | exact Hpk | eassumption | eassumption].

Ltac moved Hpk :=
  right; eexists; split; [reflexivity|];
  let Hai := fresh "Hai" in
  match goal with Hr : (_ =? eof)%Z = false |- _ =>
    destruct (advance _ _ _ Hpk Hr) as (Hai & ? & ? & ?)
  end;
  unfold measure; rewrite Hai;
  match goal with |- _ + rank ?f ?l < _ => pose proof (rank_le f l) end;
  lia.

Lemma lexId_progress (l l1 : lexer) (s : option stateFn) :
  parensClosed (input l) = true ->
  lexId_fn l = Ret (l1, s) -> progress lexId l l1 s.
Proof.
  intros Hpar H. unfold lexId_fn in H.
  destruct (peek l) as [r l0] eqn:Hpk.
  branches H; try emit_sent_step H; unfold go in H; injection H as <- <-;
    (split; [first [discriminate | to_attr Hpar Hpk] | first [sent | moved Hpk]]).
Qed.

Lemma lexClass_progress (l l1 : lexer) (s : option stateFn) :
  parensClosed (input l) = true ->
  lexClass_fn l = Ret (l1, s) -> progress lexClass l l1 s.
Proof.
  intros Hpar H. unfold lexClass_fn in H.
  destruct (peek l) as [r l0] eqn:Hpk.
  branches H; try emit_sent_step H; unfold go in H; injection H as <- <-;
    (split; [first [discriminate | to_attr Hpar Hpk] | first [sent | moved Hpk]]).
Qed.

Lemma lexComment_progress (l l1 : lexer) (s : option stateFn) :
  lexComment_fn l = Ret (l1, s) -> progress lexComment l l1 s.
Proof.
  intros H. unfold lexComment_fn in H.
  destruct (peek l) as [r l0] eqn:Hpk.
  branches H; try emit_sent_step H; unfold go in H; injection H as <- <-;
    (split; [discriminate | first [sent | moved Hpk]]).
Qed.

Lemma at_get (s : string) (i : nat) (c : ascii) :
  Strings.at_ s i = Ret c -> String.get i s = Some c.
Proof. unfold Strings.at_. destruct (String.get i s); congruence. Qed.

Ltac chars :=
  repeat match goal with
  | H : same ?a _ = true |- _ => is_var a; apply Ascii.eqb_eq in H; subst a
  end.

(** A call that leaves the scanner where it is and goes to a state of
    lower rank. *)
Ltac hop Hget :=
  right; eexists; split; [reflexivity|];
  unfold measure, rank; cbn [input pos start ignore set_start set_width];
  chars; rewrite Hget;
  unfold isBlank, isNewline;
  repeat match goal with
  | |- context [same ?a ?c] =>
    first [ is_var a; destruct (same a c)
          | let v := eval vm_compute in (same a c) in change (same a c) with v ]
  | |- context [match ?g with Some _ => _ | None => _ end] => destruct g
  end; cbn [orb] in *; first [discriminate | lia].

Lemma lexText_progress (l l1 : lexer) (s : option stateFn) :
  lexText_fn l = Ret (l1, s) -> progress lexText l l1 s.
Proof.
  intros H. unfold lexText_fn, unexpected in H.
  destruct (Strings.at_ (input l) (start l)) as [c| | |] eqn:Hat;
    cbn [mbind result_bind mret result_ret] in H; try discriminate.
  apply at_get in Hat.
  destruct (same c nl) eqn:Hnl; cbn [mbind result_bind mret result_ret] in H.
  { unfold go in H; injection H as <- <-. split; [discriminate|]. hop Hat. }
  destruct (same c cr) eqn:Hcr.
  { unfold go in H; injection H as <- <-. split; [discriminate|]. hop Hat. }
  destruct (peek l) as [r l0] eqn:Hpk.
  branches H; try emit_sent_step H; unfold go in H; injection H as <- <-;
    (split; [discriminate | first [sent | moved Hpk]]).
Qed.

Lemma lexIndent_progress (l l1 : lexer) (s : option stateFn) :
  lexIndent_fn l = Ret (l1, s) -> progress lexIndent l l1 s.
Proof.
  intros H. unfold lexIndent_fn in H.
  destruct (Strings.at_ (input l) (start l)) as [c| | |] eqn:Hat;
    cbn [mbind result_bind mret result_ret] in H; try discriminate.
  apply at_get in Hat.
  branches H; try emit_sent_step H; unfold go in H; injection H as <- <-;
    (split; [discriminate | first [sent | hop Hat]]).
Qed.

Lemma lexNewLine_progress (l l1 : lexer) (s : option stateFn) :
  lexNewLine_fn l = Ret (l1, s) -> progress lexNewLine l l1 s.
Proof.
  intros H. unfold lexNewLine_fn in H.
  destruct (Strings.at_ (input l) (start l)) as [c| | |] eqn:Hat;
    cbn [mbind result_bind mret result_ret] in H; try discriminate.
  apply at_get in Hat.
  branches H; try emit_sent_step H; unfold go in H; injection H as <- <-;
    (split; [discriminate | first [sent | hop Hat]]).
Qed.

Lemma lexAttr_progress (n : nat) (l l1 : lexer) (s : option stateFn) :
  lexAttr_fn n l = Ret (l1, s) -> progress lexAttr l l1 s.
Proof.
  intros H. unfold lexAttr_fn in H.
  destruct (lexAttr_loop n l) as [l0| | |]; cbn [mbind result_bind] in H;
    try discriminate.
  emit_sent_step H. unfold go in H; injection H as <- <-.
  split; [discriminate | sent].
Qed.

Lemma lexEOF_progress (l l1 : lexer) (s : option stateFn) :
  lexEOF_fn l = Ret (l1, s) -> progress lexEOF l l1 s.
Proof.
  intros H. unfold lexEOF_fn in H.
  destruct (if start l <? pos l then emit itemText l else mret l) as [l0| | |];
    cbn [mbind result_bind] in H; try discriminate.
  emit_sent_step H. injection H as <- <-.
  split; [discriminate | left; assumption].
Qed.

Lemma lexDocType_progress (l l1 : lexer) (s : option stateFn) :
  lexDocType_fn l = Ret (l1, s) -> progress lexDocType l l1 s.
Proof.
  intros H. unfold lexDocType_fn in H. bind_step H.
  destruct (Strings.Index _ _) as [i|].
  - emit_sent_step H. unfold go in H; injection H as <- <-.
    split; [discriminate | sent].
  - unfold errorf, send in H.
    destruct (length (items l) <? chanCap); cbn [mbind result_bind] in H;
      try discriminate.
    injection H as <- <-. split; [discriminate|]. left.
    destruct l as [nm inp ld rd st p s0 w0 q]; cbn. destruct q; discriminate.
Qed.

Lemma lexTag_progress (l l1 : lexer) (s : option stateFn) :
  parensClosed (input l) = true ->
  lexTag_fn l = Ret (l1, s) -> progress lexTag l l1 s.
Proof.
  intros Hpar H. unfold lexTag_fn in H.
  destruct (Strings.at_ (input l) (start l)) as [c| | |] eqn:Hat;
    cbn [mbind result_bind mret result_ret] in H; try discriminate.
  apply at_get in Hat.
  branches H; try emit_sent_step H;
    try (unfold go in H; injection H as <- <-;
         (split; [discriminate | first [sent | hop Hat]])).
  bind_step H.
  branches H;
    try (unfold go in H; injection H as <- <-;
         (split; [discriminate | hop Hat])).
  destruct (peek l) as [r l0] eqn:Hpk.
  branches H; try emit_sent_step H;
    try (unfold go in H; injection H as <- <-;
         (split; [first [discriminate | to_attr Hpar Hpk]
                 | first [sent | moved Hpk]])).
  (* the end of the input *)
  destruct (peek_spec l) as (w & Hl0 & _). rewrite Hpk in Hl0. cbn [snd] in Hl0.
  subst l0.
  match type of H with context [if ?c then _ else _] => destruct c end;
    [emit_sent_step H | cbn [mbind result_bind mret result_ret] in H];
    unfold go in H; injection H as <- <-;
    (split; [discriminate | first [sent | hop Hat]]).
Qed.

(** **** Only the loop of lexAttr can go on for ever *)

Ltac no_fuel :=
  unfold emit, errorf, unexpected;
  unfold send, go, Strings.at_, Strings.from, Strings.slice;
  repeat (cbv zeta; cbn [mbind result_bind mret result_ret];
          match goal with
          | |- context [match ?x with _ => _ end] => destruct x
          end);
  cbn [mbind result_bind mret result_ret]; discriminate.

Lemma call_fuelled (n : nat) (f : stateFn) (l : lexer) :
  f <> lexAttr -> call n f l <> OutOfFuel.
Proof.
  intros Hf. destruct f; cbn [call]; try congruence.
  - unfold lexTag_fn. no_fuel.
  - unfold lexEOF_fn. no_fuel.
  - unfold lexDocType_fn. no_fuel.
  - unfold lexId_fn. no_fuel.
  - unfold lexClass_fn. no_fuel.
  - unfold lexText_fn. no_fuel.
  - unfold lexComment_fn. no_fuel.
  - unfold lexIndent_fn. no_fuel.
  - unfold lexNewLine_fn. no_fuel.
Qed.

Lemma emit_fuelled (t : itemType) (l : lexer) : emit t l <> OutOfFuel.
Proof. no_fuel. Qed.

Lemma has_lt (d : ascii) (s : string) (p : nat) :
  has d (Strings.drop p s) = true -> p < Strings.len s.
Proof.
  intros H. destruct (Strings.drop p s) as [|c t] eqn:E; [discriminate|].
  eapply str_drop_lt, E.
Qed.

Lemma has_skip (d : ascii) (s : string) : forall k,
  (forall i c, i < k -> String.get i s = Some c -> c <> d) ->
  has d s = true -> has d (Strings.drop k s) = true.
Proof.
  induction s as [|c s IH]; intros [|k] Hk H; cbn [Strings.drop]; try exact H.
  cbn [has] in H. apply orb_true_iff in H as [H|H].
  - apply Ascii.eqb_eq in H. exfalso. apply (Hk 0 c); [lia | reflexivity | exact H].
  - apply IH; [|exact H]. intros i c' Hi Hg. apply (Hk (S i) c'); [lia | exact Hg].
Qed.

(** Behind a rune that is not the character [d] of ASCII, [d] is still
    ahead if it was. *)
Lemma has_behind_rune (d : ascii) (s : string) (r : Z) (w : nat) :
  (utf8.byte d < 128)%Z ->
  utf8.DecodeRuneInString s = (r, w) -> isr r d = false ->
  has d s = true -> has d (Strings.drop w s) = true.
Proof.
  intros Hd Hdec Hr H.
  assert (Hne : s <> EmptyString) by (intros ->; discriminate).
  destruct (DecodeRuneInString_width s r w Hdec Hne) as ((Hw1 & Hw2) & Hcont).
  apply has_skip; [|exact H].
  intros i c Hi Hg ->.
  destruct i as [|i].
  - destruct s as [|c0 t0]; [congruence|]. cbn in Hg. injection Hg as ->.
    rewrite DecodeRuneInString_ascii in Hdec by exact Hd.
    injection Hdec as <- _. unfold isr, chr in Hr.
    rewrite Z.eqb_refl in Hr. discriminate.
  - pose proof (Hcont (S i) d ltac:(lia) Hg). lia.
Qed.

Lemma peek_next_rune (l l0 : lexer) (r : Z) :
  peek l = (r, l0) -> pos l < Strings.len (input l) ->
  exists w,
    utf8.DecodeRuneInString (Strings.drop (pos l) (input l)) = (r, w) /\
    1 <= w /\
    input (snd (next l0)) = input l /\ pos (snd (next l0)) = pos l + w /\
    input l0 = input l /\ pos l0 = pos l.
Proof.
  intros Hpk Hlt.
  destruct (peek_spec l) as (w0 & Hl0 & Hcase). rewrite Hpk in Hl0, Hcase.
  cbn [fst snd] in *.
  destruct Hcase as [(Hge & _) | (_ & _ & w & Hd)]; [lia|].
  assert (Hi0 : input l0 = input l) by (rewrite Hl0; destruct l; reflexivity).
  assert (Hp0 : pos l0 = pos l) by (rewrite Hl0; destruct l; reflexivity).
  exists w. split; [exact Hd|].
  destruct (next_spec l0) as (w1 & Hn & _ & [(Hge & _) | (_ & Hw & _ & Hd1)]).
  { rewrite Hi0, Hp0 in Hge. lia. }
  rewrite Hi0, Hp0, Hd in Hd1. injection Hd1 as _ <-.
  rewrite input_next, Hn.
  destruct l0 as [nm inp ld rd st p s0 wd q]; cbn in *. auto.
Qed.

(** One round of the loop of lexAttr with a closing parenthesis ahead:
    it ends the loop, or it moves on and the parenthesis is still
    ahead. *)
Lemma lexAttr_body_ends (l : lexer) :
  has ")" (Strings.drop (pos l) (input l)) = true ->
  match lexAttr_body l with
  | Ret (inl l1) =>
    input l1 = input l /\ pos l < pos l1 /\
    has ")" (Strings.drop (pos l1) (input l1)) = true
  | OutOfFuel => False
  | _ => True
  end.
Proof.
  intros Hhas. pose proof (has_lt _ _ _ Hhas) as Hlt.
  unfold lexAttr_body. destruct (peek l) as [r l0] eqn:Hpk.
  destruct (peek_next_rune l l0 r Hpk Hlt) as (w & Hd & Hw & Hi & Hp & Hi0 & Hp0).
  destruct (isr r ")") eqn:Hclose; [exact I|].
  pose proof (has_behind_rune ")" _ r w ltac:(reflexivity) Hd Hclose Hhas) as Hb.
  rewrite <- str_drop_add in Hb.
  destruct (isr r ",") eqn:Hcomma.
  - destruct (emit itemAttr l0) as [l1| | |] eqn:E; cbn [mbind result_bind];
      try exact I.
    + apply emit_sent in E as (_ & Hi1 & Hp1).
      cbn [mret result_ret].
      change (input (ignore (snd (next l1)))) with (input (snd (next l1))).
      change (pos (ignore (snd (next l1)))) with (pos (snd (next l1))).
      destruct (peek_ascii l r l0 "," Hpk Hcomma ltac:(reflexivity)) as (t & Hdc).
      rewrite input_next, (next_ascii l1 "," t), Hi1, Hi0, Hp1, Hp0;
        [|rewrite Hi1, Hi0, Hp1, Hp0; exact Hdc | reflexivity].
      rewrite Hdc, DecodeRuneInString_ascii in Hd by reflexivity.
      injection Hd as _ <-. replace (pos l + 1) with (S (pos l)) in Hb by lia.
      repeat split; auto.
    + exact (emit_fuelled _ _ E).
  - cbn [mret result_ret]. rewrite Hi, Hp. repeat split; auto. lia.
Qed.

Lemma lexAttr_loop_ends (n : nat) : forall l,
  has ")" (Strings.drop (pos l) (input l)) = true ->
  Strings.len (input l) - pos l <= n ->
  lexAttr_loop n l <> OutOfFuel.
Proof.
  induction n as [|n IH]; intros l Hhas Hn.
  - apply has_lt in Hhas. lia.
  - cbn [lexAttr_loop]. pose proof (lexAttr_body_ends l Hhas) as Hb.
    destruct (lexAttr_body l) as [[l1|l1]| | |]; cbn [mbind result_bind];
      try discriminate; [|destruct Hb].
    destruct Hb as (Hi & Hp & Hhas1). apply IH; [exact Hhas1|].
    rewrite Hi. apply has_lt in Hhas. lia.
Qed.

Lemma lexAttr_fuelled (n : nat) (l : lexer) :
  has ")" (Strings.drop (pos l) (input l)) = true ->
  Strings.len (input l) - pos l <= n ->
  lexAttr_fn n l <> OutOfFuel.
Proof.
  intros Hhas Hn. unfold lexAttr_fn.
  pose proof (lexAttr_loop_ends n l Hhas Hn) as Hl.
  destruct (lexAttr_loop n l) as [l0| | |]; cbn [mbind result_bind];
    try discriminate; [|congruence].
  no_fuel.
Qed.

(** **** Every call of nextItem ends *)

Lemma call_progress (text : string) (out : list item) (n : nat) (f : stateFn)
    (l l1 : lexer) (s : option stateFn) :
  scanner_inv text out l -> parensClosed text = true ->
  call n f l = Ret (l1, s) -> progress f l l1 s.
Proof.
  intros Hinv Hpar H.
  apply scanner_inv_pieces in Hinv as (Hi & _). rewrite <- Hi in Hpar.
  destruct f; cbn [call] in H;
    eauto using lexTag_progress, lexEOF_progress, lexDocType_progress,
      lexId_progress, lexClass_progress, lexText_progress, lexComment_progress,
      lexAttr_progress, lexIndent_progress, lexNewLine_progress.
Qed.

Lemma measure_set_state (g : stateFn) (l : lexer) (s : option stateFn) :
  measure g (set_state l s) = measure g l.
Proof. destruct l; reflexivity. Qed.

Lemma attrReady_set_state (l : lexer) (s : option stateFn) :
  (s = Some lexAttr -> has ")" (Strings.drop (pos l) (input l)) = true) ->
  attrReady (set_state l s).
Proof. destruct l; exact (fun H => H). Qed.

Lemma nextItem_ends_within (text : string) (k : nat) : forall out l n,
  scanner_inv text out l -> parensClosed text = true -> attrReady l ->
  (forall f, state l = Some f -> measure f l <= k) ->
  k + 2 <= n -> nextItem n l <> OutOfFuel.
Proof.
  induction k as [|k IH]; intros out l n Hinv Hpar Hready Hk Hn;
    (destruct n as [|n]; [lia|]); cbn [nextItem];
    (destruct (items l) as [|it q] eqn:Hq; [|discriminate]);
    (destruct (state l) as [f|] eqn:Hf; [|discriminate]);
    specialize (Hk f eq_refl);
    pose proof (scanner_inv_pieces _ _ _ Hinv) as (Hi & _);
    (assert (Hc : call n f l <> OutOfFuel);
     [ assert (Hdec : f = lexAttr \/ f <> lexAttr)
         by (destruct f; first [left; reflexivity | right; discriminate]);
       destruct Hdec as [->|Hne];
       [ cbn [call]; apply lexAttr_fuelled; [apply Hready, Hf|];
         unfold measure in Hk; lia
       | apply call_fuelled, Hne ] |]);
    (destruct (call n f l) as [[l1 s]| | |] eqn:E; cbn [mbind result_bind];
     try discriminate; [|congruence]);
    pose proof (call_progress text out n f l l1 s Hinv Hpar E) as [Hattr Hprog];
    (destruct Hprog as [Hsent | (g & -> & Hlt)];
     [ destruct (items l1) as [|i q'] eqn:Hq1; [congruence|];
       erewrite nextItem_recv by (destruct l1; cbn in *; exact Hq1); discriminate |]).
  - lia.
  - apply (IH out).
    + eapply call_inv; eauto.
    + exact Hpar.
    + exact (attrReady_set_state _ _ Hattr).
    + intros f' Hf'. rewrite measure_set_state.
      replace f' with g by (destruct l1; cbn in Hf'; congruence). lia.
    + lia.
Qed.

Lemma nextItem_ready (text : string) (n : nat) : forall out l it l',
  scanner_inv text out l -> parensClosed text = true -> attrReady l ->
  nextItem n l = Ret (it, l') -> attrReady l'.
Proof.
  assert (Hrecv : forall l q, attrReady l -> attrReady (set_items l q))
    by (intros l q; destruct l; exact (fun H => H)).
  induction n as [|n IH]; intros out l it l' Hinv Hpar Hready H;
    cbn [nextItem] in H.
  - destruct (items l) as [|i q]; [discriminate|]. injection H as <- <-. auto.
  - destruct (items l) as [|i q]; [|injection H as <- <-; auto].
    destruct (state l) as [f|] eqn:Hf; [|discriminate].
    destruct (call n f l) as [[l1 s]| | |] eqn:E; cbn [mbind result_bind] in H;
      try discriminate.
    pose proof (call_progress text out n f l l1 s Hinv Hpar E) as [Hattr _].
    eapply (IH out); [eapply call_inv; eauto | exact Hpar | | exact H].
    exact (attrReady_set_state _ _ Hattr).
Qed.

Lemma reaches_ready (text : string) (l : lexer) (toks : list item) (l' : lexer) :
  reaches l toks l' ->
  forall out, scanner_inv text out l -> parensClosed text = true ->
              attrReady l -> attrReady l'.
Proof.
  induction 1 as [l|l n it l1 its l2 Hn Ht _ IH]; intros out Hinv Hpar Hready.
  - exact Hready.
  - apply (IH (out ++ [it])); [eapply nextItem_inv; eauto | exact Hpar |].
    eapply nextItem_ready; eauto.
Qed.

(** On an input in which every opening parenthesis has a closing one
    behind it, every call of nextItem ends, wherever the scan has got
    to: with fuel for eight rounds for each byte of the input and seven
    more it does not run out of fuel (it returns an item, panics or
    blocks on the full channel), and more fuel does not change its
    result. *)
Theorem nextItem_ends (name text left right : string) (toks : list item)
    (l : lexer) (fuel : nat) :
  parensClosed text = true ->
  reaches (lex name text left right) toks l ->
  8 * Strings.len text + 7 <= fuel ->
  nextItem fuel l <> OutOfFuel /\
  nextItem fuel l = nextItem (8 * Strings.len text + 7) l.
Proof.
  intros Hpar Hr Hfuel.
  pose proof (reaches_inv text _ _ _ Hr [] (lex_inv name text left right)) as Hinv.
  assert (Hready : attrReady l).
  { eapply reaches_ready; [exact Hr | apply lex_inv | exact Hpar | discriminate]. }
  assert (Hends : forall n, 8 * Strings.len text + 7 <= n ->
                            nextItem n l <> OutOfFuel).
  { intros n Hn.
    apply (nextItem_ends_within text (8 * Strings.len text + 5) toks l n);
      auto; [|lia].
    intros f _. unfold measure.
    pose proof (scanner_inv_pieces _ _ _ Hinv) as (Hi & _). rewrite Hi.
    pose proof (rank_le f l). lia. }
  split; [apply Hends, Hfuel|].
  apply nextItem_stable; [apply Hends; lia | exact Hfuel].
Qed.

Lemma nextItem_ends_witness :
  nextItem 60 closedAttr <> OutOfFuel /\
  nextItem 60 closedAttr = nextItem (8 * Strings.len closedAttrText + 7) closedAttr.
Proof.
  refine (nextItem_ends "name" closedAttrText "" "" [Item itemTag "a"] closedAttr
            60 _ _ _).
  - reflexivity.
  - eapply (reaches_next _ 3); [vm_compute; reflexivity | reflexivity |].
    apply reaches_here.
  - vm_compute. lia.
Defined.

(** **** Each item leaves less to do *)

Ltac next_out :=
  repeat match goal with
  | |- context [snd (next ?x)] =>
    lazymatch x with
    | context [next _] => fail
    | _ =>
      let w := fresh "w" in
      let Hn := fresh "Hn" in
      destruct (next_spec x) as (w & Hn & ? & ?); rewrite Hn; clear Hn
    end
  end.

Ltac fields :=
  cbn [name input leftDelim rightDelim state pos start width items
       set_state set_pos set_start set_width set_items ignore
       length app fst snd] in *.

Ltac flags :=
  repeat match goal with
  | H : _ \/ _ |- _ => destruct H
  | H : _ /\ _ |- _ => destruct H
  | |- context [if ?a <? ?b then _ else _] => destruct (Nat.ltb_spec a b)
  | H : context [if ?a <? ?b then _ else _] |- _ => destruct (Nat.ltb_spec a b)
  end.

Lemma isr_not_eof (r : Z) (c : ascii) :
  isr r c = true -> (r =? eof)%Z = true -> False.
Proof.
  unfold isr, chr. intros H1 H2. apply Z.eqb_eq in H1, H2.
  pose proof (byte_range c). unfold eof in H2. lia.
Qed.

Ltac not_eof :=
  repeat match goal with
  | H : isr _ _ || isr _ _ = true |- _ => apply orb_true_iff in H; destruct H
  end;
  try match goal with
  | H : isr ?r ?c = true, H' : (?r =? eof)%Z = true |- _ =>
    exfalso; exact (isr_not_eof r c H H')
  end.

Ltac settle :=
  unfold settles; next_out; fields;
  match goal with
  | |- match ?q ++ [_] with _ => _ end => destruct q; cbn [app]
  | _ => idtac
  end;
  try (intros _); unfold slack, weight; fields;
  unfold Strings.len in *; flags; subst; fields; not_eof; try lia.

Section Potential.

Variable text : string.
Variable out : list item.

Lemma peek_at (l l0 : lexer) (r : Z) :
  peek l = (r, l0) ->
  exists w, l0 = set_width l w /\
    ((r =? eof)%Z = true /\ Strings.len (input l) <= pos l \/
     (r =? eof)%Z = false /\ pos l < Strings.len (input l)).
Proof.
  intros Hpk. destruct (peek_spec l) as (w & Hl0 & Hc). rewrite Hpk in Hl0, Hc.
  cbn [fst snd] in *. exists w. split; [exact Hl0|].
  destruct Hc as [(H & ->) | (H & Hr & _)]; [left | right]; split; auto.
  apply Z.eqb_neq, Hr.
Qed.

Ltac emit_out H :=
  match type of H with
  | (mbind _ (emit ?t ?l)) = Ret _ =>
    let E := fresh "E" in
    let l1 := fresh "l1" in
    let v := fresh "v" in
    destruct (emit t l) as [l1| | |] eqn:E;
    cbn [mbind result_bind] in H; [|discriminate H ..];
    apply emit_ret in E as (v & ? & ? & ->)
  end.

Lemma lexId_settles (l l1 : lexer) (s : option stateFn) :
  running text out l -> items l = [] ->
  lexId_fn l = Ret (l1, s) -> settles lexId l l1 s.
Proof.
  intros (Hi & Hs & Hp & _) Hq H. unfold lexId_fn in H.
  destruct (peek l) as [r l0] eqn:Hpk.
  destruct (peek_at l l0 r Hpk) as (w0 & -> & Hr).
  rewrite <- Hi in Hp.
  branches H; try emit_out H; unfold go in H; injection H as <- <-;
    destruct l as [nm inp ld rd st p s0 wd q]; fields; subst q.
  all: settle.
Qed.


Lemma lexClass_settles (l l1 : lexer) (s : option stateFn) :
  running text out l -> items l = [] ->
  lexClass_fn l = Ret (l1, s) -> settles lexClass l l1 s.
Proof.
  intros (Hi & Hs & Hp & _) Hq H. unfold lexClass_fn in H.
  destruct (peek l) as [r l0] eqn:Hpk.
  destruct (peek_at l l0 r Hpk) as (w0 & -> & Hr).
  rewrite <- Hi in Hp.
  branches H; try emit_out H; unfold go in H; injection H as <- <-;
    destruct l as [nm inp ld rd st p s0 wd q]; fields; subst q.
  all: settle.
Qed.

Lemma lexComment_settles (l l1 : lexer) (s : option stateFn) :
  running text out l -> items l = [] ->
  lexComment_fn l = Ret (l1, s) -> settles lexComment l l1 s.
Proof.
  intros (Hi & Hs & Hp & _) Hq H. unfold lexComment_fn in H.
  destruct (peek l) as [r l0] eqn:Hpk.
  destruct (peek_at l l0 r Hpk) as (w0 & -> & Hr).
  rewrite <- Hi in Hp.
  branches H; try emit_out H; unfold go in H; injection H as <- <-;
    destruct l as [nm inp ld rd st p s0 wd q]; fields; subst q.
  all: settle.
Qed.

Lemma at_lt (s : string) (i : nat) (c : ascii) :
  Strings.at_ s i = Ret c -> i < Strings.len s.
Proof.
  intros H. apply at_get in H. rewrite str_get_drop in H.
  destruct (Strings.drop i s) as [|d t] eqn:E; [discriminate|].
  eapply str_drop_lt, E.
Qed.

Lemma lexText_settles (l l1 : lexer) (s : option stateFn) :
  running text out l -> items l = [] ->
  lexText_fn l = Ret (l1, s) -> settles lexText l l1 s.
Proof.
  intros (Hi & Hs & Hp & _) Hq H. unfold lexText_fn, unexpected in H.
  destruct (Strings.at_ (input l) (start l)) as [c| | |] eqn:Hat;
    cbn [mbind result_bind mret result_ret] in H; try discriminate.
  apply at_lt in Hat.
  destruct (same c nl); cbn [mbind result_bind mret result_ret] in H.
  { unfold go in H; injection H as <- <-. rewrite <- Hi in Hp.
    destruct l as [nm inp ld rd st p s0 wd q]; fields; subst q. settle. }
  destruct (same c cr).
  { unfold go in H; injection H as <- <-. rewrite <- Hi in Hp.
    destruct l as [nm inp ld rd st p s0 wd q]; fields; subst q. settle. }
  destruct (peek l) as [r l0] eqn:Hpk.
  destruct (peek_at l l0 r Hpk) as (w0 & -> & Hr).
  rewrite <- Hi in Hp.
  branches H; try emit_out H; unfold go in H; injection H as <- <-;
    destruct l as [nm inp ld rd st p s0 wd q]; fields; subst q.
  all: settle.
Qed.

Lemma lexIndent_settles (l l1 : lexer) (s : option stateFn) :
  running text out l -> items l = [] ->
  lexIndent_fn l = Ret (l1, s) -> settles lexIndent l l1 s.
Proof.
  intros (Hi & Hs & Hp & _) Hq H. unfold lexIndent_fn in H.
  destruct (Strings.at_ (input l) (start l)) as [c| | |] eqn:Hat;
    cbn [mbind result_bind mret result_ret] in H; try discriminate.
  apply at_lt in Hat. rewrite <- Hi in Hp.
  branches H; try emit_out H; unfold go in H; injection H as <- <-;
    destruct l as [nm inp ld rd st p s0 wd q]; fields; subst q.
  all: settle.
Qed.

Lemma lexNewLine_settles (l l1 : lexer) (s : option stateFn) :
  running text out l -> items l = [] ->
  lexNewLine_fn l = Ret (l1, s) -> settles lexNewLine l l1 s.
Proof.
  intros (Hi & Hs & Hp & _) Hq H. unfold lexNewLine_fn in H.
  destruct (Strings.at_ (input l) (start l)) as [c| | |] eqn:Hat;
    cbn [mbind result_bind mret result_ret] in H; try discriminate.
  apply at_lt in Hat. rewrite <- Hi in Hp.
  branches H; try emit_out H; unfold go in H; injection H as <- <-;
    destruct l as [nm inp ld rd st p s0 wd q]; fields; subst q.
  all: settle.
Qed.

Lemma lexTag_settles (l l1 : lexer) (s : option stateFn) :
  running text out l -> items l = [] ->
  lexTag_fn l = Ret (l1, s) -> settles lexTag l l1 s.
Proof.
  intros (Hi & Hs & Hp & _) Hq H. unfold lexTag_fn in H.
  destruct (Strings.at_ (input l) (start l)) as [c| | |] eqn:Hat;
    cbn [mbind result_bind mret result_ret] in H; try discriminate.
  apply at_lt in Hat. rewrite <- Hi in Hp.
  branches H; try emit_out H;
    try (unfold go in H; injection H as <- <-;
         destruct l as [nm inp ld rd st p s0 wd q]; fields; subst q; settle).
  bind_step H.
  branches H;
    try (unfold go in H; injection H as <- <-;
         destruct l as [nm inp ld rd st p s0 wd q]; fields; subst q; settle).
  destruct (peek l) as [r l0] eqn:Hpk.
  destruct (peek_at l l0 r Hpk) as (w0 & -> & Hr).
  branches H; try emit_out H;
    try (unfold go in H; injection H as <- <-;
         destruct l as [nm inp ld rd st p s0 wd q]; fields; subst q; settle).
  (* the end of the input *)
  destruct (Nat.ltb_spec (start (set_width l w0)) (pos (set_width l w0)));
    [emit_out H | cbn [mbind result_bind mret result_ret] in H];
    unfold go in H; injection H as <- <-;
    destruct l as [nm inp ld rd st p s0 wd q]; fields; subst q; settle.
Qed.

Lemma lexEOF_settles (l l1 : lexer) (s : option stateFn) :
  running text out l -> items l = [] ->
  lexEOF_fn l = Ret (l1, s) -> settles lexEOF l l1 s.
Proof.
  intros (Hi & Hs & Hp & _) Hq H. unfold lexEOF_fn in H.
  rewrite <- Hi in Hp.
  destruct (Nat.ltb_spec (start l) (pos l));
    [emit_out H | cbn [mbind result_bind mret result_ret] in H];
    emit_out H; injection H as <- <-;
    destruct l as [nm inp ld rd st p s0 wd q]; fields; subst q.
  - repeat match goal with Hsl : Strings.slice _ _ _ = Ret _ |- _ =>
      apply slice_bounds in Hsl as [? ?] end.
    settle.
  - unfold settles. fields. discriminate.
Qed.

Lemma lexDocType_settles (l l1 : lexer) (s : option stateFn) :
  running text out l -> items l = [] ->
  lexDocType_fn l = Ret (l1, s) -> settles lexDocType l l1 s.
Proof.
  intros (Hi & Hs & Hp & _) Hq H. unfold lexDocType_fn in H.
  rewrite <- Hi in Hp. bind_step H.
  destruct (Strings.Index _ _) as [i|].
  - cbv zeta in H. emit_out H. unfold go in H; injection H as <- <-.
    match goal with Hsl : Strings.slice _ _ _ = Ret _ |- _ =>
      apply slice_bounds in Hsl as [Hlo Hhi] end.
    assert (Hpre : start l + 4 <= pos l + i).
    { revert Hlo. destruct (Strings.HasPrefix _ _);
        destruct l as [nm inp ld rd st p s0 wd q]; fields;
        unfold Strings.len; cbn [String.length]; lia. }
    clear Hlo.
    destruct l as [nm inp ld rd st p s0 wd q]; fields; subst q. settle.
  - unfold errorf, send in H.
    destruct (length (items l) <? chanCap); cbn [mbind result_bind] in H;
      try discriminate.
    injection H as <- <-.
    destruct l as [nm inp ld rd st p s0 wd q]; fields; subst q.
    unfold settles. fields. discriminate.
Qed.


(** One round of the loop of lexAttr leaves no more to do. *)
Lemma lexAttr_body_slack (l : lexer) (b : lexer + lexer) :
  running text out l -> lexAttr_body l = Ret b ->
  match b with
  | inl l1 => slack l1 <= slack l
  | inr l1 => slack l1 <= slack l /\ pos l1 < Strings.len (input l1)
  end.
Proof.
  intros (Hi & Hs & Hp & _) H. unfold lexAttr_body in H.
  destruct (peek l) as [r l0] eqn:Hpk.
  destruct (peek_at l l0 r Hpk) as (w0 & -> & Hr).
  rewrite <- Hi in Hp.
  branches H; try emit_out H; cbn [mret result_ret] in H; injection H as <-;
    destruct l as [nm inp ld rd st p s0 wd q]; fields.
  - split; [reflexivity|].
    match goal with Hc : isr _ ")" = true |- _ =>
      destruct Hr as [[Hr _] | [_ Hr]];
        [exfalso; exact (isr_not_eof _ _ Hc Hr) | exact Hr]
    end.
  - next_out. unfold slack. fields. rewrite length_app. cbn [length].
    unfold Strings.len in *. flags; subst; fields; not_eof; lia.
  - next_out. unfold slack. fields.
    unfold Strings.len in *. flags; subst; fields; lia.
Qed.

Lemma lexAttr_loop_slack (n : nat) : forall (l l0 : lexer),
  running text out l -> lexAttr_loop n l = Ret l0 ->
  slack l0 <= slack l /\ pos l0 < Strings.len (input l0).
Proof.
  induction n as [|n IH]; intros l l0 Hrun H; [discriminate|].
  cbn [lexAttr_loop] in H.
  destruct (lexAttr_body l) as [b| | |] eqn:E; cbn [mbind result_bind] in H;
    try discriminate.
  pose proof (lexAttr_body_inv text out l b Hrun E) as Hrun1.
  pose proof (lexAttr_body_slack l b Hrun E) as Hsl.
  destruct b as [l1|l1].
  - destruct (IH l1 l0 Hrun1 H) as [H1 H2]. split; [lia | exact H2].
  - injection H as <-. exact Hsl.
Qed.

Lemma lexAttr_settles (n : nat) (l l1 : lexer) (s : option stateFn) :
  running text out l -> items l = [] ->
  lexAttr_fn n l = Ret (l1, s) -> settles lexAttr l l1 s.
Proof.
  intros Hrun Hq H. unfold lexAttr_fn in H.
  destruct (lexAttr_loop n l) as [l0| | |] eqn:E; cbn [mbind result_bind] in H;
    try discriminate.
  pose proof (lexAttr_loop_inv text out n l l0 Hrun E) as (Hi & Hs & Hp & _).
  destruct (lexAttr_loop_slack n l l0 Hrun E) as [Hsl Hlt].
  emit_out H. unfold go in H; injection H as <- <-.
  assert (Hgoal : slack (snd (next (ignore (snd (next
            (set_start (set_items l0 (items l0 ++ [Item itemAttr v])) (pos l0)))))))
          + weight (Some lexText) <= slack l + weight (Some lexAttr) + 1).
  { revert Hsl. generalize (slack l). intros k Hsl.
    destruct l0 as [nm inp ld rd st p s0 wd q]; fields.
    next_out. fields. next_out. unfold slack, weight in *. fields.
    rewrite length_app. cbn [length].
    unfold Strings.len in *. flags; subst; fields; lia. }
  unfold settles. rewrite items_next.
  change (items (ignore ?x)) with (items x). rewrite items_next.
  cbn [items set_start]. replace (items (set_items l0 _)) with
    (items l0 ++ [Item itemAttr v]) by (destruct l0; reflexivity).
  destruct (items l0); cbn [app]; intros _; exact Hgoal.
Qed.

Lemma call_settles (n : nat) (f : stateFn) (l l1 : lexer) (s : option stateFn) :
  running text out l -> items l = [] ->
  call n f l = Ret (l1, s) -> settles f l l1 s.
Proof.
  intros Hrun Hq H.
  destruct f; cbn [call] in H;
    eauto using lexTag_settles, lexEOF_settles, lexDocType_settles, lexId_settles,
      lexClass_settles, lexText_settles, lexComment_settles, lexAttr_settles,
      lexIndent_settles, lexNewLine_settles.
Qed.

End Potential.

Lemma nextItem_potential (text : string) (n : nat) : forall out l it l',
  scanner_inv text out l -> nextItem n l = Ret (it, l') ->
  terminal it = false -> potential l' < potential l.
Proof.
  assert (Hrecv : forall l i q, items l = i :: q ->
                    potential (set_items l q) < potential l).
  { intros l i q Hq. unfold potential, slack.
    destruct l as [nm inp ld rd st p s0 wd q0]; fields. subst q0.
    cbn [length]. lia. }
  induction n as [|n IH]; intros out l it l' Hinv H Ht; cbn [nextItem] in H.
  - destruct (items l) as [|i q] eqn:Hq; [discriminate|].
    injection H as <- <-. eapply Hrecv, Hq.
  - destruct (items l) as [|i q] eqn:Hq; [|injection H as <- <-; eapply Hrecv, Hq].
    destruct (state l) as [f|] eqn:Hf; [|discriminate].
    destruct (call n f l) as [[l1 s]| | |] eqn:E; cbn [mbind result_bind] in H;
      try discriminate.
    pose proof (call_inv text out n f l l1 s Hinv Hf E) as Hinv1.
    assert (Hrun : running text out l).
    { unfold scanner_inv in Hinv. rewrite Hf in Hinv. apply Hinv. }
    pose proof (call_settles text out n f l l1 s Hrun Hq E) as Hset.
    assert (Hpot : potential l = slack l + weight (Some f))
      by (unfold potential; rewrite Hf; reflexivity).
    assert (Hpot1 : potential (set_state l1 s) = slack l1 + weight s)
      by (destruct l1; reflexivity).
    unfold settles in Hset. destruct (items l1) as [|i q] eqn:Hq1.
    + specialize (IH out _ _ _ Hinv1 H Ht). lia.
    + erewrite nextItem_recv in H by (destruct l1; cbn in *; exact Hq1).
      injection H as <- <-. specialize (Hset Ht).
      assert (Hl' : potential (set_items (set_state l1 s) q) + 2 =
                    potential (set_state l1 s)).
      { unfold potential, slack.
        destruct l1 as [nm inp ld rd st p s0 wd q0]; fields. subst q0.
        cbn [length]. lia. }
      lia.
Qed.

Lemma scan_stable (n : nat) : forall m l,
  snd (scan n l) <> Unfinished -> n <= m -> scan m l = scan n l.
Proof.
  induction n as [|n IH]; intros m l H Hle; [cbn in H; congruence|].
  destruct m as [|m]; [lia|]. rewrite !scan_S in *.
  assert (Hn : nextItem n l <> OutOfFuel).
  { intros E. rewrite E in H. apply H. reflexivity. }
  rewrite (nextItem_stable n m l Hn) by lia.
  destruct (nextItem n l) as [[it l1]| | |]; try reflexivity.
  destruct (terminal it); [reflexivity|].
  rewrite (IH m l1); [reflexivity | | lia].
  destruct (scan n l1) as [its e]. exact H.
Qed.

Lemma scan_ends_within (text : string) (k : nat) : forall out l n,
  scanner_inv text out l -> parensClosed text = true -> attrReady l ->
  potential l <= k -> k + 8 * Strings.len text + 9 <= n ->
  snd (scan n l) <> Unfinished.
Proof.
  induction k as [|k IH]; intros out l n Hinv Hpar Hready Hk Hn;
    (destruct n as [|n]; [lia|]); rewrite scan_S;
    (assert (Hne : nextItem n l <> OutOfFuel);
     [ apply (nextItem_ends_within text (8 * Strings.len text + 5) out l n);
       auto; [|lia];
       intros f _; unfold measure;
       pose proof (scanner_inv_pieces _ _ _ Hinv) as (Hi & _); rewrite Hi;
       pose proof (rank_le f l); lia |]);
    (destruct (nextItem n l) as [[it l1]| | |] eqn:E;
     try discriminate; [|congruence]);
    (destruct (terminal it) eqn:Ht; [discriminate|]);
    pose proof (nextItem_potential text n out l it l1 Hinv E Ht) as Hlt.
  - lia.
  - assert (H1 : snd (scan n l1) <> Unfinished).
    { apply (IH (out ++ [it])).
      - eapply nextItem_inv; eauto.
      - exact Hpar.
      - eapply nextItem_ready; eauto.
      - lia.
      - lia. }
    destruct (scan n l1) as [its e]. exact H1.
Qed.

(** On an input in which every opening parenthesis has a closing one
    behind it, the scan ends: with fuel for twelve rounds for each byte
    of the input and twelve more, the client loop has come to an itemEOF
    or an itemError, to a panic or to the full channel, and more fuel
    changes neither the items nor the ending. *)
Theorem scan_ends (name text left right : string) (fuel : nat) :
  parensClosed text = true ->
  12 * Strings.len text + 12 <= fuel ->
  snd (scan fuel (lex name text left right)) <> Unfinished /\
  scan fuel (lex name text left right) =
    scan (12 * Strings.len text + 12) (lex name text left right).
Proof.
  intros Hpar Hfuel.
  assert (Hends : forall n, 12 * Strings.len text + 12 <= n ->
                    snd (scan n (lex name text left right)) <> Unfinished).
  { intros n Hn.
    apply (scan_ends_within text (4 * Strings.len text + 3) []);
      [apply lex_inv | exact Hpar | discriminate | | lia].
    unfold potential, slack, lex. fields. unfold weight.
    change (0 <? 0) with false. cbv iota. lia. }
  split; [apply Hends, Hfuel|].
  apply scan_stable; [apply Hends; lia | exact Hfuel].
Qed.

Lemma scan_ends_witness :
  snd (scan 100 (lex "name" closedAttrText "" "")) <> Unfinished /\
  scan 100 (lex "name" closedAttrText "" "") =
    scan (12 * Strings.len closedAttrText + 12) (lex "name" closedAttrText "" "").
Proof.
  refine (scan_ends "name" closedAttrText "" "" 100 _ _).
  - reflexivity.
  - vm_compute. lia.
Defined.

(** **** Runs up to a delimiter *)

(** The rune at pos, before the end of the run: it is none of the
    delimiters and not eof, and it is not wider than what is left of
    the run. *)
Lemma rune_in_run (stop : ascii -> bool) (l : lexer) (e : nat) (r : Z) (w : nat) :
  (forall c, stop c = true -> (utf8.byte c < 128)%Z) ->
  runUpTo stop l e -> pos l < e ->
  utf8.DecodeRuneInString (Strings.drop (pos l) (input l)) = (r, w) ->
  (forall c, stop c = true -> isr r c = false) /\ (r =? eof)%Z = false /\
  1 <= w /\ pos l + w <= e.
Proof.
  intros Hascii (Hpe & Hel & Hrun & Hend) Hlt Hd.
  assert (Hne : Strings.drop (pos l) (input l) <> EmptyString).
  { intros E. pose proof (str_length_drop (input l) (pos l)) as Hl.
    rewrite E in Hl. unfold Strings.len in *. cbn in Hl. lia. }
  destruct (DecodeRuneInString_width _ _ _ Hd Hne) as ((Hw1 & Hw2) & Hcont).
  rewrite str_length_drop in Hw2. unfold Strings.len in *.
  split; [|split; [|split; [exact Hw1|]]].
  - intros c Hc. destruct (isr r c) eqn:Hr; [|reflexivity]. exfalso.
    pose proof (Hascii c Hc) as Hlow. pose proof (byte_range c) as Hrange.
    unfold isr, chr in Hr. apply Z.eqb_eq in Hr.
    destruct (DecodeRuneInString_low _ _ _ Hd ltac:(lia)) as (c' & t & Hs & Hc' & _).
    assert (c' = c) by (apply byte_inj; congruence). subst c'.
    assert (Hg : String.get (pos l) (input l) = Some c)
      by (rewrite str_get_drop, Hs; reflexivity).
    rewrite (Hrun (pos l) c ltac:(lia) Hg) in Hc. discriminate.
  - pose proof (DecodeRuneInString_nonneg _ _ _ Hd) as H0.
    apply Z.eqb_neq. unfold eof. lia.
  - destruct (Nat.le_gt_cases (pos l + w) e) as [Hle|Hgt]; [exact Hle|]. exfalso.
    destruct Hend as [He | (c & Hg & Hc)]; [lia|].
    assert (Hg' : String.get (e - pos l) (Strings.drop (pos l) (input l)) = Some c).
    { rewrite str_get_drop_add. replace (pos l + (e - pos l)) with e by lia. exact Hg. }
    pose proof (Hcont (e - pos l) c ltac:(lia) Hg') as Hhi.
    pose proof (Hascii c Hc). lia.
Qed.

(** What peek and next do before the end of a run. *)
Lemma peek_in_run (stop : ascii -> bool) (l : lexer) (e : nat) :
  (forall c, stop c = true -> (utf8.byte c < 128)%Z) ->
  runUpTo stop l e -> pos l < e ->
  exists r w,
    peek l = (r, set_width l w) /\
    snd (next (set_width l w)) = movedTo l (pos l + w) w /\
    (forall c, stop c = true -> isr r c = false) /\ (r =? eof)%Z = false /\
    1 <= w /\ pos l + w <= e.
Proof.
  intros Hascii Hrun Hlt.
  assert (Hlen : pos l < Strings.len (input l))
    by (destruct Hrun as (_ & ? & _); lia).
  destruct (peek_lt l Hlen) as (w & Hpeek & Hw).
  destruct (utf8.DecodeRuneInString (Strings.drop (pos l) (input l)))
    as [r w'] eqn:Hd.
  cbn [fst snd] in *. subst w'.
  destruct (rune_in_run stop l e r w Hascii Hrun Hlt Hd) as (Hr & Heof & Hw1 & Hwe).
  exists r, w. split; [exact Hpeek|]. split; [|auto].
  rewrite (next_lt (set_width l w) r w) by (destruct l; assumption).
  destruct l; reflexivity.
Qed.

(** What peek does at the end of a run: it reads the delimiter, or
    eof. *)
Lemma peek_at_end (stop : ascii -> bool) (l : lexer) (e : nat) :
  (forall c, stop c = true -> (utf8.byte c < 128)%Z) ->
  runUpTo stop l e -> pos l = e ->
  (e = Strings.len (input l) /\ peek l = (eof, set_width l 0)) \/
  (exists c, String.get e (input l) = Some c /\ stop c = true /\
             e < Strings.len (input l) /\
             peek l = (chr c, set_width l 1) /\
             forall l1, input l1 = input l -> pos l1 = e ->
                        snd (next l1) = movedTo l1 (S e) 1).
Proof.
  intros Hascii (Hpe & Hel & Hrun & Hend) Hp.
  destruct Hend as [He | (c & Hg & Hc)].
  - left. split; [exact He|]. apply peek_eof. lia.
  - right. exists c. split; [exact Hg|]. split; [exact Hc|].
    pose proof (Hascii c Hc) as Hlow.
    assert (Hd : Strings.drop e (input l) = String c (Strings.drop (S e) (input l))).
    { rewrite str_get_drop in Hg.
      destruct (Strings.drop e (input l)) as [|d t] eqn:E; [discriminate|].
      injection Hg as ->. rewrite (str_drop_S _ _ _ _ E). reflexivity. }
    pose proof (str_drop_lt _ _ _ _ Hd) as Hlen.
    split; [exact Hlen|]. split.
    + destruct (peek_lt l ltac:(lia)) as (w & Hpeek & Hw).
      rewrite Hp, Hd, DecodeRuneInString_ascii in Hpeek, Hw by exact Hlow.
      cbn [fst snd] in *. subst w. exact Hpeek.
    + intros l1 Hi1 Hp1.
      rewrite (next_lt l1 (utf8.byte c) 1).
      * unfold movedTo. rewrite Hp1. f_equal. lia.
      * rewrite Hi1, Hp1. exact Hlen.
      * rewrite Hi1, Hp1, Hd. apply DecodeRuneInString_ascii, Hlow.
Qed.

Lemma noneOf_get (stop : ascii -> bool) (s : string) : forall i c,
  noneOf stop s = true -> String.get i s = Some c -> stop c = false.
Proof.
  induction s as [|d s IH]; intros i c Ht Hg; [discriminate|].
  cbn [noneOf] in Ht. apply andb_true_iff in Ht as [Hd Hs].
  destruct i as [|i]; cbn in Hg.
  - injection Hg as <-. apply negb_true_iff, Hd.
  - eapply IH; eauto.
Qed.

Lemma str_drop_app (a b : string) : Strings.drop (String.length a) (a +:+ b) = b.
Proof. induction a as [|c a IH]; [reflexivity|]. rewrite str_app_cons. exact IH. Qed.

(** The text behind pos as a run: characters that are no delimiters,
    then a delimiter. *)
Lemma run_of_text (stop : ascii -> bool) (l : lexer) (a : string) (d : ascii)
    (rest : string) :
  Strings.drop (pos l) (input l) = a +:+ String d rest ->
  noneOf stop a = true -> stop d = true ->
  runUpTo stop l (pos l + String.length a) /\
  String.get (pos l + String.length a) (input l) = Some d /\
  Strings.drop (S (pos l + String.length a)) (input l) = rest.
Proof.
  intros Hd Ha Hstop.
  assert (Hde : Strings.drop (pos l + String.length a) (input l) = String d rest)
    by (rewrite str_drop_add, Hd; apply str_drop_app).
  assert (Hg : String.get (pos l + String.length a) (input l) = Some d)
    by (rewrite str_get_drop, Hde; reflexivity).
  split; [|split; [exact Hg | eapply str_drop_S, Hde]].
  split; [lia|]. split; [apply str_drop_lt in Hde; lia|]. split.
  - intros i c [Hi1 Hi2] Hgi.
    replace i with (pos l + (i - pos l)) in Hgi by lia.
    rewrite <- str_get_drop_add, Hd, str_get_app_l in Hgi by lia.
    eapply noneOf_get; eauto.
  - right. exists d. auto.
Qed.

(** The text behind pos as a run to the end of the input. *)
Lemma run_of_tail (stop : ascii -> bool) (l : lexer) (a : string) :
  Strings.drop (pos l) (input l) = a -> pos l <= Strings.len (input l) ->
  noneOf stop a = true ->
  runUpTo stop l (pos l + String.length a) /\
  pos l + String.length a = Strings.len (input l).
Proof.
  intros Hd Hp Ha.
  assert (Hlen : pos l + String.length a = Strings.len (input l)).
  { rewrite <- Hd, str_length_drop. unfold Strings.len in *. lia. }
  split; [|exact Hlen].
  split; [lia|]. split; [lia|]. split; [|left; exact Hlen].
  intros i c [Hi1 Hi2] Hgi.
  replace i with (pos l + (i - pos l)) in Hgi by lia.
  rewrite <- str_get_drop_add, Hd in Hgi. eapply noneOf_get; eauto.
Qed.

(** **** The loop of lexAttr *)

Lemma attrStop_ascii (c : ascii) : attrStop c = true -> (utf8.byte c < 128)%Z.
Proof.
  unfold attrStop, same. intros [H|H]%orb_true_iff; apply Ascii.eqb_eq in H;
    subst; reflexivity.
Qed.

Lemma movedTo_same (l : lexer) : movedTo l (pos l) (width l) = l.
Proof. destruct l; reflexivity. Qed.

Lemma runUpTo_moved (stop : ascii -> bool) (l : lexer) (e p w : nat) :
  runUpTo stop l e -> pos l <= p -> p <= e -> runUpTo stop (movedTo l p w) e.
Proof.
  intros (Hpe & Hel & Hrun & Hend) Hp1 Hp2. unfold runUpTo.
  destruct l as [nm inp ld rd st p0 s0 wd q]; unfold movedTo;
    cbn [input pos set_pos set_width] in *.
  repeat split; auto. intros i c Hi. apply Hrun. lia.
Qed.

(** The rounds of the loop of lexAttr before the end of a run only move
    pos. *)
Lemma lexAttr_loop_run (k : nat) : forall (l : lexer) (e : nat),
  runUpTo attrStop l e -> e - pos l <= k ->
  exists j w, j <= e - pos l /\
    forall n, lexAttr_loop (j + n) l = lexAttr_loop n (movedTo l e w).
Proof.
  induction k as [|k IH]; intros l e Hrun Hk.
  - exists 0, (width l). split; [lia|]. intros n.
    replace e with (pos l) by (destruct Hrun as (? & _); lia).
    rewrite movedTo_same. reflexivity.
  - destruct (Nat.eq_dec (pos l) e) as [He|Hne].
    + exists 0, (width l). split; [lia|]. intros n. rewrite <- He, movedTo_same.
      reflexivity.
    + assert (Hlt : pos l < e) by (destruct Hrun as (? & _); lia).
      destruct (peek_in_run attrStop l e attrStop_ascii Hrun Hlt)
        as (r & w & Hpeek & Hnext & Hr & _ & Hw1 & Hwe).
      destruct (IH (movedTo l (pos l + w) w) e) as (j & w' & Hj & Hloop).
      { apply runUpTo_moved; [exact Hrun | lia | exact Hwe]. }
      { destruct l; cbn in *. lia. }
      exists (S j), w'. split; [destruct l; cbn in *; lia|].
      intros n. cbn [Nat.add lexAttr_loop]. unfold lexAttr_body.
      rewrite Hpeek, (Hr ")"%char), (Hr ","%char) by reflexivity.
      cbn [mret result_ret mbind result_bind]. rewrite Hnext, Hloop.
      reflexivity.
Qed.

(** What peek and next do at an ASCII character. *)
Lemma peek_char (l : lexer) (c : ascii) :
  String.get (pos l) (input l) = Some c -> (utf8.byte c < 128)%Z ->
  peek l = (chr c, set_width l 1) /\
  forall l1, input l1 = input l -> pos l1 = pos l ->
             snd (next l1) = movedTo l1 (S (pos l)) 1.
Proof.
  intros Hg Hlow.
  assert (Hd : Strings.drop (pos l) (input l) =
               String c (Strings.drop (S (pos l)) (input l))).
  { rewrite str_get_drop in Hg.
    destruct (Strings.drop (pos l) (input l)) as [|d t] eqn:E; [discriminate|].
    injection Hg as ->. rewrite (str_drop_S _ _ _ _ E). reflexivity. }
  pose proof (str_drop_lt _ _ _ _ Hd) as Hlen.
  split.
  - destruct (peek_lt l Hlen) as (w & Hpeek & Hw).
    rewrite Hd, DecodeRuneInString_ascii in Hpeek, Hw by exact Hlow.
    cbn [fst snd] in *. subst w. exact Hpeek.
  - intros l1 Hi1 Hp1.
    rewrite (next_lt l1 (utf8.byte c) 1).
    + unfold movedTo. rewrite Hp1. f_equal. lia.
    + rewrite Hi1, Hp1. exact Hlen.
    + rewrite Hi1, Hp1, Hd. apply DecodeRuneInString_ascii, Hlow.
Qed.

Lemma get_lt (s : string) (i : nat) (c : ascii) :
  String.get i s = Some c -> i < Strings.len s.
Proof.
  rewrite str_get_drop. destruct (Strings.drop i s) as [|d t] eqn:E; [discriminate|].
  intros _. eapply str_drop_lt, E.
Qed.

(** emit with room in the channel. *)
Lemma emit_lexeme (t : itemType) (l : lexer) :
  start l <= pos l -> pos l <= Strings.len (input l) ->
  length (items l) < chanCap ->
  emit t l =
  Ret (set_start (set_items l (items l ++ [Item t (lexeme l (pos l))])) (pos l)).
Proof.
  intros Hs Hp Hq. unfold emit, send, Strings.slice, lexeme.
  destruct (Nat.leb_spec (start l) (pos l)); [|lia].
  destruct (Nat.leb_spec (pos l) (Strings.len (input l))); [|lia].
  cbn [andb mbind result_bind].
  destruct (Nat.ltb_spec (length (items l)) chanCap); [|lia].
  reflexivity.
Qed.

(** emit with the channel full. *)
Lemma emit_full (t : itemType) (l : lexer) :
  start l <= pos l -> pos l <= Strings.len (input l) ->
  length (items l) = chanCap -> emit t l = Blocked.
Proof.
  intros Hs Hp Hq. unfold emit, send, Strings.slice.
  destruct (Nat.leb_spec (start l) (pos l)); [|lia].
  destruct (Nat.leb_spec (pos l) (Strings.len (input l))); [|lia].
  cbn [andb mbind result_bind].
  destruct (Nat.ltb_spec (length (items l)) chanCap); [lia|].
  reflexivity.
Qed.

Lemma lexAttr_body_comma (l : lexer) :
  String.get (pos l) (input l) = Some ","%char ->
  start l <= pos l -> length (items l) < chanCap ->
  lexAttr_body l = Ret (inl (afterComma l (pos l))).
Proof.
  intros Hg Hs Hq. pose proof (get_lt _ _ _ Hg) as Hlt.
  destruct (peek_char l "," Hg ltac:(reflexivity)) as [Hpeek Hnext].
  unfold lexAttr_body. rewrite Hpeek.
  change (isr (chr ",") ")") with false. change (isr (chr ",") ",") with true.
  cbv iota.
  rewrite emit_lexeme by (destruct l; cbn in *; lia).
  cbn [mbind result_bind mret result_ret].
  rewrite Hnext by (destruct l; reflexivity).
  destruct l; reflexivity.
Qed.

Lemma lexAttr_body_comma_full (l : lexer) :
  String.get (pos l) (input l) = Some ","%char ->
  start l <= pos l -> length (items l) = chanCap ->
  lexAttr_body l = Blocked.
Proof.
  intros Hg Hs Hq. pose proof (get_lt _ _ _ Hg) as Hlt.
  destruct (peek_char l "," Hg ltac:(reflexivity)) as [Hpeek Hnext].
  unfold lexAttr_body. rewrite Hpeek.
  change (isr (chr ",") ")") with false. change (isr (chr ",") ",") with true.
  cbv iota.
  rewrite emit_full by (destruct l; cbn in *; lia). reflexivity.
Qed.

Lemma lexAttr_body_close (l : lexer) :
  String.get (pos l) (input l) = Some ")"%char ->
  lexAttr_body l = Ret (inr (set_width l 1)).
Proof.
  intros Hg.
  destruct (peek_char l ")" Hg ltac:(reflexivity)) as [Hpeek _].
  unfold lexAttr_body. rewrite Hpeek. reflexivity.
Qed.

Lemma lexeme_moved (l : lexer) (p w e : nat) :
  lexeme (movedTo l p w) e = lexeme l e.
Proof. destruct l; reflexivity. Qed.

(** The loop of lexAttr over an attribute and the comma behind it. *)
Lemma lexAttr_loop_comma (l : lexer) (a rest : string) :
  Strings.drop (pos l) (input l) = a +:+ String "," rest ->
  noneOf attrStop a = true ->
  start l <= pos l -> length (items l) < chanCap ->
  exists j, j <= S (String.length a) /\
    (forall n, lexAttr_loop (j + n) l =
               lexAttr_loop n (afterComma l (pos l + String.length a))) /\
    Strings.drop (S (pos l + String.length a)) (input l) = rest.
Proof.
  intros Hd Ha Hs Hq.
  destruct (run_of_text attrStop l a "," rest Hd Ha ltac:(reflexivity))
    as (Hrun & Hg & Hrest).
  destruct (lexAttr_loop_run (String.length a) l _ Hrun ltac:(lia))
    as (j & w & Hj & Hloop).
  exists (S j). split; [lia|]. split; [|exact Hrest].
  intros n. replace (S j + n) with (j + S n) by lia. rewrite Hloop.
  cbn [lexAttr_loop].
  rewrite lexAttr_body_comma by (destruct l; cbn in *; (assumption || lia)).
  cbn [mbind result_bind]. reflexivity.
Qed.

Lemma lexAttr_loop_comma_full (l : lexer) (a rest : string) :
  Strings.drop (pos l) (input l) = a +:+ String "," rest ->
  noneOf attrStop a = true ->
  start l <= pos l -> length (items l) = chanCap ->
  exists j, j <= S (String.length a) /\ lexAttr_loop j l = Blocked.
Proof.
  intros Hd Ha Hs Hq.
  destruct (run_of_text attrStop l a "," rest Hd Ha ltac:(reflexivity))
    as (Hrun & Hg & Hrest).
  destruct (lexAttr_loop_run (String.length a) l _ Hrun ltac:(lia))
    as (j & w & Hj & Hloop).
  exists (S j). split; [lia|].
  replace (S j) with (j + 1) by lia. rewrite Hloop.
  cbn [lexAttr_loop].
  rewrite lexAttr_body_comma_full by (destruct l; cbn in *; (assumption || lia)).
  reflexivity.
Qed.

Lemma lexAttr_loop_close (l : lexer) (a rest : string) :
  Strings.drop (pos l) (input l) = a +:+ String ")" rest ->
  noneOf attrStop a = true ->
  exists j, j <= S (String.length a) /\
    lexAttr_loop j l = Ret (movedTo l (pos l + String.length a) 1) /\
    Strings.drop (S (pos l + String.length a)) (input l) = rest /\
    pos l + String.length a < Strings.len (input l).
Proof.
  intros Hd Ha.
  destruct (run_of_text attrStop l a ")" rest Hd Ha ltac:(reflexivity))
    as (Hrun & Hg & Hrest).
  destruct (lexAttr_loop_run (String.length a) l _ Hrun ltac:(lia))
    as (j & w & Hj & Hloop).
  exists (S j). split; [lia|]. split; [|split; [exact Hrest | eapply get_lt, Hg]].
  replace (S j) with (j + 1) by lia. rewrite Hloop.
  cbn [lexAttr_loop].
  rewrite lexAttr_body_close by (destruct l; cbn in *; assumption).
  cbn [mbind result_bind mret result_ret]. reflexivity.
Qed.

(** **** Attribute lists *)

Lemma call_blocked (n m : nat) (l : lexer) :
  lexAttr_fn n l = Blocked -> n <= m ->
  state l = Some lexAttr -> items l = [] ->
  nextItem (S m) l = Blocked.
Proof.
  intros H Hle Hs Hq. rewrite (nextItem_step _ _ lexAttr) by assumption.
  rewrite (call_stable n m lexAttr l); cbn [call]; [rewrite H; reflexivity | | exact Hle].
  rewrite H. discriminate.
Qed.

Lemma attrList_cons (a b : string) (attrs : list string) :
  attrList (a :: b :: attrs) = a +:+ String "," (attrList (b :: attrs)).
Proof. reflexivity. Qed.

Lemma str_length_cons_app (a b : string) (c : ascii) :
  String.length (a +:+ String c b) = S (String.length a + String.length b).
Proof. rewrite str_length_app. cbn. lia. Qed.

(** A list of three attributes or more makes the scanner block: the
    channel holds two items, lexAttr sends one for each attribute in
    the one call, and nobody receives before the call is over. *)
Theorem attr_list_blocks (l : lexer) (attrs : list string) (rest : string)
    (fuel : nat) :
  state l = Some lexAttr -> items l = [] -> start l <= pos l ->
  3 <= length attrs ->
  Forall (fun a => noneOf attrStop a = true) attrs ->
  Strings.drop (pos l) (input l) = attrList attrs +:+ String ")" rest ->
  String.length (attrList attrs) + 2 <= fuel ->
  nextItem fuel l = Blocked.
Proof.
  intros Hs Hq Hsp Hlen Hfree Hd Hfuel.
  destruct attrs as [|a1 [|a2 [|a3 more]]]; cbn [length] in Hlen; try lia.
  apply Forall_cons in Hfree as [Ha1 Hfree].
  apply Forall_cons in Hfree as [Ha2 Hfree].
  apply Forall_cons in Hfree as [Ha3 _].
  rewrite !attrList_cons in Hd, Hfuel.
  rewrite !str_app_assoc, !str_app_cons, !str_app_assoc, !str_app_cons in Hd.
  rewrite !str_length_cons_app in Hfuel.
  (* the first attribute *)
  destruct (lexAttr_loop_comma l a1 _ Hd Ha1 Hsp) as (j1 & Hj1 & Hloop1 & Hd1).
  { rewrite Hq. cbn. unfold chanCap. lia. }
  set (L1 := afterComma l (pos l + String.length a1)) in *.
  (* the second *)
  destruct (lexAttr_loop_comma L1 a2 _ Hd1 Ha2) as (j2 & Hj2 & Hloop2 & Hd2).
  { unfold L1. cbn. lia. }
  { unfold L1. cbn. rewrite Hq. cbn. unfold chanCap. lia. }
  set (L2 := afterComma L1 (pos L1 + String.length a2)) in *.
  assert (Hq2 : length (items L2) = chanCap)
    by (unfold L2, L1; cbn; rewrite Hq; reflexivity).
  assert (Hsp2 : start L2 <= pos L2) by (unfold L2; cbn; lia).
  (* the third finds the channel full *)
  assert (H3 : exists j3, j3 <= S (String.length a3) /\ lexAttr_fn j3 L2 = Blocked).
  { destruct more as [|a4 more].
    - cbn [attrList] in Hd2.
      destruct (lexAttr_loop_close L2 a3 rest Hd2 Ha3) as (j3 & Hj3 & Hloop3 & _ & Hlt).
      exists j3. split; [exact Hj3|]. unfold lexAttr_fn. rewrite Hloop3.
      cbn [mbind result_bind].
      rewrite emit_full; [reflexivity | | | exact Hq2];
        destruct L2; cbn in *; lia.
    - rewrite attrList_cons, str_app_assoc, str_app_cons in Hd2.
      destruct (lexAttr_loop_comma_full L2 a3 _ Hd2 Ha3 Hsp2 Hq2) as (j3 & Hj3 & Hloop3).
      exists j3. split; [exact Hj3|]. unfold lexAttr_fn. rewrite Hloop3. reflexivity. }
  destruct H3 as (j3 & Hj3 & H3).
  assert (Hfn : lexAttr_fn (j1 + (j2 + j3)) l = Blocked).
  { unfold lexAttr_fn in *. rewrite Hloop1, Hloop2.
    destruct (lexAttr_loop j3 L2) as [l0| | |] eqn:E; try discriminate H3;
      [exact H3 | reflexivity]. }
  destruct fuel as [|fuel]; [lia|].
  eapply call_blocked; [exact Hfn | | exact Hs | exact Hq].
  pose proof (str_length_app (attrList (a3 :: more)) (String ")" rest)).
  assert (String.length a3 <= String.length (attrList (a3 :: more))).
  { destruct more; [cbn [attrList]; lia|].
    rewrite attrList_cons, str_length_app. lia. }
  lia.
Qed.

Lemma threeAttrs_reached :
  reaches (lex "name" threeAttrsText "" "")
          [Item itemTag "a"; Item itemEndl lf; Item itemTag "p"] threeAttrs.
Proof.
  eapply (reaches_next _ 4); [vm_compute; reflexivity | reflexivity |].
  eapply (reaches_next _ 4); [vm_compute; reflexivity | reflexivity |].
  eapply (reaches_next _ 4); [vm_compute; reflexivity | reflexivity |].
  apply reaches_here.
Qed.

Lemma attr_list_blocks_witness : nextItem 7 threeAttrs = Blocked.
Proof.
  refine (attr_list_blocks threeAttrs ["a"; "b"; "c"]%string EmptyString 7
            _ _ _ _ _ _ _).
  - reflexivity.
  - reflexivity.
  - vm_compute. lia.
  - vm_compute. lia.
  - repeat constructor.
  - reflexivity.
  - vm_compute. lia.
Defined.

Lemma str_take_add (s : string) : forall n m,
  Strings.take (n + m) s = Strings.take n s +:+ Strings.take m (Strings.drop n s).
Proof.
  induction s as [|c s IH]; intros [|n] m; cbn [Nat.add Strings.take Strings.drop];
    try reflexivity.
  - destruct m; reflexivity.
  - rewrite str_app_cons, IH. reflexivity.
Qed.

(** The lexeme up to the end of the text [a] behind pos. *)
Lemma lexeme_app (l : lexer) (a t : string) :
  start l <= pos l ->
  Strings.drop (pos l) (input l) = a +:+ t ->
  lexeme l (pos l + String.length a) = lexeme l (pos l) +:+ a.
Proof.
  intros Hs Hd. unfold lexeme.
  replace (pos l + String.length a - start l)
    with ((pos l - start l) + String.length a) by lia.
  rewrite str_take_add, <- str_drop_add.
  replace (start l + (pos l - start l)) with (pos l) by lia.
  rewrite Hd, str_take_app. reflexivity.
Qed.

Lemma lexeme_empty (l : lexer) : start l = pos l -> lexeme l (pos l) = EmptyString.
Proof.
  intros H. unfold lexeme. rewrite H, Nat.sub_diag.
  destruct (Strings.drop _ _); reflexivity.
Qed.

(** lexAttr over the last attribute and the closing parenthesis. *)
Lemma lexAttr_fn_close (l : lexer) (a rest : string) :
  Strings.drop (pos l) (input l) = a +:+ String ")" rest ->
  noneOf attrStop a = true ->
  start l <= pos l -> length (items l) < chanCap ->
  exists j l',
    j <= S (String.length a) /\
    lexAttr_fn j l = Ret (l', Some lexText) /\
    items l' = items l ++ [Item itemAttr (lexeme l (pos l) +:+ a)] /\
    input l' = input l /\
    start l' = S (pos l + String.length a) /\ start l' <= pos l' /\
    Strings.drop (start l') (input l') = rest /\
    start l' <= Strings.len (input l).
Proof.
  intros Hd Ha Hs Hq.
  destruct (lexAttr_loop_close l a rest Hd Ha) as (j & Hj & Hloop & Hrest & Hlt).
  destruct (run_of_text attrStop l a ")" rest Hd Ha ltac:(reflexivity))
    as (_ & Hg & _).
  set (e := pos l + String.length a) in *.
  set (l0 := movedTo l e 1) in *.
  assert (He : emit itemAttr l0 =
               Ret (set_start (set_items l0 (items l0 ++ [Item itemAttr (lexeme l0 e)])) e)).
  { apply (emit_lexeme itemAttr l0); unfold l0; destruct l; cbn in *; lia. }
  set (l1 := set_start _ e) in He.
  assert (Hn1 : snd (next l1) = movedTo l1 (S e) 1).
  { destruct (peek_char l0 ")") as [_ Hnext].
    - unfold l0. destruct l; exact Hg.
    - reflexivity.
    - apply Hnext; unfold l1, l0; destruct l; reflexivity. }
  destruct (next_spec (ignore (movedTo l1 (S e) 1))) as (w & Hn2 & _ & _).
  exists j, (snd (next (ignore (movedTo l1 (S e) 1)))).
  split; [exact Hj|]. split.
  { unfold lexAttr_fn. rewrite Hloop. cbn [mbind result_bind].
    rewrite He. cbn [mbind result_bind]. rewrite Hn1. reflexivity. }
  rewrite Hn2. unfold l1, l0.
  rewrite <- (lexeme_app l a (String ")" rest) Hs Hd). fold e.
  destruct l as [nm inp ld rd st p s0 wd q];
    cbn [input pos start items movedTo set_pos set_width set_start set_items
         ignore lexeme] in *.
  repeat split; auto; lia.
Qed.

Lemma lexText_at_end (l : lexer) (n : nat) :
  items l = [] -> state l = Some lexText ->
  Strings.drop (start l) (input l) = EmptyString ->
  nextItem (S n) l = Panic (IndexOutOfRange (start l) (Strings.len (input l))).
Proof.
  intros Hq Hs Hd.
  rewrite (nextItem_step _ _ lexText) by assumption.
  cbn [call]. unfold lexText_fn, unexpected, Strings.at_.
  rewrite str_get_drop, Hd. reflexivity.
Qed.

(** A list of one or two attributes: lexAttr sends them in the one
    call, each with the text between the delimiters as its lexeme, and
    goes to lexText behind the closing parenthesis; where the input ends
    with that parenthesis, the next call of nextItem indexes the input
    at its length. *)
Theorem attr_list_short (l : lexer) (attrs : list string) (rest : string) :
  state l = Some lexAttr -> items l = [] -> start l <= pos l ->
  1 <= length attrs <= 2 ->
  Forall (fun a => noneOf attrStop a = true) attrs ->
  Strings.drop (pos l) (input l) = attrList attrs +:+ String ")" rest ->
  exists l',
    reaches l (attrItems l attrs) l' /\
    items l' = [] /\ state l' = Some lexText /\ input l' = input l /\
    start l' = pos l + String.length (attrList attrs) + 1 /\
    start l' <= pos l' /\
    Strings.drop (start l') (input l') = rest /\
    (rest = EmptyString ->
     start l' = Strings.len (input l) /\
     forall n, nextItem (S n) l' =
               Panic (IndexOutOfRange (start l') (Strings.len (input l)))).
Proof.
  intros Hs Hq Hsp Hlen Hfree Hd.
  assert (Hend : forall l', items l' = [] -> state l' = Some lexText ->
            input l' = input l -> Strings.drop (start l') (input l') = rest ->
            start l' <= Strings.len (input l) ->
            rest = EmptyString ->
            start l' = Strings.len (input l) /\
            forall n, nextItem (S n) l' =
              Panic (IndexOutOfRange (start l') (Strings.len (input l)))).
  { intros l' Hq' Hs' Hi' Hd' Hle ->. split.
    - pose proof (str_length_drop (input l') (start l')) as Hl.
      rewrite Hd', Hi' in Hl. cbn in Hl. unfold Strings.len in *. lia.
    - intros n. rewrite <- Hi'. apply lexText_at_end; assumption. }
  destruct attrs as [|a1 [|a2 [|a3 more]]]; cbn [length] in Hlen; try lia.
  - (* one attribute *)
    apply Forall_cons in Hfree as [Ha1 _]. cbn [attrList] in *.
    destruct (lexAttr_fn_close l a1 rest Hd Ha1 Hsp) as
      (j & L & Hj & Hfn & HqL & HiL & HsL & HpL & HdL & Hlt).
    { rewrite Hq. unfold chanCap. cbn. lia. }
    rewrite Hq in HqL. cbn [app] in HqL.
    exists (set_items (set_state L (Some lexText)) []).
    split.
    { cbn [attrItems map]. eapply (reaches_next _ (S j)); [| reflexivity | constructor].
      rewrite (nextItem_step _ _ lexAttr) by assumption.
      cbn [call]. rewrite Hfn. cbn [mbind result_bind].
      apply nextItem_recv. destruct L; exact HqL. }
    assert (Hfields : forall X, X = set_items (set_state L (Some lexText)) [] ->
              items X = [] /\ state X = Some lexText /\ input X = input l /\
              start X = pos l + String.length a1 + 1 /\ start X <= pos X /\
              Strings.drop (start X) (input X) = rest).
    { intros X ->. destruct L; cbn in *. repeat split; auto; lia. }
    destruct (Hfields _ eq_refl) as (H1 & H2 & H3 & H4 & H5 & H6).
    repeat (split; [assumption|]).
    apply Hend; auto; destruct L; exact Hlt.
  - (* two attributes *)
    apply Forall_cons in Hfree as [Ha1 Hfree].
    apply Forall_cons in Hfree as [Ha2 _].
    rewrite attrList_cons in *. cbn [attrList] in *.
    rewrite str_app_assoc, str_app_cons in Hd.
    destruct (lexAttr_loop_comma l a1 _ Hd Ha1 Hsp) as (j1 & Hj1 & Hloop1 & Hd1).
    { rewrite Hq. cbn. unfold chanCap. lia. }
    set (L1 := afterComma l (pos l + String.length a1)) in *.
    destruct (lexAttr_fn_close L1 a2 rest Hd1 Ha2) as
      (j & L & Hj & Hfn & HqL & HiL & HsL & HpL & HdL & Hlt).
    { unfold L1. cbn. lia. }
    { unfold L1. cbn. rewrite Hq. cbn. unfold chanCap. lia. }
    assert (Hfn' : lexAttr_fn (j1 + j) l = Ret (L, Some lexText)).
    { unfold lexAttr_fn in *. rewrite Hloop1. exact Hfn. }
    assert (HqL' : items L = [Item itemAttr (lexeme l (pos l) +:+ a1);
                              Item itemAttr a2]).
    { rewrite HqL. unfold L1 at 1. cbn [items afterComma]. rewrite Hq. cbn [app].
      rewrite (lexeme_app l a1 _ Hsp Hd).
      rewrite (lexeme_empty L1) by reflexivity. reflexivity. }
    exists (set_items (set_state L (Some lexText)) []).
    split.
    { cbn [attrItems map].
      eapply (reaches_next _ (S (j1 + j)) _
                (set_items (set_state L (Some lexText)) [Item itemAttr a2]));
        [| reflexivity |].
      - rewrite (nextItem_step _ _ lexAttr) by assumption.
        cbn [call]. rewrite Hfn'. cbn [mbind result_bind].
        apply nextItem_recv. destruct L; exact HqL'.
      - eapply (reaches_next _ 0); [| reflexivity | constructor].
        destruct L; reflexivity. }
    assert (Hfields : forall X, X = set_items (set_state L (Some lexText)) [] ->
              items X = [] /\ state X = Some lexText /\ input X = input l /\
              start X = pos l + String.length (a1 +:+ String "," a2) + 1 /\
              start X <= pos X /\
              Strings.drop (start X) (input X) = rest).
    { intros X ->. rewrite str_length_cons_app.
      unfold L1 in HiL, HsL. cbn [input pos afterComma] in HiL, HsL.
      destruct L; cbn in *. repeat split; auto; lia. }
    destruct (Hfields _ eq_refl) as (H1 & H2 & H3 & H4 & H5 & H6).
    repeat (split; [assumption|]).
    apply Hend; auto; destruct L; exact Hlt.
Qed.

Lemma attr_list_short_witness :
  exists l',
    reaches twoAttrs [Item itemAttr "a"; Item itemAttr "b"] l' /\
    items l' = [] /\ state l' = Some lexText /\ input l' = twoAttrsText /\
    start l' = 4 + 3 + 1 /\
    start l' <= pos l' /\
    Strings.drop (start l') (input l') = " c"%string /\
    (" c"%string = EmptyString ->
     start l' = Strings.len twoAttrsText /\
     forall n, nextItem (S n) l' =
               Panic (IndexOutOfRange (start l') (Strings.len twoAttrsText))).
Proof.
  refine (attr_list_short twoAttrs ["a"; "b"]%string " c" _ _ _ _ _ _).
  - reflexivity.
  - reflexivity.
  - vm_compute. lia.
  - vm_compute. lia.
  - repeat constructor.
  - reflexivity.
Defined.

Lemma twoAttrs_reached :
  reaches (lex "name" twoAttrsText "" "")
          [Item itemTag "a"; Item itemEndl lf; Item itemTag "p"] twoAttrs.
Proof.
  eapply (reaches_next _ 4); [vm_compute; reflexivity | reflexivity |].
  eapply (reaches_next _ 4); [vm_compute; reflexivity | reflexivity |].
  eapply (reaches_next _ 4); [vm_compute; reflexivity | reflexivity |].
  apply reaches_here.
Qed.

(** **** The states that scan up to a delimiter *)

Lemma stops_ascii (f : stateFn) (c : ascii) :
  stops f c = true -> (utf8.byte c < 128)%Z.
Proof.
  unfold stops, isNewline, same.
  destruct f; try discriminate; intros H;
    repeat (apply orb_true_iff in H as [H|H]);
    apply Ascii.eqb_eq in H; subst; reflexivity.
Qed.

(** What the head of the input at start lets lexTag and lexText do. *)
Lemma head_tag (l : lexer) :
  head lexTag (Strings.drop (start l) (input l)) = true ->
  exists c,
    Strings.at_ (input l) (start l) = Ret c /\
    same c "." = false /\ same c "#" = false /\
    same c sp || same c tab = false /\ same c "|" = false /\
    same c cr || same c nl = false /\
    Strings.from (input l) (start l) = Ret (Strings.drop (start l) (input l)) /\
    Strings.HasPrefix (Strings.drop (start l) (input l)) Comment = false /\
    Strings.HasPrefix (Strings.drop (start l) (input l)) docTypeShort
    || Strings.HasPrefix (Strings.drop (start l) (input l)) docTypeLong = false /\
    start l < Strings.len (input l).
Proof.
  intros H. destruct (Strings.drop (start l) (input l)) as [|c t] eqn:Hd;
    [discriminate|].
  pose proof (str_drop_lt _ _ _ _ Hd) as Hlt.
  cbn [head] in H.
  apply andb_true_iff in H as [H H3]. apply andb_true_iff in H as [H1 H2].
  apply negb_true_iff in H1, H2, H3.
  repeat (apply orb_false_iff in H1 as [H1 ?]).
  exists c. split; [eapply at_drop, Hd|].
  rewrite from_drop, Hd by lia.
  repeat split; auto; apply orb_false_iff; auto.
Qed.

Lemma head_text (l : lexer) :
  head lexText (Strings.drop (start l) (input l)) = true ->
  unexpected nl l = Ret false /\ unexpected cr l = Ret false.
Proof.
  intros H. destruct (Strings.drop (start l) (input l)) as [|c t] eqn:Hd;
    [discriminate|].
  cbn [head] in H. apply negb_true_iff, orb_false_iff in H as [H1 H2].
  unfold unexpected. rewrite (at_drop _ _ _ _ Hd). cbn [mbind result_bind].
  rewrite H1, H2. auto.
Qed.

Ltac tag_switch l Hhead :=
  let c := fresh "c" in
  let Hat := fresh in let H1 := fresh in let H2 := fresh in let H3 := fresh in
  let H4 := fresh in let H5 := fresh in let Hfrom := fresh in
  let H6 := fresh in let H7 := fresh in
  destruct (head_tag l Hhead) as
    (c & Hat & H1 & H2 & H3 & H4 & H5 & Hfrom & H6 & H7 & ?);
  unfold lexTag_fn; rewrite Hat; cbn [mbind result_bind];
  rewrite H1, H2, H3, H4, H5; cbv iota;
  rewrite Hfrom; cbn [mbind result_bind]; rewrite H6, H7; cbv iota.

Ltac text_switch l Hhead :=
  let H1 := fresh in let H2 := fresh in
  destruct (head_text l Hhead) as [H1 H2];
  unfold lexText_fn; rewrite H1; cbn [mbind result_bind mret result_ret];
  rewrite H2; cbn [mbind result_bind mret result_ret]; cbv iota.

(** One call before the end of the run: the scanner moves on by one
    rune and stays in its state. *)
Lemma scan_step (n : nat) (f : stateFn) (l : lexer) (e : nat) :
  scanning f = true ->
  head f (Strings.drop (start l) (input l)) = true ->
  runUpTo (stops f) l e -> pos l < e ->
  exists w, call n f l = Ret (movedTo l (pos l + w) w, Some f) /\
            1 <= w /\ pos l + w <= e.
Proof.
  intros Hf Hhead Hrun Hlt.
  destruct (peek_in_run (stops f) l e (stops_ascii f) Hrun Hlt)
    as (r & w & Hpeek & Hnext & Hr & Heof & Hw1 & Hwe).
  exists w. split; [|auto].
  destruct f; try discriminate Hf; cbn [call].
  - tag_switch l Hhead. unfold go. rewrite Hpeek, Heof.
    rewrite (Hr sp), (Hr "("%char), (Hr "."%char), (Hr "#"%char), (Hr nl), (Hr cr)
      by reflexivity.
    cbn [orb]. cbv iota. rewrite Hnext. reflexivity.
  - unfold lexId_fn, go. rewrite Hpeek, Heof.
    rewrite (Hr sp), (Hr "("%char), (Hr "."%char), (Hr nl), (Hr cr) by reflexivity.
    cbn [orb]. cbv iota. rewrite Hnext. reflexivity.
  - unfold lexClass_fn, go. rewrite Hpeek, Heof.
    rewrite (Hr sp), (Hr "("%char), (Hr nl), (Hr cr) by reflexivity.
    cbn [orb]. cbv iota. rewrite Hnext. reflexivity.
  - text_switch l Hhead. unfold go.
    rewrite Hpeek, Heof, (Hr nl), (Hr cr) by reflexivity.
    cbn [orb]. cbv iota. rewrite Hnext. reflexivity.
  - unfold lexComment_fn, go. rewrite Hpeek, Heof.
    rewrite (Hr nl), (Hr cr) by reflexivity.
    cbn [orb]. cbv iota. rewrite Hnext. reflexivity.
Qed.

Ltac runes :=
  repeat match goal with
  | |- context [isr (chr ?a) ?b] =>
    let v := eval vm_compute in (isr (chr a) b) in change (isr (chr a) b) with v
  | |- context [isr eof ?b] =>
    let v := eval vm_compute in (isr eof b) in change (isr eof b) with v
  | |- context [(chr ?a =? eof)%Z] =>
    let v := eval vm_compute in (chr a =? eof)%Z in change (chr a =? eof)%Z with v
  | |- context [(eof =? eof)%Z] => change (eof =? eof)%Z with true
  end; cbn [orb]; cbv iota.

(** The call at the end of the run: the item of the run is sent. *)
Lemma scan_end (n : nat) (f : stateFn) (l : lexer) (e : nat) :
  scanning f = true ->
  head f (Strings.drop (start l) (input l)) = true ->
  runUpTo (stops f) l e -> pos l = e -> items l = [] -> start l <= e ->
  exists L s,
    call n f l = Ret (L, Some s) /\
    items L = [Item (kind f) (lexeme l e)] /\ input L = input l /\
    ((e = Strings.len (input l) /\ s = lexEOF /\ start L = e /\ pos L = e) \/
     (exists c, String.get e (input l) = Some c /\ stops f c = true /\
                s = goesTo c /\ pos L = S e /\
                start L = if isTag f && negb (isNewline c) then S e else e)).
Proof.
  intros Hf Hhead Hrun Hp Hq Hs.
  assert (Hle : e <= Strings.len (input l)) by (destruct Hrun as (_ & ? & _); exact H).
  assert (Hemit : forall t w, emit t (set_width l w) =
            Ret (set_start (set_items (set_width l w) [Item t (lexeme l e)]) e)).
  { intros t w. rewrite emit_lexeme.
    - destruct l as [nm inp ld rd st p s0 wd q]; cbn in *. subst. reflexivity.
    - destruct l; cbn in *; lia.
    - destruct l; cbn in *; lia.
    - destruct l as [nm inp ld rd st p s0 wd q]; cbn in *. subst. cbn.
      unfold chanCap. lia. }
  destruct (peek_at_end (stops f) l e (stops_ascii f) Hrun Hp)
    as [(He & Hpeek) | (c & Hg & Hc & Hlt & Hpeek & Hnext)].
  - (* the end of the input *)
    destruct f; try discriminate Hf; cbn [call].
    + tag_switch l Hhead. rewrite Hpeek. runes.
      destruct (Nat.ltb_spec (start (set_width l 0)) (pos (set_width l 0)))
        as [_|Hge]; [|destruct l; cbn in *; lia].
      rewrite Hemit. cbn [mbind result_bind]. unfold go.
      eexists _, _. split; [reflexivity|].
      destruct l; cbn in *. repeat split. left. auto.
    + unfold lexId_fn. rewrite Hpeek. runes.
      rewrite Hemit. cbn [mbind result_bind]. unfold go.
      eexists _, _. split; [reflexivity|].
      destruct l; cbn in *. repeat split. left. auto.
    + unfold lexClass_fn. rewrite Hpeek. runes.
      rewrite Hemit. cbn [mbind result_bind]. unfold go.
      eexists _, _. split; [reflexivity|].
      destruct l; cbn in *. repeat split. left. auto.
    + text_switch l Hhead. rewrite Hpeek. runes.
      rewrite Hemit. cbn [mbind result_bind]. unfold go.
      eexists _, _. split; [reflexivity|].
      destruct l; cbn in *. repeat split. left. auto.
    + unfold lexComment_fn. rewrite Hpeek. runes.
      rewrite Hemit. cbn [mbind result_bind]. unfold go.
      eexists _, _. split; [reflexivity|].
      destruct l; cbn in *. repeat split. left. auto.
  - (* a delimiter *)
    assert (Hn : forall t, snd (next (set_start (set_items (set_width l 1)
                                [Item t (lexeme l e)]) e)) =
                 movedTo (set_start (set_items (set_width l 1)
                                [Item t (lexeme l e)]) e) (S e) 1).
    { intros t. apply Hnext; destruct l; cbn in *; auto. }
    assert (Hcases : stops f c = true) by exact Hc.
    destruct f; try discriminate Hf; cbn [call];
      unfold stops, isNewline, same in Hcases;
      repeat (apply orb_true_iff in Hcases as [Hcases|Hcases]);
      apply Ascii.eqb_eq in Hcases; subst c.
    all: try (tag_switch l Hhead).
    all: try (text_switch l Hhead).
    all: unfold lexId_fn, lexClass_fn, lexComment_fn.
    all: rewrite Hpeek; runes.
    all: rewrite Hemit; cbn [mbind result_bind]; unfold go; rewrite Hn.
    all: eexists _, _; (split; [reflexivity|]).
    all: destruct l as [nm inp ld rd st p s0 wd q]; cbn in *.
    all: repeat split.
    all: right; eexists; (split; [exact Hg|]); repeat split.
Qed.

(** A state that scans up to a delimiter hands the run out as one
    item. *)
Lemma scan_run (f : stateFn) (k : nat) : forall (l : lexer) (e : nat),
  scanning f = true ->
  head f (Strings.drop (start l) (input l)) = true ->
  state l = Some f -> items l = [] -> start l <= pos l ->
  runUpTo (stops f) l e -> e - pos l <= k ->
  exists l',
    nextItem (S (S k)) l = Ret (Item (kind f) (lexeme l e), l') /\
    items l' = [] /\ input l' = input l /\
    ((e = Strings.len (input l) /\ state l' = Some lexEOF /\
      start l' = e /\ pos l' = e) \/
     (exists c, String.get e (input l) = Some c /\ stops f c = true /\
                state l' = Some (goesTo c) /\ pos l' = S e /\
                start l' = if isTag f && negb (isNewline c) then S e else e)).
Proof.
  induction k as [|k IH]; intros l e Hf Hhead Hs Hq Hsp Hrun Hk.
  - assert (Hp : pos l = e) by (destruct Hrun as (? & _); lia).
    destruct (scan_end 1 f l e Hf Hhead Hrun Hp Hq ltac:(lia))
      as (L & s & Hcall & HqL & HiL & Hcase).
    exists (set_items (set_state L (Some s)) []).
    split.
    { rewrite (nextItem_step _ _ f) by assumption.
      rewrite Hcall. cbn [mbind result_bind].
      apply nextItem_recv. destruct L; exact HqL. }
    destruct L as [nm inp ld rd st p s0 wd q]; cbn in *.
    repeat split; auto.
    destruct Hcase as [(? & -> & ? & ?) | (c & ? & ? & -> & ? & ?)];
      [left | right; exists c]; auto.
  - destruct (Nat.eq_dec (pos l) e) as [Hp | Hne].
    + destruct (IH l e Hf Hhead Hs Hq Hsp Hrun ltac:(lia)) as (l' & Hn & Hrest).
      exists l'. split; [|exact Hrest].
      apply (nextItem_mono (S (S k))); [exact Hn | lia].
    + assert (Hlt : pos l < e) by (destruct Hrun as (? & _); lia).
      destruct (scan_step (S (S k)) f l e Hf Hhead Hrun Hlt) as (w & Hcall & Hw1 & Hwe).
      set (l2 := movedTo l (pos l + w) w) in *.
      assert (Hl2 : set_state l2 (Some f) = l2)
        by (unfold l2; destruct l; cbn in *; subst; reflexivity).
      destruct (IH l2 e Hf) as (l' & Hn & Hq' & Hi' & Hcase).
      { unfold l2. destruct l; exact Hhead. }
      { unfold l2. destruct l; exact Hs. }
      { unfold l2. destruct l; exact Hq. }
      { unfold l2. destruct l; cbn in *; lia. }
      { unfold l2. apply runUpTo_moved; [exact Hrun | lia | exact Hwe]. }
      { unfold l2. destruct l; cbn in *; lia. }
      exists l'. split.
      { rewrite (nextItem_step _ _ f) by assumption.
        rewrite Hcall. cbn [mbind result_bind]. rewrite Hl2.
        unfold l2 in Hn at 2. rewrite lexeme_moved in Hn. exact Hn. }
      replace (input l2) with (input l) in * by (unfold l2; destruct l; reflexivity).
      auto.
Qed.

Lemma scan_line (f : stateFn) (l : lexer) (body rest : string) :
  scanning f = true ->
  state l = Some f -> items l = [] ->
  start l <= pos l -> pos l <= Strings.len (input l) ->
  head f (Strings.drop (start l) (input l)) = true ->
  Strings.drop (pos l) (input l) = body +:+ rest ->
  noneOf (stops f) body = true ->
  endsRun (stops f) rest ->
  exists l',
    (forall fuel, String.length body + 2 <= fuel ->
       nextItem fuel l = Ret (Item (kind f) (lexeme l (pos l) +:+ body), l')) /\
    items l' = [] /\ input l' = input l /\
    behindRun f (pos l + String.length body) rest l'.
Proof.
  intros Hf Hs Hq Hsp Hpl Hhead Hd Hbody Hrest.
  set (e := pos l + String.length body).
  assert (Hrun : runUpTo (stops f) l e /\
                 match rest with
                 | EmptyString => e = Strings.len (input l)
                 | String c _ => String.get e (input l) = Some c
                 end).
  { destruct rest as [|c t].
    - rewrite str_app_nil_r in Hd.
      destruct (run_of_tail (stops f) l body Hd Hpl Hbody) as [H1 H2]. auto.
    - destruct (run_of_text (stops f) l body c t Hd Hbody Hrest) as (H1 & H2 & _).
      auto. }
  destruct Hrun as [Hrun Hat].
  destruct (scan_run f (String.length body) l e Hf Hhead Hs Hq Hsp Hrun)
    as (l' & Hn & Hq' & Hi' & Hcase).
  { unfold e. lia. }
  unfold e in Hn. rewrite (lexeme_app l body rest Hsp Hd) in Hn.
  exists l'. split; [|split; [exact Hq' | split; [exact Hi'|]]].
  - intros fuel Hfuel. apply (nextItem_mono (S (S (String.length body)))); [exact Hn | lia].
  - unfold behindRun. fold e. destruct rest as [|c t].
    + destruct Hcase as [(_ & ? & ? & ?) | (c & Hg & _)]; [auto|].
      apply get_lt in Hg. lia.
    + destruct Hcase as [(He & _) | (c' & Hg & _ & ? & ? & ?)].
      * apply get_lt in Hat. lia.
      * assert (c' = c) by congruence. subst c'. auto.
Qed.

(** lexTag, lexId, lexClass, lexText and lexComment hand out, as one
    item of their type, the input from start up to the first of their
    delimiters behind pos, or up to the end of the input, and leave the
    scanner behind the delimiter in the state that the delimiter asks
    for, or in lexEOF.  For lexId a point is a delimiter and a hash is
    not; for lexClass neither is; a parenthesis, a blank and a newline
    are for lexTag, lexId and lexClass. *)
Theorem scans_to_delimiter (f : stateFn) (l : lexer) (body rest : string) :
  scanning f = true ->
  state l = Some f -> items l = [] ->
  start l <= pos l -> pos l <= Strings.len (input l) ->
  head f (Strings.drop (start l) (input l)) = true ->
  Strings.drop (pos l) (input l) = body +:+ rest ->
  noneOf (stops f) body = true ->
  endsRun (stops f) rest ->
  exists l',
    (forall fuel, String.length body + 2 <= fuel ->
       nextItem fuel l = Ret (Item (kind f) (lexeme l (pos l) +:+ body), l')) /\
    items l' = [] /\ input l' = input l /\
    behindRun f (pos l + String.length body) rest l'.
Proof. exact (scan_line f l body rest). Qed.

Lemma classLexer_reached :
  reaches (lex "name" classText "" "") [Item itemTag "a"] classLexer.
Proof.
  eapply (reaches_next _ 4); [vm_compute; reflexivity | reflexivity |].
  apply reaches_here.
Qed.

Lemma scans_to_delimiter_witness :
  exists l',
    (forall fuel, String.length "b.c" + 2 <= fuel ->
       nextItem fuel classLexer =
       Ret (Item itemClass (lexeme classLexer (pos classLexer) +:+ "b.c"), l')) /\
    items l' = [] /\ input l' = classText /\
    behindRun lexClass (2 + String.length "b.c") " d" l'.
Proof.
  refine (scans_to_delimiter lexClass classLexer "b.c" " d" _ _ _ _ _ _ _ _ _).
  - reflexivity.
  - reflexivity.
  - reflexivity.
  - vm_compute. lia.
  - vm_compute. lia.
  - reflexivity.
  - reflexivity.
  - reflexivity.
  - reflexivity.
Defined.

(** **** A line that begins with a tag name *)

Lemma head_tag_first (s : string) :
  head lexTag s = true ->
  exists c t, s = String c t /\ isLineChar c = false.
Proof.
  destruct s as [|c t]; [discriminate|]. cbn [head]. intros H.
  apply andb_true_iff in H as [H _]. apply andb_true_iff in H as [H _].
  apply negb_true_iff in H. exists c, t. split; [reflexivity|].
  unfold isLineChar.
  repeat (apply orb_false_iff in H as [H ?]).
  repeat (apply orb_false_iff; split); assumption.
Qed.

(** From the states of a line start the scanner comes to lexTag
    without an item and without a move if the line begins with a tag
    name. *)
Lemma to_lexTag (l : lexer) (k : nat) (r : item * lexer) :
  atLineStart (state l) -> items l = [] ->
  head lexTag (Strings.drop (start l) (input l)) = true ->
  (forall fuel, k <= fuel -> nextItem fuel (set_state l (Some lexTag)) = Ret r) ->
  forall fuel, k + 2 <= fuel -> nextItem fuel l = Ret r.
Proof.
  intros Hs Hq Hhead Htag fuel Hfuel.
  destruct (head_tag_first _ Hhead) as (c & t & Hd & Hc).
  unfold isLineChar in Hc.
  repeat (apply orb_false_iff in Hc as [Hc ?]).
  assert (Hnl : lexNewLine_fn l = Ret (l, Some lexIndent)).
  { unfold lexNewLine_fn. rewrite (at_drop _ _ _ _ Hd). cbn [mbind result_bind].
    replace (same c cr || same c nl) with false
      by (symmetry; apply orb_false_iff; auto).
    reflexivity. }
  assert (Hin : forall l', input l' = input l -> start l' = start l ->
                  lexIndent_fn l' = Ret (l', Some lexTag)).
  { intros l' Hi' Hs'. unfold lexIndent_fn. rewrite Hi', Hs', (at_drop _ _ _ _ Hd).
    cbn [mbind result_bind].
    replace (same c tab) with false by auto.
    cbv iota. cbn [mbind result_bind].
    replace (same c sp) with false by auto. reflexivity. }
  assert (Hss : forall s s', set_state (set_state l s) s' = set_state l s')
    by (intros; destruct l; reflexivity).
  destruct Hs as [Hs|[Hs|Hs]].
  - destruct fuel as [|[|n]]; [lia..|].
    rewrite (nextItem_step _ _ lexNewLine) by assumption.
    cbn [call]. rewrite Hnl. cbn [mbind result_bind].
    rewrite (nextItem_step _ _ lexIndent) by (destruct l; (exact Hq || reflexivity)).
    cbn [call]. rewrite Hin by (destruct l; reflexivity).
    cbn [mbind result_bind]. rewrite Hss. apply Htag. lia.
  - destruct fuel as [|n]; [lia|].
    rewrite (nextItem_step _ _ lexIndent) by assumption.
    cbn [call]. rewrite Hin by reflexivity.
    cbn [mbind result_bind]. apply Htag. lia.
  - rewrite <- (set_state_same l _ Hs). apply Htag. lia.
Qed.

(** At the start of a line, a line that begins with a tag name gives
    the name as one tag item.  pos may be at start (as at the start of
    the input) or ahead of it by the bytes [first] that the scanner has
    read already: the one rune, of one byte or more, that lexNewLine and
    lexIndent leave behind start, for one.  The name goes from the
    start of the line up to the first blank, parenthesis, point, hash
    or newline behind pos, or to the end of the input, and the
    delimiter decides the state that follows. *)
Theorem tag_line (l : lexer) (first name rest : string) :
  atLineStart (state l) -> items l = [] ->
  pos l = start l + String.length first ->
  Strings.drop (start l) (input l) = first +:+ name +:+ rest ->
  head lexTag (first +:+ name +:+ rest) = true ->
  noneOf (stops lexTag) name = true ->
  endsRun (stops lexTag) rest ->
  exists l',
    (forall fuel, String.length name + 4 <= fuel ->
       nextItem fuel l = Ret (Item itemTag (first +:+ name), l')) /\
    items l' = [] /\ input l' = input l /\
    behindRun lexTag (start l + String.length (first +:+ name)) rest l'.
Proof.
  intros Hs Hq Hp Hd Hhead Hname Hrest.
  set (l1 := set_state l (Some lexTag)).
  assert (Hl1 : input l1 = input l /\ start l1 = start l /\ pos l1 = pos l /\
                items l1 = items l /\ state l1 = Some lexTag)
    by (unfold l1; destruct l; cbn; auto).
  destruct Hl1 as (Hi1 & Hs1 & Hp1 & Hq1 & Hst1).
  assert (Hlen : start l + String.length (first +:+ name +:+ rest)
                 = Strings.len (input l)).
  { destruct (head_tag_first _ Hhead) as (c & t & Hct & _).
    rewrite <- Hd in Hct. pose proof (str_drop_lt _ _ _ _ Hct) as Hlt.
    rewrite <- Hd, str_length_drop. unfold Strings.len in *. lia. }
  rewrite str_length_app in Hlen.
  assert (Hd1 : Strings.drop (pos l1) (input l1) = name +:+ rest).
  { rewrite Hp1, Hi1, Hp, str_drop_add, Hd. apply str_drop_app. }
  assert (Hlex : lexeme l1 (pos l1) = first).
  { unfold lexeme. rewrite Hp1, Hs1, Hi1, Hp.
    replace (start l + String.length first - start l) with (String.length first)
      by lia.
    rewrite Hd. apply str_take_app. }
  assert (Hsp1 : start l1 <= pos l1) by lia.
  assert (Hpl1 : pos l1 <= Strings.len (input l1)) by (rewrite Hp1, Hi1; lia).
  assert (Hhead1 : head lexTag (Strings.drop (start l1) (input l1)) = true)
    by (rewrite Hs1, Hi1, Hd; exact Hhead).
  destruct (scan_line lexTag l1 name rest eq_refl Hst1 (eq_trans Hq1 Hq)
              Hsp1 Hpl1 Hhead1 Hd1 Hname Hrest)
    as (l' & Hn & Hq' & Hi' & Hbehind).
  rewrite Hlex in Hn.
  exists l'. split; [|split; [exact Hq' | split]].
  - intros fuel Hfuel.
    apply (to_lexTag l (String.length name + 2));
      [exact Hs | exact Hq | rewrite Hd; exact Hhead | exact Hn | lia].
  - congruence.
  - replace (start l + String.length (first +:+ name))
      with (pos l1 + String.length name); [exact Hbehind|].
    rewrite Hp1, Hp, str_length_app. lia.
Qed.

Lemma tagLineLexer_reached :
  reaches (lex "name" tagLineText "" "") [Item itemTag "a"; Item itemEndl lf]
          tagLineLexer.
Proof.
  eapply (reaches_next _ 4); [vm_compute; reflexivity | reflexivity |].
  eapply (reaches_next _ 4); [vm_compute; reflexivity | reflexivity |].
  apply reaches_here.
Qed.

Lemma tag_line_witness :
  exists l',
    (forall fuel, String.length "t" + 4 <= fuel ->
       nextItem fuel tagLineLexer = Ret (Item itemTag (eacute +:+ "t"), l')) /\
    items l' = [] /\ input l' = tagLineText /\
    behindRun lexTag (2 + 3) "#x" l'.
Proof.
  refine (tag_line tagLineLexer eacute "t" "#x" _ _ _ _ _ _ _).
  - left. reflexivity.
  - reflexivity.
  - reflexivity.
  - reflexivity.
  - reflexivity.
  - reflexivity.
  - reflexivity.
Defined.

(** **** Doctype lines *)

Lemma index_newline (a rest : string) :
  has nl a = false ->
  String.index 0 (String nl EmptyString) (a +:+ String nl rest)
  = Some (String.length a).
Proof.
  induction a as [|c a IH]; intros Ha.
  - cbn. destruct (ascii_dec nl nl); [|congruence]. destruct rest; reflexivity.
  - cbn [has] in Ha. apply orb_false_iff in Ha as [Hc Ha].
    rewrite str_app_cons. cbn [String.index String.prefix].
    destruct (ascii_dec nl c) as [<-|Hne].
    + unfold same in Hc. rewrite Ascii.eqb_refl in Hc. discriminate.
    + rewrite (IH Ha). reflexivity.
Qed.

Lemma prefix_app (p a b : string) :
  String.prefix p a = true -> String.prefix p (a +:+ b) = true.
Proof.
  revert a. induction p as [|c p IH]; intros a H;
    [destruct (a +:+ b); reflexivity|].
  destruct a as [|d a]; [discriminate|]. rewrite str_app_cons.
  cbn [String.prefix] in *. destruct (ascii_dec c d); [|discriminate].
  apply IH, H.
Qed.

Lemma str_drop_app_le (a b : string) : forall n,
  n <= String.length a -> Strings.drop n (a +:+ b) = Strings.drop n a +:+ b.
Proof.
  induction a as [|c a IH]; intros [|n] Hn; cbn in Hn; try reflexivity; try lia.
  rewrite str_app_cons. cbn [Strings.drop]. apply IH. lia.
Qed.

Lemma to_lexDocType (l : lexer) (r : result (item * lexer)) :
  atLineStart (state l) -> items l = [] ->
  (Strings.HasPrefix (Strings.drop (start l) (input l)) docTypeShort = true \/
   Strings.HasPrefix (Strings.drop (start l) (input l)) docTypeLong = true) ->
  (forall fuel, 1 <= fuel -> nextItem fuel (set_state l (Some lexDocType)) = r) ->
  forall fuel, 4 <= fuel -> nextItem fuel l = r.
Proof.
  intros Hs Hq Hpre Hdoc fuel Hfuel.
  assert (Hss : forall s s', set_state (set_state l s) s' = set_state l s')
    by (intros; destruct l; reflexivity).
  assert (Hq' : forall s, items (set_state l s) = [])
    by (intros; destruct l; exact Hq).
  assert (Hst : forall s, state (set_state l s) = s)
    by (intros; destruct l; reflexivity).
  assert (Hpre' : forall s,
    Strings.HasPrefix (Strings.drop (start (set_state l s)) (input (set_state l s)))
      docTypeShort = true \/
    Strings.HasPrefix (Strings.drop (start (set_state l s)) (input (set_state l s)))
      docTypeLong = true) by (intros; destruct l; exact Hpre).
  assert (Htag : forall n, 2 <= n -> nextItem n (set_state l (Some lexTag)) = r).
  { intros [|n] Hn; [lia|]. rewrite (nextItem_step _ _ lexTag) by auto.
    cbn [call]. rewrite lexTag_doctype by auto. cbn [mbind result_bind].
    rewrite Hss. apply Hdoc. lia. }
  assert (Hind : forall n, 3 <= n -> nextItem n (set_state l (Some lexIndent)) = r).
  { intros [|n] Hn; [lia|]. rewrite (nextItem_step _ _ lexIndent) by auto.
    cbn [call]. rewrite lexIndent_doctype by auto. cbn [mbind result_bind].
    rewrite Hss. apply Htag. lia. }
  destruct Hs as [Hs|[Hs|Hs]]; rewrite <- (set_state_same l _ Hs).
  - destruct fuel as [|n]; [lia|]. rewrite (nextItem_step _ _ lexNewLine) by auto.
    cbn [call]. rewrite lexNewLine_doctype by auto. cbn [mbind result_bind].
    rewrite Hss. apply Hind. lia.
  - apply Hind. lia.
  - apply Htag. lia.
Qed.

(** A doctype line with its newline: lexDocType skips the first four
    or eight bytes of the line, as the input at pos has it, and hands
    the rest of the line out as the doctype; a line shorter than what
    it skips makes emit slice the input out of range. *)
Theorem doctype_line (l : lexer) (line rest : string) :
  atLineStart (state l) -> items l = [] ->
  start l <= pos l -> pos l <= start l + String.length line ->
  Strings.drop (start l) (input l) = line +:+ String nl rest ->
  has nl line = false ->
  (Strings.HasPrefix line docTypeShort = true \/
   Strings.HasPrefix line docTypeLong = true) ->
  (docTypePre l <= String.length line ->
   exists l',
     (forall fuel, 4 <= fuel ->
        nextItem fuel l =
        Ret (Item itemDoctype (Strings.drop (docTypePre l) line), l')) /\
     items l' = [] /\ state l' = Some lexNewLine /\ input l' = input l /\
     start l' = start l + String.length line /\ pos l' = S (start l') /\
     Strings.drop (start l') (input l') = String nl rest) /\
  (String.length line < docTypePre l ->
   forall fuel, 4 <= fuel ->
     nextItem fuel l =
     Panic (SliceOutOfRange (start l + docTypePre l) (start l + String.length line)
                            (Strings.len (input l)))).
Proof.
  intros Hs Hq Hsp Hpl Hd Hline Hmark.
  set (e := start l + String.length line).
  assert (Hde : Strings.drop e (input l) = String nl rest)
    by (unfold e; rewrite str_drop_add, Hd; apply str_drop_app).
  pose proof (str_drop_lt _ _ _ _ Hde) as Hlt.
  assert (Hdp : Strings.drop (pos l) (input l) =
                Strings.drop (pos l - start l) line +:+ String nl rest).
  { replace (pos l) with (start l + (pos l - start l)) at 1 by lia.
    rewrite str_drop_add, Hd. apply str_drop_app_le. lia. }
  assert (Hidx : Strings.Index (Strings.drop (pos l) (input l)) (String nl EmptyString)
                 = Some (e - pos l)).
  { unfold Strings.Index. rewrite Hdp, index_newline.
    - rewrite str_length_drop. f_equal. unfold e. lia.
    - apply has_drop, Hline. }
  assert (Hmark' :
    Strings.HasPrefix (Strings.drop (start l) (input l)) docTypeShort = true \/
    Strings.HasPrefix (Strings.drop (start l) (input l)) docTypeLong = true).
  { rewrite Hd. unfold Strings.HasPrefix in *.
    destruct Hmark as [H|H]; [left | right]; apply prefix_app, H. }
  (* the call of lexDocType *)
  set (L := set_state l (Some lexDocType)).
  assert (HL : input L = input l /\ start L = start l /\ pos L = pos l /\
               items L = [] /\ state L = Some lexDocType /\
               docTypePre L = docTypePre l)
    by (unfold L, docTypePre; destruct l; cbn in *; auto 10).
  destruct HL as (HiL & HsL & HpL & HqL & HstL & HpreL).
  set (pre := docTypePre l) in *.
  set (l2 := set_pos (set_start L (start L + pre)) e).
  assert (Hfn : lexDocType_fn L =
                l3 ← emit itemDoctype l2; go (snd (next l3)) lexNewLine).
  { unfold lexDocType_fn.
    rewrite HiL, HpL, from_drop by (unfold Strings.len in *; lia).
    cbn [mbind result_bind]. rewrite Hidx. cbv zeta.
    change (if Strings.HasPrefix (Strings.drop (pos l) (input l)) "!!!"
            then Strings.len "!!! " else Strings.len "doctype ") with pre.
    replace (pos (set_start L (start L + pre)) + (e - pos l)) with e
      by (destruct L; cbn in *; lia).
    reflexivity. }
  assert (Hl2 : input l2 = input l /\ start l2 = start l + pre /\ pos l2 = e /\
                items l2 = [])
    by (unfold l2; destruct L; cbn in *; subst; auto).
  destruct Hl2 as (Hi2 & Hs2 & Hp2 & Hq2).
  split.
  - (* the line is long enough *)
    intros Hpre.
    assert (He : emit itemDoctype l2 =
              Ret (set_start (set_items l2 [Item itemDoctype (Strings.drop pre line)]) e)).
    { assert (Hlex : lexeme l2 e = Strings.drop pre line).
      { unfold lexeme. rewrite Hs2, Hi2, str_drop_add, Hd.
        rewrite str_drop_app_le by exact Hpre.
        replace (e - (start l + pre)) with (String.length (Strings.drop pre line))
          by (rewrite str_length_drop; unfold e; lia).
        apply str_take_app. }
      rewrite emit_lexeme.
      - rewrite Hq2, Hp2, Hlex. reflexivity.
      - rewrite Hs2, Hp2. unfold e. lia.
      - rewrite Hp2, Hi2. lia.
      - rewrite Hq2. cbn. unfold chanCap. lia. }
    set (l3 := set_start _ e) in He.
    assert (Hn3 : snd (next l3) = movedTo l3 (S e) 1).
    { destruct (peek_char l3 nl) as [_ Hnext].
      - unfold l3. replace (pos (set_start _ e)) with e by (destruct l2; cbn in *; congruence).
        replace (input (set_start _ e)) with (input l) by (destruct l2; cbn in *; congruence).
        rewrite str_get_drop, Hde. reflexivity.
      - reflexivity.
      - rewrite Hnext; reflexivity. }
    exists (set_items (set_state (movedTo l3 (S e) 1) (Some lexNewLine)) []).
    split.
    { apply (to_lexDocType l); [exact Hs | exact Hq | exact Hmark' |].
      intros [|n] Hn; [lia|]. fold L.
      rewrite (nextItem_step _ _ lexDocType) by assumption.
      cbn [call]. rewrite Hfn, He. cbn [mbind result_bind]. unfold go.
      rewrite Hn3. apply nextItem_recv.
      unfold l3. destruct l2; cbn in *. congruence. }
    unfold l3. destruct l2 as [nm inp ld rd st p s0 wd q]; cbn in *. subst.
    repeat split; auto.
  - (* the line is too short *)
    intros Hpre. apply (to_lexDocType l); [exact Hs | exact Hq | exact Hmark' |].
    intros [|n] Hn; [lia|]. fold L.
    rewrite (nextItem_step _ _ lexDocType) by assumption.
    cbn [call]. rewrite Hfn. unfold emit, Strings.slice.
    rewrite Hi2, Hs2, Hp2.
    destruct (Nat.leb_spec (start l + pre) e) as [Hle|_]; [unfold e in Hle; lia|].
    reflexivity.
Qed.

Lemma shortDoctypeLexer_reached :
  reaches (lex "name" shortDoctypeText "" "")
          [Item itemTag "a"; Item itemEndl lf] shortDoctypeLexer.
Proof.
  eapply (reaches_next _ 4); [vm_compute; reflexivity | reflexivity |].
  eapply (reaches_next _ 4); [vm_compute; reflexivity | reflexivity |].
  apply reaches_here.
Qed.

Lemma doctype_line_witness :
  (docTypePre shortDoctypeLexer <= String.length "!!! transitional" ->
   exists l',
     (forall fuel, 4 <= fuel ->
        nextItem fuel shortDoctypeLexer =
        Ret (Item itemDoctype
               (Strings.drop (docTypePre shortDoctypeLexer) "!!! transitional"), l')) /\
     items l' = [] /\ state l' = Some lexNewLine /\ input l' = shortDoctypeText /\
     start l' = 2 + String.length "!!! transitional" /\ pos l' = S (start l') /\
     Strings.drop (start l') (input l') = String nl EmptyString) /\
  (String.length "!!! transitional" < docTypePre shortDoctypeLexer ->
   forall fuel, 4 <= fuel ->
     nextItem fuel shortDoctypeLexer =
     Panic (SliceOutOfRange (2 + docTypePre shortDoctypeLexer)
                            (2 + String.length "!!! transitional")
                            (Strings.len shortDoctypeText))).
Proof.
  refine (doctype_line shortDoctypeLexer "!!! transitional" EmptyString
            _ _ _ _ _ _ _).
  - left. reflexivity.
  - reflexivity.
  - vm_compute. lia.
  - vm_compute. lia.
  - reflexivity.
  - reflexivity.
  - left. reflexivity.
Defined.

(** **** Line starts where pos is not ahead of start *)

(** emit with an empty channel and pos at start. *)
Lemma emit_none (k : itemType) (l : lexer) :
  items l = [] -> pos l = start l -> start l <= Strings.len (input l) ->
  emit k l = Ret (set_items l [Item k EmptyString]).
Proof.
  intros Hq Hp Hs. rewrite emit_lexeme by (rewrite ?Hq; cbn; unfold chanCap; lia).
  rewrite (lexeme_empty l) by congruence.
  destruct l as [nm inp ld rd st p s0 wd q]; cbn in *. subst. reflexivity.
Qed.

(** Where pos is at start, not one rune ahead of it, and a blank, tab or
    newline stands there (at the start of the input, and behind a tag, a
    blank and a newline, and behind the marker of an empty text line),
    the scanner hands out two items for the one character: the first
    with the empty lexeme, the second with the character. *)
Theorem line_char_twice (l : lexer) (c : ascii) (t : string) :
  atLineStart (state l) \/ (state l = Some lexText /\ isNewline c = true) ->
  items l = [] -> pos l = start l ->
  Strings.drop (start l) (input l) = String c t ->
  isLineChar c = true ->
  exists l1,
    (forall fuel, 4 <= fuel ->
       nextItem fuel l = Ret (Item (typ (lineItem c)) EmptyString, l1)) /\
    (forall fuel, 3 <= fuel ->
       nextItem fuel l1 = Ret (lineItem c, afterChar l1 (stateAfter c))) /\
    input l1 = input l /\ start l1 = start l /\ pos l1 = S (start l).
Proof.
  intros Hs Hq Hp Hd Hc.
  pose proof (str_drop_lt _ _ _ _ Hd) as Hlt.
  pose proof (at_drop _ _ _ _ Hd) as Hat.
  assert (Hss : forall s s', set_state (set_state l s) s' = set_state l s')
    by (intros; destruct l; reflexivity).
  assert (Hq' : forall s, items (set_state l s) = [])
    by (intros; destruct l; exact Hq).
  assert (Hst : forall s, state (set_state l s) = s)
    by (intros; destruct l; reflexivity).
  assert (Hd' : forall s, Strings.drop (start (set_state l s)) (input (set_state l s))
                          = String c t) by (intros; destruct l; exact Hd).
  (* the scanner behind the first item *)
  set (l1 := set_items (set_state (snd (next (set_items l [Item (typ (lineItem c)) EmptyString])))
                                  (Some (stateAfter c))) []).
  assert (Hn1 : snd (next (set_items l [Item (typ (lineItem c)) EmptyString])) =
                movedTo (set_items l [Item (typ (lineItem c)) EmptyString])
                        (S (start l)) 1).
  { destruct (peek_char l c) as [_ Hnext].
    - rewrite Hp, str_get_drop, Hd. reflexivity.
    - apply line_char_ascii, Hc.
    - rewrite Hnext by (destruct l; reflexivity). rewrite Hp. reflexivity. }
  (* the call that emits *)
  assert (Hemit : forall n, nextItem (S n) (set_state l (Some (stateAfter c))) =
                            Ret (Item (typ (lineItem c)) EmptyString, l1)).
  { intros n. rewrite (nextItem_step _ _ (stateAfter c)) by auto.
    assert (Hcall : call n (stateAfter c) (set_state l (Some (stateAfter c))) =
              Ret (snd (next (set_items (set_state l (Some (stateAfter c)))
                                        [Item (typ (lineItem c)) EmptyString])),
                   Some (stateAfter c))).
    { assert (He : forall k, emit k (set_state l (Some (stateAfter c))) =
                Ret (set_items (set_state l (Some (stateAfter c))) [Item k EmptyString]))
        by (intros k; apply emit_none; destruct l; cbn in *; (assumption || lia)).
      assert (Hat' : Strings.at_ (input (set_state l (Some (stateAfter c))))
                                 (start (set_state l (Some (stateAfter c)))) = Ret c)
        by (destruct l; exact Hat).
      set (L := set_state l (Some (stateAfter c))) in *.
      clearbody L.
      destruct (line_char_cases c Hc) as [-> | [-> | [-> | ->]]].
      - change (stateAfter sp) with lexIndent. cbn [call]. unfold lexIndent_fn.
        rewrite Hat'. cbn [mbind result_bind].
        change (same sp tab) with false. cbv iota. cbn [mbind result_bind].
        change (same sp sp) with true. cbv iota. rewrite He. reflexivity.
      - change (stateAfter tab) with lexIndent. cbn [call]. unfold lexIndent_fn.
        rewrite Hat'. cbn [mbind result_bind].
        change (same tab tab) with true. cbv iota. rewrite He. reflexivity.
      - change (stateAfter nl) with lexNewLine. cbn [call]. unfold lexNewLine_fn.
        rewrite Hat'. cbn [mbind result_bind].
        change (same nl cr || same nl nl) with true. cbv iota.
        rewrite He. reflexivity.
      - change (stateAfter cr) with lexNewLine. cbn [call]. unfold lexNewLine_fn.
        rewrite Hat'. cbn [mbind result_bind].
        change (same cr cr || same cr nl) with true. cbv iota.
        rewrite He. reflexivity. }
    rewrite Hcall. cbn [mbind result_bind].
    erewrite nextItem_recv.
    - f_equal. f_equal. unfold l1.
      rewrite (next_set_items l), (next_set_items (set_state l _)).
      destruct l as [nm inp ld rd st p s0 wd q]; unfold next; cbn.
      destruct (_ <=? _); [reflexivity|].
      destruct (utf8.DecodeRuneInString _); reflexivity.
    - rewrite next_set_items.
      destruct (snd (next (set_state l (Some (stateAfter c))))); reflexivity. }
  assert (Hl1 : state l1 = Some (stateAfter c) /\ items l1 = [] /\
                input l1 = input l /\ start l1 = start l /\ pos l1 = S (start l)).
  { unfold l1. rewrite Hn1. destruct l; cbn. auto. }
  destruct Hl1 as (Hs1 & Hq1 & Hi1 & Hst1 & Hp1).
  exists l1. split; [|split; [|auto]].
  - (* the calls that lead to the state that emits *)
    assert (Hkind : (isBlank c = true /\ stateAfter c = lexIndent) \/
                    ((c = nl \/ c = cr) /\ stateAfter c = lexNewLine)).
    { destruct (line_char_cases c Hc) as [-> | [-> | [-> | ->]]];
        [left | left | right | right]; split; auto. }
    assert (Hgo : forall st, atLineStart st \/ (st = Some lexText /\ isNewline c = true) ->
              nextItem 3 (set_state l st) =
              Ret (Item (typ (lineItem c)) EmptyString, l1)).
    { intros st [[-> | [-> | ->]] | [-> Hnl]].
      - destruct Hkind as [[Hb Ha] | [Hn Ha]].
        + rewrite (nextItem_step _ _ lexNewLine) by auto.
          cbn [call]. rewrite (lexNewLine_blank _ c t) by auto.
          cbn [mbind result_bind]. rewrite Hss, <- Ha. apply Hemit.
        + apply (nextItem_mono 1); [|lia]. rewrite <- Ha. apply Hemit.
      - destruct Hkind as [[Hb Ha] | [Hn Ha]].
        + apply (nextItem_mono 1); [|lia]. rewrite <- Ha. apply Hemit.
        + rewrite (nextItem_step _ _ lexIndent) by auto.
          cbn [call]. rewrite (lexIndent_newline _ c t) by auto.
          cbn [mbind result_bind]. rewrite Hss.
          rewrite (nextItem_step _ _ lexTag) by auto.
          cbn [call]. rewrite (lexTag_newline _ c t) by auto.
          cbn [mbind result_bind]. rewrite Hss, <- Ha. apply Hemit.
      - destruct Hkind as [[Hb Ha] | [Hn Ha]].
        + apply (nextItem_mono 2); [|lia].
          rewrite (nextItem_step _ _ lexTag) by auto.
          cbn [call]. rewrite (lexTag_blank _ c t) by auto.
          cbn [mbind result_bind]. rewrite Hss, <- Ha. apply Hemit.
        + apply (nextItem_mono 2); [|lia].
          rewrite (nextItem_step _ _ lexTag) by auto.
          cbn [call]. rewrite (lexTag_newline _ c t) by auto.
          cbn [mbind result_bind]. rewrite Hss, <- Ha. apply Hemit.
      - apply (nextItem_mono 2); [|lia].
        rewrite (nextItem_step _ _ lexText) by auto.
        cbn [call]. unfold lexText_fn, unexpected.
        replace (Strings.at_ (input (set_state l (Some lexText)))
                             (start (set_state l (Some lexText)))) with (Ret c)
          by (symmetry; destruct l; exact Hat).
        cbn [mbind result_bind mret result_ret].
        assert (Hst' : stateAfter c = lexNewLine).
        { destruct (newline_cases c Hnl) as [-> | ->]; reflexivity. }
        destruct (newline_cases c Hnl) as [-> | ->].
        + change (same nl nl) with true. cbn [mbind result_bind mret result_ret].
          unfold go. cbn [mbind result_bind]. rewrite Hss. apply Hemit.
        + change (same cr nl) with false. cbn [mbind result_bind mret result_ret].
          change (same cr cr) with true. cbn [mbind result_bind mret result_ret].
          unfold go. cbn [mbind result_bind]. rewrite Hss. apply Hemit. }
    intros fuel Hfuel. apply (nextItem_mono 3); [|lia].
    rewrite <- (set_state_same l (state l) eq_refl) at 1. apply Hgo, Hs.
  - intros fuel Hfuel. apply (nextItem_mono 3); [|lia].
    apply (line_char_item l1 c t); auto.
    + rewrite Hs1. unfold stateAfter. destruct (isBlank c).
      * right; left; reflexivity.
      * left; reflexivity.
    + congruence.
    + rewrite Hst1, Hi1. exact Hd.
Qed.

Lemma line_char_twice_witness :
  exists l1,
    (forall fuel, 4 <= fuel ->
       nextItem fuel blankLineLexer = Ret (Item (typ (lineItem nl)) EmptyString, l1)) /\
    (forall fuel, 3 <= fuel ->
       nextItem fuel l1 = Ret (lineItem nl, afterChar l1 (stateAfter nl))) /\
    input l1 = blankLineText /\ start l1 = 2 /\ pos l1 = 3.
Proof.
  refine (line_char_twice blankLineLexer nl "q" _ _ _ _ _).
  - right. split; reflexivity.
  - reflexivity.
  - reflexivity.
  - reflexivity.
  - reflexivity.
Defined.

Lemma blankLineLexer_reached :
  reaches (lex "name" blankLineText "" "") [Item itemTag "p"] blankLineLexer.
Proof.
  eapply (reaches_next _ 4); [vm_compute; reflexivity | reflexivity |].
  apply reaches_here.
Qed.

(** **** The input that ends in blanks or newlines *)

(** At the end of the input the states of a line start index the input
    at its length. *)
Lemma line_start_at_end (l : lexer) (n : nat) :
  atLineStart (state l) -> items l = [] ->
  Strings.drop (start l) (input l) = EmptyString ->
  nextItem (S n) l = Panic (IndexOutOfRange (start l) (Strings.len (input l))).
Proof.
  intros Hs Hq Hd.
  assert (Hat : Strings.at_ (input l) (start l) =
                Panic (IndexOutOfRange (start l) (Strings.len (input l)))).
  { unfold Strings.at_. rewrite str_get_drop, Hd. reflexivity. }
  destruct Hs as [Hs|[Hs|Hs]]; rewrite (nextItem_step _ _ _ Hq Hs); cbn [call].
  - unfold lexNewLine_fn. rewrite Hat. reflexivity.
  - unfold lexIndent_fn. rewrite Hat. reflexivity.
  - unfold lexTag_fn. rewrite Hat. reflexivity.
Qed.

Lemma scan_reaches_panic (l : lexer) (its : list item) (l2 : lexer) (p : panic) :
  reaches l its l2 ->
  (forall n, nextItem (S n) l2 = Panic p) ->
  exists f1, forall fuel, f1 <= fuel -> scan fuel l = (its, Panicked p).
Proof.
  intros Hr Hp.
  destruct (scan_reaches l its l2 Hr 2 [] (Panicked p)) as (f1 & H1).
  - intros [|[|fuel]] Hf; try lia. rewrite scan_S, Hp. reflexivity.
  - exists f1. intros fuel Hf. rewrite H1 by exact Hf. rewrite app_nil_r. reflexivity.
Qed.

Lemma reaches_app (l : lexer) (its : list item) (l1 : lexer) :
  reaches l its l1 ->
  forall its' l2, reaches l1 its' l2 -> reaches l (its ++ its') l2.
Proof.
  induction 1 as [l|l n it l1 its l2 Hn Ht _ IH]; intros its' l3 H2.
  - exact H2.
  - cbn [app]. eapply reaches_next; eauto.
Qed.

(** When a scan comes, at the start of a line and with pos one byte
    ahead of start, to where only blanks, tabs, newlines and carriage
    returns are left of the input, it ends in a panic: behind the items
    handed out so far it hands out one item for each of these
    characters and then indexes the input at its length.  (A scan that
    hangs, sleeps on the channel or panics before it gets there is
    another matter.) *)
Theorem trailing_whitespace_panics (name text left right : string)
    (toks : list item) (l : lexer) (ws : string) :
  reaches (lex name text left right) toks l ->
  atLineStart (state l) -> items l = [] -> pos l = S (start l) ->
  lineChars ws = true ->
  Strings.drop (start l) (input l) = ws ->
  exists f0, forall fuel, f0 <= fuel ->
    scan fuel (lex name text left right) =
      (toks ++ lineItems ws,
       Panicked (IndexOutOfRange (Strings.len text) (Strings.len text))).
Proof.
  intros Hr Hs Hq Hp Hws Hd.
  destruct (scanner_inv_pieces text toks l) as (Hi & Hsp & Hpl & _).
  { exact (reaches_inv text _ _ _ Hr [] (lex_inv name text left right)). }
  destruct (line_run ws l EmptyString Hs Hq (fun _ => Hp) Hws)
    as (l' & Hr' & _ & Hs' & Hq' & Hi' & Hst' & Hd').
  { rewrite str_app_nil_r. exact Hd. }
  apply (scan_reaches_panic _ _ l'); [eapply reaches_app; eauto|].
  intros n. rewrite (line_start_at_end l' n Hs' Hq' Hd').
  assert (Hlen : start l' = Strings.len text).
  { pose proof (str_length_drop (input l) (start l)) as Hl.
    rewrite Hd in Hl. rewrite Hst', <- Hi. unfold Strings.len.
    pose proof (str_length_drop (input l') (start l')) as Hl'.
    rewrite Hd', Hi', Hst' in Hl'. cbn in Hl'.
    unfold Strings.len in Hpl. rewrite <- Hi in Hpl. lia. }
  rewrite Hlen, Hi', Hi. reflexivity.
Qed.

Lemma oneLineLexer_reached :
  reaches (lex "name" oneLineText "" "") [Item itemTag "a"] oneLineLexer.
Proof.
  eapply (reaches_next _ 4); [vm_compute; reflexivity | reflexivity |].
  apply reaches_here.
Defined.

Lemma trailing_whitespace_panics_witness :
  exists f0, forall fuel, f0 <= fuel ->
    scan fuel (lex "name" oneLineText "" "") =
      ([Item itemTag "a"] ++ lineItems (String nl EmptyString),
       Panicked (IndexOutOfRange (Strings.len oneLineText) (Strings.len oneLineText))).
Proof.
  refine (trailing_whitespace_panics "name" oneLineText "" "" [Item itemTag "a"]
            oneLineLexer (String nl EmptyString) _ _ _ _ _ _).
  - exact oneLineLexer_reached.
  - left. reflexivity.
  - reflexivity.
  - reflexivity.
  - reflexivity.
  - reflexivity.
Defined.

(** **** The state lexEOF *)

Lemma emit_pending (t : itemType) (l l1 : lexer) :
  emit t l = Ret l1 ->
  pos l1 = start l1 /\ length (items l1) = S (length (items l)).
Proof.
  intros H. apply emit_ret in H as (v & _ & _ & ->).
  destruct l as [nm inp ld rd st p s0 wd q]; cbn. rewrite length_app. cbn. lia.
Qed.

Lemma peek_same (l : lexer) (r : Z) (l0 : lexer) :
  peek l = (r, l0) -> pos l0 = pos l /\ start l0 = start l /\ items l0 = items l.
Proof.
  intros H. destruct (peek_spec l) as (w & Hl & _). rewrite H in Hl.
  cbn [snd] in Hl. subst l0. destruct l; auto.
Qed.

Ltac eof_step H :=
  match type of H with
  | (mbind _ (emit ?t ?l)) = Ret _ =>
    let E := fresh "E" in
    let l1 := fresh "l1" in
    destruct (emit t l) as [l1| | |] eqn:E;
    cbn [mbind result_bind] in H; [|discriminate H ..];
    apply emit_pending in E as [? ?]
  end.

Ltac eof_go H :=
  unfold go in H; cbn [mbind result_bind mret result_ret] in H;
  first [discriminate H
        | injection H as <-; split; [congruence|];
          repeat match goal with
          | Hi : items ?a = _, Hl : context [items ?a] |- _ => rewrite Hi in Hl
          end; cbn [length] in *; lia].

(** A state function that is called with the channel empty and returns
    lexEOF leaves nothing pending. *)
Lemma call_pending (n : nat) (f : stateFn) (l l' : lexer) :
  items l = [] -> start l <= pos l ->
  call n f l = Ret (l', Some lexEOF) ->
  pos l' = start l' /\ length (items l') <= 1.
Proof.
  intros Hq Hs H.
  destruct f; cbn [call] in H.
  - (* lexTag *)
    unfold lexTag_fn in H.
    bind_step H. branches H; try eof_step H; try eof_go H.
    bind_step H. branches H; try eof_go H.
    destruct (peek l) as [r l0] eqn:Hpk.
    destruct (peek_same l r l0 Hpk) as (Hp0 & Hs0 & Hq0).
    branches H; try eof_step H; try eof_go H.
    destruct (Nat.ltb_spec (start l0) (pos l0)).
    + eof_step H. eof_go H.
    + cbn [mbind result_bind mret result_ret] in H. unfold go in H.
      injection H as <-. rewrite Hq0, Hq. cbn. lia.
  - (* lexEOF *)
    unfold lexEOF_fn in H. bind_step H. bind_step H. discriminate H.
  - (* lexDocType *)
    unfold lexDocType_fn in H. bind_step H.
    destruct (Strings.Index _ _).
    + cbv zeta in H. eof_step H. eof_go H.
    + unfold errorf in H. bind_step H. discriminate H.
  - unfold lexId_fn in H. destruct (peek l) as [r l0] eqn:Hpk.
    destruct (peek_same l r l0 Hpk) as (Hp0 & Hs0 & Hq0).
    branches H; try eof_step H; eof_go H.
  - unfold lexClass_fn in H. destruct (peek l) as [r l0] eqn:Hpk.
    destruct (peek_same l r l0 Hpk) as (Hp0 & Hs0 & Hq0).
    branches H; try eof_step H; eof_go H.
  - unfold lexText_fn in H. bind_step H. bind_step H.
    destruct (peek l) as [r l0] eqn:Hpk.
    destruct (peek_same l r l0 Hpk) as (Hp0 & Hs0 & Hq0).
    branches H; try eof_step H; eof_go H.
  - unfold lexComment_fn in H. destruct (peek l) as [r l0] eqn:Hpk.
    destruct (peek_same l r l0 Hpk) as (Hp0 & Hs0 & Hq0).
    branches H; try eof_step H; eof_go H.
  - unfold lexAttr_fn in H. bind_step H. bind_step H. eof_go H.
  - unfold lexIndent_fn in H. bind_step H.
    branches H; try eof_step H; eof_go H.
  - unfold lexNewLine_fn in H. bind_step H.
    branches H; try eof_step H; eof_go H.
Qed.

Lemma nextItem_pending (text : string) (n : nat) : forall (out : list item)
    (l l' : lexer) (it : item),
  scanner_inv text out l -> nothingPending l ->
  nextItem n l = Ret (it, l') -> nothingPending l'.
Proof.
  induction n as [|n IH]; intros out l l' it Hinv Hpend H; cbn [nextItem] in H.
  - destruct (items l) as [|i q] eqn:Hq; [discriminate|].
    injection H as <- <-. unfold nothingPending in *.
    destruct l as [nm inp ld rd st p s0 wd q0]; cbn in *. subst q0.
    intros Hst. destruct (Hpend Hst) as [? Hlen]. cbn in Hlen. split; [assumption | lia].
  - destruct (items l) as [|i q] eqn:Hq.
    + destruct (state l) as [f|] eqn:Hf; [|discriminate].
      destruct (call n f l) as [[l1 s]| | |] eqn:E; cbn [mbind result_bind] in H;
        try discriminate.
      eapply (IH out); [eapply call_inv; eauto | | exact H].
      apply scanner_inv_pieces in Hinv as (_ & Hs & _).
      unfold nothingPending. intros Hst.
      assert (s = Some lexEOF) by (destruct l1; exact Hst). subst s.
      destruct (call_pending n f l l1 Hq Hs E) as [Hp Hl].
      destruct l1; exact (conj Hp Hl).
    + injection H as <- <-. unfold nothingPending in *.
      destruct l as [nm inp ld rd st p s0 wd q0]; cbn in *. subst q0.
      intros Hst. destruct (Hpend Hst) as [? Hlen]. cbn in Hlen. split; [assumption | lia].
Qed.

Lemma reaches_pending (text : string) (l : lexer) (toks : list item) (l' : lexer) :
  reaches l toks l' ->
  forall out, scanner_inv text out l -> nothingPending l -> nothingPending l'.
Proof.
  induction 1 as [l|l n it l1 its l2 Hn Ht _ IH]; intros out Hinv Hpend.
  - exact Hpend.
  - apply (IH (out ++ [it])).
    + eapply nextItem_inv; eauto.
    + eapply nextItem_pending; eauto.
Qed.

Lemma idLexer_reached : reaches (lex "name" idText "" "") idItems idLexer.
Proof.
  eapply (reaches_next _ 9); [vm_compute; reflexivity | reflexivity |].
  eapply (reaches_next _ 9); [vm_compute; reflexivity | reflexivity |].
  apply reaches_here.
Qed.

(** When a scan is in the state lexEOF, no lexeme is pending: pos is at
    start, both at the end of the input, and at most one item waits in
    the channel.  So lexEOF never sends the text item of its first
    branch: it sends the one item EOF, with the empty lexeme, and
    returns nil. *)
Theorem nothing_pending_at_eof (name text left right : string)
    (toks : list item) (l : lexer) :
  reaches (lex name text left right) toks l ->
  state l = Some lexEOF ->
  pos l = start l /\ start l = Strings.len text /\ length (items l) <= 1 /\
  forall n, call n lexEOF l =
            Ret (set_items l (items l ++ [Item itemEOF EmptyString]), None).
Proof.
  intros Hr Hst.
  pose proof (reaches_inv text _ _ _ Hr [] (lex_inv name text left right)) as Hinv.
  assert (Hpend : nothingPending l).
  { eapply reaches_pending; [exact Hr | apply lex_inv | ].
    unfold nothingPending, lex. cbn. discriminate. }
  destruct (Hpend Hst) as [Hp Hlen].
  unfold scanner_inv in Hinv. rewrite Hst in Hinv. cbn [left_by] in Hinv.
  destruct Hinv as [(Hi & Hs & Hple & _) Heof]. specialize (Heof eq_refl).
  split; [exact Hp|]. split; [lia|]. split; [exact Hlen|].
  intros n. cbn [call]. unfold lexEOF_fn.
  destruct (Nat.ltb_spec (start l) (pos l)); [lia|].
  cbn [mbind result_bind mret result_ret].
  rewrite emit_lexeme by (rewrite ?Hi; unfold chanCap; lia).
  rewrite (lexeme_empty l) by congruence.
  cbn [mbind result_bind mret result_ret].
  destruct l as [nm inp ld rd st p s0 wd q]; cbn in *. subst. reflexivity.
Qed.

Lemma nothing_pending_at_eof_witness :
  pos idLexer = start idLexer /\ start idLexer = Strings.len idText /\
  length (items idLexer) <= 1 /\
  forall n, call n lexEOF idLexer =
            Ret (set_items idLexer (items idLexer ++ [Item itemEOF EmptyString]), None).
Proof.
  refine (nothing_pending_at_eof "name" idText "" "" idItems idLexer _ _).
  - exact idLexer_reached.
  - reflexivity.
Defined.

(** **** Line numbers *)

Lemma countByte_app (c : ascii) (a b : string) :
  countByte c (a +:+ b) = countByte c a + countByte c b.
Proof.
  induction a as [|d a IH]; [reflexivity|].
  rewrite str_app_cons. cbn [countByte]. rewrite IH.
  destruct (same d c); reflexivity.
Qed.

Lemma countByte_none (c : ascii) (s : string) : forall k,
  (forall i d, i < k -> String.get i s = Some d -> d <> c) ->
  countByte c (Strings.take k s) = 0.
Proof.
  induction s as [|d s IH]; intros [|k] H; try reflexivity.
  cbn [Strings.take countByte].
  unfold same. destruct (Ascii.eqb_spec d c) as [->|Hne].
  - destruct (H 0 c ltac:(lia) eq_refl eq_refl).
  - apply IH. intros i e Hi Hg. apply (H (S i) e); [lia | exact Hg].
Qed.

(** The bytes of a rune hold a newline only if the rune is the
    newline. *)
Lemma countByte_rune (s : string) (r : Z) (w : nat) :
  utf8.DecodeRuneInString s = (r, w) -> s <> EmptyString ->
  countByte nl (Strings.take w s) = if isr r nl then 1 else 0.
Proof.
  intros Hd Hne.
  destruct (DecodeRuneInString_width s r w Hd Hne) as ((Hw1 & Hw2) & Hcont).
  destruct s as [|c0 t0]; [congruence|].
  destruct w as [|w]; [lia|].
  cbn [Strings.take countByte].
  assert (Ht : countByte nl (Strings.take w t0) = 0).
  { apply countByte_none. intros i d Hi Hg ->.
    pose proof (Hcont (S i) nl ltac:(lia) Hg) as Hhi. vm_compute in Hhi.
    apply Hhi. reflexivity. }
  rewrite Ht. unfold same.
  destruct (Ascii.eqb_spec c0 nl) as [->|Hc].
  - rewrite DecodeRuneInString_ascii in Hd by (vm_compute; reflexivity).
    injection Hd as <- _. reflexivity.
  - destruct (isr r nl) eqn:Hr; [|reflexivity]. exfalso.
    unfold isr, chr in Hr. apply Z.eqb_eq in Hr.
    assert (Hlow : (0 <= r < 128)%Z) by (rewrite Hr; vm_compute; split; congruence).
    destruct (DecodeRuneInString_low _ _ _ Hd Hlow) as (c & t & Hs & Hrc & _).
    injection Hs as <- _. apply Hc, byte_inj. congruence.
Qed.

Lemma lineNumber_at (l : lexer) :
  pos l <= Strings.len (input l) ->
  lineNumber l = Ret (S (countByte nl (Strings.take (pos l) (input l)))).
Proof.
  intros H. unfold lineNumber, Strings.slice.
  destruct (Nat.leb_spec (pos l) (Strings.len (input l))); [|lia].
  cbn [Nat.leb andb mbind result_bind mret result_ret Strings.drop].
  rewrite Nat.sub_0_r. reflexivity.
Qed.

(** The line number is one more than the number of newlines before
    pos.  peek leaves it as it is; next adds one to it when the rune it
    returns is the newline, and nothing for any other rune, of however
    many bytes, and nothing at the end of the input. *)
Theorem lineNumber_next (l : lexer) :
  pos l <= Strings.len (input l) ->
  exists n,
    lineNumber l = Ret n /\ 1 <= n /\
    lineNumber (snd (peek l)) = Ret n /\
    lineNumber (snd (next l)) = Ret (if isr (fst (next l)) nl then S n else n).
Proof.
  intros Hp. exists (S (countByte nl (Strings.take (pos l) (input l)))).
  split; [apply lineNumber_at, Hp|]. split; [lia|]. split.
  - destruct (peek_spec l) as (w & -> & _).
    rewrite lineNumber_at by (destruct l; exact Hp). destruct l; reflexivity.
  - destruct (next_spec l) as (w & Hn & Hw & Hc). rewrite Hn.
    assert (Hw' : pos l + w <= Strings.len (input l)) by lia.
    rewrite lineNumber_at by (destruct l; exact Hw').
    replace (input (set_pos (set_width l w) (pos l + w))) with (input l)
      by (destruct l; reflexivity).
    replace (pos (set_pos (set_width l w) (pos l + w))) with (pos l + w)
      by (destruct l; reflexivity).
    destruct Hc as [(_ & -> & ->) | (Hlt & _ & _ & Hd)].
    + rewrite Nat.add_0_r. reflexivity.
    + rewrite str_take_add, countByte_app.
      rewrite (countByte_rune _ _ _ Hd).
      * destruct (isr (fst (next l)) nl); f_equal; lia.
      * intros E. pose proof (str_length_drop (input l) (pos l)) as Hl.
        rewrite E in Hl. unfold Strings.len in *. cbn in Hl. lia.
Qed.

Lemma lineNumber_next_witness :
  exists n,
    lineNumber twoLines = Ret n /\ 1 <= n /\
    lineNumber (snd (peek twoLines)) = Ret n /\
    lineNumber (snd (next twoLines)) =
      Ret (if isr (fst (next twoLines)) nl then S n else n).
Proof.
  apply (lineNumber_next twoLines). vm_compute. lia.
Defined.

(** **** The names of the node types *)

Lemma nodeName_named (i : NodeType) (s : string) :
  nodeName !! i = Some s -> (0 <= i <= 6)%Z.
Proof.
  intros H. apply elem_of_list_to_map_2 in H.
  repeat (apply elem_of_cons in H as [H|H]; [injection H as -> _; vm_compute; split; discriminate|]).
  apply elem_of_nil in H. destruct H.
Qed.

Lemma NodeType_String_other (i : NodeType) :
  (i < 0 \/ 6 < i)%Z -> NodeType_String i = "node" +:+ pretty i.
Proof.
  intros H. unfold NodeType_String.
  destruct (nodeName !! i) as [s|] eqn:E.
  - apply nodeName_named in E. lia.
  - reflexivity.
Qed.

Lemma NodeType_String_named (i : NodeType) :
  (0 <= i <= 6)%Z ->
  NodeType_String i ∈ ["text"; "tag"; "attr"; "doctype"; "id"; "class"; "List"]%string
  /\ (i = 0 \/ i = 1 \/ i = 2 \/ i = 3 \/ i = 4 \/ i = 5 \/ i = 6)%Z.
Proof.
  intros H.
  assert (Hi : (i = 0 \/ i = 1 \/ i = 2 \/ i = 3 \/ i = 4 \/ i = 5 \/ i = 6)%Z) by lia.
  split; [|exact Hi]. clear H.
  repeat destruct Hi as [Hi|Hi]; subst i; vm_compute; set_solver.
Qed.

Lemma node_prefix (s : string) : "node" +:+ s = String "n" ("ode" +:+ s).
Proof. reflexivity. Qed.

Lemma NodeType_String_inj (i j : NodeType) :
  NodeType_String i = NodeType_String j -> i = j.
Proof.
  intros H.
  destruct (decide (0 <= i <= 6)%Z) as [Hi|Hi];
    destruct (decide (0 <= j <= 6)%Z) as [Hj|Hj].
  - destruct (NodeType_String_named i Hi) as [_ Hi'].
    destruct (NodeType_String_named j Hj) as [_ Hj'].
    repeat destruct Hi' as [Hi'|Hi']; subst i;
      repeat destruct Hj' as [Hj'|Hj']; subst j;
      first [reflexivity | vm_compute in H; discriminate H].
  - rewrite (NodeType_String_other j) in H by lia. rewrite node_prefix in H.
    destruct (NodeType_String_named i Hi) as [_ Hi'].
    repeat destruct Hi' as [Hi'|Hi']; subst i;
      match type of H with ?a = _ =>
        let v := eval vm_compute in a in change a with v in H end;
      discriminate H.
  - rewrite (NodeType_String_other i) in H by lia. rewrite node_prefix in H.
    destruct (NodeType_String_named j Hj) as [_ Hj'].
    repeat destruct Hj' as [Hj'|Hj']; subst j;
      match type of H with _ = ?a =>
        let v := eval vm_compute in a in change a with v in H end;
      discriminate H.
  - rewrite (NodeType_String_other i), (NodeType_String_other j) in H by lia.
    apply (inj pretty).
    revert H. generalize (pretty i) (pretty j). intros a c [= H]. exact H.
Qed.

(** Two node types that differ have names that differ, whether the
    table of names holds them or not: the seven types of the package
    have their names of the table, every other number is node with the
    number behind it. *)
Theorem NodeType_names (i j : NodeType) :
  i <> j -> NodeType_String i <> NodeType_String j.
Proof. intros Hne H. apply Hne, NodeType_String_inj, H. Qed.

Lemma NodeType_names_witness :
  NodeType_String NodeList <> NodeType_String 7%Z.
Proof. apply (NodeType_names NodeList 7%Z). discriminate. Defined.

(** **** Lists *)

Lemma concat_cons (s : string) (l : list string) :
  String.concat "" (s :: l) = s +:+ String.concat "" l.
Proof.
  destruct l as [|x l]; cbn [String.concat].
  - rewrite str_app_nil_r. reflexivity.
  - reflexivity.
Qed.

Lemma concat_app (l1 l2 : list string) :
  String.concat "" (l1 ++ l2) = String.concat "" l1 +:+ String.concat "" l2.
Proof.
  induction l1 as [|s l1 IH]; [reflexivity|].
  cbn [app]. rewrite !concat_cons, IH, str_app_assoc. reflexivity.
Qed.



(** **** The debug output of the test program *)

Lemma written_app (s : stream) (o1 o2 : list (stream * string)) :
  written s (o1 ++ o2) = written s o1 +:+ written s o2.
Proof. unfold written. rewrite filter_app, map_app, concat_app. reflexivity. Qed.

Lemma written_indent (n : Z) : written Stdout (indent n) = EmptyString.
Proof.
  unfold indent. induction (Z.to_nat n) as [|k IH]; [reflexivity|].
  cbn [repeat]. change ((Stderr, " "%string) :: repeat (Stderr, " "%string) k)
    with ([(Stderr, " "%string)] ++ repeat (Stderr, " "%string) k).
  rewrite written_app, IH. reflexivity.
Qed.

Lemma blanks_indent (n : Z) :
  Forall (fun w => w = (Stderr, " "%string)) (indent n).
Proof.
  unfold indent. induction (Z.to_nat n) as [|k IH]; [constructor|].
  cbn [repeat]. constructor; [reflexivity | exact IH].
Qed.

Lemma displayNode_children (ns : list Node) (ind : Z) :
  Forall (fun k => forall i,
            written Stdout (displayNode k i) = String.concat "" (map nodeLine (preorder k)) /\
            Forall (fun w => fst w = Stdout \/ w = (Stderr, " "%string)) (displayNode k i)) ns ->
  written Stdout (flat_map (fun node => displayNode node ind) ns)
  = String.concat "" (map nodeLine (flat_map preorder ns)) /\
  Forall (fun w => fst w = Stdout \/ w = (Stderr, " "%string))
         (flat_map (fun node => displayNode node ind) ns).
Proof.
  induction 1 as [|k ns Hk _ [IH1 IH2]]; [split; [reflexivity | constructor]|].
  cbn [flat_map]. destruct (Hk ind) as [Hk1 Hk2]. split.
  - rewrite written_app, map_app, concat_app, Hk1, IH1. reflexivity.
  - apply Forall_app. auto.
Qed.

Lemma displayNode_writes (n : Node) : forall ind : Z,
  written Stdout (displayNode n ind) = String.concat "" (map nodeLine (preorder n)) /\
  Forall (fun w => fst w = Stdout \/ w = (Stderr, " "%string)) (displayNode n ind).
Proof.
  assert (Hhead : forall k i rest lines,
    written Stdout rest = String.concat "" (map nodeLine lines) ->
    Forall (fun w => fst w = Stdout \/ w = (Stderr, " "%string)) rest ->
    written Stdout (indent i ++ (Stdout, nodeLine k) :: rest)
    = String.concat "" (map nodeLine (k :: lines)) /\
    Forall (fun w => fst w = Stdout \/ w = (Stderr, " "%string))
           (indent i ++ (Stdout, nodeLine k) :: rest)).
  { intros k i rest lines H1 H2. split.
    - rewrite written_app, written_indent, str_app_nil_l.
      change ((Stdout, nodeLine k) :: rest) with ([(Stdout, nodeLine k)] ++ rest).
      rewrite written_app, H1. cbn [map]. rewrite concat_cons.
      unfold written at 1. cbn. reflexivity.
    - apply Forall_app. split.
      + eapply Forall_impl; [apply blanks_indent|]. cbn. auto.
      + constructor; [left; reflexivity | exact H2]. }
  induction n as [t ns IH|t tag ns IH|t s|t s|t s|t s|t s] using Node_children_ind;
    intros ind; cbn [displayNode preorder];
    try (apply Hhead; [reflexivity | constructor]).
  - destruct (displayNode_children ns (int64 (ind + 2)) IH). apply Hhead; assumption.
  - destruct (displayNode_children ns (int64 (ind + 2)) IH). apply Hhead; assumption.
Qed.

(** What displayNode writes to the standard output is one line for
    each node of the tree, the type and String of the node, each node
    before its children: the lines are not indented, whatever the
    indentation that is passed, since indent writes its blanks with the
    builtin print, to the standard error. *)
Theorem displayNode_lines (n : Node) (ind : Z) :
  written Stdout (displayNode n ind) = String.concat "" (map nodeLine (preorder n)) /\
  Forall (fun w => fst w = Stdout \/ w = (Stderr, " "%string)) (displayNode n ind).
Proof. exact (displayNode_writes n ind). Qed.

(** **** Copy shares nothing *)

Lemma elemsAt_NoDup (h : heap) (sl : option loc) (ps fa : list loc) :
  elemsAt h sl ps fa -> NoDup fa.
Proof. intros [|a ps' _]; [constructor | apply NoDup_singleton]. Qed.

Lemma Copy_apart (h : heap) :
  (forall p n fp, repr h p n fp -> copiesApart h p n fp) /\
  (forall ps ns fs, reprs h ps ns fs -> copiesAllApart h ps ns fs).
Proof.
  apply repr_reprs_ind.
  - (* a leaf *)
    intros p k t sl s fb Hp Hb hx fuel Hagree Hfuel.
    destruct fuel as [|n]; [lia|].
    assert (Hp' : hx !! p = Some (LeafStruct k t sl))
      by (rewrite Hagree by set_solver; exact Hp).
    assert (Hb' : bytesAt hx sl s fb).
    { eapply bytesAt_frame; [exact Hb|]. intros a Ha. apply Hagree. set_solver. }
    exists ((hx ++ [Bytes s]) ++ [LeafStruct k (leafType k) (Some (length hx))]),
           (length (hx ++ [Bytes s])), [S (length hx); length hx].
    split.
    { cbn [Copy]. rewrite Hp'. unfold CopyLeaf.
      rewrite (bytesOf_bytesAt _ _ _ _ Hb'). reflexivity. }
    split.
    { intros a Ha. rewrite !lookup_app_l; [reflexivity | exact Ha |].
      rewrite length_app. cbn. lia. }
    split; [rewrite !length_app; cbn; lia|].
    split.
    { rewrite clone_leaf.
      replace (length (hx ++ [Bytes s])) with (S (length hx))
        by (rewrite length_app; cbn; lia).
      apply repr_leaf with (Some (length hx)).
      - replace (S (length hx)) with (length (hx ++ [Bytes s]))
          by (rewrite length_app; cbn; lia).
        apply lookup_alloc_new.
      - constructor. rewrite lookup_alloc_old by (rewrite length_app; cbn; lia).
        apply lookup_alloc_new. }
    split.
    { intros a Ha.
      repeat (apply elem_of_cons in Ha as [->|Ha]; [lia|]).
      apply elem_of_nil in Ha. destruct Ha. }
    apply NoDup_cons. split; [|apply NoDup_singleton].
    intros Hin. apply list_elem_of_singleton in Hin. lia.
  - (* a list *)
    intros p t sl ps ns fa fs Hp Ha Hrs IH hx fuel Hagree Hfuel.
    destruct fuel as [|n]; [lia|].
    cbn [depth] in Hfuel.
    assert (Hp' : hx !! p = Some (ListStruct t sl))
      by (rewrite Hagree by set_solver; exact Hp).
    assert (Ha' : elemsAt hx sl ps fa).
    { eapply elemsAt_frame; [exact Ha|]. intros a Hin. apply Hagree. set_solver. }
    assert (Hlt : forall a, a ∈ fs -> a < length hx).
    { intros a Hin. pose proof (reprs_bound _ _ _ _ a Hrs Hin) as Hb.
      apply lookup_lt_is_Some. rewrite Hagree by set_solver.
      apply lookup_lt_is_Some. exact Hb. }
    set (h1 := hx ++ [ListStruct NodeList None]).
    destruct (IH h1 n (length hx) (ListStruct NodeList None) None [] [] (length hx))
      as (hx' & slq' & cs & fa' & fcs & Hrun & Hkeep & Hlen & Hq & Hel & Hfa & Hcs & Hfcs
          & Hnd & Hfrom).
    { intros a Hin. unfold h1. rewrite lookup_alloc_old by (apply Hlt, Hin).
      apply Hagree. set_solver. }
    { intros Hin. apply Hlt in Hin. lia. }
    { apply depthsBelow_children. lia. }
    { apply lookup_alloc_new. }
    { reflexivity. }
    { constructor. }
    { unfold h1. rewrite length_app. cbn. lia. }
    { intros a Hin. set_solver. }
    assert (Hl1 : length h1 = S (length hx))
      by (unfold h1; rewrite length_app; cbn; lia).
    exists hx', (length hx), (length hx :: fa' ++ fcs).
    split.
    { cbn [Copy]. rewrite Hp'. unfold CopyList, alloc. fold h1.
      assert (He : elemsOf h1 sl = Ret ps).
      { apply elemsOf_elemsAt with fa. eapply elemsAt_frame; [exact Ha'|].
        intros a Hin. unfold h1. apply lookup_alloc_old.
        eapply elemsAt_bound; eauto. }
      rewrite He. cbn [mbind result_bind]. rewrite Hrun. reflexivity. }
    split.
    { intros a Hlta. rewrite Hkeep by lia. apply lookup_alloc_old, Hlta. }
    split; [lia|].
    split.
    { rewrite clone_list. apply repr_list with slq' cs; assumption. }
    split.
    { intros a Hin. apply elem_of_cons in Hin as [->|Hin]; [lia|].
      apply elem_of_app in Hin as [Hin|Hin]; [apply Hfa, Hin|].
      apply Hfcs in Hin. lia. }
    apply NoDup_cons. split; [|exact Hnd].
    intros Hin. apply elem_of_app in Hin as [Hin|Hin].
    + apply Hfrom in Hin as [Hin|Hin]; [set_solver | lia].
    + apply Hfcs in Hin. lia.
  - (* a tag *)
    intros p t tg tag fb sl ps ns fa fs Hp Hb Ha Hrs IH hx fuel Hagree Hfuel.
    destruct fuel as [|n]; [lia|].
    cbn [depth] in Hfuel.
    assert (Hp' : hx !! p = Some (TagStruct t tg sl))
      by (rewrite Hagree by set_solver; exact Hp).
    assert (Hb' : bytesAt hx tg tag fb).
    { eapply bytesAt_frame; [exact Hb|]. intros a Hin. apply Hagree. set_solver. }
    assert (Ha' : elemsAt hx sl ps fa).
    { eapply elemsAt_frame; [exact Ha|]. intros a Hin. apply Hagree. set_solver. }
    assert (Hlt : forall a, a ∈ fs -> a < length hx).
    { intros a Hin. pose proof (reprs_bound _ _ _ _ a Hrs Hin) as Hbd.
      apply lookup_lt_is_Some. rewrite Hagree by set_solver.
      apply lookup_lt_is_Some. exact Hbd. }
    set (h0 := hx ++ [Bytes tag]).
    set (h1 := h0 ++ [TagStruct NodeTag (Some (length hx)) None]).
    assert (Hl0 : length h0 = S (length hx))
      by (unfold h0; rewrite length_app; cbn; lia).
    assert (Hl1 : length h1 = S (S (length hx)))
      by (unfold h1; rewrite length_app, Hl0; cbn; lia).
    assert (Hold : forall a, a < length hx -> h1 !! a = hx !! a).
    { intros a Hlta. unfold h1, h0. rewrite !lookup_app_l; [reflexivity|lia|].
      rewrite length_app. lia. }
    destruct (IH h1 n (length h0) (TagStruct NodeTag (Some (length hx)) None)
                 None [] [] (length hx))
      as (hx' & slq' & cs & fa' & fcs & Hrun & Hkeep & Hlen & Hq & Hel & Hfa & Hcs & Hfcs
          & Hnd & Hfrom).
    { intros a Hin. rewrite Hold by (apply Hlt, Hin). apply Hagree. set_solver. }
    { intros Hin. apply Hlt in Hin. lia. }
    { apply depthsBelow_children. lia. }
    { apply lookup_alloc_new. }
    { reflexivity. }
    { constructor. }
    { lia. }
    { intros a Hin. set_solver. }
    exists hx', (length h0), (length h0 :: [length hx] ++ fa' ++ fcs).
    split.
    { cbn [Copy]. rewrite Hp'. unfold CopyTag.
      rewrite (bytesOf_bytesAt _ _ _ _ Hb'). cbn [mbind result_bind].
      unfold newBytes, alloc. cbv beta iota zeta. fold h0.
      change (h0 ++ [TagStruct NodeTag (Some (length hx)) None]) with h1.
      assert (He : elemsOf h1 sl = Ret ps).
      { apply elemsOf_elemsAt with fa. eapply elemsAt_frame; [exact Ha'|].
        intros a Hin. apply Hold. eapply elemsAt_bound; eauto. }
      rewrite He. cbn [mbind result_bind]. rewrite Hrun. reflexivity. }
    split.
    { intros a Hlta. rewrite Hkeep by lia. apply Hold, Hlta. }
    split; [lia|].
    split.
    { rewrite clone_tag. apply repr_tag with (Some (length hx)) slq' cs; try assumption.
      constructor. rewrite Hkeep by lia.
      unfold h1. rewrite lookup_alloc_old by lia. apply lookup_alloc_new. }
    split.
    { intros a Hin. apply elem_of_cons in Hin as [->|Hin]; [lia|].
      apply elem_of_app in Hin as [Hin|Hin].
      { apply list_elem_of_singleton in Hin as ->. lia. }
      apply elem_of_app in Hin as [Hin|Hin]; [apply Hfa, Hin|].
      apply Hfcs in Hin. lia. }
    assert (Hnew : forall a, a ∈ fa' ++ fcs -> S (S (length hx)) <= a).
    { intros a Hin. apply elem_of_app in Hin as [Hin|Hin].
      - apply Hfrom in Hin as [Hin|Hin]; [set_solver | lia].
      - apply Hfcs in Hin. lia. }
    apply NoDup_cons. split.
    { intros Hin. apply elem_of_cons in Hin as [Hin|Hin]; [lia|].
      apply Hnew in Hin. lia. }
    apply NoDup_cons. split; [|exact Hnd].
    intros Hin. apply Hnew in Hin. lia.
  - (* no element *)
    intros hx n q cq slq qs fa L _ _ _ Hq Hn He HL Hfa.
    exists hx, slq, [], fa, [].
    split; [reflexivity|].
    split; [reflexivity|].
    split; [lia|].
    split; [rewrite setNodes_same by exact Hn; exact Hq|].
    split; [rewrite List.app_nil_r; exact He|].
    split; [exact Hfa|].
    split; [constructor|].
    split; [intros a Hin; set_solver|].
    split; [rewrite List.app_nil_r; eapply elemsAt_NoDup, He | auto].
  - (* one more element *)
    intros p ps k ns f fs Hr IHk Hrs IHs hx n q cq slq qs fa L
           Hagree Hnq Hdepth Hq Hn He HL Hfa.
    apply Forall_cons in Hdepth as [Hdk Hdepth].
    assert (Hqlt : q < length hx) by (eapply lookup_is_Some_lt, Hq).
    assert (Hlt : forall a, a ∈ f ++ fs -> a < length hx).
    { intros a Hin. apply lookup_lt_is_Some. rewrite Hagree by exact Hin.
      apply lookup_lt_is_Some. apply elem_of_app in Hin as [Hin|Hin].
      - eapply repr_bound; eauto.
      - eapply reprs_bound; eauto. }
    destruct (IHk hx n) as (h1 & c & fc & Hrun1 & Hkeep1 & Hlen1 & Hc & Hfc & Hndc);
      [intros a Hin; apply Hagree; set_solver | exact Hdk |].
    assert (Hq1 : h1 !! q = Some cq) by (rewrite Hkeep1 by exact Hqlt; exact Hq).
    assert (He1 : elemsAt h1 slq qs fa).
    { eapply elemsAt_frame; [exact He|]. intros a Hin. apply Hkeep1.
      eapply elemsAt_bound; eauto. }
    set (h2 := <[q := setNodes cq (Some (length h1))]> (h1 ++ [Elems (qs ++ [c])])).
    assert (Hqlt1 : q < length h1) by lia.
    assert (Hl2 : length h2 = S (length h1)) by (apply appended_length; exact Hqlt1).
    destruct (IHs h2 n q (setNodes cq (Some (length h1))) (Some (length h1))
                  (qs ++ [c]) [length h1] L)
      as (hx' & slq' & cs & fa' & fcs & Hrun & Hkeep & Hlen & Hq' & Hel & Hfa' & Hcs & Hfcs
          & Hnd & Hfrom).
    { intros a Hin.
      assert (Hlta : a < length hx) by (apply Hlt; set_solver).
      assert (Hne : a <> q) by (intros ->; set_solver).
      unfold h2. rewrite appended_other by (assumption || lia).
      rewrite Hkeep1 by exact Hlta. apply Hagree. set_solver. }
    { set_solver. }
    { exact Hdepth. }
    { apply appended_struct. exact Hqlt1. }
    { eapply nodesOf_setNodes. exact Hn. }
    { constructor. apply appended_array. exact Hqlt1. }
    { lia. }
    { intros a Hin. apply list_elem_of_singleton in Hin as ->. lia. }
    exists hx', slq', (c :: cs), fa', (fc ++ fcs).
    split.
    { cbn [copyElems]. rewrite Hrun1. cbn [mbind result_bind].
      rewrite (appendAt_spec h1 q c cq slq qs fa Hq1 Hn He1).
      cbn [mbind result_bind]. exact Hrun. }
    split.
    { intros a Hlta Hne. rewrite Hkeep by lia.
      unfold h2. rewrite appended_other by (congruence || lia).
      apply Hkeep1, Hlta. }
    split; [lia|].
    split; [rewrite setNodes_twice in Hq'; exact Hq'|].
    split; [rewrite <- List.app_assoc in Hel; exact Hel|].
    split; [exact Hfa'|].
    split.
    { cbn [map]. constructor; [|exact Hcs].
      eapply repr_frame; [exact Hc|]. intros a Hin.
      pose proof (Hfc a Hin) as Hge.
      pose proof (repr_bound _ _ _ _ a Hc Hin) as Hlt1.
      rewrite Hkeep by lia. unfold h2. apply appended_other; lia. }
    split.
    { intros a Hin. apply elem_of_app in Hin as [Hin|Hin].
      + apply Hfc, Hin.
      + apply Hfcs in Hin. lia. }
    assert (Hfclt : forall a, a ∈ fc -> a < length h1)
      by (intros a Hin; eapply repr_bound; eauto).
    assert (Hfa1 : forall a, a ∈ fa' -> length h1 <= a).
    { intros a Hin. apply Hfrom in Hin as [Hin|Hin]; [|lia].
      apply list_elem_of_singleton in Hin as ->. lia. }
    apply NoDup_app in Hnd as (Hnd1 & Hnd2 & Hnd3).
    split.
    { apply NoDup_app. split; [exact Hnd1|]. split.
      - intros a Hin Hin'. apply elem_of_app in Hin' as [Hin'|Hin'].
        + apply Hfa1 in Hin. apply Hfclt in Hin'. lia.
        + exact (Hnd2 a Hin Hin').
      - apply NoDup_app. split; [exact Hndc|]. split; [|exact Hnd3].
        intros a Hin Hin'. apply Hfclt in Hin. apply Hfcs in Hin'. lia. }
    intros a Hin. right. apply Hfa1 in Hin. lia.
Qed.

(** The copy is a tree of its own: Copy returns a node with the value
    of the original whose cells (the structs, the backing arrays of the
    slices, the cells of the children) are all different cells, none of
    them a cell of the original.  So two children of the copy never
    share a struct or an array, also where the original holds the same
    child twice. *)
Theorem Copy_unshares (h : heap) (p : loc) (n : Node) (fp : list loc) :
  repr h p n fp ->
  exists (h' : heap) (q : loc) (fq : list loc),
    Copy (S (depth n)) h p = Ret (h', q) /\
    repr h' q (clone n) fq /\
    NoDup fq /\
    (forall a, a ∈ fq -> a ∉ fp).
Proof.
  intros Hr.
  destruct (proj1 (Copy_apart h) p n fp Hr h (S (depth n)))
    as (h' & q & fq & Hrun & Hkeep & Hlen & Hq & Hfq & Hnd); [reflexivity | lia |].
  exists h', q, fq.
  split; [exact Hrun|]. split; [exact Hq|]. split; [exact Hnd|].
  intros a Ha Hin. apply Hfq in Ha.
  pose proof (repr_bound _ _ _ _ a Hr Hin). lia.
Qed.

Lemma sharedStore_repr :
  repr sharedStore 3 sharedNode (3 :: [2] ++ ([1; 0] ++ [1; 0] ++ [])).
Proof.
  apply repr_list with (Some 2) [1; 1].
  - reflexivity.
  - constructor. reflexivity.
  - constructor.
    + apply (repr_leaf sharedStore 1 KText NodeText (Some 0) "x" [0]);
        [reflexivity | constructor; reflexivity].
    + constructor; [|constructor].
      apply (repr_leaf sharedStore 1 KText NodeText (Some 0) "x" [0]);
        [reflexivity | constructor; reflexivity].
Defined.

Lemma Copy_unshares_witness :
  exists (h' : heap) (q : loc) (fq : list loc),
    Copy (S (depth sharedNode)) sharedStore 3 = Ret (h', q) /\
    repr h' q (clone sharedNode) fq /\
    NoDup fq /\
    (forall a, a ∈ fq -> a ∉ 3 :: [2] ++ ([1; 0] ++ [1; 0] ++ [])).
Proof.
  exact (Copy_unshares sharedStore 3 sharedNode _ sharedStore_repr).
Defined.

(** **** The capacity of the channel *)

Lemma emit_room (t : itemType) (l : lexer) :
  length (items l) < chanCap -> emit t l <> Blocked.
Proof.
  intros H. unfold emit, send, Strings.slice.
  destruct (_ && _); cbn [mbind result_bind]; try discriminate.
  destruct (Nat.ltb_spec (length (items l)) chanCap);
    cbn [mbind result_bind mret result_ret]; [discriminate | lia].
Qed.

Lemma emit_count (t : itemType) (l l1 : lexer) :
  emit t l = Ret l1 -> length (items l1) = S (length (items l)).
Proof.
  intros H. apply emit_ret in H as (v & _ & _ & ->).
  destruct l as [nm inp ld rd st p s0 wd q]; cbn. rewrite length_app. cbn. lia.
Qed.

Lemma at_unblocked (s : string) (i : nat) : Strings.at_ s i <> Blocked.
Proof. unfold Strings.at_. destruct (String.get i s); discriminate. Qed.

Lemma from_unblocked (s : string) (i : nat) : Strings.from s i <> Blocked.
Proof.
  unfold Strings.from, Strings.slice. destruct (_ && _); discriminate.
Qed.

Lemma unexpected_unblocked (c : ascii) (l : lexer) : unexpected c l <> Blocked.
Proof.
  unfold unexpected, Strings.at_.
  destruct (String.get _ _); cbn [mbind result_bind mret result_ret]; discriminate.
Qed.

Lemma peek_items (l : lexer) (r : Z) (l0 : lexer) :
  peek l = (r, l0) -> items l0 = items l.
Proof.
  intros H. destruct (peek_spec l) as (w & Hl & _). rewrite H in Hl.
  cbn [snd] in Hl. subst l0. destruct l; reflexivity.
Qed.

Ltac room :=
  cbn [items set_pos set_start set_width set_state];
  repeat match goal with
  | Hi : items ?a = _ |- context [items ?a] => rewrite Hi
  | Hi : length (items ?a) = _ |- context [length (items ?a)] => rewrite Hi
  end; cbn [length]; unfold chanCap; lia.

Ltac unblock H :=
  repeat match type of H with
  | go _ _ = Blocked => discriminate H
  | Ret _ = Blocked => discriminate H
  | (if ?c then _ else _) = Blocked => destruct c
  | (let '(_, _) := peek ?l in _) = Blocked =>
    let r := fresh "r" in
    let l0 := fresh "l0" in
    let Hpk := fresh "Hpk" in
    destruct (peek l) as [r l0] eqn:Hpk; apply peek_items in Hpk
  | (mbind _ (emit ?t ?l)) = Blocked =>
    let E := fresh "E" in
    let l1 := fresh "l1" in
    destruct (emit t l) as [l1| | |] eqn:E; cbn [mbind result_bind] in H;
    [apply emit_count in E | discriminate H
     | exfalso; revert E; apply emit_room; room | discriminate H]
  | (mbind _ (Strings.at_ ?s ?i)) = Blocked =>
    let E := fresh "E" in
    destruct (Strings.at_ s i) eqn:E; cbn [mbind result_bind] in H;
    [| discriminate H | destruct (at_unblocked _ _ E) | discriminate H]
  | (mbind _ (Strings.from ?s ?i)) = Blocked =>
    let E := fresh "E" in
    destruct (Strings.from s i) eqn:E; cbn [mbind result_bind] in H;
    [| discriminate H | destruct (from_unblocked _ _ E) | discriminate H]
  | (mbind _ (unexpected ?c ?l)) = Blocked =>
    let E := fresh "E" in
    destruct (unexpected c l) eqn:E; cbn [mbind result_bind] in H;
    [| discriminate H | destruct (unexpected_unblocked _ _ E) | discriminate H]
  end.

(** The channel of two items is enough for every state function but
    lexAttr: called with the channel empty, as nextItem calls it, none
    of them sleeps on a send.  (lexEOF with a lexeme pending sends two
    items, all others at most one.) *)
Theorem two_items_suffice (n : nat) (f : stateFn) (l : lexer) :
  f <> lexAttr -> items l = [] -> call n f l <> Blocked.
Proof.
  intros Hf Hq H. destruct f; cbn [call] in H; try congruence.
  - unfold lexTag_fn in H. unblock H.
    destruct (start l0 <? pos l0); cbn [mbind result_bind mret result_ret] in H;
      unblock H.
  - unfold lexEOF_fn in H.
    destruct (start l <? pos l); cbn [mbind result_bind mret result_ret] in H.
    + unblock H. discriminate H.
    + unblock H. discriminate H.
  - unfold lexDocType_fn in H. unblock H.
    destruct (Strings.Index _ _); cbv zeta in H.
    + unblock H.
    + unfold errorf, send in H. rewrite Hq in H. discriminate H.
  - unfold lexId_fn in H. unblock H.
  - unfold lexClass_fn in H. unblock H.
  - unfold lexText_fn in H. unblock H.
    match type of H with context [if ?u then mret true else _] => destruct u end;
      cbn [mbind result_bind mret result_ret] in H; unblock H.
  - unfold lexComment_fn in H. unblock H.
  - unfold lexIndent_fn in H. unblock H.
  - unfold lexNewLine_fn in H. unblock H.
Qed.

Lemma two_items_suffice_witness : call 1 lexEOF pendingLexer <> Blocked.
Proof.
  apply (two_items_suffice 1 lexEOF pendingLexer); [discriminate | reflexivity].
Defined.
